(* ===== verification/_CoqProject ===== *)
-Q . S2P
Prelude.v
Monad.v
Trees.v
OrderedMap.v
U16String.v
Regex.v
Env.v
Dispatcher.v
Solver.v
Concurrency.v
Mutex.v
Config.v
Typing.v
Pattern.v
Client.v
WorldModel.v
Main.v
Interaction.v
Program.v
Matcher.v
