(* ===== verification/Prelude.v ===== *)
(** * Verification of [query_world.cpp] (OwlPlatform/cpp-examples)

    The program is one C++ file, [src/src/query_world.cpp]: an example client
    of the Owl world model.  Its [main] reads a configuration file of
    [class_name solution_name] pairs, registers as a solver, installs a
    callback that turns raw switch samples into attribute updates, builds the
    regular expression that selects the identifiers of interest and finally
    prints what a snapshot request and a streaming request deliver.

    ** Parts of the program and the files that model them

    - [Prelude] (this file): what every file shares.  The platform parameter
      [Platform] (whether [char] is signed), [uint8_t] as [byte] with its
      [Countable] instance, the search of a list inside a list that
      [std::u16string::find] performs ([find_from], [infix_of]), the
      characters of the messages, the hint database [owl] and the tactics
      [case_if], [bool_hyps].
    - [Monad]: the state-and-exception monad [prog] in which the handlers are
      written.  A run ends in [Ok a], in [Throw e] (a C++ exception that
      left the code) or in [Fuel] (a loop of the model ran out of fuel);
      the state at that point is always returned, because C++ keeps the
      mutations made before a [throw].  [keeps] and its rules carry an
      invariant of the state through a computation.
    - [Trees]: code as interaction trees (the ITree library) over the
      calls it makes and the exceptions it throws, for the loops that have
      no bound.  The semantics of a tree against the answers of the
      outside: the runs that end ([runs]), an interpreter with fuel
      ([run_tree]), the steps of a thread ([thread_next], [tree_step]), and
      the rules that relate a tree to a computation of [prog] ([refines],
      [refines_fuel]) or bound the calls it can make ([never]).
    - [OrderedMap]: [std::map] as an association list sorted by a strict
      order ([KeyOrder] class), with [operator[]] assignment, [find], [size],
      [empty] and in-order iteration; refined to stdpp's [gmap].
    - [U16String]: [std::u16string] as [list Z] of 16-bit code units,
      [toU16] and [toString] (lines 47-53), the lexicographic order
      [std::less<std::u16string>] and [find].
    - [Regex]: the part of POSIX extended regular expressions in which the
      patterns of the program are written: syntax, language, a matcher by
      derivatives and a parser of the text of a pattern.
    - [Env]: the interface of the solver connection, the class [Env]:
      [SolverWorldModel::sendData] (returns or throws) and
      [world_model::getGRAILTime]; the process state [Process] (the world
      and what was written to [std::cout] and [std::cerr]).  [Scripted] is
      the instance used by the concrete runs: a connection that answers
      from a script.
    - [Dispatcher]: the retry loop of lines 146-163 ([send_with_retry]).
    - [Solver]: the packet callback of lines 127-174 ([packet_callback]),
      the change tracker ([shouldReport], [record_state]), the per-entity
      machine [entity_step] that the tracker refines, and the callbacks of a
      sequence of samples ([run_callbacks]).
    - [Concurrency]: the callback cut into the steps between which another
      callback can run ([thread_step]), and interleavings of several
      callbacks over the shared state ([conc_step], [run_schedule]).
    - [Mutex]: the callback a statement at a time ([fpc], [fine_step]),
      the retry loop included and without fuel, the mutex
      [tx_to_uri_mutex] of lines 132-135 as the thread that holds it, and
      the interleavings of the statements of several callbacks
      ([fine_next], [fine_steps], [fine_schedule]).
    - [Config]: the configuration reader of lines 84-104 ([read_config]),
      with [std::getline] and [operator>>] written out.
    - [Typing]: the types declared to the solver connection at line 112
      and the updates the callback builds at lines 142-145, over [Logged],
      a connection that remembers what it was asked to send.
    - [Pattern]: the construction of [desired_ids], lines 180-199.
    - [Client]: the snapshot request and the stream request of lines
      221-263 ([snapshot_request], [stream_loop]) against the interface
      [ClientEnv] of the client connection.
    - [WorldModel]: the objects of the client library, which is not in the
      repository, from their contract in the specification: the answer of
      the store to a query ([select]), [Response] ([wm_get], [wm_ready]),
      [StepResponse] ([wm_hasNext], [wm_next], [wm_cancel]), [sendData],
      and the events of the rest of the world at the points where the
      process blocks ([wm_step]).  It is an instance of [Env] and of
      [ClientEnv].
    - [Main]: [main], lines 55-265, from the argument check to the end of
      the stream, with [std::stoi], the exit codes and the interface
      [System] of the files and the constructors.
    - [Interaction]: the main thread without fuel: the retry loop, the
      stream loop, the client and [main] as trees ([retry_tree],
      [stream_tree], [client_tree], [main_tree]) over the calls [callE],
      which [handle] answers from [Env], [ClientEnv] and [System].
    - [Program]: the whole program from line 55 on: the main thread, a
      call at a time, the arrival of samples and the steps of the
      callbacks of [Concurrency], over the variables they share
      ([Program], [program_next], [program_step]).
    - [Matcher]: what [desired_ids] matches, by the parser and the language
      of [Regex], and its agreement with the segment test of the callback.

    ** State

    The callback captures by reference [tx_to_uri], [switch_state],
    [object_to_solution] and [swm]; the model's [SolverState] holds the
    two maps that it mutates ([tx_to_uri] because [operator[]] inserts)
    and the process state.  [object_to_solution] is read only and is a
    parameter.  [main] runs on the process state alone; the configuration
    it reads is the value [Config].  With several callbacks in progress
    the state is a [config]: the shared [SolverState] and, for each
    callback, the point [pc] it has reached with its local variables.
    At the grain of statements the state is a [fine]: the shared
    [SolverState], the index of the callback that holds the mutex, if
    any, and for each callback the statement [fpc] it is at, with the
    iterator of line 140 as the entries it has not visited.
    The state of the whole program is a [Program]: the shared
    [SolverState], what is left of the tree of [main], what the
    aggregator has captured once it exists, and the callbacks in progress.

    ** Theorems

    - [U16String]: [toString (toU16 s) = s] on every platform; the converse
      round trip exactly on the image of [toU16]; the order is a strict
      total order; [find] returns the first occurrence.
    - [OrderedMap]: sortedness is preserved by assignment; lookup after
      assignment; the sorted list refines a [gmap] and is determined by it.
    - [Dispatcher]: [n] transient failures followed by a success cost exactly
      [n + 1] attempts and return normally; any other exception leaves on
      the attempt that met it; a connection that always fails transiently
      never lets the loop return.
    - [Solver]: samples that are invalid, of the wrong length or midrange
      change nothing; a new position is recorded and sent once per matching
      class, in key order; a repeated position is not sent; along the
      samples of one transmitter exactly the changes are sent; the tracker
      refines the machine [Unknown -> Known v]; and, since the program never
      fills [tx_to_uri], no sample ever makes it send.
    - [Concurrency]: the steps of a callback, run without interruption,
      are [packet_callback]; two callbacks one after the other are
      [run_callbacks]; two callbacks for the same change that interleave
      between the test and the assignment of the tracker both report;
      the callbacks end, after at most five steps each, under every
      schedule.
    - [Mutex]: at most one callback is between lines 133 and 135 and
      [tx_to_uri] changes in its hands only; no state is a deadlock; the
      statements run alone end exactly as [packet_callback] does for some
      fuel; every interleaving of [Concurrency] whose retry loops end is
      an interleaving of statements under the mutex, the double report
      among them.
    - [Config]: the configuration read is well formed whatever the file
      holds, and is empty exactly when no line holds two words.
    - [Typing]: every batch the callbacks ask to send is one update of a
      type declared when the connection was constructed.
    - [Pattern], [Matcher]: the closed form of [desired_ids]; it parses,
      and it matches exactly the identifiers with a class between two dots,
      which are those for which the callback reports, provided the class
      names hold no character with a meaning in a pattern.
    - [Client]: what the two requests print, object by object; the failure
      of a response; the stream loop ends when the stream does and not
      before.
    - [WorldModel]: every state of a connection is well formed; a response
      is fulfilled once and [get] returns the same world state ever after;
      a stream that has stopped stays stopped.  Against such a world model
      the snapshot request prints the whole store, the stream loop ends at
      its next test once the stream is cancelled, and a delivery without
      changes is printed as empty objects.
    - [Main]: the exit code of every way through the start-up; the last
      argument is both the port and the path of the configuration.
    - [Interaction]: the trees and the definitions with fuel have the same
      runs, for the two loops and for [main]; the retry loop ends exactly
      when the connection stops failing transiently, the stream loop
      exactly when the stream stops; the main thread never sends.
    - [Program]: whatever samples arrive and however the threads take
      turns, the tables hold the empty identifier only, nothing is sent,
      and the exit of the program is the one [main] alone computes; every
      result of [main] is reached.

    ** Fuel

    Two loops of the program may not terminate: the retry loop and the
    stream loop.  [send_with_retry] and [stream_loop] take the number of
    iterations they may make; the theorems that a loop returns say how
    much is enough ([n + 1] attempts for [n] transient failures, more than
    [n] calls of [hasNext] for a stream of [n] deliveries), and the
    theorems that it does not return hold for every number.  All other
    loops run over a list.  The trees of [Interaction] have no fuel; their
    theorems say that a run of the tree is a run with some fuel and
    conversely, so that no result depends on the fuel chosen.  The
    interpreter [run_tree] takes fuel for the concrete runs only: 200
    nodes are enough for the run of [main] on the machine of [Main], which
    has 23 calls.  A step of a callback in [Program] that runs out of the
    fuel of its retry loop is not a step of the program.  [Mutex] has no
    fuel: an attempt and its message are steps, and [callback_alone]
    shows that a callback ends in [n] statements only if [n + 1] is
    enough fuel for [packet_callback].

    ** Not modelled

    The socket layer, the wire encoding and the world model server are
    outside the repository; they appear only through the classes [Env],
    [ClientEnv] and [System], whose calls return: a call that blocks for
    ever is not a behaviour of the model.  [WorldModel] is the contract of
    the library as the specification states it, not its code: the minimum
    interval of a stream is kept and not used, the clock stands still, and
    a closed connection is not opened again.  The program declares
    [phy_to_rule] and never uses it; [Rule] is data only.  In [Solver] a
    callback runs atomically; [Concurrency] interleaves callbacks at the
    mutex, the test and the assignment of the tracker, with the reporting
    loop as one step; [Mutex] interleaves them at every statement.  A
    statement is atomic and the memory is sequentially consistent: the
    accesses to [switch_state] by several threads without a lock are a
    data race in C++, whose behaviour the language leaves undefined, and
    the model gives them the meaning of some order of the statements.
    [Program] interleaves the steps of [Concurrency] with the main
    thread at the calls of the main thread, not yet the statements of
    [Mutex]; the threads of the aggregator are the library's, and
    the model lets a sample arrive at any time once the aggregator is
    constructed and lets callbacks go on after [main] has returned.  The
    source does not compile as it stands ([solver_port],
    [servers] and [cwm] are not declared); the model reads it as
    described at the top of [Main] and [Client].  *)

From Stdlib Require Export ZArith Lia.
From Stdlib Require Export Strings.Byte Ascii String.
From stdpp Require Export base tactics option list gmap strings.

(** ** The platform *)

(** Whether plain [char] is signed is implementation-defined in C++; the
    conversion of a [char] to [char16_t] depends on it. *)
Class Platform := { char_signed : bool }.

(** ** [uint8_t] *)

(** An octet.  [Init.Byte.byte] has exactly 256 values, so that no range
    side condition is needed. *)
Definition byte_to_Z (b : byte) : Z := Z.of_N (Byte.to_N b).

#[export] Instance byte_eq_dec : EqDecision byte := Byte.byte_eq_dec.
#[export] Instance byte_countable : Countable byte :=
  inj_countable Byte.to_N Byte.of_N Byte.of_to_N.

Lemma byte_to_Z_inj (b1 b2 : byte) : byte_to_Z b1 = byte_to_Z b2 → b1 = b2.
Proof.
  unfold byte_to_Z. intros Heq%N2Z.inj.
  apply (inj Some). by rewrite <- !Byte.of_to_N, Heq.
Qed.

Lemma byte_to_Z_range (b : byte) : (0 ≤ byte_to_Z b < 256)%Z.
Proof. unfold byte_to_Z. pose proof (Byte.to_N_bounded b). lia. Qed.

(** ** Searching a list inside a list *)

Section list_search.
Context {A : Type} `{EqDecision A}.
Implicit Types s needle pre post : list A.

(** [needle] occurs in [s] as a contiguous block. *)
Definition infix_of needle s : Prop :=
  ∃ pre post, s = pre ++ needle ++ post.

(** [needle] occurs in [s] at offset [i]. *)
Definition occurs_at needle s (i : nat) : Prop :=
  i ≤ length s ∧ needle `prefix_of` drop i s.

(** The first offset at or after the current one where [needle] occurs,
    counted from [i]; [None] stands for [npos]. *)
Fixpoint find_from needle s (i : nat) : option nat :=
  if decide (needle `prefix_of` s) then Some i
  else match s with
       | [] => None
       | _ :: s' => find_from needle s' (S i)
       end.

Lemma occurs_at_0 needle s : occurs_at needle s 0 ↔ needle `prefix_of` s.
Proof. unfold occurs_at. rewrite drop_0. split; [tauto | split; [lia | done]]. Qed.

Lemma occurs_at_S needle x s i :
  occurs_at needle (x :: s) (S i) ↔ occurs_at needle s i.
Proof. unfold occurs_at. simpl. rewrite <- Nat.succ_le_mono. done. Qed.

Lemma occurs_at_infix needle s i : occurs_at needle s i → infix_of needle s.
Proof.
  intros [Hi [post Hp]]. exists (take i s), post.
  by rewrite <- Hp, take_drop.
Qed.

Lemma infix_occurs_at needle s :
  infix_of needle s → ∃ i, occurs_at needle s i.
Proof.
  intros (pre & post & ->). exists (length pre). split.
  - rewrite length_app. lia.
  - rewrite drop_app_length. by exists post.
Qed.

Lemma find_from_shift needle s i :
  find_from needle s i = (λ j, i + j)%nat <$> find_from needle s 0.
Proof.
  revert i. induction s as [|x s IH]; intros i; simpl.
  - case_decide; simpl; f_equal; lia.
  - case_decide; simpl; [f_equal; lia|].
    rewrite (IH (S i)), (IH 1%nat), <- option_fmap_compose.
    apply option_fmap_ext. intros j. simpl. lia.
Qed.

(** [j] is the first offset where [needle] occurs in [s]. *)
Definition first_at needle s (j : nat) : Prop :=
  occurs_at needle s j ∧ ∀ k, (k < j)%nat → ¬ occurs_at needle s k.

Lemma first_at_hit needle s j :
  needle `prefix_of` s → first_at needle s j ↔ j = 0%nat.
Proof.
  intros Hp. split.
  - intros [_ Hmin]. destruct j as [|j]; [done|].
    destruct (Hmin 0%nat); [lia | by apply occurs_at_0].
  - intros ->. split; [by apply occurs_at_0 | lia].
Qed.

Lemma first_at_nil needle j : ¬ needle `prefix_of` [] → ¬ first_at needle [] j.
Proof.
  intros Hp [[Hj Hpre] _]. simpl in Hj.
  assert (j = 0%nat) as -> by lia. by rewrite drop_0 in Hpre.
Qed.

Lemma first_at_miss needle x s j :
  ¬ needle `prefix_of` (x :: s) →
  first_at needle (x :: s) j ↔ ∃ j', j = S j' ∧ first_at needle s j'.
Proof.
  intros Hp. split.
  - intros [Hocc Hmin]. destruct j as [|j]; [by apply occurs_at_0 in Hocc|].
    exists j. split; [done|]. split; [by apply occurs_at_S in Hocc|].
    intros k Hk Hk'. apply (Hmin (S k)); [lia | by apply occurs_at_S].
  - intros (j' & -> & Hocc & Hmin). split; [by apply occurs_at_S|].
    intros [|k] Hk; [by rewrite occurs_at_0|].
    rewrite occurs_at_S. apply Hmin. lia.
Qed.

(** [find_from] returns an offset where the needle occurs, and no smaller
    offset has that property. *)
Lemma find_from_Some needle s j :
  find_from needle s 0 = Some j ↔ first_at needle s j.
Proof.
  revert j. induction s as [|x s IH]; intros j; simpl; case_decide as Hp.
  - rewrite first_at_hit by done. split; congruence.
  - split; [done | by intros ?%first_at_nil].
  - rewrite first_at_hit by done. split; congruence.
  - rewrite first_at_miss, find_from_shift, fmap_Some by done.
    setoid_rewrite IH. split; intros (j' & ? & ?); exists j'; split; done.
Qed.

Lemma find_from_None needle s i :
  find_from needle s i = None ↔ ¬ infix_of needle s.
Proof.
  rewrite find_from_shift, fmap_None. split.
  - intros Hnone [j Hj]%infix_occurs_at.
    revert j Hj. induction s as [|x s IH]; intros j Hj; simpl in Hnone.
    + case_decide as Hp; [done|]. destruct Hj as [Hj Hj']. simpl in Hj.
      assert (j = 0%nat) as -> by lia. by rewrite drop_0 in Hj'.
    + case_decide as Hp; [done|]. rewrite find_from_shift, fmap_None in Hnone.
      destruct j as [|j]; [by apply occurs_at_0 in Hj|].
      apply occurs_at_S in Hj. eauto.
  - intros Hno. destruct (find_from needle s 0) as [j|] eqn:E; [|done].
    apply find_from_Some in E as [Hocc _]. destruct Hno.
    by eapply occurs_at_infix.
Qed.

Lemma find_from_is_Some needle s i :
  is_Some (find_from needle s i) ↔ infix_of needle s.
Proof.
  rewrite <- not_eq_None_Some, find_from_None.
  split; [|tauto]. intros Hnn.
  destruct (find_from needle s 0) as [j|] eqn:E.
  - apply find_from_Some in E as [Hocc _]. by eapply occurs_at_infix.
  - apply (find_from_None needle s 0) in E. tauto.
Qed.

#[export] Instance infix_of_dec needle s : Decision (infix_of needle s).
Proof.
  refine (cast_if (decide (is_Some (find_from needle s 0))));
    abstract (by rewrite <- (find_from_is_Some needle s 0)).
Defined.

Lemma infix_of_nil s : infix_of [] s.
Proof. by exists [], s. Qed.

Lemma infix_of_length needle s : infix_of needle s → length needle ≤ length s.
Proof. intros (pre & post & ->). rewrite !length_app. lia. Qed.

Lemma infix_of_app_l needle s k : infix_of needle s → infix_of needle (k ++ s).
Proof.
  intros (pre & post & ->). exists (k ++ pre), post. by rewrite <- app_assoc.
Qed.

Lemma infix_of_app_r needle s k : infix_of needle s → infix_of needle (s ++ k).
Proof.
  intros (pre & post & ->). exists pre, (post ++ k). by rewrite <- !app_assoc.
Qed.

End list_search.

(** ** Sums *)

(** Replacing an entry of a list moves its sum by the difference. *)
Lemma sum_list_insert (l : list nat) i x y :
  l !! i = Some x → sum_list (<[i:=y]> l) + x = sum_list l + y.
Proof.
  revert i. induction l as [|z l IH]; intros [|i] Hi; simplify_eq/=; [lia|].
  specialize (IH _ Hi). lia.
Qed.

(** ** Filters *)

Lemma filter_all {A} (P : A → Prop) `{∀ x, Decision (P x)} (l : list A) :
  (∀ x, P x) → filter P l = l.
Proof.
  intros HP. induction l as [|x l IH]; [done|].
  by rewrite filter_cons, decide_True, IH.
Qed.

Lemma filter_none {A} (P : A → Prop) `{∀ x, Decision (P x)} (l : list A) :
  Forall (λ x, ¬ P x) l → filter P l = [].
Proof.
  induction 1 as [|x l' Hx _ IH]; [done|]. by rewrite filter_cons, decide_False.
Qed.

(** ** Strings as lists of characters *)

Lemma string_app_cons (c : ascii) (s t : string) :
  String c s +:+ t = String c (s +:+ t).
Proof. done. Qed.

Lemma string_of_list_ascii_app (l1 l2 : list ascii) :
  string_of_list_ascii (l1 ++ l2) =
  string_of_list_ascii l1 +:+ string_of_list_ascii l2.
Proof.
  induction l1 as [|c l1 IH]; [done|].
  cbn [app string_of_list_ascii]. by rewrite string_app_cons, IH.
Qed.

Lemma list_ascii_of_string_app (s t : string) :
  list_ascii_of_string (s +:+ t) =
  list_ascii_of_string s ++ list_ascii_of_string t.
Proof.
  induction s as [|c s IH]; [done|].
  rewrite string_app_cons. cbn [app list_ascii_of_string]. by rewrite IH.
Qed.

Lemma string_length_app (s t : string) :
  String.length (s +:+ t) = (String.length s + String.length t)%nat.
Proof.
  induction s as [|c s IH]; [done|].
  rewrite string_app_cons. cbn [String.length]. by rewrite IH.
Qed.

(** The line feed, the double quote and the tabulation, which the messages
    of the program contain. *)
Definition LF : string := String "010" EmptyString.
Definition DQUOTE : string := String "034" EmptyString.
Definition TAB : string := String "009" EmptyString.

(** ** Automation *)

(** [owl] collects the facts that close the routine side goals of the
    development: ranges of code units, sortedness of maps after an
    insertion, membership in an infix. *)
Create HintDb owl discriminated.
#[export] Hint Resolve infix_of_nil infix_of_app_l infix_of_app_r : owl.
#[export] Hint Resolve occurs_at_infix : owl.

(** Destructs the boolean or decidable guard at the head of the goal. *)
Ltac case_if :=
  match goal with
  | |- context [if ?b then _ else _] =>
      match type of b with
      | bool => let E := fresh "Hguard" in destruct b eqn:E
      | _ => case_decide
      end
  end.

(** Normalises hypotheses about boolean guards into propositions. *)
Ltac bool_hyps :=
  repeat match goal with
  | H : _ && _ = true |- _ => apply andb_true_iff in H as [? ?]
  | H : _ || _ = false |- _ => apply orb_false_iff in H as [? ?]
  | H : negb _ = true |- _ => apply negb_true_iff in H
  | H : negb _ = false |- _ => apply negb_false_iff in H
  | H : bool_decide _ = true |- _ => apply bool_decide_eq_true in H
  | H : bool_decide _ = false |- _ => apply bool_decide_eq_false in H
  | H : (_ =? _)%Z = true |- _ => apply Z.eqb_eq in H
  | H : (_ =? _)%Z = false |- _ => apply Z.eqb_neq in H
  | H : (_ =? _)%nat = true |- _ => apply Nat.eqb_eq in H
  | H : (_ =? _)%nat = false |- _ => apply Nat.eqb_neq in H
  end.
