(* ===== verification/Monad.v ===== *)
(** * The monad of the handlers

    The code of [query_world.cpp] mutates the variables it captured, calls
    into the world model library, and may be left by a C++ exception.  A
    computation is modelled as a function from the state before to the
    state after and a [result]: [Ok a] when control reaches the end with
    value [a], [Throw e] when the exception [e] leaves the code, [Fuel] when
    a loop of the model used up its fuel.  The state is returned in all
    three cases: what was written before a [throw] stays written.

    The instances [prog_ret] and [prog_bind] give the computations stdpp's
    [mret], [≫=] and [x ← m; k] notations. *)

From S2P Require Import Prelude.

(** A C++ exception in flight.  The handlers of the program distinguish
    [std::runtime_error] (and the classes derived from it) from everything
    else, and read [what()]. *)
Inductive exn : Type :=
  | runtime_error (what : string)
  | other_exception (what : string).

Inductive result (A : Type) : Type :=
  | Ok (a : A)
  | Throw (e : exn)
  | Fuel.
Arguments Ok {A} a.
Arguments Throw {A} e.
Arguments Fuel {A}.

Definition prog (S A : Type) : Type := S → S * result A.

#[export] Instance exn_eq_dec : EqDecision exn.
Proof. solve_decision. Defined.

#[export] Instance result_eq_dec `{EqDecision A} : EqDecision (result A).
Proof. solve_decision. Defined.

#[export] Instance prog_ret {S} : MRet (prog S) := λ A a s, (s, Ok a).

#[export] Instance prog_bind {S} : MBind (prog S) := λ A B f m s,
  match m s with
  | (s', Ok a) => f a s'
  | (s', Throw e) => (s', Throw e)
  | (s', Fuel) => (s', Fuel)
  end.

Section operations.
Context {S : Type}.

(** Reading and writing the captured variables. *)
Definition gets {A} (f : S → A) : prog S A := λ s, (s, Ok (f s)).
Definition modify (f : S → S) : prog S () := λ s, (f s, Ok ()).

(** [throw e;] *)
Definition throw {A} (e : exn) : prog S A := λ s, (s, Throw e).

(** A loop of the model that was not allowed another iteration. *)
Definition out_of_fuel {A} : prog S A := λ s, (s, Fuel).

(** [if (b) { p }] *)
Definition when_ (b : bool) (p : prog S ()) : prog S () :=
  if b then p else mret ().

(** [for (x : l) { body(x) }]: the iterations run in order, and the first
    one that does not complete ends the loop. *)
Fixpoint for_each {A} (l : list A) (body : A → prog S ()) : prog S () :=
  match l with
  | [] => mret ()
  | x :: l' => body x ;; for_each l' body
  end.

(** [try { p } catch (std::runtime_error& err) { h(err.what()) }]: only a
    [std::runtime_error] is caught; the handler runs in the state the
    exception left. *)
Definition try_catch {A} (p : prog S A) (h : string → prog S A) : prog S A :=
  λ s,
  match p s with
  | (s', Throw (runtime_error what)) => h what s'
  | r => r
  end.

(** A computation on a part [T] of the state, run on the whole state. *)
Definition zoom {T A} (get : S → T) (set : T → S → S) (m : prog T A) :
    prog S A := λ s,
  let '(t', r) := m (get s) in (set t' s, r).

(** The state after a run, and whether it completed. *)
Definition exec {A} (p : prog S A) (s : S) : S := (p s).1.
Definition completes {A} (p : prog S A) (s : S) : Prop :=
  ∃ a, (p s).2 = Ok a.

End operations.

(** ** Equations of the operations *)

Section laws.
Context {S : Type}.
Implicit Types s : S.

Lemma bind_unfold {A B} (m : prog S A) (f : A → prog S B) s :
  (m ≫= f) s =
  match m s with
  | (s', Ok a) => f a s'
  | (s', Throw e) => (s', Throw e)
  | (s', Fuel) => (s', Fuel)
  end.
Proof. done. Qed.

Lemma bind_ok {A B} (m : prog S A) (f : A → prog S B) s s' a :
  m s = (s', Ok a) → (m ≫= f) s = f a s'.
Proof. intros Hm. by rewrite bind_unfold, Hm. Qed.

Lemma bind_throw {A B} (m : prog S A) (f : A → prog S B) s s' e :
  m s = (s', Throw e) → (m ≫= f) s = (s', Throw e).
Proof. intros Hm. by rewrite bind_unfold, Hm. Qed.

Lemma bind_fuel {A B} (m : prog S A) (f : A → prog S B) s s' :
  m s = (s', Fuel) → (m ≫= f) s = (s', Fuel).
Proof. intros Hm. by rewrite bind_unfold, Hm. Qed.

(** The monad laws, pointwise in the state. *)
Lemma ret_bind {A B} (a : A) (f : A → prog S B) s : (mret a ≫= f) s = f a s.
Proof. done. Qed.

Lemma bind_ret {A} (m : prog S A) s : (m ≫= mret) s = m s.
Proof. rewrite bind_unfold. by destruct (m s) as [s' [a|e|]]. Qed.

Lemma bind_assoc {A B C} (m : prog S A) (f : A → prog S B)
    (g : B → prog S C) s :
  ((m ≫= f) ≫= g) s = (m ≫= λ a, f a ≫= g) s.
Proof.
  rewrite (bind_unfold (m ≫= f)), !(bind_unfold m).
  by destruct (m s) as [s' [a|e|]].
Qed.

Lemma gets_bind {A B} (f : S → A) (k : A → prog S B) s :
  (gets f ≫= k) s = k (f s) s.
Proof. done. Qed.

Lemma modify_bind {B} (f : S → S) (k : () → prog S B) s :
  (modify f ≫= k) s = k () (f s).
Proof. done. Qed.

Lemma throw_bind {A B} (e : exn) (k : A → prog S B) s :
  (throw e ≫= k) s = (s, Throw e).
Proof. done. Qed.

Lemma when_true (p : prog S ()) s : when_ true p s = p s.
Proof. done. Qed.

Lemma when_false (p : prog S ()) s : when_ false p s = (s, Ok ()).
Proof. done. Qed.

Lemma for_each_nil {A} (body : A → prog S ()) s :
  for_each [] body s = (s, Ok ()).
Proof. done. Qed.

Lemma for_each_cons {A} (x : A) l (body : A → prog S ()) s :
  for_each (x :: l) body s = (body x ;; for_each l body) s.
Proof. done. Qed.

Lemma for_each_app {A} (l1 l2 : list A) (body : A → prog S ()) s :
  for_each (l1 ++ l2) body s = (for_each l1 body ;; for_each l2 body) s.
Proof.
  revert s. induction l1 as [|x l1 IH]; intros s; [done|].
  cbn [app for_each]. rewrite bind_assoc, !(bind_unfold (body x)).
  destruct (body x s) as [s' [[]|e|]]; [apply IH | done..].
Qed.

(** Iterations whose body does nothing can be dropped. *)
Lemma for_each_skip {A} (l : list A) (body : A → prog S ()) s :
  Forall (λ x, ∀ s, body x s = (s, Ok ())) l → for_each l body s = (s, Ok ()).
Proof.
  induction 1 as [|x l Hx _ IH]; [done|].
  by rewrite for_each_cons, (bind_ok _ _ _ s ()).
Qed.

Lemma try_catch_ok {A} (p : prog S A) h s s' a :
  p s = (s', Ok a) → try_catch p h s = (s', Ok a).
Proof. unfold try_catch. by intros ->. Qed.

Lemma try_catch_caught {A} (p : prog S A) h s s' what :
  p s = (s', Throw (runtime_error what)) → try_catch p h s = h what s'.
Proof. unfold try_catch. by intros ->. Qed.

Lemma try_catch_passed {A} (p : prog S A) h s s' what :
  p s = (s', Throw (other_exception what)) →
  try_catch p h s = (s', Throw (other_exception what)).
Proof. unfold try_catch. by intros ->. Qed.

Lemma zoom_unfold {T A} (get : S → T) (set : T → S → S) (m : prog T A) s :
  zoom get set m s = (set (m (get s)).1 s, (m (get s)).2).
Proof. unfold zoom. by destruct (m (get s)). Qed.

Lemma zoom_eq {T A} (get : S → T) (set : T → S → S) (m : prog T A) s t' r :
  m (get s) = (t', r) → zoom get set m s = (set t' s, r).
Proof. unfold zoom. by intros ->. Qed.

End laws.

(** ** Invariants of the state *)

(** [m] keeps [I]: it holds of the state [m] leaves if it held before,
    however [m] ends. *)
Definition keeps {S A} (I : S → Prop) (m : prog S A) : Prop :=
  ∀ s, I s → I (m s).1.

Section keeps.
Context {S : Type} (I : S → Prop).

Lemma keeps_ret {A} (a : A) : keeps I (mret a).
Proof. by intros s. Qed.

Lemma keeps_gets {A} (f : S → A) : keeps I (gets f).
Proof. by intros s. Qed.

Lemma keeps_throw {A} e : keeps I (throw e : prog S A).
Proof. by intros s. Qed.

Lemma keeps_out_of_fuel {A} : keeps I (out_of_fuel : prog S A).
Proof. by intros s. Qed.

Lemma keeps_modify (f : S → S) : (∀ s, I s → I (f s)) → keeps I (modify f).
Proof. intros Hf s. apply Hf. Qed.

Lemma keeps_bind {A B} (m : prog S A) (f : A → prog S B) :
  keeps I m → (∀ a, keeps I (f a)) → keeps I (m ≫= f).
Proof.
  intros Hm Hf s Hs. specialize (Hm s Hs). rewrite bind_unfold.
  destruct (m s) as [s' [a| |]]; [by apply Hf|done..].
Qed.

Lemma keeps_when (b : bool) (m : prog S ()) : keeps I m → keeps I (when_ b m).
Proof. destruct b; [done|]. intros _. apply keeps_ret. Qed.

Lemma keeps_for_each {A} (l : list A) (body : A → prog S ()) :
  (∀ x, x ∈ l → keeps I (body x)) → keeps I (for_each l body).
Proof.
  induction l as [|x l IH]; intros Hbody; [apply keeps_ret|].
  apply keeps_bind; [apply Hbody; left|].
  intros _. apply IH. intros y Hy. apply Hbody. by right.
Qed.

Lemma keeps_try_catch {A} (m : prog S A) (h : string → prog S A) :
  keeps I m → (∀ what, keeps I (h what)) → keeps I (try_catch m h).
Proof.
  intros Hm Hh s Hs. specialize (Hm s Hs). unfold try_catch.
  destruct (m s) as [s' [a|[what|what]|]]; [done|by apply Hh|done..].
Qed.

End keeps.

(** A computation on a part of the state keeps what it keeps of the part,
    if writing the part back leaves the part as written. *)
Lemma keeps_zoom {S T A} (get : S → T) (set : T → S → S) (J : T → Prop)
    (m : prog T A) :
  (∀ t s, get (set t s) = t) →
  keeps J m → keeps (λ s, J (get s)) (zoom get set m).
Proof.
  intros Hget Hm s Hs. rewrite zoom_unfold. cbn. rewrite Hget. by apply Hm.
Qed.

(** [prog] runs the straight-line part of a computation. *)
Create Rewrite HintDb prog.
#[export] Hint Rewrite @ret_bind @gets_bind @modify_bind @throw_bind
  @when_true @when_false @for_each_nil @for_each_cons : prog.
