(* ===== verification/Trees.v ===== *)
(** * Interaction trees of programs that call the outside and throw

    The loops of [query_world.cpp] that have no bound, and the threads of
    the program, are modelled as interaction trees: a tree of type
    [itree (treeE E) R] is a program whose nodes are its calls to the
    outside, the events [E], and the exceptions it throws.  This file holds
    what does not depend on the calls of the program:

    - [runs h t s s' res]: started in [s], with the calls answered by [h],
      the tree [t] ends in [s'] with the value or the exception [res].
      [runs] is deterministic, and invariant under the library's
      equivalence up to silent steps, so that the library's equations
      rewrite under it.  [run_tree] is [runs] with fuel, executable.
    - [loops]: the runs of [ITree.iter], iteration by iteration.
    - [refines h t m]: the tree [t] and the computation [m] of [Monad] have
      the same runs; with its rules for sequences, calls, [for] loops and
      [while] loops, a tree is related to the fuelled definition of the
      same code one construct at a time. *)

From Stdlib Require Import Morphisms.
From Paco Require Import paco.
From ITree Require Import ITree ITreeFacts Events.Exception.
From S2P Require Import Prelude Monad.

(** The events of a tree: exceptions, and the calls [E]. *)
#[warning="-notation-for-abbreviation"]
Notation treeE E := (exceptE exn +' E).

(** A call of the outside. *)
Definition call {E X} (c : E X) : itree (treeE E) X := ITree.trigger (inr1 c).

(** [throw e;] *)
Definition raise {E X} (e : exn) : itree (treeE E) X :=
  Vis (inl1 (Exception.Throw e)) (λ v : void, match v with end).

Declare Scope tree_scope.
Delimit Scope tree_scope with tree.
Bind Scope tree_scope with itree.
Notation "x ← t ; k" := (ITree.bind t%tree (λ x, k%tree))
  (at level 20, t at level 100, k at level 200, only parsing) : tree_scope.
Notation "t ;; k" := (ITree.bind t%tree (λ _, k%tree))
  (at level 100, k at level 200, only parsing, right associativity) : tree_scope.

(** The body of [while (b) { ... }], where the iteration computes [b]:
    [inl] asks [ITree.iter] for another iteration. *)
Definition while_body {E} (step : itree (treeE E) bool) (_ : ()) :
    itree (treeE E) (() + ()) :=
  b ← step;
  if b : bool then Ret (inl ()) else Ret (inr ()).


(** [for (x : l) { body(x) }] *)
Fixpoint for_each_tree {E A} (l : list A) (body : A → itree (treeE E) ()) :
    itree (treeE E) () :=
  match l with
  | [] => Ret ()
  | x :: l' => body x ;; for_each_tree l' body
  end.

(** The result of a run that ended, as a result of [prog]. *)
Definition to_result {R} (res : exn + R) : result R :=
  match res with
  | inl e => Throw e
  | inr r => Ok r
  end.

Section semantics.
Context {E : Type → Type} {St : Type} (h : ∀ X, E X → St → St * X).

(** [runs t s s' res]: from [s] the tree [t] ends in [s'], with the value
    [inr r] or with the exception [inl e] in flight. *)
Inductive runs {R} : itree (treeE E) R → St → St → exn + R → Prop :=
  | runs_ret t r s :
      observe t = RetF r → runs t s s (inr r)
  | runs_tau t u s s' res :
      observe t = TauF u → runs u s s' res → runs t s s' res
  | runs_throw t e k s :
      observe t = VisF (inl1 (Exception.Throw e)) k → runs t s s (inl e)
  | runs_call t X (c : E X) k s s1 x s' res :
      observe t = VisF (inr1 c) k →
      h X c s = (s1, x) →
      runs (k x) s1 s' res →
      runs t s s' res.

(** What a run was, by the node at the root of its tree. *)
Definition run_of {R} (ot : itree' (treeE E) R) (s s' : St) (res : exn + R) :
    Prop :=
  match ot with
  | RetF r => s' = s ∧ res = inr r
  | TauF u => runs u s s' res
  | VisF (inl1 (Exception.Throw e)) _ => s' = s ∧ res = inl e
  | VisF (inr1 c) k => runs (k (h _ c s).2) (h _ c s).1 s' res
  end.

(** The tree with at most [fuel] nodes visited: [runs], executable. *)
Fixpoint run_tree {R} (fuel : nat) (t : itree (treeE E) R) : prog St R :=
  match fuel with
  | O => out_of_fuel
  | S fuel' =>
      match observe t with
      | RetF r => mret r
      | TauF u => run_tree fuel' u
      | VisF (inl1 (Exception.Throw e)) _ => throw e
      | VisF (inr1 c) k => λ s, let '(s1, x) := h _ c s in run_tree fuel' (k x) s1
      end
  end.

(** The runs of a loop, iteration by iteration: [loops body t s s' res]
    when the iteration [t] and then the iterations [body i] that it and its
    successors ask for lead from [s] to [s'] and [res]. *)
Inductive loops {I R} (body : I → itree (treeE E) (I + R)) :
    itree (treeE E) (I + R) → St → St → exn + R → Prop :=
  | loops_stop t s s' r :
      runs t s s' (inr (inr r)) → loops body t s s' (inr r)
  | loops_throw t s s' e :
      runs t s s' (inl e) → loops body t s s' (inl e)
  | loops_again t i s s1 s' res :
      runs t s s1 (inr (inl i)) →
      loops body (body i) s1 s' res →
      loops body t s s' res.

(** A call of the outside as a computation of [prog]. *)
Definition answer {X} (c : E X) : prog St X := λ s,
  let '(s1, x) := h X c s in (s1, Ok x).

(** The tree [t] and the computation [m] have the same runs: [t] ends
    where and as [m] does, and does not end when [m] runs out of fuel. *)
Definition refines {A} (t : itree (treeE E) A) (m : prog St A) : Prop :=
  ∀ s s' res, runs t s s' res ↔ m s = (s', to_result res).

(** The same for a computation with fuel: [t] ends where and as [m] does
    for some fuel. *)
Definition refines_fuel {A} (t : itree (treeE E) A) (m : nat → prog St A) :
    Prop :=
  ∀ s s' res, runs t s s' res ↔ ∃ fuel, m fuel s = (s', to_result res).

(** What is left of [ITree.iter body] after an iteration. *)
Definition iter_rest {I R} (body : I → itree (treeE E) (I + R)) (lr : I + R) :
    itree (treeE E) R :=
  match lr with
  | inl i => Tau (ITree.iter body i)
  | inr r => Ret r
  end.

(** One step of a tree that runs as a thread: a silent step, or a call
    with its answer.  A tree that has returned, or that has thrown, makes
    no step. *)
Definition thread_next {R} (s : St) (t : itree (treeE E) R) :
    option (St * itree (treeE E) R) :=
  match observe t with
  | RetF _ => None
  | TauF u => Some (s, u)
  | VisF (inl1 _) _ => None
  | VisF (inr1 c) k => let '(s1, x) := h _ c s in Some (s1, k x)
  end.

Definition tree_step {R} (x y : St * itree (treeE E) R) : Prop :=
  thread_next x.1 x.2 = Some y.

(** Whatever the outside answers, none of the next [n] nodes of the tree
    is a call in [bad]. *)
Fixpoint never (bad : ∀ X, E X → Prop) {R} (n : nat) (t : itree (treeE E) R) :
    Prop :=
  match n with
  | O => True
  | S n' =>
      match observe t with
      | RetF _ => True
      | TauF u => never bad n' u
      | VisF (inl1 _) _ => True
      | VisF (inr1 c) k => ¬ bad _ c ∧ ∀ x, never bad n' (k x)
      end
  end.

(** The tree has ended, with the value or the exception [res]. *)
Definition ended {R} (t : itree (treeE E) R) (res : exn + R) : Prop :=
  match observe t with
  | RetF r => res = inr r
  | VisF (inl1 (Exception.Throw e)) _ => res = inl e
  | _ => False
  end.

End semantics.

(** ** Rules of [runs] *)

Section runs_lemmas.
Context {E : Type → Type} {St : Type} (h : ∀ X, E X → St → St * X).
Implicit Types s : St.

Lemma runs_Ret {R} (r : R) s : runs h (Ret r) s s (inr r).
Proof. by eapply runs_ret. Qed.

Lemma runs_Tau {R} (t : itree (treeE E) R) s s' res :
  runs h t s s' res → runs h (Tau t) s s' res.
Proof. by eapply runs_tau. Qed.

Lemma runs_raise {R} e s : runs h (raise e : itree (treeE E) R) s s (inl e).
Proof. by eapply runs_throw. Qed.

Lemma runs_Vis {R X} (c : E X) (k : X → itree (treeE E) R) s s1 x s' res :
  h X c s = (s1, x) → runs h (k x) s1 s' res → runs h (Vis (inr1 c) k) s s' res.
Proof. intros. by eapply runs_call. Qed.

Lemma runs_call_1 {X} (c : E X) s s1 x :
  h X c s = (s1, x) → runs h (call c) s s1 (inr x).
Proof. intros. eapply runs_call; [done..|]. apply runs_Ret. Qed.

(** A run reads its tree through [observe] only. *)
Lemma runs_observe {R} (t u : itree (treeE E) R) s s' res :
  observe t = observe u → runs h t s s' res → runs h u s s' res.
Proof.
  intros Heq.
  destruct 1 as [t r s Ht|t t' s s' res Ht Hrun|t e k s Ht
                |t X c k s s1 x s' res Ht Hh Hrun]; rewrite Heq in Ht.
  - by eapply runs_ret.
  - by eapply runs_tau.
  - by eapply runs_throw.
  - by eapply runs_call.
Qed.

Lemma runs_inv {R} (t : itree (treeE E) R) s s' res :
  runs h t s s' res → run_of h (observe t) s s' res.
Proof.
  destruct 1 as [t r s Ht|t t' s s' res Ht Hrun|t e k s Ht
                |t X c k s s1 x s' res Ht Hh Hrun]; rewrite Ht; cbn; try done.
  by rewrite Hh.
Qed.

Lemma runs_Ret_inv {R} (r : R) s s' res :
  runs h (Ret r) s s' res → s' = s ∧ res = inr r.
Proof. apply (runs_inv (Ret r)). Qed.

Lemma runs_Tau_inv {R} (t : itree (treeE E) R) s s' res :
  runs h (Tau t) s s' res → runs h t s s' res.
Proof. apply (runs_inv (Tau t)). Qed.

Lemma runs_Vis_inv {R X} (c : E X) (k : X → itree (treeE E) R) s s' res :
  runs h (Vis (inr1 c) k) s s' res →
  runs h (k (h X c s).2) (h X c s).1 s' res.
Proof. apply (runs_inv (Vis (inr1 c) k)). Qed.

Lemma runs_raise_inv {R} e s s' (res : exn + R) :
  runs h (raise e) s s' res → s' = s ∧ res = inl e.
Proof. apply (runs_inv (raise e)). Qed.

(** Two [Vis] nodes that are equal have the same event and the same
    continuation. *)
Ltac vis_eq H :=
  let Hp := fresh in let He := fresh in let Hk := fresh in
  apply eq_inv_VisF_weak in H; destruct H as (Hp & He & Hk);
  destruct Hp; cbn in He, Hk; subst.

(** A run ends in one way. *)
Lemma runs_det {R} (t : itree (treeE E) R) s s1 s2 res1 res2 :
  runs h t s s1 res1 → runs h t s s2 res2 → s1 = s2 ∧ res1 = res2.
Proof.
  induction 1 as [t r s Ht|t t' s s' res Ht _ IH|t e k s Ht
                 |t X c k s s1 x s' res Ht Hh _ IH];
    intros Hrun%runs_inv; rewrite Ht in Hrun; cbn in Hrun.
  - by destruct Hrun as [-> ->].
  - by apply IH.
  - by destruct Hrun as [-> ->].
  - rewrite Hh in Hrun. by apply IH.
Qed.

(** ** Silent steps do not count *)

Lemma runs_eutt_1 {R} (t u : itree (treeE E) R) s s' res :
  t ≈ u → runs h t s s' res → runs h u s s' res.
Proof.
  intros EQ Hrun. revert u EQ.
  induction Hrun as [t r s Ht|t t' s s' res Ht _ IH|t e k s Ht
                    |t X c k s s1 x s' res Ht Hh _ IH]; intros u EQ.
  - punfold EQ. red in EQ. genobs t ot. genobs u ou. revert u Heqou.
    induction EQ; intros; try congruence.
    + eapply runs_ret. rewrite <- Heqou. congruence.
    + eapply runs_tau; eauto.
  - apply IH. rewrite <- EQ, (itree_eta t), Ht. by rewrite tau_eutt.
  - punfold EQ. red in EQ. genobs t ot. genobs u ou. revert u Heqou.
    induction EQ; intros; try congruence.
    + symmetry in Ht. inv_Vis. eapply runs_throw. symmetry. apply Heqou.
    + eapply runs_tau; eauto.
  - punfold EQ. red in EQ. genobs t ot. genobs u ou. revert u Heqou.
    induction EQ; intros; try congruence.
    + symmetry in Ht. inv_Vis. cbn in H. subst k1.
      eapply runs_call; [symmetry; apply Heqou | apply Hh |].
      apply IH. pclearbot. apply REL.
    + eapply runs_tau; eauto.
Qed.

#[export] Instance runs_eutt {R} :
  Proper (eutt eq ==> eq ==> eq ==> eq ==> iff) (@runs E St h R).
Proof.
  intros t u EQ s ? <- s' ? <- res ? <-.
  split; apply runs_eutt_1; [done | by symmetry].
Qed.

(** ** Sequences *)

Lemma runs_bind {A R} (t : itree (treeE E) A) (k : A → itree (treeE E) R) s s1 a s' res :
  runs h t s s1 (inr a) → runs h (k a) s1 s' res →
  runs h (ITree.bind t k) s s' res.
Proof.
  intros Ht Hk. remember (inr a) as ra eqn:Hra.
  induction Ht as [t r s Ht|t t' s s1 ra Ht _ IH|t e k' s Ht
                  |t X c k' s s0 x s1 ra Ht Hh _ IH]; simplify_eq.
  - eapply runs_observe; [|done]. by rewrite observe_bind, Ht.
  - eapply runs_tau; [by rewrite observe_bind, Ht|]. by apply IH.
  - eapply runs_call; [by rewrite observe_bind, Ht | done |]. by apply IH.
Qed.

Lemma runs_bind_throw {A R} (t : itree (treeE E) A) (k : A → itree (treeE E) R) s s' e :
  runs h t s s' (inl e) → runs h (ITree.bind t k) s s' (inl e).
Proof.
  intros Ht. remember (inl e) as ra eqn:Hra.
  induction Ht as [t r s Ht|t t' s s1 ra Ht _ IH|t e' k' s Ht
                  |t X c k' s s0 x s1 ra Ht Hh _ IH]; simplify_eq.
  - eapply runs_tau; [by rewrite observe_bind, Ht|]. by apply IH.
  - eapply runs_throw. by rewrite observe_bind, Ht.
  - eapply runs_call; [by rewrite observe_bind, Ht | done |]. by apply IH.
Qed.

(** A run of a sequence is a run of its first part that throws, or a run
    of its first part that returns and a run of the rest. *)
Lemma runs_bind_inv {A R} (t : itree (treeE E) A) (k : A → itree (treeE E) R) s s' res :
  runs h (ITree.bind t k) s s' res →
  (∃ e, res = inl e ∧ runs h t s s' (inl e)) ∨
  (∃ a s1, runs h t s s1 (inr a) ∧ runs h (k a) s1 s' res).
Proof.
  intros Hrun. remember (ITree.bind t k) as u eqn:Hu.
  apply (f_equal observe) in Hu. revert t Hu.
  induction Hrun as [u r s Hobs|u u' s s' res Hobs Hrun IH|u e k' s Hobs
                    |u X c k' s s0 x s' res Hobs Hh Hrun IH];
    intros t Hu; rewrite observe_bind, Hobs in Hu;
    destruct (observe t) as [a|t'|Y ev kt] eqn:Ht; cbn in Hu;
    try discriminate.
  - right. exists a, s. split; [by eapply runs_ret|].
    eapply runs_observe; [by symmetry|]. by eapply runs_ret.
  - right. exists a, s. split; [by eapply runs_ret|].
    eapply runs_observe; [by symmetry|]. by eapply runs_tau.
  - injection Hu as ->.
    destruct (IH t' eq_refl) as [(e & -> & Ht')|(a & s1 & Ht' & Hk)].
    + left. exists e. split; [done|]. by eapply runs_tau.
    + right. exists a, s1. split; [by eapply runs_tau | done].
  - right. exists a, s. split; [by eapply runs_ret|].
    eapply runs_observe; [by symmetry|]. by eapply runs_throw.
  - vis_eq Hu. left. exists e. split; [done|]. by eapply runs_throw.
  - right. exists a, s. split; [by eapply runs_ret|].
    eapply runs_observe; [by symmetry|]. by eapply runs_call.
  - vis_eq Hu.
    destruct (IH (kt x) eq_refl) as [(e & -> & Ht')|(a & s1 & Ht' & Hk)].
    + left. exists e. split; [done|]. by eapply runs_call.
    + right. exists a, s1. split; [by eapply runs_call | done].
Qed.

(** ** Loops *)

Lemma observe_iter {I R} (body : I → itree (treeE E) (I + R)) i :
  observe (ITree.iter body i) =
  observe (ITree.bind (body i) (iter_rest body)).
Proof. done. Qed.

Lemma loops_runs {I R} (body : I → itree (treeE E) (I + R)) t s s' res :
  loops h body t s s' res → runs h (ITree.bind t (iter_rest body)) s s' res.
Proof.
  induction 1 as [t s s' r Ht|t s s' e Ht|t i s s1 s' res Ht _ IH].
  - eapply runs_bind; [done|]. apply runs_Ret.
  - by apply runs_bind_throw.
  - eapply runs_bind; [done|]. apply runs_Tau.
    eapply runs_observe; [|done]. by rewrite observe_iter.
Qed.

(** The first iteration of a loop can be replaced by a tree with the same
    runs. *)
Lemma loops_first {I R} (body : I → itree (treeE E) (I + R)) t t' s0 s s' res :
  (∀ s1 res1, runs h t' s0 s1 res1 → runs h t s s1 res1) →
  loops h body t' s0 s' res → loops h body t s s' res.
Proof.
  intros Hfirst.
  destruct 1 as [t' s0 s' r Ht|t' s0 s' e Ht|t' i s0 s1 s' res Ht Hloop].
  - apply loops_stop. by apply Hfirst.
  - apply loops_throw. by apply Hfirst.
  - eapply loops_again; [by apply Hfirst | done].
Qed.

Lemma runs_loops {I R} (body : I → itree (treeE E) (I + R)) u s s' res :
  runs h u s s' res →
  ∀ t, observe u = observe (ITree.bind t (iter_rest body)) →
  loops h body t s s' res.
Proof.
  induction 1 as [u r s Hobs|u u' s s' res Hobs Hrun IH|u e k' s Hobs
                 |u X c k' s s0 x s' res Hobs Hh Hrun IH];
    intros t Hu; rewrite observe_bind, Hobs in Hu;
    destruct (observe t) as [[i|r']|t'|Y ev kt] eqn:Ht; cbn in Hu;
    try discriminate.
  - injection Hu as ->. apply loops_stop. by eapply runs_ret.
  - injection Hu as ->. eapply loops_again; [by eapply runs_ret|].
    apply IH, observe_iter.
  - injection Hu as ->. eapply loops_first; [|by apply IH].
    intros s1 res1 Ht'. by eapply runs_tau.
  - vis_eq Hu. apply loops_throw. by eapply runs_throw.
  - vis_eq Hu. eapply loops_first; [|by apply IH].
    intros s1 res1 Ht'. by eapply runs_call.
Qed.

(** The runs of [ITree.iter body i] are the runs of its iterations. *)
Lemma runs_iter {I R} (body : I → itree (treeE E) (I + R)) i s s' res :
  runs h (ITree.iter body i) s s' res ↔ loops h body (body i) s s' res.
Proof.
  split.
  - intros Hrun. eapply runs_loops; [done|]. apply observe_iter.
  - intros Hloop%loops_runs. eapply runs_observe; [|done].
    by rewrite observe_iter.
Qed.

(** ** The executable runs *)

Lemma run_tree_runs {R} fuel (t : itree (treeE E) R) s s' res :
  run_tree h fuel t s = (s', to_result res) → runs h t s s' res.
Proof.
  revert t s. induction fuel as [|fuel IH]; intros t s; cbn [run_tree].
  { by destruct res. }
  destruct (observe t) as [r|u|X [[e]|c] k] eqn:Ht.
  - intros [= <- Hres]. destruct res; simplify_eq/=. by eapply runs_ret.
  - intros Hrun. eapply runs_tau; [done|]. by apply IH.
  - intros [= <- Hres]. destruct res; simplify_eq/=. by eapply runs_throw.
  - destruct (h X c s) as [s1 x] eqn:Hh. intros Hrun.
    eapply runs_call; [done..|]. by apply IH.
Qed.

Lemma runs_run_tree {R} (t : itree (treeE E) R) s s' res :
  runs h t s s' res → ∃ fuel, run_tree h fuel t s = (s', to_result res).
Proof.
  induction 1 as [t r s Ht|t u s s' res Ht _ [fuel IH]|t e k s Ht
                 |t X c k s s1 x s' res Ht Hh _ [fuel IH]].
  - exists 1%nat. cbn. by rewrite Ht.
  - exists (S fuel). cbn. by rewrite Ht.
  - exists 1%nat. cbn. by rewrite Ht.
  - exists (S fuel). cbn. by rewrite Ht, Hh.
Qed.

End runs_lemmas.

(** ** Rules of refinement *)

Lemma to_result_ok {R} (r : R) res : Ok r = to_result res → res = inr r.
Proof. destruct res; naive_solver. Qed.

Lemma to_result_throw {R} e (res : exn + R) : Throw e = to_result res → res = inl e.
Proof. destruct res; naive_solver. Qed.

Lemma to_result_fuel {R} (res : exn + R) : Fuel ≠ to_result res.
Proof. by destruct res. Qed.

Section refinement.
Context {E : Type → Type} {St : Type} (h : ∀ X, E X → St → St * X).
Implicit Types s : St.

Lemma refines_ret {A} (a : A) : refines h (Ret a) (mret a).
Proof.
  intros s s' res. split.
  - by intros [-> ->]%runs_Ret_inv.
  - intros [= <- ->%to_result_ok]. apply runs_Ret.
Qed.

Lemma refines_raise {A} e : refines h (raise e : itree (treeE E) A) (throw e).
Proof.
  intros s s' res. split.
  - by intros [-> ->]%runs_raise_inv.
  - intros [= <- ->%to_result_throw]. apply runs_raise.
Qed.

Lemma refines_call {X} (c : E X) : refines h (call c) (answer h c).
Proof.
  intros s s' res. unfold answer. split.
  - intros Hrun%(runs_inv h (call c)). cbn in Hrun.
    destruct (h X c s) as [s1 x]. by apply runs_Ret_inv in Hrun as [-> ->].
  - destruct (h X c s) as [s1 x] eqn:Hh. intros [= <- ->%to_result_ok].
    by apply runs_call_1.
Qed.

(** Refinement looks at the computation pointwise and at the tree up to
    silent steps. *)
Lemma refines_ext {A} (t : itree (treeE E) A) (m m' : prog St A) :
  (∀ s, m s = m' s) → refines h t m → refines h t m'.
Proof. intros Hm Ht s s' res. by rewrite <- Hm. Qed.

#[export] Instance refines_eutt {A} :
  Proper (eutt eq ==> eq ==> iff) (@refines E St h A).
Proof.
  intros t u EQ m ? <-. unfold refines.
  split; intros Ht s s' res; [rewrite <- EQ | rewrite EQ]; apply Ht.
Qed.

Lemma refines_bind {A B} (t : itree (treeE E) A) (k : A → itree (treeE E) B)
    (m : prog St A) (f : A → prog St B) :
  refines h t m → (∀ a, refines h (k a) (f a)) →
  refines h (ITree.bind t k) (m ≫= f).
Proof.
  intros Ht Hk s s' res. rewrite bind_unfold. split.
  - intros [(e & -> & Hm%Ht)|(a & s1 & Hm%Ht & Hf%Hk)]%runs_bind_inv;
      by rewrite Hm.
  - destruct (m s) as [s1 [a|e|]] eqn:Hm.
    + intros Hf%Hk. eapply runs_bind; [|done]. by apply Ht.
    + intros [= <- ->%to_result_throw]. apply runs_bind_throw. by apply Ht.
    + intros [= _ []%to_result_fuel].
Qed.

Lemma refines_for_each {A} (l : list A) (tbody : A → itree (treeE E) ())
    (body : A → prog St ()) :
  (∀ x, refines h (tbody x) (body x)) →
  refines h (for_each_tree l tbody) (for_each l body).
Proof.
  intros Hbody. induction l as [|x l IH]; [apply refines_ret|].
  cbn [for_each_tree for_each]. by apply refines_bind.
Qed.

(** A loop with fuel, written as the code is: the iteration computes
    whether there is a next one. *)
Lemma refines_while (tstep : itree (treeE E) bool) (step : prog St bool)
    (loop : nat → prog St ()) :
  refines h tstep step →
  (∀ s, loop 0%nat s = (s, Fuel)) →
  (∀ n s, loop (S n) s = (b ← step; if b : bool then loop n else mret ()) s) →
  ∀ s s' res,
    runs h (ITree.iter (while_body tstep) ()) s s' res ↔
    ∃ n, loop n s = (s', to_result res).
Proof.
  intros Hstep H0 HS.
  assert (refines h (while_body tstep ())
            (b ← step; mret (if b : bool then inl () else inr ()))) as Hbody.
  { apply refines_bind; [done|]. intros [|]; apply refines_ret. }
  intros s s' res. rewrite runs_iter. split.
  - enough (∀ t, loops h (while_body tstep) t s s' res →
              t = while_body tstep () → ∃ n, loop n s = (s', to_result res))
      by eauto.
    intros t Hloop.
    induction Hloop as [t s s' [] Ht|t s s' e Ht|t [] s s1 s' res Ht _ IH];
      intros ->; apply Hbody in Ht; rewrite bind_unfold in Ht;
      destruct (step s) as [s2 [[|]|e'|]] eqn:Hs;
      cbv [mret prog_ret] in Ht; simplify_eq/=.
    + exists 1%nat. by rewrite HS, bind_unfold, Hs.
    + exists 1%nat. by rewrite HS, bind_unfold, Hs.
    + destruct (IH eq_refl) as [n Hn]. exists (S n).
      by rewrite HS, bind_unfold, Hs.
  - intros [n Hn]. revert s Hn. induction n as [|n IH]; intros s.
    { rewrite H0. intros [= _ []%to_result_fuel]. }
    rewrite HS, bind_unfold. destruct (step s) as [s1 [[|]|e|]] eqn:Hs.
    + intros Hn. eapply loops_again; [|by apply IH].
      apply Hbody. by rewrite bind_unfold, Hs.
    + intros [= <- ->%to_result_ok]. apply loops_stop, Hbody.
      by rewrite bind_unfold, Hs.
    + intros [= <- ->%to_result_throw]. apply loops_throw, Hbody.
      by rewrite bind_unfold, Hs.
    + intros [= _ []%to_result_fuel].
Qed.

(** ** Computations with fuel *)

Lemma refines_fuel_const {A} (t : itree (treeE E) A) (m : prog St A) :
  refines h t m → refines_fuel h t (λ _, m).
Proof.
  intros Ht s s' res. rewrite (Ht s s' res). split; [by exists 0%nat|].
  by intros [_ Hm].
Qed.

Lemma refines_fuel_ext {A} (t : itree (treeE E) A) (m m' : nat → prog St A) :
  (∀ fuel s, m fuel s = m' fuel s) → refines_fuel h t m → refines_fuel h t m'.
Proof.
  intros Hm Ht s s' res. rewrite (Ht s s' res).
  split; intros [fuel Hf]; exists fuel; [by rewrite <- Hm | by rewrite Hm].
Qed.

(** A sequence whose second part has the fuel. *)
Lemma refines_fuel_bind {A B} (t : itree (treeE E) A)
    (k : A → itree (treeE E) B) (m : prog St A) (f : nat → A → prog St B) :
  refines h t m → (∀ a, refines_fuel h (k a) (λ fuel, f fuel a)) →
  refines_fuel h (ITree.bind t k) (λ fuel, m ≫= f fuel).
Proof.
  intros Ht Hk s s' res. setoid_rewrite bind_unfold. split.
  - intros [(e & -> & Hm%Ht)|(a & s1 & Hm%Ht & [fuel Hf]%Hk)]%runs_bind_inv;
      [exists 0%nat|exists fuel]; by rewrite Hm.
  - intros [fuel Hf]. destruct (m s) as [s1 [a|e|]] eqn:Hm.
    + eapply runs_bind; [by apply Ht|]. apply Hk. by exists fuel.
    + injection Hf as <- ->%to_result_throw. apply runs_bind_throw. by apply Ht.
    + by injection Hf as _ []%to_result_fuel.
Qed.

(** A sequence whose first part has the fuel. *)
Lemma refines_fuel_bind_l {A B} (t : itree (treeE E) A)
    (k : A → itree (treeE E) B) (m : nat → prog St A) (f : A → prog St B) :
  refines_fuel h t m → (∀ a, refines h (k a) (f a)) →
  refines_fuel h (ITree.bind t k) (λ fuel, m fuel ≫= f).
Proof.
  intros Ht Hk s s' res. setoid_rewrite bind_unfold. split.
  - intros [(e & -> & [fuel Hm]%Ht)|(a & s1 & [fuel Hm]%Ht & Hf%Hk)]%runs_bind_inv;
      exists fuel; by rewrite Hm.
  - intros [fuel Hf]. destruct (m fuel s) as [s1 [a|e|]] eqn:Hm.
    + eapply runs_bind; [apply Ht; by exists fuel|]. by apply Hk.
    + injection Hf as <- ->%to_result_throw. apply runs_bind_throw, Ht.
      by exists fuel.
    + by injection Hf as _ []%to_result_fuel.
Qed.

End refinement.

(** ** Steps *)

Section steps.
Context {E : Type → Type} {St : Type} (h : ∀ X, E X → St → St * X).
Implicit Types s : St.

Lemma ended_no_step {R} (t : itree (treeE E) R) s res :
  ended t res → thread_next h s t = None.
Proof.
  unfold ended, thread_next. by destruct (observe t) as [r|u|X [[e]|c] k].
Qed.

(** A run is a sequence of steps to a tree that has ended. *)
Lemma runs_steps {R} (t : itree (treeE E) R) s s' res :
  runs h t s s' res ↔ ∃ u, rtc (tree_step h) (s, t) (s', u) ∧ ended u res.
Proof.
  split.
  - induction 1 as [t r s Ht|t u s s' res Ht _ (v & Hsteps & Hend)|t e k s Ht
                   |t X c k s s1 x s' res Ht Hh _ (v & Hsteps & Hend)].
    + exists t. split; [done|]. unfold ended. by rewrite Ht.
    + exists v. split; [|done]. eapply rtc_l; [|done].
      unfold tree_step, thread_next. cbn. by rewrite Ht.
    + exists t. split; [done|]. unfold ended. by rewrite Ht.
    + exists v. split; [|done]. eapply rtc_l; [|done].
      unfold tree_step, thread_next. cbn. by rewrite Ht, Hh.
  - intros (u & Hsteps & Hend).
    remember (s, t) as x eqn:Hx. remember (s', u) as y eqn:Hy.
    revert s t Hx. induction Hsteps as [x|x [s1 t1] y Hstep _ IH];
      intros s t ->; simplify_eq.
    + unfold ended in Hend.
      destruct (observe u) as [r|?|X [[e]|c] k] eqn:Hu; try done; subst.
      * by eapply runs_ret.
      * by eapply runs_throw.
    + unfold tree_step, thread_next in Hstep. cbn in Hstep.
      destruct (observe t) as [r|t'|X [[e]|c] k] eqn:Ht; try done.
      * injection Hstep as <- <-. eapply runs_tau; [done|]. by apply IH.
      * destruct (h X c s) as [s2 x] eqn:Hh. injection Hstep as <- <-.
        eapply runs_call; [done..|]. by apply IH.
Qed.

End steps.

(** ** Calls that a tree never makes *)

Section never.
Context {E : Type → Type} (bad : ∀ X, E X → Prop).

Lemma never_S {R} n (t : itree (treeE E) R) :
  never bad (S n) t → never bad n t.
Proof.
  revert t. induction n as [|n IH]; intros t; [done|].
  cbn [never]. destruct (observe t) as [r|u|X [e|c] k]; [done|apply IH|done|].
  intros [Hc Hk]. split; [done|]. intros x. apply IH, Hk.
Qed.

Lemma never_Ret {R} n (r : R) : never bad n (Ret r : itree (treeE E) R).
Proof. by destruct n. Qed.

Lemma never_raise {R} n e : never bad n (raise e : itree (treeE E) R).
Proof. by destruct n. Qed.

Lemma never_call {X} n (c : E X) : ¬ bad X c → never bad n (call c).
Proof.
  intros Hc. destruct n as [|n]; [done|]. cbn. split; [done|].
  intros x. apply never_Ret.
Qed.

Lemma never_bind {A B} n (t : itree (treeE E) A) (k : A → itree (treeE E) B) :
  never bad n t → (∀ a, never bad n (k a)) → never bad n (ITree.bind t k).
Proof.
  revert t. induction n as [|n IH]; intros t Ht Hk; [done|].
  cbn [never] in *. rewrite observe_bind.
  destruct (observe t) as [a|u|X [e|c] kt]; cbn.
  - apply (Hk a).
  - apply IH; [done|]. intros a. apply never_S, Hk.
  - done.
  - destruct Ht as [Hc Hkt]. split; [done|]. intros x.
    apply IH; [done|]. intros a. apply never_S, Hk.
Qed.

Lemma never_for_each {A} n (l : list A) (body : A → itree (treeE E) ()) :
  (∀ x, never bad n (body x)) → never bad n (for_each_tree l body).
Proof.
  intros Hbody. induction l as [|x l IH]; [apply never_Ret|].
  cbn [for_each_tree]. by apply never_bind.
Qed.

Lemma never_iter {I R} n (body : I → itree (treeE E) (I + R)) i :
  (∀ m j, never bad m (body j)) → never bad n (ITree.iter body i).
Proof.
  intros Hbody. revert i. induction n as [|n IH]; intros i; [done|].
  assert (never bad (S n) (ITree.bind (body i) (iter_rest body))) as Hn.
  { apply never_bind; [done|]. intros [j|r]; [apply IH | apply never_Ret]. }
  revert Hn. cbn [never]. by rewrite <- observe_iter.
Qed.

Lemma never_while n (step : itree (treeE E) bool) :
  (∀ m, never bad m step) → never bad n (ITree.iter (while_body step) ()).
Proof.
  intros Hstep. apply never_iter. intros m []. apply never_bind; [done|].
  intros [|]; apply never_Ret.
Qed.

(** A tree that never makes a call in [bad] keeps, step by step, what the
    other calls keep. *)
Lemma never_steps {St R} (h : ∀ X, E X → St → St * X) (Inv : St → Prop)
    (x y : St * itree (treeE E) R) :
  (∀ X (c : E X) s, ¬ bad X c → Inv s → Inv (h X c s).1) →
  rtc (tree_step h) x y →
  Inv x.1 → (∀ n, never bad n x.2) → Inv y.1 ∧ ∀ n, never bad n y.2.
Proof.
  intros Hcall. induction 1 as [|x [s1 t1] z Hstep _ IH]; [done|].
  destruct x as [s t]. cbn [fst snd] in *. intros Hs Ht.
  enough (Inv s1 ∧ ∀ n, never bad n t1) as [??] by by apply IH.
  clear IH. unfold tree_step, thread_next in Hstep. cbn in Hstep.
  destruct (observe t) as [r|u|X [e|c] k] eqn:Hobs; try done.
  - injection Hstep as <- <-. split; [done|]. intros n.
    generalize (Ht (S n)). cbn [never]. by rewrite Hobs.
  - assert (∀ n, ¬ bad X c ∧ ∀ x, never bad n (k x)) as Hk.
    { intros n. generalize (Ht (S n)). cbn [never]. by rewrite Hobs. }
    destruct (Hk 0%nat) as [Hc _].
    specialize (Hcall X c s Hc Hs). destruct (h X c s) as [s2 x].
    injection Hstep as <- <-. by split; [|intros n; apply Hk].
Qed.

End never.

