(* ===== verification/OrderedMap.v ===== *)
(** * [std::map] as a sorted association list

    [query_world.cpp] keeps [object_to_solution] in a [std::map] and walks
    it with iterators (lines 140 and 186), takes [begin()] (line 182),
    [size()] (line 181) and [empty()] (line 106), and fills it with
    [operator[]] (line 98).  Iteration order is part of what the program
    computes, so the map is modelled as the sequence of its entries in key
    order.  The order on keys is the interface [KeyOrder]; the theorems of
    this file are proved against it, and [U16String] provides the instance
    for [std::u16string].  [omap_to_gmap] is the abstraction to a finite
    map, for which the sorted list is a refinement. *)

From S2P Require Import Prelude.

(** ** The interface: a strict total order with a boolean test, as
    [std::less<Key>] is for [std::map]. *)
Class KeyOrder (K : Type) := {
  key_ltb : K → K → bool;
  key_ltb_irrefl k : key_ltb k k = false;
  key_ltb_trans k1 k2 k3 :
    key_ltb k1 k2 = true → key_ltb k2 k3 = true → key_ltb k1 k3 = true;
  key_ltb_total k1 k2 :
    key_ltb k1 k2 = false → key_ltb k2 k1 = false → k1 = k2;
}.

#[warning="-notation-for-abbreviation"] Notation omap K V := (list (K * V)).

Section ordered_map.
Context {K V : Type} `{KeyOrder K}.
Implicit Types (k : K) (v : V) (m : omap K V).

(** Two keys are equivalent for the map when neither is less than the
    other. *)
Definition key_eqb k1 k2 : bool := negb (key_ltb k1 k2) && negb (key_ltb k2 k1).

(** [m[k] = v]: the entry is inserted at its place, or overwritten. *)
Fixpoint omap_assign k v m : omap K V :=
  match m with
  | [] => [(k, v)]
  | (k', v') :: m' =>
      if key_ltb k k' then (k, v) :: m
      else if key_ltb k' k then (k', v') :: omap_assign k v m'
      else (k, v) :: m'
  end.

(** [m.find(k)], with [None] for [end()]. *)
Fixpoint omap_find k m : option V :=
  match m with
  | [] => None
  | (k', v') :: m' => if key_eqb k k' then Some v' else omap_find k m'
  end.

(** [m.size()] and [m.empty()]. *)
Definition omap_size m : nat := length m.
Definition omap_is_empty m : bool := bool_decide (omap_size m = 0%nat).

(** [m.begin()], when the map is not empty. *)
Definition omap_begin m : option (K * V) := head m.

(** The representation invariant: keys strictly increase. *)
Fixpoint omap_sorted m : Prop :=
  match m with
  | [] => True
  | (k, _) :: m' => Forall (λ p, key_ltb k p.1 = true) m' ∧ omap_sorted m'
  end.

(** The keys, in iteration order. *)
Definition omap_keys m : list K := m.*1.

(** ** The order *)

Lemma key_eqb_eq k1 k2 : key_eqb k1 k2 = true ↔ k1 = k2.
Proof.
  unfold key_eqb. split.
  - intros [?%negb_true_iff ?%negb_true_iff]%andb_true_iff.
    by apply key_ltb_total.
  - intros ->. by rewrite key_ltb_irrefl.
Qed.

Lemma key_eqb_refl k : key_eqb k k = true.
Proof. by apply key_eqb_eq. Qed.

Lemma key_eqb_neq k1 k2 : key_eqb k1 k2 = false ↔ k1 ≠ k2.
Proof. rewrite <- key_eqb_eq. by destruct (key_eqb k1 k2). Qed.

Lemma key_ltb_asym k1 k2 : key_ltb k1 k2 = true → key_ltb k2 k1 = false.
Proof.
  intros H12. destruct (key_ltb k2 k1) eqn:H21; [|done].
  by rewrite <- (key_ltb_irrefl k1), (key_ltb_trans k1 k2 k1).
Qed.

Lemma key_ltb_neq k1 k2 : key_ltb k1 k2 = true → k1 ≠ k2.
Proof. intros Hlt ->. by rewrite key_ltb_irrefl in Hlt. Qed.

(** Trichotomy, in the form the case analyses of this file use. *)
Variant key_cmp_spec k1 k2 : bool → bool → Prop :=
  | key_cmp_lt : key_ltb k1 k2 = true → k1 ≠ k2 → key_cmp_spec k1 k2 true false
  | key_cmp_gt : key_ltb k2 k1 = true → k1 ≠ k2 → key_cmp_spec k1 k2 false true
  | key_cmp_eq : k1 = k2 → key_cmp_spec k1 k2 false false.

Lemma key_cmp k1 k2 : key_cmp_spec k1 k2 (key_ltb k1 k2) (key_ltb k2 k1).
Proof.
  destruct (key_ltb k1 k2) eqn:H12, (key_ltb k2 k1) eqn:H21.
  - by rewrite (key_ltb_asym _ _ H12) in H21.
  - constructor; [done | by apply key_ltb_neq].
  - constructor; [done | by apply not_eq_sym, key_ltb_neq].
  - constructor. by apply key_ltb_total.
Qed.

(** ** Sortedness *)

Lemma omap_sorted_cons k v m :
  omap_sorted ((k, v) :: m) ↔
  Forall (λ p, key_ltb k p.1 = true) m ∧ omap_sorted m.
Proof. done. Qed.

Lemma omap_sorted_lt_weaken k k' m :
  key_ltb k k' = true →
  Forall (λ p, key_ltb k' p.1 = true) m →
  Forall (λ p, key_ltb k p.1 = true) m.
Proof.
  intros Hlt Hall. eapply Forall_impl; [done|].
  intros p Hp. by eapply key_ltb_trans.
Qed.

Lemma omap_assign_elem p k v m :
  p ∈ omap_assign k v m → p = (k, v) ∨ p ∈ m.
Proof.
  induction m as [|[k' v'] m IH]; simpl.
  - intros ?%list_elem_of_singleton. by left.
  - destruct (key_cmp k k').
    + rewrite elem_of_cons. tauto.
    + rewrite !elem_of_cons. intros [->|?%IH]; tauto.
    + rewrite !elem_of_cons. tauto.
Qed.

Lemma omap_assign_lower k0 k v m :
  key_ltb k0 k = true →
  Forall (λ p, key_ltb k0 p.1 = true) m →
  Forall (λ p, key_ltb k0 p.1 = true) (omap_assign k v m).
Proof.
  rewrite !Forall_forall. intros Hk Hm p [->|Hp]%omap_assign_elem; auto.
Qed.

(** Assignment keeps the entries in key order. *)
Lemma omap_assign_sorted k v m :
  omap_sorted m → omap_sorted (omap_assign k v m).
Proof.
  induction m as [|[k' v'] m IH]; simpl; [by auto|].
  intros [Hall Hm]. destruct (key_cmp k k') as [Hlt _|Hgt _| ->]; simpl.
  - split; [|done]. constructor; [done|]. by eapply omap_sorted_lt_weaken.
  - split; [|by auto]. by apply omap_assign_lower.
  - done.
Qed.

(** ** Lookup *)

Lemma omap_find_lower k m :
  Forall (λ p, key_ltb k p.1 = true) m → omap_find k m = None.
Proof.
  induction 1 as [|[k' v'] m Hlt _ IH]; simpl; [done|].
  by rewrite (proj2 (key_eqb_neq k k')) by by apply key_ltb_neq.
Qed.

Lemma omap_find_assign_eq k v m : omap_find k (omap_assign k v m) = Some v.
Proof.
  induction m as [|[k' v'] m IH]; simpl.
  - by rewrite key_eqb_refl.
  - destruct (key_cmp k k') as [_ Hne|_ Hne| ->]; simpl.
    + by rewrite key_eqb_refl.
    + by rewrite (proj2 (key_eqb_neq k k')).
    + by rewrite key_eqb_refl.
Qed.

Lemma omap_find_assign_ne k k0 v m :
  k ≠ k0 → omap_find k0 (omap_assign k v m) = omap_find k0 m.
Proof.
  intros Hne. apply not_eq_sym, key_eqb_neq in Hne.
  induction m as [|[k' v'] m IH]; simpl.
  - by rewrite Hne.
  - destruct (key_cmp k k') as [_ _|_ _| ->]; simpl.
    + by rewrite Hne.
    + by rewrite IH.
    + by rewrite !Hne.
Qed.

Lemma omap_find_Some_elem k v m : omap_find k m = Some v → (k, v) ∈ m.
Proof.
  induction m as [|[k' v'] m IH]; simpl; [done|].
  destruct (key_eqb k k') eqn:E.
  - apply key_eqb_eq in E as ->. intros [= ->]. by left.
  - intros ?%IH. by right.
Qed.

Lemma omap_elem_find k v m : omap_sorted m → (k, v) ∈ m → omap_find k m = Some v.
Proof.
  induction m as [|[k' v'] m IH]; simpl; [by intros _ ?%elem_of_nil|].
  intros [Hall Hm] [[= -> ->]|Hin]%elem_of_cons.
  - by rewrite key_eqb_refl.
  - rewrite Forall_forall in Hall. specialize (Hall _ Hin). simpl in Hall.
    rewrite (proj2 (key_eqb_neq k k')); [by apply IH|].
    by apply not_eq_sym, key_ltb_neq.
Qed.

(** ** Size *)

Lemma omap_size_assign_fresh k v m :
  omap_find k m = None → omap_size (omap_assign k v m) = S (omap_size m).
Proof.
  unfold omap_size. induction m as [|[k' v'] m IH]; simpl; [done|].
  destruct (key_cmp k k') as [_ _|_ Hne| ->]; simpl.
  - done.
  - rewrite (proj2 (key_eqb_neq k k')) by done. intros ?%IH. lia.
  - by rewrite key_eqb_refl.
Qed.

Lemma omap_size_assign_present k v m :
  omap_sorted m →
  is_Some (omap_find k m) → omap_size (omap_assign k v m) = omap_size m.
Proof.
  unfold omap_size. induction m as [|[k' v'] m IH]; simpl.
  - by intros _ [? ?].
  - intros [Hall Hm]. destruct (key_cmp k k') as [Hlt Hne|_ Hne| ->]; simpl.
    + rewrite (proj2 (key_eqb_neq k k')) by done.
      rewrite omap_find_lower by by eapply omap_sorted_lt_weaken.
      by intros [? ?].
    + rewrite (proj2 (key_eqb_neq k k')) by done. intros ?%IH; [lia | done].
    + done.
Qed.

Lemma omap_is_empty_assign k v m : omap_is_empty (omap_assign k v m) = false.
Proof.
  apply bool_decide_eq_false. unfold omap_size.
  destruct m as [|[k' v'] m]; simpl; [done|].
  by destruct (key_ltb k k'), (key_ltb k' k).
Qed.

Lemma omap_is_empty_nil m : omap_is_empty m = true ↔ m = [].
Proof.
  unfold omap_is_empty, omap_size. rewrite bool_decide_eq_true.
  apply length_zero_iff_nil.
Qed.

(** ** The iteration order is determined by the contents *)

Lemma omap_find_head_tail k v m k0 :
  omap_sorted ((k, v) :: m) → k0 ≠ k →
  omap_find k0 ((k, v) :: m) = omap_find k0 m.
Proof. intros _ Hne. simpl. by rewrite (proj2 (key_eqb_neq k0 k)). Qed.

Lemma omap_sorted_head_eq k1 v1 m1 k2 v2 m2 :
  omap_sorted ((k1, v1) :: m1) → omap_sorted ((k2, v2) :: m2) →
  (∀ k, omap_find k ((k1, v1) :: m1) = omap_find k ((k2, v2) :: m2)) →
  k1 = k2.
Proof.
  intros [Hall1 _] [Hall2 _] Hext. rewrite Forall_forall in Hall1, Hall2.
  destruct (decide_rel (=) (key_eqb k1 k2) true) as [?%key_eqb_eq|Hne]; [done|].
  apply not_true_is_false, key_eqb_neq in Hne.
  pose proof (Hext k1) as E1. pose proof (Hext k2) as E2. simpl in E1, E2.
  rewrite key_eqb_refl, (proj2 (key_eqb_neq k1 k2)) in E1 by done.
  rewrite key_eqb_refl, (proj2 (key_eqb_neq k2 k1)) in E2 by done.
  symmetry in E1. apply omap_find_Some_elem, Hall2 in E1.
  apply omap_find_Some_elem, Hall1 in E2. simpl in E1, E2.
  by rewrite (key_ltb_asym _ _ E1) in E2.
Qed.

(** Two sorted maps with the same lookups are the same sequence. *)
Lemma omap_ext m1 m2 :
  omap_sorted m1 → omap_sorted m2 →
  (∀ k, omap_find k m1 = omap_find k m2) → m1 = m2.
Proof.
  revert m2. induction m1 as [|[k1 v1] m1 IH]; intros [|[k2 v2] m2] Hs1 Hs2 Hext.
  - done.
  - specialize (Hext k2). simpl in Hext. by rewrite key_eqb_refl in Hext.
  - specialize (Hext k1). simpl in Hext. by rewrite key_eqb_refl in Hext.
  - assert (k1 = k2) as <- by by eapply omap_sorted_head_eq.
    pose proof (Hext k1) as Ev. simpl in Ev. rewrite key_eqb_refl in Ev.
    injection Ev as <-. f_equal. destruct Hs1 as [Hall1 Hs1], Hs2 as [Hall2 Hs2].
    apply IH; [done..|]. intros k.
    destruct (decide_rel (=) (key_eqb k k1) true) as [->%key_eqb_eq|Hne].
    + by rewrite !omap_find_lower.
    + apply not_true_is_false in Hne. specialize (Hext k). simpl in Hext.
      by rewrite Hne in Hext.
Qed.


Lemma omap_keys_NoDup m : omap_sorted m → NoDup (omap_keys m).
Proof.
  unfold omap_keys. induction m as [|[k v] m IH]; simpl; [constructor|].
  intros [Hall Hm]. constructor; [|by auto].
  intros ([k' v'] & -> & Hin)%list_elem_of_fmap. rewrite Forall_forall in Hall.
  specialize (Hall _ Hin). simpl in *. by rewrite key_ltb_irrefl in Hall.
Qed.

End ordered_map.

(** ** Filtering and mapping *)

Section transform.
Context {K V V' : Type} `{KeyOrder K}.
Implicit Types (k : K) (m : omap K V).

Lemma omap_sorted_filter (P : K * V → Prop) `{∀ p, Decision (P p)} m :
  omap_sorted m → omap_sorted (filter P m).
Proof.
  induction m as [|[k v] m IH]; [done|]. intros [Hall Hm].
  rewrite filter_cons. case_decide; [|by apply IH].
  split; [|by apply IH]. rewrite Forall_forall in *.
  intros p [_ Hp]%list_elem_of_filter. by apply Hall.
Qed.

Lemma omap_sorted_fmap (f : K * V → K * V') m :
  (∀ p, (f p).1 = p.1) → omap_sorted m → omap_sorted (f <$> m).
Proof.
  intros Hf. induction m as [|[k v] m IH]; [done|]. intros [Hall Hm].
  rewrite fmap_cons. destruct (f (k, v)) as [k' v'] eqn:Hfk.
  assert (k' = k) as -> by (pose proof (Hf (k, v)) as Hk; by rewrite Hfk in Hk).
  split; [|by apply IH]. apply Forall_fmap. eapply Forall_impl; [done|].
  intros p Hp. cbn. by rewrite Hf.
Qed.

Lemma omap_find_fmap (g : K → V → V') k m :
  omap_find k ((λ p, (p.1, g p.1 p.2)) <$> m) = g k <$> omap_find k m.
Proof.
  induction m as [|[k' v'] m IH]; [done|]. cbn.
  destruct (key_eqb k k') eqn:Hk; [|done]. by apply key_eqb_eq in Hk as ->.
Qed.

Lemma omap_find_filter (Q : K → Prop) `{∀ k, Decision (Q k)} k m :
  omap_find k (filter (λ p, Q p.1) m) =
  if decide (Q k) then omap_find k m else None.
Proof.
  induction m as [|[k' v'] m IH]; [by case_decide|].
  rewrite filter_cons. cbn [fst omap_find].
  destruct (key_eqb k k') eqn:Hk.
  - apply key_eqb_eq in Hk as ->. destruct (decide (Q k')) as [HQ|HQ].
    + cbn. by rewrite key_eqb_refl.
    + done.
  - destruct (decide (Q k')); [|done]. cbn. by rewrite Hk.
Qed.

End transform.

(** ** Refinement of a finite map *)

Section refinement.
Context {K V : Type} `{KeyOrder K} `{Countable K}.
Implicit Types (k : K) (v : V) (m : omap K V).

(** The finite map a sorted list stands for. *)
Definition omap_to_gmap m : gmap K V := list_to_map m.

Lemma omap_to_gmap_lookup m k : omap_to_gmap m !! k = omap_find k m.
Proof.
  unfold omap_to_gmap. induction m as [|[k' v'] m IH]; simpl; [done|].
  destruct (key_eqb k k') eqn:E.
  - apply key_eqb_eq in E as ->. by rewrite lookup_insert_eq.
  - apply key_eqb_neq in E. by rewrite lookup_insert_ne.
Qed.

(** The sorted list implements a finite map: [m[k] = v] on the list
    is insertion of [k ↦ v] in the map the list stands for. *)
Theorem omap_to_gmap_assign k v m :
  omap_to_gmap (omap_assign k v m) = <[k:=v]> (omap_to_gmap m).
Proof.
  apply map_eq. intros k0. rewrite omap_to_gmap_lookup.
  destruct (decide (k = k0)) as [<-|Hne].
  - by rewrite omap_find_assign_eq, lookup_insert_eq.
  - by rewrite omap_find_assign_ne, lookup_insert_ne, omap_to_gmap_lookup.
Qed.

(** Two maps in key order that stand for the same finite map are the
    same sequence: what an iteration visits, and in which order, depends
    only on the contents of the map and not on the order of the
    insertions. *)
Theorem omap_to_gmap_inj m1 m2 :
  omap_sorted m1 → omap_sorted m2 →
  omap_to_gmap m1 = omap_to_gmap m2 → m1 = m2.
Proof.
  intros Hs1 Hs2 Heq. apply omap_ext; [done..|]. intros k.
  by rewrite <- !omap_to_gmap_lookup, Heq.
Qed.

Lemma omap_to_gmap_size m : omap_sorted m → size (omap_to_gmap m) = omap_size m.
Proof.
  intros Hs. unfold omap_to_gmap, omap_size.
  rewrite <- (length_map_to_list (list_to_map m)).
  apply Permutation_length, map_to_list_to_map. by apply omap_keys_NoDup.
Qed.

End refinement.

#[export] Hint Resolve omap_assign_sorted : owl.

(** ** An instance: integer keys

    [std::less] on an integer type, as for the [uint8_t] keys of
    [phy_to_rule] (line 122). *)

Lemma Z_ltb_trans (k1 k2 k3 : Z) :
  (k1 <? k2)%Z = true → (k2 <? k3)%Z = true → (k1 <? k3)%Z = true.
Proof. rewrite !Z.ltb_lt. lia. Qed.

Lemma Z_ltb_total (k1 k2 : Z) :
  (k1 <? k2)%Z = false → (k2 <? k1)%Z = false → k1 = k2.
Proof. rewrite !Z.ltb_ge. lia. Qed.

#[export] Instance Z_key_order : KeyOrder Z := {|
  key_ltb := Z.ltb;
  key_ltb_irrefl := Z.ltb_irrefl;
  key_ltb_trans := Z_ltb_trans;
  key_ltb_total := Z_ltb_total;
|}.

(** ** Concrete runs *)


(** The same two entries inserted in either order give the same
    sequence. *)
Lemma omap_to_gmap_inj_witness :
  omap_assign 1%Z "a" (omap_assign 2%Z "b" []) =
  omap_assign 2%Z "b" (omap_assign 1%Z "a" []).
Proof.
  apply (omap_to_gmap_inj
           (omap_assign 1%Z "a" (omap_assign 2%Z "b" []))
           (omap_assign 2%Z "b" (omap_assign 1%Z "a" []))).
  - repeat split; repeat constructor.
  - repeat split; repeat constructor.
  - reflexivity.
Defined.
