(* ===== verification/U16String.v ===== *)
(** * [std::u16string], [toU16] and [toString]

    A [std::u16string] is modelled as the list of its code units, each a [Z]
    in [[0, 2^16)] ([u16_wf]); a [std::string] is a Rocq [string], whose
    characters are the bytes.  [toU16] and [toString] are lines 47-53 of
    [query_world.cpp]: both build the result with the iterator-range
    constructor, which converts each element with the implicit integral
    conversion ([char] to [char16_t], [char16_t] to [char]).  The file also
    holds the order of [std::less<std::u16string>], which is the
    [KeyOrder] instance of the maps keyed by identifiers, and [find]. *)

From Stdlib Require Import Ascii String.
From S2P Require Import Prelude OrderedMap.

#[warning="-notation-for-abbreviation"] Notation u16string := (list Z).

Section conversions.
Context `{Platform}.

(** The value of a [char] holding the byte [c]: the byte itself where
    [char] is unsigned, its two's complement reading where it is signed. *)
Definition char_to_Z (c : ascii) : Z :=
  let n := Z.of_N (N_of_ascii c) in
  if char_signed && (128 <=? n)%Z then (n - 256)%Z else n.

(** Conversion to the unsigned 16-bit [char16_t]: reduction modulo [2^16]. *)
Definition wrap16 (z : Z) : Z := (z mod 65536)%Z.

Definition char16_of_char (c : ascii) : Z := wrap16 (char_to_Z c).

(** Conversion of a [char16_t] to [char]: the low byte. *)
Definition char_of_char16 (u : Z) : ascii := ascii_of_N (Z.to_N (u mod 256)).

(** [std::u16string toU16(const std::string& str)] *)
Definition toU16 (str : string) : u16string :=
  char16_of_char <$> list_ascii_of_string str.

(** [std::string toString(const std::u16string& str)] *)
Definition toString (str : u16string) : string :=
  string_of_list_ascii (char_of_char16 <$> str).

End conversions.

(** A literal [u"..."] of 7-bit characters: each character is its code. *)
Definition u16_literal (s : string) : u16string :=
  (λ c, Z.of_N (N_of_ascii c)) <$> list_ascii_of_string s.

(** Every code unit fits [char16_t]. *)
Definition u16_wf (s : u16string) : Prop := Forall (λ u, (0 ≤ u < 65536)%Z) s.

(** The code units [toU16] can produce: a 7-bit character is itself, a byte
    with the high bit set is sign-extended on a signed-[char] platform. *)
Definition char_image `{Platform} (u : Z) : Prop :=
  (0 ≤ u < 128)%Z ∨
  (if char_signed then (65408 ≤ u < 65536)%Z else (128 ≤ u < 256)%Z).

(** [operator<] on [std::u16string]: lexicographic on the code units, a
    proper prefix being smaller. *)
Fixpoint u16_ltb (a b : u16string) : bool :=
  match a, b with
  | _, [] => false
  | [], _ :: _ => true
  | x :: a', y :: b' =>
      if (x <? y)%Z then true
      else if (y <? x)%Z then false
      else u16_ltb a' b'
  end.

(** [s.find(needle)]: the offset of the first occurrence, [None] for
    [npos]. *)
Definition find (s needle : u16string) : option nat := find_from needle s 0.

(** ** Conversions *)

Section conversion_lemmas.
Context `{Platform}.
Implicit Types (c : ascii) (u : Z) (s : string) (w : u16string).

Lemma N_of_ascii_bound c : (0 ≤ Z.of_N (N_of_ascii c) < 256)%Z.
Proof.
  pose proof (N_ascii_bounded c). lia.
Qed.

Lemma char_to_Z_range c : (-128 ≤ char_to_Z c < 256)%Z.
Proof.
  unfold char_to_Z. pose proof (N_of_ascii_bound c).
  destruct char_signed; simpl; [case_if; bool_hyps|]; lia.
Qed.

Lemma char_to_Z_mod c : (char_to_Z c mod 256 = Z.of_N (N_of_ascii c))%Z.
Proof.
  unfold char_to_Z. pose proof (N_of_ascii_bound c) as Hb.
  set (n := Z.of_N (N_of_ascii c)) in *.
  destruct (char_signed && (128 <=? n)%Z).
  - replace (n - 256)%Z with (n + (-1) * 256)%Z by lia.
    rewrite Z.mod_add by done. by apply Z.mod_small.
  - by apply Z.mod_small.
Qed.

Lemma char16_of_char_range c : (0 ≤ char16_of_char c < 65536)%Z.
Proof. unfold char16_of_char, wrap16. by apply Z.mod_pos_bound. Qed.

Lemma char16_of_char_image c : char_image (char16_of_char c).
Proof.
  unfold char_image, char16_of_char, wrap16, char_to_Z.
  pose proof (N_of_ascii_bound c) as Hb.
  set (n := Z.of_N (N_of_ascii c)) in *.
  destruct char_signed; simpl.
  - destruct (128 <=? n)%Z eqn:E; bool_hyps.
    + right. replace ((n - 256) mod 65536)%Z with (n + 65280)%Z; [lia|].
      apply Z.mod_unique with (-1)%Z; lia.
    + left. apply Z.leb_gt in E. rewrite Z.mod_small; lia.
  - rewrite Z.mod_small by lia. lia.
Qed.

Lemma char_of_char16_of_char c : char_of_char16 (char16_of_char c) = c.
Proof.
  unfold char_of_char16, char16_of_char, wrap16.
  rewrite Z.mod_mod_divide by by exists 256%Z.
  by rewrite char_to_Z_mod, N2Z.id, ascii_N_embedding.
Qed.

Lemma char16_of_char_of_char16 u :
  char_image u → char16_of_char (char_of_char16 u) = u.
Proof.
  unfold char_image, char16_of_char, char_of_char16, wrap16, char_to_Z.
  intros Hu.
  assert (0 ≤ u mod 256 < 256)%Z as Hm by by apply Z.mod_pos_bound.
  rewrite N_ascii_embedding, Z2N.id by lia.
  destruct char_signed; simpl.
  - destruct Hu as [Hu|Hu].
    + rewrite (Z.mod_small u 256) by lia.
      destruct (128 <=? u)%Z eqn:E; [apply Z.leb_le in E; lia|].
      apply Z.mod_small. lia.
    + replace (u mod 256)%Z with (u - 65280)%Z
        by (apply Z.mod_unique with 255%Z; lia).
      destruct (128 <=? u - 65280)%Z eqn:E; [|apply Z.leb_gt in E; lia].
      symmetry. apply Z.mod_unique with (-1)%Z; lia.
  - rewrite (Z.mod_small u 256) by lia. apply Z.mod_small. lia.
Qed.

Lemma toU16_length s : length (toU16 s) = String.length s.
Proof.
  unfold toU16. rewrite length_fmap.
  induction s as [|c s IH]; simpl; [done | by f_equal].
Qed.

Lemma toU16_wf s : u16_wf (toU16 s).
Proof.
  unfold toU16, u16_wf. apply Forall_fmap, Forall_true. intros c. simpl.
  apply char16_of_char_range.
Qed.

Lemma toU16_image s : Forall char_image (toU16 s).
Proof.
  unfold toU16. apply Forall_fmap, Forall_true. intros c.
  apply char16_of_char_image.
Qed.

Lemma toU16_app s1 s2 : toU16 (s1 +:+ s2) = toU16 s1 ++ toU16 s2.
Proof. unfold toU16. by rewrite list_ascii_of_string_app, fmap_app. Qed.

Lemma toString_app w1 w2 : toString (w1 ++ w2) = toString w1 +:+ toString w2.
Proof. unfold toString. by rewrite fmap_app, string_of_list_ascii_app. Qed.

Lemma toString_length w : String.length (toString w) = length w.
Proof.
  unfold toString. induction w as [|u w IH]; simpl; [done | by f_equal].
Qed.

Lemma toString_toU16 s : toString (toU16 s) = s.
Proof.
  unfold toString, toU16. rewrite <- list_fmap_compose.
  rewrite (list_fmap_ext _ id (list_ascii_of_string s)).
  - by rewrite list_fmap_id, string_of_list_ascii_of_string.
  - intros _ c _. apply char_of_char16_of_char.
Qed.

(** C38.  Converting a [std::string] with [toU16] and back with [toString]
    gives the string back, byte for byte, whether [char] is signed or not;
    the conversion keeps the length and produces only 16-bit code units. *)
Theorem toU16_roundtrip s :
  toString (toU16 s) = s ∧ length (toU16 s) = String.length s ∧
  u16_wf (toU16 s).
Proof.
  split; [apply toString_toU16|].
  split; [apply toU16_length | apply toU16_wf].
Qed.

(** C39.  The code units that survive the round trip through
    [std::string] are exactly those in the image of the [char] conversion:
    7-bit characters on every platform, and above them the sign-extended
    range on a signed-[char] platform or the Latin-1 range on an unsigned
    one.  Every other code unit is altered by [toString]. *)
Theorem toU16_toString w : toU16 (toString w) = w ↔ Forall char_image w.
Proof.
  split.
  - intros <-. apply toU16_image.
  - intros Hw. unfold toString, toU16.
    rewrite list_ascii_of_string_of_list_ascii, <- list_fmap_compose.
    rewrite <- (list_fmap_id w) at 2. apply Forall_fmap_ext_1.
    eapply Forall_impl; [done|]. intros u Hu.
    by apply char16_of_char_of_char16.
Qed.

(** [toU16] loses nothing: distinct strings have distinct conversions. *)
Lemma toU16_inj s1 s2 : toU16 s1 = toU16 s2 → s1 = s2.
Proof.
  intros Heq. by rewrite <- (toString_toU16 s1), Heq, toString_toU16.
Qed.

End conversion_lemmas.

(** ** The order on identifiers *)

Lemma u16_ltb_irrefl a : u16_ltb a a = false.
Proof. induction a as [|x a IH]; simpl; [done|]. by rewrite Z.ltb_irrefl. Qed.

Lemma u16_ltb_trans a b c :
  u16_ltb a b = true → u16_ltb b c = true → u16_ltb a c = true.
Proof.
  revert b c. induction a as [|x a IH]; intros [|y b] [|z c]; simpl; try done.
  destruct (Z.ltb_spec x y), (Z.ltb_spec y x), (Z.ltb_spec y z),
    (Z.ltb_spec z y), (Z.ltb_spec x z), (Z.ltb_spec z x);
    try done; try lia; eauto.
Qed.

Lemma u16_ltb_total a b : u16_ltb a b = false → u16_ltb b a = false → a = b.
Proof.
  revert b. induction a as [|x a IH]; intros [|y b]; simpl; try done.
  destruct (Z.ltb_spec x y), (Z.ltb_spec y x); try done; try lia.
  intros. f_equal; [lia | by apply IH].
Qed.

#[export] Instance u16_key_order : KeyOrder u16string := {|
  key_ltb := u16_ltb;
  key_ltb_irrefl := u16_ltb_irrefl;
  key_ltb_trans := u16_ltb_trans;
  key_ltb_total := u16_ltb_total;
|}.

(** ** [find] *)

Lemma find_Some s needle j : find s needle = Some j ↔ first_at needle s j.
Proof. apply find_from_Some. Qed.

Lemma find_None s needle : find s needle = None ↔ ¬ infix_of needle s.
Proof. apply find_from_None. Qed.

Lemma find_is_Some s needle : is_Some (find s needle) ↔ infix_of needle s.
Proof. apply find_from_is_Some. Qed.

#[export] Hint Resolve toU16_wf toU16_image : owl.
