(* ===== verification/Regex.v ===== *)
(** * POSIX extended regular expressions, as far as the program uses them

    The world model selects identifiers and attribute names with POSIX
    extended regular expressions, which the program sends as text
    ([desired_ids], the literals of the two requests).  This file gives the
    part of that language the program's patterns are written in: ordinary
    characters, escaped characters, [.], [*], [|] and parentheses.

    - [regex] is the abstract syntax and [matches] the language of an
      expression;
    - [accepts] decides [matches] by derivatives, so that a match can be
      computed;
    - [ere_parse] reads the text of a pattern.  It is one pass over the
      text with a stack of open parentheses; a character of the language
      that is outside this part (brackets, [+], [?], braces, anchors)
      makes it fail rather than be misread. *)

From S2P Require Import Prelude U16String.

(** ** Syntax and language *)

Inductive regex : Type :=
  | Void
  | Eps
  | Chr (c : Z)
  | Any
  | Cat (r1 r2 : regex)
  | Alt (r1 r2 : regex)
  | Star (r : regex).

#[export] Instance regex_eq_dec : EqDecision regex.
Proof. solve_decision. Defined.

Inductive matches : regex → u16string → Prop :=
  | matches_eps : matches Eps []
  | matches_chr c : matches (Chr c) [c]
  | matches_any c : matches Any [c]
  | matches_cat r1 r2 s1 s2 :
      matches r1 s1 → matches r2 s2 → matches (Cat r1 r2) (s1 ++ s2)
  | matches_alt_l r1 r2 s : matches r1 s → matches (Alt r1 r2) s
  | matches_alt_r r1 r2 s : matches r2 s → matches (Alt r1 r2) s
  | matches_star_nil r : matches (Star r) []
  | matches_star_cons r s1 s2 :
      matches r s1 → matches (Star r) s2 → matches (Star r) (s1 ++ s2).

(** The concatenation and the alternation of a list of expressions. *)
Definition cat_join (rs : list regex) : regex := foldr Cat Eps rs.

Fixpoint alt_join (rs : list regex) : regex :=
  match rs with
  | [] => Void
  | [r] => r
  | r :: rs' => Alt r (alt_join rs')
  end.

(** The expression that matches the text [s] and nothing else. *)
Definition literal (s : u16string) : list regex := Chr <$> s.

(** ** Deciding a match *)

Fixpoint nullable (r : regex) : bool :=
  match r with
  | Void | Chr _ | Any => false
  | Eps | Star _ => true
  | Cat r1 r2 => nullable r1 && nullable r2
  | Alt r1 r2 => nullable r1 || nullable r2
  end.

(** What is left of [r] after the character [c]. *)
Fixpoint deriv (c : Z) (r : regex) : regex :=
  match r with
  | Void | Eps => Void
  | Chr c' => if decide (c = c') then Eps else Void
  | Any => Eps
  | Cat r1 r2 =>
      if nullable r1 then Alt (Cat (deriv c r1) r2) (deriv c r2)
      else Cat (deriv c r1) r2
  | Alt r1 r2 => Alt (deriv c r1) (deriv c r2)
  | Star r' => Cat (deriv c r') (Star r')
  end.

Definition accepts (r : regex) (s : u16string) : bool :=
  nullable (foldl (λ r c, deriv c r) r s).

(** ** Inversion of [matches] *)

Section matches_lemmas.
Implicit Types (r : regex) (s : u16string) (c : Z).

Lemma matches_void_inv s : ¬ matches Void s.
Proof. inversion 1. Qed.

Lemma matches_eps_inv s : matches Eps s ↔ s = [].
Proof. split; [by inversion 1 | intros ->; constructor]. Qed.

Lemma matches_chr_inv c s : matches (Chr c) s ↔ s = [c].
Proof. split; [by inversion 1 | intros ->; constructor]. Qed.

Lemma matches_any_inv s : matches Any s ↔ ∃ c, s = [c].
Proof. split; [inversion 1; eauto | intros [c ->]; constructor]. Qed.

Lemma matches_cat_inv r1 r2 s :
  matches (Cat r1 r2) s ↔ ∃ s1 s2, s = s1 ++ s2 ∧ matches r1 s1 ∧ matches r2 s2.
Proof.
  split; [inversion 1; eauto | intros (s1 & s2 & -> & ? & ?); by constructor].
Qed.

Lemma matches_alt_inv r1 r2 s :
  matches (Alt r1 r2) s ↔ matches r1 s ∨ matches r2 s.
Proof.
  split; [inversion 1; eauto | intros [?|?]; by constructor].
Qed.

(** A non-empty match of a star starts with a non-empty match of its
    body. *)
Lemma matches_star_cons_inv r c s :
  matches (Star r) (c :: s) →
  ∃ s1 s2, s = s1 ++ s2 ∧ matches r (c :: s1) ∧ matches (Star r) s2.
Proof.
  intros Hm. remember (Star r) as r' eqn:Hr. remember (c :: s) as s' eqn:Hs.
  revert s Hs. induction Hm as [| | | | | | |r0 s1 s2 Hm1 _ Hm2 IH]; try done.
  injection Hr as ->. intros s Hs. destruct s1 as [|c' s1].
  - by apply IH.
  - cbn in Hs. injection Hs as <- <-. by exists s1, s2.
Qed.

Lemma matches_star_any s : matches (Star Any) s.
Proof.
  induction s as [|c s IH]; [constructor|].
  apply (matches_star_cons Any [c] s); [constructor | done].
Qed.

(** A match of a concatenation that starts with [c]: the character belongs
    to the first part, or the first part is empty. *)
Lemma matches_cat_cons r1 r2 c s :
  matches (Cat r1 r2) (c :: s) ↔
  (∃ s1 s2, s = s1 ++ s2 ∧ matches r1 (c :: s1) ∧ matches r2 s2) ∨
  (matches r1 [] ∧ matches r2 (c :: s)).
Proof.
  rewrite matches_cat_inv. split.
  - intros ([|c' s1] & s2 & Hs & H1 & H2); cbn in Hs.
    + right. by subst.
    + left. injection Hs as <- ->. by exists s1, s2.
  - intros [(s1 & s2 & -> & H1 & H2)|[H1 H2]].
    + by exists (c :: s1), s2.
    + by exists [], (c :: s).
Qed.

(** ** The matcher is right *)

Lemma nullable_spec r : nullable r = true ↔ matches r [].
Proof.
  induction r as [| | | |r1 IH1 r2 IH2|r1 IH1 r2 IH2|r IH]; cbn [nullable].
  - split; [done | by intros ?%matches_void_inv].
  - split; [constructor | done].
  - split; [done | by intros ?%matches_chr_inv].
  - split; [done | by intros [? ?]%matches_any_inv].
  - rewrite andb_true_iff, IH1, IH2, matches_cat_inv. split.
    + intros [? ?]. by exists [], [].
    + intros (s1 & s2 & Hs & ? & ?). symmetry in Hs.
      apply app_eq_nil in Hs as [-> ->]. done.
  - by rewrite orb_true_iff, IH1, IH2, matches_alt_inv.
  - split; [constructor | done].
Qed.

Lemma deriv_spec c r s : matches (deriv c r) s ↔ matches r (c :: s).
Proof.
  revert s.
  induction r as [| |c'| |r1 IH1 r2 IH2|r1 IH1 r2 IH2|r IH]; intros s;
    cbn [deriv].
  - split; by intros ?%matches_void_inv.
  - split; [by intros ?%matches_void_inv | by intros ?%matches_eps_inv].
  - case_decide as Hc.
    + subst. rewrite matches_eps_inv, matches_chr_inv.
      split; [by intros -> | by intros [= ->]].
    + split; [by intros ?%matches_void_inv|].
      intros [= ? ?]%matches_chr_inv. done.
  - rewrite matches_eps_inv, matches_any_inv.
    split; [intros ->; eauto | by intros [? [= _ ->]]].
  - rewrite matches_cat_cons, <- nullable_spec.
    destruct (nullable r1).
    + rewrite matches_alt_inv, matches_cat_inv, IH2.
      setoid_rewrite IH1.
      split; (intros [Hl|Hr]; [by left | right]); [done | by destruct Hr].
    + rewrite matches_cat_inv. setoid_rewrite IH1.
      split; [by left | by intros [?|[? _]]].
  - by rewrite !matches_alt_inv, IH1, IH2.
  - rewrite matches_cat_inv. split.
    + intros (s1 & s2 & -> & H1%IH & H2).
      by apply (matches_star_cons r (c :: s1) s2).
    + intros (s1 & s2 & -> & H1 & H2)%matches_star_cons_inv.
      exists s1, s2. by rewrite IH.
Qed.

(** The matcher decides the language: [accepts r s] holds exactly when
    [s] is in the language of [r]. *)
Lemma accepts_spec r s : accepts r s = true ↔ matches r s.
Proof.
  unfold accepts. revert r. induction s as [|c s IH]; intros r; cbn [foldl].
  - apply nullable_spec.
  - by rewrite IH, deriv_spec.
Qed.

#[export] Instance matches_dec r s : Decision (matches r s).
Proof.
  refine (cast_if (decide (accepts r s = true))); by rewrite <- accepts_spec.
Defined.

(** *** Joined expressions *)

Lemma matches_cat_join_app rs1 rs2 s :
  matches (cat_join (rs1 ++ rs2)) s ↔
  ∃ s1 s2, s = s1 ++ s2 ∧ matches (cat_join rs1) s1 ∧ matches (cat_join rs2) s2.
Proof.
  revert s. induction rs1 as [|r rs1 IH]; intros s; cbn [app cat_join foldr].
  - split.
    + intros Hm. exists [], s. split; [done|]. split; [constructor | done].
    + by intros (s1 & s2 & -> & ->%matches_eps_inv & Hm).
  - fold (cat_join (rs1 ++ rs2)). fold (cat_join rs1).
    rewrite matches_cat_inv. setoid_rewrite IH. setoid_rewrite matches_cat_inv.
    split.
    + intros (s1 & s2 & -> & H1 & s3 & s4 & -> & H3 & H4).
      exists (s1 ++ s3), s4. rewrite app_assoc. split; [done|].
      split; [by exists s1, s3 | done].
    + intros (s1 & s2 & -> & (s3 & s4 & -> & H3 & H4) & H2).
      exists s3, (s4 ++ s2). rewrite app_assoc. split; [done|].
      split; [done | by exists s4, s2].
Qed.

Lemma matches_cat_join_cons r rs s :
  matches (cat_join (r :: rs)) s ↔
  ∃ s1 s2, s = s1 ++ s2 ∧ matches r s1 ∧ matches (cat_join rs) s2.
Proof. apply matches_cat_inv. Qed.

Lemma matches_literal text s : matches (cat_join (literal text)) s ↔ s = text.
Proof.
  revert s. induction text as [|c text IH]; intros s.
  - apply matches_eps_inv.
  - cbn [literal fmap list_fmap]. rewrite matches_cat_join_cons.
    setoid_rewrite matches_chr_inv. setoid_rewrite IH. split.
    + by intros (s1 & s2 & -> & -> & ->).
    + intros ->. by exists [c], text.
Qed.

Lemma matches_alt_join rs s :
  matches (alt_join rs) s ↔ ∃ r, r ∈ rs ∧ matches r s.
Proof.
  induction rs as [|r [|r' rs] IH].
  - split; [by intros ?%matches_void_inv | by intros (r & ?%elem_of_nil & _)].
  - split; [intros Hm; exists r; by rewrite list_elem_of_singleton|].
    by intros (r0 & ->%list_elem_of_singleton & Hm).
  - change (alt_join (r :: r' :: rs)) with (Alt r (alt_join (r' :: rs))).
    rewrite matches_alt_inv, IH. split.
    + intros [Hm|(r0 & Hin & Hm)]; [exists r | exists r0]; split;
        [left | done | by right | done].
    + intros (r0 & [->|Hin]%elem_of_cons & Hm); [by left | right; eauto].
Qed.

End matches_lemmas.

(** ** Reading the text of a pattern *)

(** What a character of a pattern stands for. *)
Inductive token : Type :=
  | TOpen | TClose | TBar | TStar | TDot | TEscape | TUnsupported | TChar.

Definition classify (c : Z) : token :=
  if decide (c = 40%Z) then TOpen
  else if decide (c = 41%Z) then TClose
  else if decide (c = 124%Z) then TBar
  else if decide (c = 42%Z) then TStar
  else if decide (c = 46%Z) then TDot
  else if decide (c = 92%Z) then TEscape
  else if bool_decide (c ∈ u16_literal "[]+?{}^$") then TUnsupported
  else TChar.

(** A character that stands for itself. *)
Definition plain (c : Z) : Prop := classify c = TChar.

#[export] Instance plain_dec c : Decision (plain c).
Proof. unfold plain. solve_decision. Defined.

(** A parenthesis that is open: the alternatives that are complete and
    the pieces of the alternative being read. *)
Record frame : Type := mkFrame {
  alts : list regex;
  branch : list regex;
}.

Definition push (r : regex) (f : frame) : frame :=
  mkFrame (alts f) (branch f ++ [r]).

(** The expression of a parenthesis that closes. *)
Definition close (f : frame) : regex :=
  alt_join (alts f ++ [cat_join (branch f)]).

(** [*] applies to the last piece. *)
Fixpoint star_last (pieces : list regex) : option (list regex) :=
  match pieces with
  | [] => None
  | [r] => Some [Star r]
  | r :: pieces' => (r ::.) <$> star_last pieces'
  end.

Fixpoint parse_go (s : u16string) (cur : frame) (outer : list frame) :
    option regex :=
  match s with
  | [] =>
      match outer with
      | [] => Some (close cur)
      | _ :: _ => None
      end
  | c :: s' =>
      match classify c with
      | TOpen => parse_go s' (mkFrame [] []) (cur :: outer)
      | TClose =>
          match outer with
          | [] => None
          | f :: outer' => parse_go s' (push (close cur) f) outer'
          end
      | TBar =>
          parse_go s' (mkFrame (alts cur ++ [cat_join (branch cur)]) []) outer
      | TStar =>
          match star_last (branch cur) with
          | None => None
          | Some pieces => parse_go s' (mkFrame (alts cur) pieces) outer
          end
      | TDot => parse_go s' (push Any cur) outer
      | TEscape =>
          match s' with
          | [] => None
          | c' :: s'' => parse_go s'' (push (Chr c') cur) outer
          end
      | TUnsupported => None
      | TChar => parse_go s' (push (Chr c) cur) outer
      end
  end.

Definition ere_parse (s : u16string) : option regex :=
  parse_go s (mkFrame [] []) [].

(** What the world model does with a pattern and an identifier: the
    pattern is read, and the whole identifier has to match. *)
Definition ere_match (pattern s : u16string) : bool :=
  match ere_parse pattern with
  | Some r => accepts r s
  | None => false
  end.

(** ** The parser, step by step *)

Section parse_lemmas.
Implicit Types (s text rest : u16string) (cur f : frame) (outer : list frame).

Lemma star_last_snoc pieces r :
  star_last (pieces ++ [r]) = Some (pieces ++ [Star r]).
Proof.
  induction pieces as [|r0 pieces IH]; [done|].
  cbn [app star_last]. rewrite IH.
  by destruct (pieces ++ [r]) eqn:E; [destruct pieces|].
Qed.

Lemma parse_go_open s cur outer :
  parse_go (40%Z :: s) cur outer = parse_go s (mkFrame [] []) (cur :: outer).
Proof. done. Qed.

Lemma parse_go_close s cur f outer :
  parse_go (41%Z :: s) cur (f :: outer) = parse_go s (push (close cur) f) outer.
Proof. done. Qed.

Lemma parse_go_bar s cur outer :
  parse_go (124%Z :: s) cur outer =
  parse_go s (mkFrame (alts cur ++ [cat_join (branch cur)]) []) outer.
Proof. done. Qed.

Lemma parse_go_dot s cur outer :
  parse_go (46%Z :: s) cur outer = parse_go s (push Any cur) outer.
Proof. done. Qed.

Lemma parse_go_escape c s cur outer :
  parse_go (92%Z :: c :: s) cur outer = parse_go s (push (Chr c) cur) outer.
Proof. done. Qed.

Lemma parse_go_star s a pieces r outer :
  parse_go (42%Z :: s) (mkFrame a (pieces ++ [r])) outer =
  parse_go s (mkFrame a (pieces ++ [Star r])) outer.
Proof.
  change (parse_go (42%Z :: s) (mkFrame a (pieces ++ [r])) outer) with
    (match star_last (pieces ++ [r]) with
     | None => None
     | Some pieces' => parse_go s (mkFrame a pieces') outer
     end).
  by rewrite star_last_snoc.
Qed.

(** Ordinary characters are read as themselves. *)
Lemma parse_go_plain text rest a pieces outer :
  Forall plain text →
  parse_go (text ++ rest) (mkFrame a pieces) outer =
  parse_go rest (mkFrame a (pieces ++ literal text)) outer.
Proof.
  intros Htext. revert pieces.
  induction Htext as [|c text Hc _ IH]; intros pieces.
  - by rewrite app_nil_r.
  - cbn [app parse_go]. rewrite Hc. unfold push. cbn [alts branch].
    rewrite IH. cbn [literal fmap list_fmap]. by rewrite <- app_assoc.
Qed.

End parse_lemmas.
