(* ===== verification/Env.v ===== *)
(** * The world outside the program

    [query_world.cpp] reaches the world model through library objects: the
    solver connection [swm] ([sendData]), the clock ([getGRAILTime]) and the
    two standard streams.  This file states what the program assumes of
    them, as the class [Env], and the data that crosses the boundary
    ([AttrUpdate], [SampleData]).  The theorems about the program are proved
    for every instance of [Env]; [Scripted] is the instance the concrete
    runs use: a connection that answers each [sendData] from a script and
    keeps what it accepted. *)

From S2P Require Import Prelude Monad OrderedMap U16String.

(** ** Data that crosses the boundary *)

(** [SolverWorldModel::AttrUpdate]: one value to push to the world model. *)
Record AttrUpdate : Type := mkAttrUpdate {
  au_name : u16string;
  au_creation_date : Z;
  au_uri : u16string;
  au_data : list byte;
}.

(** [SampleData]: one raw sample delivered by the aggregator. *)
Record SampleData : Type := mkSampleData {
  valid : bool;
  physical_layer : byte;
  tx_id : Z;
  sense_data : list byte;
}.

(** [Rule]: the subscription of the solver to the samples of the
    transmitters [txers] of one physical layer. *)
Record Rule : Type := mkRule {
  rule_physical_layer : byte;
  rule_txers : list Z;
}.

#[export] Instance AttrUpdate_eq_dec : EqDecision AttrUpdate.
Proof. solve_decision. Defined.

(** ** The interface *)

(** [sendData solns synchronous w] is one call of
    [swm.sendData(solns, synchronous)] in the world [w]: the world after
    the call, and the exception it threw, if any.  [getGRAILTime] reads the
    clock. *)
Class Env (W : Type) := {
  sendData : list AttrUpdate → bool → W → W * option exn;
  getGRAILTime : W → W * Z;
}.

(** The state of the process as the outside sees it: the world and what
    was written to [std::cout] and [std::cerr], oldest first. *)
Record Process (W : Type) : Type := mkProcess {
  world : W;
  cout : list string;
  cerr : list string;
}.
Arguments mkProcess {W} _ _ _.
Arguments world {W} _.
Arguments cout {W} _.
Arguments cerr {W} _.

Section calls.
Context {W : Type} `{Env W}.

Definition set_world (w : W) (p : Process W) : Process W :=
  mkProcess w (cout p) (cerr p).

(** [std::cout << text] and [std::cerr << text]. *)
Definition print_out (text : string) : prog (Process W) () :=
  modify (λ p, mkProcess (world p) (cout p ++ [text]) (cerr p)).
Definition print_err (text : string) : prog (Process W) () :=
  modify (λ p, mkProcess (world p) (cout p) (cerr p ++ [text])).

(** A call of [swm.sendData]: the world moves, and the exception, if any,
    propagates. *)
Definition call_sendData (solns : list AttrUpdate) (synchronous : bool) :
    prog (Process W) () := λ p,
  match sendData solns synchronous (world p) with
  | (w', None) => (set_world w' p, Ok ())
  | (w', Some e) => (set_world w' p, Throw e)
  end.

(** A call of [world_model::getGRAILTime()]. *)
Definition call_getGRAILTime : prog (Process W) Z := λ p,
  let '(w', now) := getGRAILTime (world p) in (set_world w' p, Ok now).

(** A call of a library function that returns: the world moves. *)
Definition call_total {A} (op : W → W * A) : prog (Process W) A := λ p,
  let '(w', a) := op (world p) in (set_world w' p, Ok a).

(** A call of a library function that returns or throws. *)
Definition call_throwing {A} (op : W → W * (exn + A)) : prog (Process W) A :=
  λ p,
  match op (world p) with
  | (w', inr a) => (set_world w' p, Ok a)
  | (w', inl e) => (set_world w' p, Throw e)
  end.

(** A computation that only writes: [outs] to [std::cout] and [errs] to
    [std::cerr], and then returns. *)
Definition prints (outs errs : list string) (m : prog (Process W) ()) : Prop :=
  ∀ p, m p = (mkProcess (world p) (cout p ++ outs) (cerr p ++ errs), Ok ()).

End calls.

(** ** A scripted connection *)

(** The world of the concrete runs: [script] holds the answers to the
    coming [sendData] calls ([None] accepts the batch, [Some e] throws [e];
    an exhausted script accepts), [accepted] the batches that were accepted,
    oldest first, [attempts] the number of calls so far and [clock] the
    time, which advances by one at each reading. *)
Record Scripted : Type := mkScripted {
  script : list (option exn);
  accepted : list (list AttrUpdate);
  attempts : nat;
  clock : Z;
}.

Definition scripted_sendData (solns : list AttrUpdate) (synchronous : bool)
    (w : Scripted) : Scripted * option exn :=
  match script w with
  | Some e :: rest =>
      (mkScripted rest (accepted w) (S (attempts w)) (clock w), Some e)
  | None :: rest =>
      (mkScripted rest (accepted w ++ [solns]) (S (attempts w)) (clock w), None)
  | [] =>
      (mkScripted [] (accepted w ++ [solns]) (S (attempts w)) (clock w), None)
  end.

Definition scripted_getGRAILTime (w : Scripted) : Scripted * Z :=
  (mkScripted (script w) (accepted w) (attempts w) (clock w + 1), clock w).

#[export] Instance scripted_env : Env Scripted := {|
  sendData := scripted_sendData;
  getGRAILTime := scripted_getGRAILTime;
|}.

(** A fresh scripted world. *)
Definition scripted_init (answers : list (option exn)) (now : Z) : Scripted :=
  mkScripted answers [] 0 now.

(** ** Lemmas on the calls *)

Section call_lemmas.
Context {W : Type} `{Env W}.
Implicit Types (p : Process W) (w : W).

Lemma call_sendData_ok solns sync p w' :
  sendData solns sync (world p) = (w', None) →
  call_sendData solns sync p = (set_world w' p, Ok ()).
Proof. unfold call_sendData. by intros ->. Qed.

Lemma call_sendData_throws solns sync p w' e :
  sendData solns sync (world p) = (w', Some e) →
  call_sendData solns sync p = (set_world w' p, Throw e).
Proof. unfold call_sendData. by intros ->. Qed.

Lemma call_sendData_cout solns sync p :
  cout (call_sendData solns sync p).1 = cout p ∧
  cerr (call_sendData solns sync p).1 = cerr p.
Proof.
  unfold call_sendData. by destruct (sendData _ _ _) as [w' [e|]].
Qed.

Lemma set_world_world w p : world (set_world w p) = w.
Proof. done. Qed.

Lemma set_world_set_world w w' p : set_world w (set_world w' p) = set_world w p.
Proof. done. Qed.

Lemma set_world_id p : set_world (world p) p = p.
Proof. by destruct p. Qed.

Lemma call_total_eq {A} (op : W → W * A) p w' a :
  op (world p) = (w', a) → call_total op p = (set_world w' p, Ok a).
Proof. unfold call_total. by intros ->. Qed.

Lemma call_throwing_ok {A} (op : W → W * (exn + A)) p w' a :
  op (world p) = (w', inr a) → call_throwing op p = (set_world w' p, Ok a).
Proof. unfold call_throwing. by intros ->. Qed.

Lemma call_throwing_throws {A} (op : W → W * (exn + A)) p w' e :
  op (world p) = (w', inl e) → call_throwing op p = (set_world w' p, Throw e).
Proof. unfold call_throwing. by intros ->. Qed.

Lemma print_out_bind {B} text (k : () → prog (Process W) B) p :
  (print_out text ≫= k) p = k () (mkProcess (world p) (cout p ++ [text]) (cerr p)).
Proof. done. Qed.

Lemma print_err_bind {B} text (k : () → prog (Process W) B) p :
  (print_err text ≫= k) p = k () (mkProcess (world p) (cout p) (cerr p ++ [text])).
Proof. done. Qed.

Lemma call_total_bind {A B} (op : W → W * A) (k : A → prog (Process W) B)
    w out err w' a :
  op w = (w', a) →
  (call_total op ≫= k) (mkProcess w out err) = k a (mkProcess w' out err).
Proof.
  intros Hop. rewrite bind_unfold. unfold call_total. cbn [world].
  by rewrite Hop.
Qed.

(** ** Computations that only write *)

Lemma prints_ret : prints [] [] (mret () : prog (Process W) ()).
Proof. intros [w out err]. cbn. by rewrite !app_nil_r. Qed.

Lemma prints_out text : prints (W:=W) [text] [] (print_out text).
Proof. intros [w out err]. cbn. by rewrite app_nil_r. Qed.

Lemma prints_err text : prints (W:=W) [] [text] (print_err text).
Proof. intros [w out err]. cbn. by rewrite app_nil_r. Qed.

Lemma prints_seq o1 e1 o2 e2 (m1 m2 : prog (Process W) ()) :
  prints o1 e1 m1 → prints o2 e2 m2 → prints (o1 ++ o2) (e1 ++ e2) (m1 ;; m2).
Proof.
  intros H1 H2 p. rewrite (bind_ok _ _ _ _ _ (H1 p)), H2. cbn.
  by rewrite !app_assoc.
Qed.

Lemma prints_for_each {A} (l : list A) (outs errs : A → list string)
    (body : A → prog (Process W) ()) :
  (∀ x, x ∈ l → prints (outs x) (errs x) (body x)) →
  prints (l ≫= outs) (l ≫= errs) (for_each l body).
Proof.
  induction l as [|x l IH]; intros Hbody; [apply prints_ret|].
  cbn [for_each]. apply prints_seq.
  - apply Hbody. left.
  - apply IH. intros y Hy. apply Hbody. by right.
Qed.

Lemma prints_eq outs errs outs' errs' (m : prog (Process W) ()) :
  prints outs errs m → outs = outs' → errs = errs' → prints outs' errs' m.
Proof. by intros ? <- <-. Qed.

End call_lemmas.

#[export] Hint Rewrite @set_world_world @set_world_set_world @set_world_id : prog.
#[export] Hint Resolve prints_ret prints_out prints_err : owl.

(** Runs the write at the head of a computation, and a call of the outside
    whose answer is the hypothesis [H]. *)
Ltac step_print :=
  first [rewrite print_err_bind | rewrite print_out_bind];
  cbv beta; cbn [world cout cerr].
Ltac step_call H :=
  rewrite (call_total_bind _ _ _ _ _ _ _ H); cbv beta; cbn [world cout cerr].
