(* ===== verification/Dispatcher.v ===== *)
(** * The update dispatcher: the retry loop around [sendData]

    Lines 146-163 of [query_world.cpp]:
<<
    bool retry = true;
    while (retry) {
      try { retry = false; swm.sendData(solns, false); }
      catch (std::runtime_error& err) {
        if (err.what() == std::string("Error sending data over socket: "
                                      "Resource temporarily unavailable")) {
          std::cerr << "Experiencing socket slow down ... Retrying...\n";
          retry = true;
        }
        else { throw err; }
      }
    }
>>
    The loop has no bound: [send_with_retry] takes the number of attempts it
    may make as fuel and ends in [Fuel] when they are used up.  The theorems
    say how much fuel is enough, and that a connection which keeps failing
    transiently keeps the loop from returning whatever the fuel. *)

From S2P Require Import Prelude Monad OrderedMap U16String Env.

(** The one message the loop treats as transient. *)
Definition transient_what : string :=
  "Error sending data over socket: Resource temporarily unavailable".

(** What the loop writes before it tries again. *)
Definition retry_message : string :=
  "Experiencing socket slow down with world model connection. Retrying..."
  +:+ String "010" EmptyString.

Section dispatcher.
Context {W : Type} `{Env W}.

(** The [catch] block: [true] asks for another iteration. *)
Definition on_runtime_error (what : string) : prog (Process W) bool :=
  if String.eqb what transient_what
  then print_err retry_message ;; mret true
  else throw (runtime_error what).

(** One iteration of the loop: the value of [retry] at its end. *)
Definition send_attempt (solns : list AttrUpdate) : prog (Process W) bool :=
  try_catch (call_sendData solns false ;; mret false) on_runtime_error.

(** The loop, with at most [fuel] iterations. *)
Fixpoint send_with_retry (fuel : nat) (solns : list AttrUpdate) :
    prog (Process W) () :=
  match fuel with
  | O => out_of_fuel
  | S fuel' =>
      retry ← send_attempt solns;
      if retry : bool then send_with_retry fuel' solns else mret ()
  end.

(** ** Behaviours of the connection *)

(** The exception a transient failure throws. *)
Definition transient : exn := runtime_error transient_what.

(** An exception the loop does not retry. *)
Definition permanent (e : exn) : Prop := e ≠ transient.

#[export] Instance permanent_dec e : Decision (permanent e).
Proof. unfold permanent. apply _. Defined.

(** [n] calls in a row fail transiently and lead the world from [w] to
    [w']. *)
Inductive transient_run (solns : list AttrUpdate) : nat → W → W → Prop :=
  | transient_run_O w : transient_run solns 0 w w
  | transient_run_S n w w1 w' :
      sendData solns false w = (w1, Some transient) →
      transient_run solns n w1 w' →
      transient_run solns (S n) w w'.

(** The result of the loop for the answer of the call that ended it. *)
Definition final_result (answer : option exn) : result () :=
  match answer with
  | None => Ok ()
  | Some e => Throw e
  end.

(** From [w] on, every call fails transiently: there is a set of worlds
    that contains [w] and that a transient failure does not leave. *)
Definition always_transient (solns : list AttrUpdate) (w : W) : Prop :=
  ∃ X : W → Prop,
    X w ∧ ∀ w0, X w0 → ∃ w1, sendData solns false w0 = (w1, Some transient) ∧ X w1.

End dispatcher.

(** A connection whose send buffer never drains: every call fails
    transiently.  [busy n] has been called [n] times. *)
Inductive Busy : Type := busy (calls : nat).

#[export] Instance busy_env : Env Busy := {|
  sendData _ _ w := let 'busy n := w in (busy (S n), Some transient);
  getGRAILTime w := (w, 0%Z);
|}.

(** ** One attempt *)

Section dispatcher_lemmas.
Context {W : Type} `{Env W}.
Implicit Types (p : Process W) (w : W) (solns : list AttrUpdate).

Lemma send_attempt_ok solns p w' :
  sendData solns false (world p) = (w', None) →
  send_attempt solns p = (set_world w' p, Ok false).
Proof.
  intros Hs. unfold send_attempt. apply try_catch_ok.
  by rewrite (bind_ok _ _ _ _ _ (call_sendData_ok _ _ _ _ Hs)).
Qed.

Lemma send_attempt_transient solns p w' :
  sendData solns false (world p) = (w', Some transient) →
  send_attempt solns p =
    (mkProcess w' (cout p) (cerr p ++ [retry_message]), Ok true).
Proof.
  intros Hs. unfold send_attempt.
  erewrite try_catch_caught;
    [|by rewrite (bind_throw _ _ _ _ _ (call_sendData_throws _ _ _ _ _ Hs))].
  done.
Qed.

Lemma send_attempt_permanent solns p w' e :
  sendData solns false (world p) = (w', Some e) → permanent e →
  send_attempt solns p = (set_world w' p, Throw e).
Proof.
  intros Hs Hperm. unfold send_attempt.
  pose proof (bind_throw _ (λ _, mret false) _ _ _
    (call_sendData_throws _ _ _ _ _ Hs)) as Hthrow.
  destruct e as [what|what].
  - erewrite try_catch_caught by done. unfold on_runtime_error.
    destruct (String.eqb_spec what transient_what) as [->|Hne]; [|done].
    by destruct Hperm.
  - by erewrite try_catch_passed.
Qed.

(** ** The loop *)

Lemma send_with_retry_S fuel solns p :
  send_with_retry (S fuel) solns p =
  match send_attempt solns p with
  | (p', Ok true) => send_with_retry fuel solns p'
  | (p', Ok false) => (p', Ok ())
  | (p', Throw e) => (p', Throw e)
  | (p', Fuel) => (p', Fuel)
  end.
Proof.
  cbn [send_with_retry]. rewrite bind_unfold.
  by destruct (send_attempt solns p) as [p' [[|]|e|]].
Qed.

(** [n] transient failures are absorbed by [n] iterations, each of which
    writes the retry message. *)
Lemma send_with_retry_transient_run n fuel solns p w' :
  transient_run solns n (world p) w' →
  send_with_retry (n + fuel) solns p =
  send_with_retry fuel solns
    (mkProcess w' (cout p) (cerr p ++ replicate n retry_message)).
Proof.
  revert p. induction n as [|n IH]; intros p; inversion 1 as [|? ? w1 ? Hs Hrun]; subst.
  - cbn [plus replicate]. rewrite app_nil_r. by destruct p.
  - cbn [plus]. rewrite send_with_retry_S, (send_attempt_transient _ _ _ Hs).
    rewrite IH by done. cbn [cout cerr replicate].
    by rewrite <- app_assoc.
Qed.

(** One attempt whose call does not fail transiently ends the loop. *)
Lemma send_attempt_final fuel solns p w' answer :
  sendData solns false (world p) = (w', answer) →
  answer ≠ Some transient →
  send_with_retry (S fuel) solns p = (set_world w' p, final_result answer).
Proof.
  intros Hs Ha. rewrite send_with_retry_S. destruct answer as [e|].
  - rewrite (send_attempt_permanent _ _ w' e); [done..|]. congruence.
  - by rewrite (send_attempt_ok _ _ w').
Qed.

(** After [n] transient failures, the answer of call [n + 1] ends the loop
    when it is not a transient failure. *)
Lemma send_with_retry_final n fuel solns p w1 w2 answer :
  transient_run solns n (world p) w1 →
  sendData solns false w1 = (w2, answer) →
  answer ≠ Some transient →
  (n < fuel)%nat →
  send_with_retry fuel solns p =
    (mkProcess w2 (cout p) (cerr p ++ replicate n retry_message),
     final_result answer).
Proof.
  intros Hrun Hs Ha Hfuel.
  replace fuel with (n + S (fuel - S n))%nat by lia.
  rewrite (send_with_retry_transient_run _ _ _ _ _ Hrun).
  by rewrite (send_attempt_final _ _ _ w2 answer).
Qed.

(** A loop that ended made [n] transient attempts and one that was not,
    for some [n] below its fuel. *)
Lemma send_with_retry_inv fuel solns p p' r :
  send_with_retry fuel solns p = (p', r) → r ≠ Fuel →
  ∃ n w1 w2 answer,
    transient_run solns n (world p) w1 ∧
    sendData solns false w1 = (w2, answer) ∧ answer ≠ Some transient ∧
    (n < fuel)%nat ∧
    p' = mkProcess w2 (cout p) (cerr p ++ replicate n retry_message) ∧
    r = final_result answer.
Proof.
  revert p. induction fuel as [|fuel IH]; intros p; [by intros [= <- <-]|].
  destruct (sendData solns false (world p)) as [w' answer] eqn:Hs.
  destruct (decide (answer = Some transient)) as [->|Ha].
  - rewrite send_with_retry_S, (send_attempt_transient _ _ _ Hs).
    intros Hloop Hr.
    destruct (IH _ Hloop Hr) as (n & w1 & w2 & a & Hrun & Hfin & Ha & Hn & -> & ->).
    exists (S n), w1, w2, a. cbn [world cout cerr replicate] in *.
    rewrite <- app_assoc. split_and!; [by econstructor|done|done|lia|done..].
  - rewrite (send_attempt_final _ _ _ w' answer) by done.
    intros [= <- <-] _. exists 0%nat, (world p), w', answer.
    cbn [replicate]. rewrite app_nil_r.
    split_and!; [constructor|done|done|lia|done..].
Qed.

(** A loop that used up its fuel made as many transient attempts. *)
Lemma send_with_retry_fuel fuel solns p p' :
  send_with_retry fuel solns p = (p', Fuel) →
  ∃ w1, transient_run solns fuel (world p) w1.
Proof.
  revert p. induction fuel as [|fuel IH]; intros p;
    [exists (world p); constructor|].
  destruct (sendData solns false (world p)) as [w' answer] eqn:Hs.
  destruct (decide (answer = Some transient)) as [->|Ha].
  - rewrite send_with_retry_S, (send_attempt_transient _ _ _ Hs).
    intros [w1 Hrun]%IH. exists w1. by econstructor.
  - rewrite (send_attempt_final _ _ _ w' answer) by done.
    by destruct answer.
Qed.

(** A connection that fails transiently for ever still does after any
    number of failures, and never answers otherwise. *)
Lemma always_transient_run n solns w w1 :
  always_transient solns w → transient_run solns n w w1 →
  always_transient solns w1.
Proof.
  intros (X & Hw & Hstep) Hrun. exists X. split; [|done].
  induction Hrun as [|n w w0 w1 Hs _ IH]; [done|].
  apply IH. destruct (Hstep _ Hw) as (w0' & Hs' & Hw0).
  rewrite Hs in Hs'. by simplify_eq.
Qed.

Lemma always_transient_answer solns w w' answer :
  always_transient solns w → sendData solns false w = (w', answer) →
  answer = Some transient.
Proof.
  intros (X & Hw & Hstep) Hs. destruct (Hstep _ Hw) as (w1 & Hs' & _).
  rewrite Hs in Hs'. by simplify_eq.
Qed.

(** C4.  If the connection fails transiently [n] times and then accepts
    the batch, the loop returns normally as soon as it may make [n + 1]
    attempts: the world has gone through exactly those [n + 1] calls, the
    retry message was written [n] times, and nothing else changed. *)
Theorem send_with_retry_succeeds n fuel solns p w1 w2 :
  transient_run solns n (world p) w1 →
  sendData solns false w1 = (w2, None) →
  (n < fuel)%nat →
  send_with_retry fuel solns p =
    (mkProcess w2 (cout p) (cerr p ++ replicate n retry_message), Ok ()).
Proof.
  intros Hrun Hok Hfuel.
  by apply (send_with_retry_final n fuel solns p w1 w2 None).
Qed.

(** C5.  An exception that is not the transient one leaves the loop at
    the attempt that met it: after [n] transient failures the loop has made
    [n + 1] calls, and the exception propagates to the caller. *)
Theorem send_with_retry_permanent n fuel solns p w1 w2 e :
  transient_run solns n (world p) w1 →
  sendData solns false w1 = (w2, Some e) →
  permanent e →
  (n < fuel)%nat →
  send_with_retry fuel solns p =
    (mkProcess w2 (cout p) (cerr p ++ replicate n retry_message), Throw e).
Proof.
  intros Hrun Hs Hperm Hfuel.
  apply (send_with_retry_final n fuel solns p w1 w2 (Some e)); [done..| |done].
  unfold permanent in Hperm. congruence.
Qed.

(** C10.  Against a connection that fails transiently for ever, the loop
    never returns: whatever number of attempts it is given, it uses them
    all, writing the retry message each time. *)
Theorem send_with_retry_diverges fuel solns p :
  always_transient solns (world p) →
  ∃ w', send_with_retry fuel solns p =
    (mkProcess w' (cout p) (cerr p ++ replicate fuel retry_message), Fuel).
Proof.
  intros (X & Hw & Hstep). revert p Hw.
  induction fuel as [|fuel IH]; intros p Hw.
  - exists (world p). cbn [send_with_retry replicate]. rewrite app_nil_r.
    by destruct p.
  - destruct (Hstep _ Hw) as (w1 & Hs & Hw1).
    rewrite send_with_retry_S, (send_attempt_transient _ _ _ Hs).
    destruct (IH (mkProcess w1 (cout p) (cerr p ++ [retry_message])) Hw1)
      as [w' ->].
    exists w'. cbn [cout cerr replicate]. by rewrite <- app_assoc.
Qed.

(** A result that is not [Fuel] does not depend on the fuel left over. *)
Lemma send_with_retry_fuel_mono fuel fuel' solns p :
  (send_with_retry fuel solns p).2 ≠ Fuel →
  (fuel ≤ fuel')%nat →
  send_with_retry fuel' solns p = send_with_retry fuel solns p.
Proof.
  revert fuel' p. induction fuel as [|fuel IH]; intros fuel' p Hres Hle.
  - by destruct Hres.
  - destruct fuel' as [|fuel']; [lia|]. rewrite !send_with_retry_S in *.
    destruct (send_attempt solns p) as [p' [[|]|e|]]; try done.
    apply IH; [done | lia].
Qed.

End dispatcher_lemmas.

#[export] Hint Constructors transient_run : owl.

(** ** The scripted connection *)

Section scripted.
Implicit Types (w : Scripted) (solns : list AttrUpdate).

(** A script that opens with [n] transient failures makes the first [n]
    calls fail transiently. *)
Lemma scripted_transient_run n solns rest acc k now :
  transient_run solns n
    (mkScripted (replicate n (Some transient) ++ rest) acc k now)
    (mkScripted rest acc (n + k) now).
Proof.
  revert k. induction n as [|n IH]; intros k; [constructor|].
  econstructor; [done|]. cbn [script accepted attempts clock].
  replace (S n + k)%nat with (n + S k)%nat by lia. apply IH.
Qed.

(** On a scripted connection every call consumes one entry of the script,
    so the loop returns once its fuel exceeds the length of the script. *)
Lemma scripted_terminates fuel solns (p : Process Scripted) :
  (length (script (world p)) < fuel)%nat →
  (send_with_retry fuel solns p).2 ≠ Fuel.
Proof.
  revert p. induction fuel as [|fuel IH]; intros [[scr acc k now] out err] Hlen;
    [simpl in Hlen; lia|].
  rewrite send_with_retry_S. cbn [world script] in Hlen.
  destruct scr as [|[e|] scr].
  - by erewrite send_attempt_ok by done.
  - destruct (decide (permanent e)) as [Hperm|Hnp].
    + by erewrite send_attempt_permanent by done.
    + apply dec_stable in Hnp as ->.
      erewrite send_attempt_transient by done. apply IH. simpl in *. lia.
  - by erewrite send_attempt_ok by done.
Qed.

Lemma busy_always_transient solns n : always_transient solns (busy n).
Proof.
  exists (λ _, True). split; [done|]. intros [k] _. by exists (busy (S k)).
Qed.

End scripted.

(** ** Concrete runs *)

(** Two transient failures, then the batch is accepted: three attempts,
    two retry messages, normal return. *)
Lemma send_with_retry_succeeds_witness :
  send_with_retry 3 []
    (mkProcess (scripted_init [Some transient; Some transient; None] 0) [] []) =
  (mkProcess (mkScripted [] [[]] 3 0) [] [retry_message; retry_message], Ok ()).
Proof.
  apply (send_with_retry_succeeds 2 3 []
           (mkProcess (scripted_init [Some transient; Some transient; None] 0) [] [])
           (mkScripted [None] [] 2 0) (mkScripted [] [[]] 3 0)).
  - apply (scripted_transient_run 2 [] [None] [] 0 0).
  - reflexivity.
  - lia.
Defined.

(** A connection that was closed: the first attempt throws, and the loop
    lets the exception through without a retry. *)
Lemma send_with_retry_permanent_witness :
  send_with_retry 5 []
    (mkProcess (scripted_init [Some (runtime_error "Connection closed")] 0) [] []) =
  (mkProcess (mkScripted [] [] 1 0) [] [],
   Throw (runtime_error "Connection closed")).
Proof.
  apply (send_with_retry_permanent 0 5 []
           (mkProcess (scripted_init [Some (runtime_error "Connection closed")] 0) [] [])
           (scripted_init [Some (runtime_error "Connection closed")] 0)
           (mkScripted [] [] 1 0) (runtime_error "Connection closed")).
  - constructor.
  - reflexivity.
  - vm_compute. discriminate.
  - lia.
Defined.

(** Against the busy connection four attempts are not enough, and neither
    is any other number. *)
Lemma send_with_retry_diverges_witness :
  ∃ w', send_with_retry 4 [] (mkProcess (busy 0) [] []) =
    (mkProcess w' [] (replicate 4 retry_message), Fuel).
Proof.
  apply (send_with_retry_diverges 4 [] (mkProcess (busy 0) [] [])).
  apply busy_always_transient.
Defined.
