(* ===== verification/Solver.v ===== *)
(** * The solver: from raw switch samples to attribute updates

    [packet_callback] is the lambda of lines 127-174 of [query_world.cpp],
    which the aggregator connection runs on every sample.  It captures by
    reference the maps [tx_to_uri], [switch_state] and [object_to_solution]
    and the connection [swm].  [SolverState] holds what it can change:
    [tx_to_uri] (whose [operator[]] inserts an empty identifier for an
    unknown transmitter), [switch_state] (the change tracker) and the
    process state of [Env].  [object_to_solution] is only read.

    A callback runs atomically in this model: the mutex of line 133 covers
    the only access to [tx_to_uri].  *)

From S2P Require Import Prelude Monad OrderedMap U16String Env Dispatcher.

(** ** Library helpers the callback calls *)

(** [readPrimitive<uint8_t>(buff, index)]: the octet at [index]. *)
Definition readPrimitive_uint8 (buff : list byte) (index : nat) : Z :=
  byte_to_Z (default x00 (buff !! index)).

(** [pushBackVal<uint8_t>(val, buff)]: appends one octet. *)
Definition pushBackVal_uint8 (val : byte) (buff : list byte) : list byte :=
  buff ++ [val].

(** [m[key]] on a [std::map] read for its value: the value found, or a
    default-constructed one, which is then also inserted. *)
Definition subscript `{Countable K} {V} (default_value : V) (key : K)
    (m : gmap K V) : V * gmap K V :=
  match m !! key with
  | Some v => (v, m)
  | None => (default_value, <[key := default_value]> m)
  end.

(** ** State *)

Record SolverState (W : Type) : Type := mkSolverState {
  tx_to_uri : gmap (byte * Z) u16string;
  switch_state : gmap u16string bool;
  proc : Process W;
}.
Arguments mkSolverState {W} _ _ _.
Arguments tx_to_uri {W} _.
Arguments switch_state {W} _.
Arguments proc {W} _.

Section solver.
Context {W : Type} `{Env W}.
Implicit Types (st : SolverState W) (uri : u16string) (s : SampleData).

Definition set_proc (p : Process W) st : SolverState W :=
  mkSolverState (tx_to_uri st) (switch_state st) p.

(** Runs a computation of the process inside the solver. *)
Definition in_proc {A} (m : prog (Process W) A) : prog (SolverState W) A :=
  zoom proc set_proc m.

(** Lines 132-135: [uri = tx_to_uri[std::make_pair(s.physical_layer,
    s.tx_id)]] under the lock. *)
Definition lookup_uri (key : byte * Z) : prog (SolverState W) u16string :=
  λ st,
  let '(uri, m') := subscript [] key (tx_to_uri st) in
  (mkSolverState m' (switch_state st) (proc st), Ok uri).

(** Line 137, the change tracker's test: the identifier has no recorded
    value, or the recorded value differs. *)
Definition shouldReport uri (switch_on : bool)
    (tracker : gmap u16string bool) : bool :=
  match tracker !! uri with
  | None => true
  | Some known => negb (eqb known switch_on)
  end.

(** Line 138: [switch_state[uri] = switch_on]. *)
Definition record_state uri (switch_on : bool) : prog (SolverState W) () :=
  modify (λ st,
    mkSolverState (tx_to_uri st) (<[uri := switch_on]> (switch_state st))
      (proc st)).

(** [u"." + obj_soln->first + u"."] *)
Definition class_segment (obj_class : u16string) : u16string :=
  [46%Z] ++ obj_class ++ [46%Z].

(** Lines 164-168: what is written to [std::cout] after a send. *)
Definition report_line uri (switch_on : bool) (solution : u16string) : string :=
  if switch_on
  then toString uri +:+ " is " +:+ toString solution +:+ String "010" EmptyString
  else toString uri +:+ " is not " +:+ toString solution +:+ String "010" EmptyString.

(** Lines 141-169, the body of the loop over [object_to_solution]: for a
    class whose name is a segment of the identifier, build the update, send
    it with retries and report on [std::cout]. *)
Definition report_class (fuel : nat) uri (switch_on : bool)
    (obj_soln : u16string * u16string) : prog (SolverState W) () :=
  when_ (bool_decide (find uri (class_segment obj_soln.1) ≠ None)) (
    now ← in_proc call_getGRAILTime;
    let soln := mkAttrUpdate obj_soln.2 now uri [] in
    let soln := mkAttrUpdate (au_name soln) (au_creation_date soln) (au_uri soln)
                  (pushBackVal_uint8 (if switch_on then x01 else x00)
                     (au_data soln)) in
    let solns := [soln] in
    in_proc (send_with_retry fuel solns) ;;
    in_proc (print_out (report_line uri switch_on obj_soln.2))).

(** Lines 127-174. *)
Definition packet_callback (object_to_solution : omap u16string u16string)
    (fuel : nat) s : prog (SolverState W) () :=
  when_ (valid s && bool_decide (length (sense_data s) = 1%nat)) (
    let switch_value := readPrimitive_uint8 (sense_data s) 0 in
    when_ ((0 =? switch_value)%Z || (255 =? switch_value)%Z) (
      uri ← lookup_uri (physical_layer s, tx_id s);
      let switch_on := (255 =? switch_value)%Z in
      report ← gets (λ st, shouldReport uri switch_on (switch_state st));
      when_ report (
        record_state uri switch_on ;;
        for_each object_to_solution (report_class fuel uri switch_on)))).

(** The callbacks of a sequence of samples, in order; an exception ends
    the sequence, as it would end the thread that delivers them. *)
Definition run_callbacks (object_to_solution : omap u16string u16string)
    (fuel : nat) (samples : list SampleData) : prog (SolverState W) () :=
  for_each samples (packet_callback object_to_solution fuel).

End solver.

(** ** What a sample says *)

(** The switch position a sample reports: it must be valid and carry
    exactly one octet, [0] for off or [255] for on.  Everything else is
    filtered. *)
Definition switch_reading (s : SampleData) : option bool :=
  if valid s then
    match sense_data s with
    | [b] => if decide (b = x00) then Some false
             else if decide (b = xff) then Some true else None
    | _ => None
    end
  else None.

(** The transmitter a sample comes from. *)
Definition sample_key (s : SampleData) : byte * Z := (physical_layer s, tx_id s).

(** The identifier [tx_to_uri] gives for a transmitter: the empty one when
    the transmitter is not in the table. *)
Definition resolve {W} (key : byte * Z) (st : SolverState W) : u16string :=
  default [] (tx_to_uri st !! key).

(** ** The change tracker as a state machine

    What the tracker knows of one entity: nothing, or the last position
    reported for it.  A reading moves the entity to [Known]; there is no
    way back to [Unknown]. *)
Inductive entity_state : Type :=
  | Unknown
  | Known (v : bool).

Definition entity_of (tracker : gmap u16string bool) (uri : u16string) :
    entity_state :=
  match tracker !! uri with
  | None => Unknown
  | Some v => Known v
  end.

Inductive entity_step : entity_state → option bool → entity_state → Prop :=
  | entity_filtered e : entity_step e None e
  | entity_reading e v : entity_step e (Some v) (Known v).

(** The tracker after a sample for the entity [uri]. *)
Definition tracker_step (reading : option bool) (uri : u16string)
    (tracker : gmap u16string bool) : gmap u16string bool :=
  match reading with
  | Some v => <[uri := v]> tracker
  | None => tracker
  end.

(** The state in which reporting starts: the transmitter has been looked
    up (and inserted if it was unknown) and the new position recorded. *)
Definition recorded {W} (s : SampleData) (v : bool) (st : SolverState W) :
    SolverState W :=
  mkSolverState (subscript [] (sample_key s) (tx_to_uri st)).2
    (<[resolve (sample_key s) st := v]> (switch_state st)) (proc st).

(** A computation that leaves the two tables of the solver alone. *)
Definition preserves_tables {W A} (m : prog (SolverState W) A) : Prop :=
  ∀ st, tx_to_uri (m st).1 = tx_to_uri st ∧
        switch_state (m st).1 = switch_state st.

(** The solution names of the classes that occur in [uri] as a segment
    between two dots, in the order the loop of line 140 meets them. *)
Definition matching_solutions (o2s : omap u16string u16string)
    (uri : u16string) : list u16string :=
  (filter (λ obj_soln, infix_of (class_segment obj_soln.1) uri) o2s).*2.

(** The update the callback builds for a solution name at time [now]. *)
Definition update_for (now : Z) (uri : u16string) (v : bool)
    (name : u16string) : AttrUpdate :=
  mkAttrUpdate name now uri [if v then x01 else x00].

(** One batch of one update per name, the clock advancing by one at each
    reading, as it does in the scripted world. *)
Fixpoint batches_from (now : Z) (uri : u16string) (v : bool)
    (names : list u16string) : list (list AttrUpdate) :=
  match names with
  | [] => []
  | name :: names' =>
      [update_for now uri v name] :: batches_from (now + 1) uri v names'
  end.

(** The scripted process after the position [v] of [uri] was reported
    under each of [names], when every send is accepted at once. *)
Definition proc_after_reports (p : Process Scripted) (uri : u16string)
    (v : bool) (names : list u16string) : Process Scripted :=
  mkProcess
    (mkScripted []
       (accepted (world p) ++ batches_from (clock (world p)) uri v names)
       (length names + attempts (world p))
       (clock (world p) + Z.of_nat (length names)))
    (cout p ++ (report_line uri v <$> names))
    (cerr p).

(** The sample by which the transmitter [key] reports the position [v]. *)
Definition sample_of (key : byte * Z) (v : bool) : SampleData :=
  mkSampleData true key.1 key.2 [if v then xff else x00].

(** The readings of a sequence that differ from the position known just
    before them: the readings the tracker lets through. *)
Fixpoint reported (known : option bool) (readings : list bool) : list bool :=
  match readings with
  | [] => []
  | v :: readings' =>
      if decide (known = Some v) then reported known readings'
      else v :: reported (Some v) readings'
  end.

(** No reading of the sequence repeats the position known just before it:
    the switch strictly alternates. *)
Fixpoint alternating (known : option bool) (readings : list bool) : Prop :=
  match readings with
  | [] => True
  | v :: readings' => known ≠ Some v ∧ alternating (Some v) readings'
  end.

(** The position known after a sequence of readings. *)
Definition known_after (known : option bool) (readings : list bool) :
    option bool :=
  match last readings with
  | Some v => Some v
  | None => known
  end.

(** The scripted process after each of the positions [vs] of [uri] was
    reported under each of [names]. *)
Fixpoint proc_after_run (p : Process Scripted) (uri : u16string)
    (names : list u16string) (vs : list bool) : Process Scripted :=
  match vs with
  | [] => p
  | v :: vs' => proc_after_run (proc_after_reports p uri v names) uri names vs'
  end.

(** No transmitter has an identifier: what [tx_to_uri] holds are the empty
    entries [operator[]] made. *)
Definition unresolved {W} (st : SolverState W) : Prop :=
  map_Forall (λ _ uri, uri = []) (tx_to_uri st).

(** ** The guards *)

Section guards.
Implicit Types (s : SampleData) (b : byte).

Lemma byte_to_Z_0 b : (0 =? byte_to_Z b)%Z = bool_decide (b = x00).
Proof.
  destruct (Z.eqb_spec 0 (byte_to_Z b)) as [Hb|Hb]; symmetry.
  - apply bool_decide_eq_true. by apply byte_to_Z_inj.
  - apply bool_decide_eq_false. by intros ->.
Qed.

Lemma byte_to_Z_255 b : (255 =? byte_to_Z b)%Z = bool_decide (b = xff).
Proof.
  destruct (Z.eqb_spec 255 (byte_to_Z b)) as [Hb|Hb]; symmetry.
  - apply bool_decide_eq_true. by apply byte_to_Z_inj.
  - apply bool_decide_eq_false. by intros ->.
Qed.

(** The two tests of lines 128 and 130 pass exactly on the samples that
    report a switch position, and line 136 computes that position. *)
Lemma guards_reading s :
  match switch_reading s with
  | Some v =>
      valid s && bool_decide (length (sense_data s) = 1%nat) = true ∧
      (0 =? readPrimitive_uint8 (sense_data s) 0)%Z
        || (255 =? readPrimitive_uint8 (sense_data s) 0)%Z = true ∧
      (255 =? readPrimitive_uint8 (sense_data s) 0)%Z = v
  | None =>
      valid s && bool_decide (length (sense_data s) = 1%nat) = false ∨
      (0 =? readPrimitive_uint8 (sense_data s) 0)%Z
        || (255 =? readPrimitive_uint8 (sense_data s) 0)%Z = false
  end.
Proof.
  unfold switch_reading, readPrimitive_uint8.
  destruct (valid s); [|by left].
  destruct (sense_data s) as [|b [|b' l]]; [by left | | by left].
  cbn [lookup list_lookup default andb]. rewrite byte_to_Z_0, byte_to_Z_255.
  destruct (decide (b = x00)) as [->|H0]; [done|].
  rewrite (bool_decide_eq_false_2 _ H0).
  destruct (decide (b = xff)) as [->|H255]; [done|].
  right. by rewrite (bool_decide_eq_false_2 _ H255).
Qed.

Lemma switch_reading_Some s v :
  switch_reading s = Some v ↔
  valid s = true ∧ sense_data s = [if v then xff else x00].
Proof.
  unfold switch_reading. destruct (valid s); [|by split; [|intros [? _]]].
  destruct (sense_data s) as [|b [|b' l]]; try by split; [|intros [_ ?]].
  repeat case_decide; subst; destruct v; split; try done;
    try (by intros [_ [= ?]]); by intros [= <-].
Qed.

(** An octet strictly between 0 and 255 is not a reading. *)
Lemma switch_reading_midrange s b :
  sense_data s = [b] → (1 ≤ byte_to_Z b ≤ 254)%Z → switch_reading s = None.
Proof.
  intros Hd Hb. unfold switch_reading. rewrite Hd.
  destruct (valid s); [|done].
  repeat case_decide; subst; try done; vm_compute in Hb; destruct Hb; done.
Qed.

End guards.

(** ** The callback, branch by branch *)

Section callback.
Context {W : Type} `{Env W}.
Implicit Types (st : SolverState W) (uri : u16string) (s : SampleData).
Implicit Types (o2s : omap u16string u16string) (v : bool).

Lemma lookup_uri_eq key st :
  lookup_uri key st =
    (mkSolverState (subscript [] key (tx_to_uri st)).2 (switch_state st)
       (proc st), Ok (resolve key st)).
Proof.
  unfold lookup_uri, resolve, subscript.
  by destruct (tx_to_uri st !! key).
Qed.

Lemma subscript_known `{Countable K} {V} (d : V) key (m : gmap K V) x :
  m !! key = Some x → subscript d key m = (x, m).
Proof. unfold subscript. by intros ->. Qed.

Lemma subscript_lookup `{Countable K} {V} (d : V) key (m : gmap K V) :
  (subscript d key m).2 !! key = Some (subscript d key m).1.
Proof.
  unfold subscript. destruct (m !! key) eqn:E; [done|].
  apply lookup_insert_eq.
Qed.

(** A sample that is not a reading leaves everything as it was. *)
Lemma packet_callback_filtered o2s fuel s st :
  switch_reading s = None → packet_callback o2s fuel s st = (st, Ok ()).
Proof.
  intros Hr. pose proof (guards_reading s) as Hg. rewrite Hr in Hg.
  unfold packet_callback. destruct Hg as [-> | Hg]; [done|].
  destruct (valid s && _); [|done]. rewrite when_true. cbv zeta.
  by rewrite Hg.
Qed.

(** C8.  A sample that is invalid, that does not carry exactly one octet,
    or whose octet lies strictly between 0 and 255 leaves everything as it
    was: no table is touched, nothing is sent, nothing is printed. *)
Theorem packet_callback_ignores o2s fuel s st :
  valid s = false ∨ length (sense_data s) ≠ 1%nat ∨
    (∃ b, sense_data s = [b] ∧ (1 ≤ byte_to_Z b ≤ 254)%Z) →
  packet_callback o2s fuel s st = (st, Ok ()).
Proof.
  intros Hcase. apply packet_callback_filtered.
  destruct Hcase as [Hv|[Hlen|(b & Hd & Hb)]].
  - unfold switch_reading. by rewrite Hv.
  - unfold switch_reading. destruct (valid s); [|done].
    by destruct (sense_data s) as [|b [|b' l]].
  - by eapply switch_reading_midrange.
Qed.

(** On a reading, the callback is the code below the two guards. *)
Lemma packet_callback_reading o2s fuel s v st :
  switch_reading s = Some v →
  packet_callback o2s fuel s st =
    (uri ← lookup_uri (sample_key s);
     report ← gets (λ st, shouldReport uri v (switch_state st));
     when_ report (record_state uri v ;;
                   for_each o2s (report_class fuel uri v))) st.
Proof.
  intros Hr. pose proof (guards_reading s) as Hg. rewrite Hr in Hg.
  destruct Hg as (Hg1 & Hg2 & Hg3). unfold packet_callback.
  rewrite Hg1, when_true. cbv zeta. by rewrite Hg2, when_true, Hg3.
Qed.

(** The position is already the recorded one: nothing is reported.  The
    only trace of the sample is the entry [operator[]] adds to [tx_to_uri]
    for a transmitter it did not know. *)
Lemma packet_callback_known o2s fuel s v st :
  switch_reading s = Some v →
  switch_state st !! resolve (sample_key s) st = Some v →
  packet_callback o2s fuel s st =
    (mkSolverState (subscript [] (sample_key s) (tx_to_uri st)).2
       (switch_state st) (proc st), Ok ()).
Proof.
  intros Hr Hknown. rewrite (packet_callback_reading _ _ _ _ _ Hr).
  rewrite (bind_ok _ _ _ _ _ (lookup_uri_eq _ _)), gets_bind.
  cbn [switch_state]. unfold shouldReport. rewrite Hknown.
  by rewrite eqb_reflx.
Qed.

(** The position is new for the entity: it is recorded, then every class
    of the configuration is tried in key order. *)
Lemma packet_callback_report o2s fuel s v st :
  switch_reading s = Some v →
  switch_state st !! resolve (sample_key s) st ≠ Some v →
  packet_callback o2s fuel s st =
    for_each o2s (report_class fuel (resolve (sample_key s) st) v)
      (recorded s v st).
Proof.
  intros Hr Hnew. rewrite (packet_callback_reading _ _ _ _ _ Hr).
  rewrite (bind_ok _ _ _ _ _ (lookup_uri_eq _ _)), gets_bind.
  cbn [switch_state]. unfold shouldReport.
  destruct (switch_state st !! _) as [known|] eqn:E.
  - destruct (eqb_spec known v) as [->|Hne]; [done|].
    cbn [negb]. by rewrite when_true.
  - by rewrite when_true.
Qed.

(** *** Reporting touches only the process *)

Lemma preserves_tables_ret {A} (a : A) : preserves_tables (W:=W) (mret a).
Proof. done. Qed.

Lemma preserves_tables_bind {A B} (m : prog (SolverState W) A)
    (f : A → prog (SolverState W) B) :
  preserves_tables m → (∀ a, preserves_tables (f a)) →
  preserves_tables (m ≫= f).
Proof.
  intros Hm Hf st. rewrite bind_unfold. specialize (Hm st).
  destruct (m st) as [st' [a|e|]]; [|done..].
  destruct (Hf a st') as [-> ->]. done.
Qed.

Lemma preserves_tables_in_proc {A} (m : prog (Process W) A) :
  preserves_tables (in_proc m).
Proof. intros st. unfold in_proc. by rewrite zoom_unfold. Qed.

Lemma preserves_tables_when (b : bool) (m : prog (SolverState W) ()) :
  preserves_tables m → preserves_tables (when_ b m).
Proof. by destruct b. Qed.

Lemma preserves_tables_for_each {A} (l : list A)
    (body : A → prog (SolverState W) ()) :
  (∀ x, preserves_tables (body x)) → preserves_tables (for_each l body).
Proof.
  intros Hbody. induction l as [|x l IH]; [done|].
  cbn [for_each]. by apply preserves_tables_bind.
Qed.

Lemma report_class_preserves_tables fuel uri v obj_soln :
  preserves_tables (report_class fuel uri v obj_soln).
Proof.
  unfold report_class. apply preserves_tables_when.
  apply preserves_tables_bind; [apply preserves_tables_in_proc|]. intros now.
  apply preserves_tables_bind; intros; apply preserves_tables_in_proc.
Qed.

(** *** The tables after a callback *)

(** What the callback does to [tx_to_uri] does not depend on the outcome
    of the sends. *)
Lemma packet_callback_tx_to_uri o2s fuel s st :
  tx_to_uri (packet_callback o2s fuel s st).1 =
  match switch_reading s with
  | Some _ => (subscript [] (sample_key s) (tx_to_uri st)).2
  | None => tx_to_uri st
  end.
Proof.
  destruct (switch_reading s) as [v|] eqn:Hr;
    [|by rewrite packet_callback_filtered].
  destruct (decide (switch_state st !! resolve (sample_key s) st = Some v)).
  - by rewrite (packet_callback_known _ _ _ v).
  - rewrite (packet_callback_report _ _ _ v) by done.
    by rewrite (proj1 (preserves_tables_for_each _ _
      (report_class_preserves_tables _ _ _) _)).
Qed.

(** [switch_state] after a callback is the tracker before it with the
    reading recorded for the sample's entity. *)
Lemma packet_callback_switch_state o2s fuel s st :
  switch_state (packet_callback o2s fuel s st).1 =
  tracker_step (switch_reading s) (resolve (sample_key s) st) (switch_state st).
Proof.
  destruct (switch_reading s) as [v|] eqn:Hr;
    [|by rewrite packet_callback_filtered].
  destruct (decide (switch_state st !! resolve (sample_key s) st = Some v)).
  - rewrite (packet_callback_known _ _ _ v) by done. cbn.
    by rewrite insert_id.
  - rewrite (packet_callback_report _ _ _ v) by done.
    by rewrite (proj2 (preserves_tables_for_each _ _
      (report_class_preserves_tables _ _ _) _)).
Qed.

(** The identifier of a transmitter does not change once it was looked
    up. *)
Lemma packet_callback_resolve o2s fuel s st :
  resolve (sample_key s) (packet_callback o2s fuel s st).1 =
  resolve (sample_key s) st.
Proof.
  unfold resolve at 1. rewrite packet_callback_tx_to_uri.
  destruct (switch_reading s); [|done].
  rewrite subscript_lookup. unfold resolve, subscript.
  by destruct (tx_to_uri st !! sample_key s).
Qed.

(** C6.  The change tracker refines the per-entity machine
    [Unknown -> Known v]: whatever the connection does, a callback moves
    the entity of its sample by one step of the machine on the sample's
    reading, leaves every other entity where it was, and no entity ever
    goes back to [Unknown]. *)
Theorem packet_callback_tracker o2s fuel s st uri :
  let tracker := switch_state st in
  let tracker' := switch_state (packet_callback o2s fuel s st).1 in
  (if decide (uri = resolve (sample_key s) st)
   then entity_step (entity_of tracker uri) (switch_reading s)
          (entity_of tracker' uri)
   else entity_of tracker' uri = entity_of tracker uri) ∧
  (entity_of tracker' uri = Unknown → entity_of tracker uri = Unknown).
Proof.
  cbv zeta. rewrite packet_callback_switch_state. unfold entity_of.
  destruct (switch_reading s) as [v|]; cbn [tracker_step]; case_decide as Huri;
    subst; rewrite ?lookup_insert_eq, ?lookup_insert_ne by done;
    (split; [try constructor; done | done]).
Qed.

(** C3.  A sample that repeats the position just handled is not reported
    again: the second callback returns at once and changes nothing.  This
    holds whatever became of the first one, so a position whose update was
    lost to an exception is not sent again either. *)
Theorem packet_callback_repeat o2s fuel fuel' s st :
  let st1 := (packet_callback o2s fuel s st).1 in
  packet_callback o2s fuel' s st1 = (st1, Ok ()).
Proof.
  intros st1. destruct (switch_reading s) as [v|] eqn:Hr;
    [|by apply packet_callback_filtered].
  assert (switch_state st1 !! resolve (sample_key s) st1 = Some v) as Hknown.
  { unfold st1. rewrite packet_callback_resolve, packet_callback_switch_state, Hr.
    apply lookup_insert_eq. }
  rewrite (packet_callback_known _ _ _ v) by done.
  assert (is_Some (tx_to_uri st1 !! sample_key s)) as [uri Huri].
  { unfold st1. rewrite packet_callback_tx_to_uri, Hr, subscript_lookup. eauto. }
  rewrite (subscript_known _ _ _ _ Huri). by destruct st1.
Qed.

(** *** Classes that do not match, and the empty identifier *)

Lemma report_class_nomatch fuel uri v obj_soln st :
  ¬ infix_of (class_segment obj_soln.1) uri →
  report_class fuel uri v obj_soln st = (st, Ok ()).
Proof.
  intros Hno. unfold report_class.
  rewrite bool_decide_eq_false_2; [done|].
  intros Hfind. by apply Hno, find_is_Some, not_eq_None_Some.
Qed.

Lemma class_segment_not_in_nil obj_class : ¬ infix_of (class_segment obj_class) [].
Proof.
  intros Hin%infix_of_length. unfold class_segment in Hin.
  rewrite !length_app in Hin. simpl in Hin. lia.
Qed.

(** For the empty identifier the loop over the classes does nothing. *)
Lemma for_each_report_nil o2s fuel v st :
  for_each o2s (report_class fuel [] v) st = (st, Ok ()).
Proof.
  apply for_each_skip, Forall_true. intros obj_soln st'.
  apply report_class_nomatch, class_segment_not_in_nil.
Qed.

Lemma unresolved_resolve key st : unresolved st → resolve key st = [].
Proof.
  intros Hun. unfold resolve. destruct (tx_to_uri st !! key) eqn:E; [|done].
  by apply (Hun _ _ E).
Qed.

Lemma unresolved_subscript key st :
  unresolved st → map_Forall (λ _ uri, uri = []) (subscript [] key (tx_to_uri st)).2.
Proof.
  intros Hun. unfold subscript. destruct (tx_to_uri st !! key); [done|].
  by apply map_Forall_insert_2.
Qed.

(** While no transmitter has an identifier, a callback completes without
    a call to the connection and without output. *)
Lemma packet_callback_unresolved o2s fuel s st :
  unresolved st →
  ∃ st', packet_callback o2s fuel s st = (st', Ok ()) ∧
         proc st' = proc st ∧ unresolved st'.
Proof.
  intros Hun. destruct (switch_reading s) as [v|] eqn:Hr;
    [|exists st; by rewrite packet_callback_filtered].
  destruct (decide (switch_state st !! resolve (sample_key s) st = Some v)).
  - eexists. rewrite (packet_callback_known _ _ _ v) by done.
    split; [done|]. split; [done|]. by apply unresolved_subscript.
  - eexists. rewrite (packet_callback_report _ _ _ v) by done.
    rewrite unresolved_resolve by done. rewrite for_each_report_nil.
    split; [done|]. split; [done|]. by apply unresolved_subscript.
Qed.

(** C9.  [tx_to_uri] starts empty and the program never assigns to it, so
    every transmitter resolves to the empty identifier, which contains no
    class segment: whatever samples arrive, the solver sends nothing and
    prints nothing. *)
Theorem run_callbacks_inert o2s fuel samples st :
  tx_to_uri st = ∅ →
  ∃ st', run_callbacks o2s fuel samples st = (st', Ok ()) ∧
         proc st' = proc st.
Proof.
  intros Hempty. assert (unresolved st) as Hun.
  { unfold unresolved. rewrite Hempty. apply map_Forall_empty. }
  clear Hempty. unfold run_callbacks. revert st Hun.
  induction samples as [|s samples IH]; intros st Hun; [by exists st|].
  destruct (packet_callback_unresolved o2s fuel s st Hun)
    as (st1 & Hcb & Hproc & Hun1).
  destruct (IH st1 Hun1) as (st' & Hrun & Hproc').
  exists st'. rewrite for_each_cons, (bind_ok _ _ _ _ _ Hcb).
  split; [done | congruence].
Qed.

End callback.

(** ** Runs against the scripted connection *)

Section scripted_solver.
Implicit Types (st : SolverState Scripted) (uri : u16string).
Implicit Types (o2s : omap u16string u16string) (v : bool).

Lemma proc_after_reports_nil (p : Process Scripted) uri v :
  script (world p) = [] → proc_after_reports p uri v [] = p.
Proof.
  destruct p as [[scr acc k now] out err]. cbn. intros ->.
  unfold proc_after_reports. cbn. by rewrite !app_nil_r, Z.add_0_r.
Qed.

Lemma proc_after_reports_cons (p : Process Scripted) uri v name names :
  proc_after_reports (proc_after_reports p uri v [name]) uri v names =
  proc_after_reports p uri v (name :: names).
Proof.
  unfold proc_after_reports. cbn. rewrite <- !app_assoc. cbn.
  do 2 f_equal; [lia..].
Qed.

(** A class that matches, on a connection that accepts: one reading of
    the clock, one accepted batch of one update, one line of output. *)
Lemma report_class_scripted fuel uri v obj_soln st :
  script (world (proc st)) = [] →
  infix_of (class_segment obj_soln.1) uri →
  report_class (S fuel) uri v obj_soln st =
    (set_proc (proc_after_reports (proc st) uri v [obj_soln.2]) st, Ok ()).
Proof.
  intros Hscr Hin. unfold report_class.
  rewrite bool_decide_eq_true_2
    by by apply not_eq_None_Some, find_is_Some.
  destruct st as [t2u ss [[scr acc k now] out err]]. cbn in Hscr. subst scr.
  done.
Qed.

(** The loop over the classes, on a connection that accepts. *)
Lemma for_each_report_scripted o2s fuel uri v st :
  script (world (proc st)) = [] →
  for_each o2s (report_class (S fuel) uri v) st =
    (set_proc (proc_after_reports (proc st) uri v (matching_solutions o2s uri))
       st, Ok ()).
Proof.
  unfold matching_solutions. revert st.
  induction o2s as [|obj_soln o2s IH]; intros st Hscr.
  - cbn. rewrite proc_after_reports_nil by done. by destruct st.
  - rewrite for_each_cons, filter_cons. case_decide as Hin.
    + rewrite (bind_ok _ _ _ _ _ (report_class_scripted _ _ _ _ _ Hscr Hin)).
      rewrite IH by done. cbn [proc set_proc fmap list_fmap].
      by rewrite proc_after_reports_cons.
    + rewrite (bind_ok _ _ _ _ _ (report_class_nomatch _ _ _ _ _ Hin)).
      by apply IH.
Qed.

(** C1.  A reading that is new for its entity, on a connection that
    accepts every batch: the position is recorded, and for each class whose
    name is a dot-delimited segment of the identifier, in key order, one
    update carrying the octet 1 or 0 is accepted and one line is printed. *)
Theorem packet_callback_reports o2s fuel s v st :
  switch_reading s = Some v →
  switch_state st !! resolve (sample_key s) st ≠ Some v →
  script (world (proc st)) = [] →
  packet_callback o2s (S fuel) s st =
    (set_proc
       (proc_after_reports (proc st) (resolve (sample_key s) st) v
          (matching_solutions o2s (resolve (sample_key s) st)))
       (recorded s v st), Ok ()).
Proof.
  intros Hr Hnew Hscr. rewrite (packet_callback_report _ _ _ v) by done.
  by rewrite for_each_report_scripted.
Qed.

(** *** The history of one transmitter *)

Lemma switch_reading_sample_of key v : switch_reading (sample_of key v) = Some v.
Proof. by destruct v. Qed.

Lemma sample_key_sample_of key v : sample_key (sample_of key v) = key.
Proof. by destruct key. Qed.

Lemma resolve_known key st uri :
  tx_to_uri st !! key = Some uri → resolve key st = uri.
Proof. unfold resolve. by intros ->. Qed.

Lemma proc_after_reports_script (p : Process Scripted) uri v names :
  script (world (proc_after_reports p uri v names)) = [].
Proof. done. Qed.

(** One callback for a known transmitter on a connection that accepts:
    either the position is the known one and nothing happens, or it is
    recorded and reported under every matching class. *)
Lemma packet_callback_sample_of o2s fuel key v st uri :
  tx_to_uri st !! key = Some uri →
  script (world (proc st)) = [] →
  packet_callback o2s (S fuel) (sample_of key v) st =
    (mkSolverState (tx_to_uri st)
       (if decide (switch_state st !! uri = Some v) then switch_state st
        else <[uri := v]> (switch_state st))
       (proc_after_run (proc st) uri (matching_solutions o2s uri)
          (reported (switch_state st !! uri) [v])), Ok ()).
Proof.
  intros Hkey Hscr. pose proof (switch_reading_sample_of key v) as Hr.
  pose proof (resolve_known _ _ _ Hkey) as Hres. cbn [reported].
  case_decide as Hknown.
  - rewrite (packet_callback_known _ _ _ v), sample_key_sample_of;
      [|done|by rewrite sample_key_sample_of, Hres].
    rewrite (subscript_known _ _ _ _ Hkey). by destruct st.
  - rewrite (packet_callback_report _ _ _ v);
      [|done|by rewrite sample_key_sample_of, Hres].
    rewrite for_each_report_scripted by done.
    unfold recorded. rewrite sample_key_sample_of, Hres.
    by rewrite (subscript_known _ _ _ _ Hkey).
Qed.

Lemma known_after_cons known v vs :
  known_after known (v :: vs) = known_after (Some v) vs.
Proof.
  unfold known_after. destruct vs as [|v' vs]; [done|].
  rewrite last_cons_cons.
  destruct (last (v' :: vs)) eqn:E; [done | by apply last_None in E].
Qed.

(** The tracker entry of [uri] after the readings [vs]. *)
Lemma tracker_after_lookup (tracker : gmap u16string bool) uri vs :
  (match known_after (tracker !! uri) vs with
   | Some v => <[uri := v]> tracker
   | None => tracker
   end) !! uri = known_after (tracker !! uri) vs.
Proof.
  destruct (known_after _ vs) as [v|] eqn:E; [by rewrite lookup_insert_eq|].
  unfold known_after in E. by destruct (last vs).
Qed.

(** A sequence of samples of one known transmitter, on a connection that
    accepts: the tracker ends with the last position, and the process has
    seen exactly the reports of the positions the tracker let through. *)
Lemma run_callbacks_sample_of o2s fuel key vs st uri :
  tx_to_uri st !! key = Some uri →
  script (world (proc st)) = [] →
  run_callbacks o2s (S fuel) (sample_of key <$> vs) st =
    (mkSolverState (tx_to_uri st)
       (match known_after (switch_state st !! uri) vs with
        | Some v => <[uri := v]> (switch_state st)
        | None => switch_state st
        end)
       (proc_after_run (proc st) uri (matching_solutions o2s uri)
          (reported (switch_state st !! uri) vs)), Ok ()).
Proof.
  unfold run_callbacks. revert st.
  induction vs as [|v vs IH]; intros st Hkey Hscr.
  - cbn. unfold known_after. cbn. destruct (switch_state st !! uri) eqn:E.
    + rewrite insert_id by done. by destruct st.
    + by destruct st.
  - rewrite fmap_cons, for_each_cons.
    rewrite (bind_ok _ _ _ _ _
      (packet_callback_sample_of o2s fuel key v st uri Hkey Hscr)).
    rewrite IH; cbn [tx_to_uri switch_state proc]; [|done|]; last first.
    { cbn [reported]. case_decide; [done | apply proc_after_reports_script]. }
    rewrite known_after_cons. cbn [reported].
    case_decide as Hknown.
    + by rewrite Hknown.
    + rewrite lookup_insert_eq. cbn [proc_after_run].
      do 2 f_equal. destruct (known_after (Some v) vs) eqn:E;
        [by rewrite insert_insert_eq|].
      unfold known_after in E. by destruct (last vs).
Qed.

Lemma reported_alternating known vs :
  alternating known vs → reported known vs = vs.
Proof.
  revert known. induction vs as [|v vs IH]; intros known; [done|].
  intros [Hne Halt]. cbn [reported]. rewrite decide_False by done.
  by rewrite IH.
Qed.

(** The tracker never lets through two equal positions in a row, nor a
    first position equal to the known one. *)
Lemma reported_is_alternating known vs : alternating known (reported known vs).
Proof.
  revert known. induction vs as [|v vs IH]; intros known; [done|].
  cbn [reported]. case_decide; [apply IH | by split].
Qed.

Lemma reported_replicate known n v :
  reported known (replicate (S n) v) = if decide (known = Some v) then [] else [v].
Proof.
  assert (∀ n, reported (Some v) (replicate n v) = []) as Hsame.
  { intros k. induction k as [|k IH]; [done|].
    cbn [replicate reported]. by rewrite decide_True. }
  cbn [replicate reported]. case_decide.
  - subst. apply Hsame.
  - by rewrite Hsame.
Qed.

Lemma proc_after_reports_counts (p : Process Scripted) uri v names :
  attempts (world (proc_after_reports p uri v names)) =
    (length names + attempts (world p))%nat ∧
  length (accepted (world (proc_after_reports p uri v names))) =
    (length names + length (accepted (world p)))%nat ∧
  length (cout (proc_after_reports p uri v names)) =
    (length names + length (cout p))%nat.
Proof.
  unfold proc_after_reports. cbn. rewrite !length_app, length_fmap.
  assert (∀ now, length (batches_from now uri v names) = length names) as ->.
  { induction names as [|name names IH]; intros now; [done|].
    cbn. by rewrite IH. }
  lia.
Qed.

Lemma proc_after_run_counts (p : Process Scripted) uri names vs :
  attempts (world (proc_after_run p uri names vs)) =
    (length vs * length names + attempts (world p))%nat ∧
  length (accepted (world (proc_after_run p uri names vs))) =
    (length vs * length names + length (accepted (world p)))%nat ∧
  length (cout (proc_after_run p uri names vs)) =
    (length vs * length names + length (cout p))%nat.
Proof.
  revert p. induction vs as [|v vs IH]; intros p; [done|].
  cbn [proc_after_run]. destruct (IH (proc_after_reports p uri v names))
    as (-> & -> & ->).
  destruct (proc_after_reports_counts p uri v names) as (-> & -> & ->).
  cbn [length]. lia.
Qed.

(** C2.  The samples of one transmitter with a known identifier, on a
    connection that accepts: the positions that reach the world model are
    those that differ from the position known just before them, each of
    them as one send, one accepted batch and one printed line per matching
    class.  A position that repeats the previous one is never sent. *)
Theorem run_callbacks_history o2s fuel key vs st uri :
  tx_to_uri st !! key = Some uri →
  script (world (proc st)) = [] →
  let names := matching_solutions o2s uri in
  let sent := reported (switch_state st !! uri) vs in
  ∃ st', run_callbacks o2s (S fuel) (sample_of key <$> vs) st = (st', Ok ()) ∧
    proc st' = proc_after_run (proc st) uri names sent ∧
    switch_state st' !! uri = known_after (switch_state st !! uri) vs ∧
    alternating (switch_state st !! uri) sent ∧
    length (accepted (world (proc st'))) =
      (length sent * length names + length (accepted (world (proc st))))%nat.
Proof.
  intros Hkey Hscr names sent. eexists. split;
    [by apply run_callbacks_sample_of|].
  cbn [proc switch_state]. split; [done|]. split; [apply tracker_after_lookup|].
  split; [apply reported_is_alternating|]. apply proc_after_run_counts.
Qed.

(** C7.  When the switch of a known transmitter strictly alternates,
    every sample is reported: the number of sends is the number of samples
    times the number of matching classes, and all of them are accepted. *)
Theorem run_callbacks_alternating o2s fuel key vs st uri :
  tx_to_uri st !! key = Some uri →
  script (world (proc st)) = [] →
  alternating (switch_state st !! uri) vs →
  let names := matching_solutions o2s uri in
  ∃ st', run_callbacks o2s (S fuel) (sample_of key <$> vs) st = (st', Ok ()) ∧
    proc st' = proc_after_run (proc st) uri names vs ∧
    attempts (world (proc st')) =
      (length vs * length names + attempts (world (proc st)))%nat.
Proof.
  intros Hkey Hscr Halt names. eexists. split;
    [by apply run_callbacks_sample_of|].
  cbn [proc]. rewrite reported_alternating by done.
  split; [done | apply proc_after_run_counts].
Qed.

End scripted_solver.

(** ** Concrete runs *)

(** The configuration [mug switch_state], a transmitter known as
    [room1.mug.mug42], and a sample that says "on". *)
Definition mug_config : omap u16string u16string :=
  [(u16_literal "mug", u16_literal "switch_state")].

Definition mug_uri : u16string := u16_literal "room1.mug.mug42".

Definition mug_state : SolverState Scripted :=
  mkSolverState {[ (x01, 42%Z) := mug_uri ]} ∅
    (mkProcess (scripted_init [] 1000) [] []).

Definition mug_on : SampleData := mkSampleData true x01 42 [xff].

(** The sample yields exactly one update, [switch_state] of
    [room1.mug.mug42] with data [[1]], and the line
    [room1.mug.mug42 is switch_state]. *)
Lemma packet_callback_reports_witness :
  packet_callback mug_config 1 mug_on mug_state =
  (mkSolverState {[ (x01, 42%Z) := mug_uri ]} {[ mug_uri := true ]}
     (mkProcess
        (mkScripted []
           [[mkAttrUpdate (u16_literal "switch_state") 1000 mug_uri [x01]]]
           1 1001)
        ["room1.mug.mug42 is switch_state" +:+ String "010" EmptyString] []),
   Ok ()).
Proof.
  etrans.
  - apply (packet_callback_reports mug_config 0 mug_on true mug_state).
    + reflexivity.
    + vm_compute. discriminate.
    + reflexivity.
  - vm_compute. reflexivity.
Defined.

(** A sample whose octet is 127 is ignored, even for a known
    transmitter. *)
Lemma packet_callback_ignores_witness :
  packet_callback mug_config 1 (mkSampleData true x01 42 [x7f]) mug_state =
  (mug_state, Ok ()).
Proof.
  apply (packet_callback_ignores mug_config 1
           (mkSampleData true x01 42 [x7f]) mug_state).
  right. right. exists x7f. split; [reflexivity | vm_compute; split; discriminate].
Defined.

(** With the table of transmitters empty, as the program leaves it, the
    same sample and its opposite produce nothing. *)
Lemma run_callbacks_inert_witness :
  ∃ st', run_callbacks mug_config 1
           [mug_on; mkSampleData true x01 42 [x00]]
           (mkSolverState ∅ ∅ (mkProcess (scripted_init [] 1000) [] [])) =
         (st', Ok ()) ∧
         proc st' = mkProcess (scripted_init [] 1000) [] [].
Proof.
  apply (run_callbacks_inert mug_config 1
           [mug_on; mkSampleData true x01 42 [x00]]
           (mkSolverState ∅ ∅ (mkProcess (scripted_init [] 1000) [] []))).
  reflexivity.
Defined.

(** The mug switched on, reported on again, then switched off: the two
    changes of position are sent, the repeated reading is not. *)
Lemma run_callbacks_history_witness :
  ∃ st', run_callbacks mug_config 1
           (sample_of (x01, 42%Z) <$> [true; true; false]) mug_state =
         (st', Ok ()) ∧
         switch_state st' !! mug_uri = Some false ∧
         length (accepted (world (proc st'))) = 2%nat.
Proof.
  destruct (run_callbacks_history mug_config 0 (x01, 42%Z)
              [true; true; false] mug_state mug_uri)
    as (st' & Hrun & _ & Hknown & _ & Hlen); [reflexivity | reflexivity |].
  exists st'. split; [exact Hrun|]. split.
  - rewrite Hknown. reflexivity.
  - rewrite Hlen. vm_compute. reflexivity.
Defined.

(** The mug switched on, off and on again: three sends. *)
Lemma run_callbacks_alternating_witness :
  ∃ st', run_callbacks mug_config 1
           (sample_of (x01, 42%Z) <$> [true; false; true]) mug_state =
         (st', Ok ()) ∧
         attempts (world (proc st')) = 3%nat.
Proof.
  destruct (run_callbacks_alternating mug_config 0 (x01, 42%Z)
              [true; false; true] mug_state mug_uri)
    as (st' & Hrun & _ & Hn); [reflexivity | reflexivity | |].
  - vm_compute. repeat split; discriminate.
  - exists st'. split; [exact Hrun|]. rewrite Hn. vm_compute. reflexivity.
Defined.
