(* ===== verification/Concurrency.v ===== *)
(** * Callbacks that run at the same time

    The aggregator connection runs [packet_callback] on its own threads
    (line 175 of [query_world.cpp]).  The callback takes a mutex for the
    access to [tx_to_uri] (lines 132-135) and for nothing else: the test
    of line 137 and the assignment of line 138 on [switch_state] are two
    steps between which another callback can run.

    [thread_step] cuts the callback of [Solver] at these points: the
    guards, the lookup under the mutex, the test, the assignment, and the
    loop that reports.  Run alone, the steps are the callback
    ([thread_run_packet_callback]).  [conc_step] interleaves the steps of
    several callbacks over the shared state; [run_schedule] runs a given
    interleaving.

    The steps are coarser than the statements: the lookup with its lock
    and unlock is one step, and the loop that reports is one step, with
    fuel for its retry loops.  [Mutex] has the statements and the mutex,
    and proves that every interleaving of this file is one of them; this
    file shows what can go wrong with the change tracker, and that the
    callbacks end in at most five steps each. *)

From S2P Require Import Prelude Monad OrderedMap U16String Env.
From S2P Require Import Dispatcher Solver.

(** ** The steps of one callback *)

(** Where a callback is, with the local variables that are live there. *)
Inductive pc : Type :=
  | AtGuards (s : SampleData)
  | AtLookup (key : byte * Z) (switch_on : bool)
  | AtTest (uri : u16string) (switch_on : bool)
  | AtRecord (uri : u16string) (switch_on : bool)
  | AtReport (uri : u16string) (switch_on : bool)
  | Returned (r : result ()).

#[export] Instance pc_inhabited : Inhabited pc := populate (Returned (Ok ())).

(** The callback has not returned. *)
Definition running (p : pc) : Prop :=
  match p with
  | Returned _ => False
  | _ => True
  end.

#[export] Instance running_dec p : Decision (running p).
Proof. destruct p; apply _. Defined.

(** The steps a callback has left at most: lines 127-174 hold no loop but
    those of [report_class], which are one step here. *)
Definition pc_rank (p : pc) : nat :=
  match p with
  | AtGuards _ => 5
  | AtLookup _ _ => 4
  | AtTest _ _ => 3
  | AtRecord _ _ => 2
  | AtReport _ _ => 1
  | Returned _ => 0
  end.

Section threads.
Context {W : Type} `{Env W}.
Context (object_to_solution : omap u16string u16string) (fuel : nat).
Implicit Types (p : pc) (st : SolverState W).

(** Runs [m] as one step and goes on at [k]; an exception ends the
    callback. *)
Definition continue {A} (m : prog (SolverState W) A) (k : A → pc) st :
    pc * SolverState W :=
  match m st with
  | (st', Ok a) => (k a, st')
  | (st', Throw e) => (Returned (Throw e), st')
  | (st', Fuel) => (Returned Fuel, st')
  end.

(** One step of a callback on the shared state. *)
Definition thread_step p st : pc * SolverState W :=
  match p with
  | AtGuards s =>
      if valid s && bool_decide (length (sense_data s) = 1%nat) then
        let switch_value := readPrimitive_uint8 (sense_data s) 0 in
        if (0 =? switch_value)%Z || (255 =? switch_value)%Z then
          (AtLookup (physical_layer s, tx_id s) (255 =? switch_value)%Z, st)
        else (Returned (Ok ()), st)
      else (Returned (Ok ()), st)
  | AtLookup key switch_on =>
      continue (lookup_uri key) (λ uri, AtTest uri switch_on) st
  | AtTest uri switch_on =>
      continue (gets (λ st, shouldReport uri switch_on (switch_state st)))
        (λ report : bool,
           if report then AtRecord uri switch_on else Returned (Ok ())) st
  | AtRecord uri switch_on =>
      continue (record_state uri switch_on) (λ _, AtReport uri switch_on) st
  | AtReport uri switch_on =>
      continue (for_each object_to_solution (report_class fuel uri switch_on))
        (λ _, Returned (Ok ())) st
  | Returned r => (Returned r, st)
  end.

(** [n] steps of one callback, nothing else running. *)
Fixpoint thread_run (n : nat) p st : pc * SolverState W :=
  match n with
  | O => (p, st)
  | S n' => let '(p', st') := thread_step p st in thread_run n' p' st'
  end.

(** ** Several callbacks *)

(** The shared state and the callbacks in progress. *)
Record config : Type := mkConfig {
  shared : SolverState W;
  threads : list pc;
}.

(** The callback [i] makes a step. *)
Definition sched_step (i : nat) (c : config) : config :=
  match threads c !! i with
  | Some p =>
      let '(p', st') := thread_step p (shared c) in
      mkConfig st' (<[i := p']> (threads c))
  | None => c
  end.

Definition run_schedule (schedule : list nat) (c : config) : config :=
  foldl (λ c i, sched_step i c) c schedule.

(** Some callback that has not returned makes a step. *)
Inductive conc_step : config → config → Prop :=
  | conc_step_thread i p c :
      threads c !! i = Some p →
      running p →
      conc_step c (sched_step i c).

(** What the program can reach from [c]. *)
Definition reachable (c c' : config) : Prop := rtc conc_step c c'.

(** The steps the callbacks of [c] have left at most, all together. *)
Definition threads_rank (c : config) : nat := sum_list (pc_rank <$> threads c).

End threads.

Arguments config W : clear implicits.

(** One callback after the other, and two callbacks that both make the
    test of line 137 before either makes the assignment of line 138. *)
Definition serial_schedule : list nat := [0; 0; 0; 0; 0; 1; 1; 1; 1; 1]%nat.
Definition racy_schedule : list nat := [0; 0; 0; 1; 1; 1; 0; 0; 1; 1]%nat.

(** ** One callback alone *)

Section thread_lemmas.
Context {W : Type} `{Env W}.
Context (o2s : omap u16string u16string) (fuel : nat).
Implicit Types (p : pc) (st : SolverState W) (c : config W).

Lemma thread_run_returned n r st :
  thread_run o2s fuel n (Returned r) st = (Returned r, st).
Proof. by induction n. Qed.

Lemma thread_run_S n p st :
  thread_run o2s fuel (S n) p st =
  thread_run o2s fuel n (thread_step o2s fuel p st).1
    (thread_step o2s fuel p st).2.
Proof. cbn [thread_run]. by destruct (thread_step _ _ _ _). Qed.

Lemma continue_unfold {A} (m : prog (SolverState W) A) (k : A → pc) st :
  continue m k st =
  match m st with
  | (st', Ok a) => (k a, st')
  | (st', Throw e) => (Returned (Throw e), st')
  | (st', Fuel) => (Returned Fuel, st')
  end.
Proof. done. Qed.

(** The steps from the test on: the rest of the callback. *)
Lemma thread_run_from_test uri v st :
  thread_run o2s fuel 3 (AtTest uri v) st =
  let r := (report ← gets (λ st, shouldReport uri v (switch_state st));
            when_ report (record_state uri v ;;
                          for_each o2s (report_class fuel uri v))) st in
  (Returned r.2, r.1).
Proof.
  rewrite thread_run_S, gets_bind. cbn [thread_step]. rewrite continue_unfold.
  cbn [gets fst snd]. destruct (shouldReport uri v (switch_state st));
    [|by rewrite thread_run_returned].
  rewrite when_true, thread_run_S. unfold record_state.
  rewrite modify_bind. cbn [thread_step]. rewrite continue_unfold.
  unfold record_state. cbn [modify fst snd].
  rewrite thread_run_S. cbn [thread_step]. rewrite continue_unfold.
  by destruct (for_each o2s _ _) as [st' [[]|e|]].
Qed.

(** The steps of a callback, run without interruption, are the callback. *)
Lemma thread_run_callback s st :
  thread_run o2s fuel 5 (AtGuards s) st =
  (Returned (packet_callback o2s fuel s st).2, (packet_callback o2s fuel s st).1).
Proof.
  rewrite thread_run_S. unfold packet_callback. cbn [thread_step].
  destruct (valid s && bool_decide (length (sense_data s) = 1%nat));
    [|reflexivity].
  rewrite when_true. cbv zeta.
  destruct ((0 =? _)%Z || (255 =? _)%Z); [|reflexivity].
  rewrite when_true, thread_run_S. cbn [thread_step fst snd].
  rewrite continue_unfold, bind_unfold, lookup_uri_eq. cbn [fst snd].
  apply thread_run_from_test.
Qed.

(** *** Schedules *)

Lemma sched_step_returned i c r :
  threads c !! i = Some (Returned r) → sched_step o2s fuel i c = c.
Proof.
  intros Hi. unfold sched_step. rewrite Hi. cbn [thread_step].
  destruct c as [st ts]. cbn in *. by rewrite list_insert_id.
Qed.

Lemma sched_step_none i c :
  threads c !! i = None → sched_step o2s fuel i c = c.
Proof. intros Hi. unfold sched_step. by rewrite Hi. Qed.

(** What a schedule does, the program can do. *)
Lemma run_schedule_reachable schedule c :
  reachable o2s fuel c (run_schedule o2s fuel schedule c).
Proof.
  unfold reachable, run_schedule. revert c.
  induction schedule as [|i schedule IH]; intros c; [done|]. cbn [foldl].
  destruct (threads c !! i) as [p|] eqn:Hi;
    [|by rewrite sched_step_none].
  destruct p; try (eapply rtc_l; [by eapply conc_step_thread|apply IH]).
  by erewrite sched_step_returned.
Qed.

Lemma sched_step_0 p0 p1 st :
  sched_step o2s fuel 0 (mkConfig st [p0; p1]) =
  mkConfig (thread_step o2s fuel p0 st).2 [(thread_step o2s fuel p0 st).1; p1].
Proof. unfold sched_step. cbn. by destruct (thread_step _ _ _ _). Qed.

Lemma sched_step_1 p0 p1 st :
  sched_step o2s fuel 1 (mkConfig st [p0; p1]) =
  mkConfig (thread_step o2s fuel p1 st).2 [p0; (thread_step o2s fuel p1 st).1].
Proof. unfold sched_step. cbn. by destruct (thread_step _ _ _ _). Qed.

Lemma run_schedule_app schedule1 schedule2 c :
  run_schedule o2s fuel (schedule1 ++ schedule2) c =
  run_schedule o2s fuel schedule2 (run_schedule o2s fuel schedule1 c).
Proof. apply foldl_app. Qed.

Lemma run_schedule_0 n p0 p1 st :
  run_schedule o2s fuel (replicate n 0%nat) (mkConfig st [p0; p1]) =
  mkConfig (thread_run o2s fuel n p0 st).2 [(thread_run o2s fuel n p0 st).1; p1].
Proof.
  revert p0 st. induction n as [|n IH]; intros p0 st; [done|].
  rewrite thread_run_S, <- IH. unfold run_schedule. cbn [replicate foldl].
  by rewrite sched_step_0.
Qed.

Lemma run_schedule_1 n p0 p1 st :
  run_schedule o2s fuel (replicate n 1%nat) (mkConfig st [p0; p1]) =
  mkConfig (thread_run o2s fuel n p1 st).2 [p0; (thread_run o2s fuel n p1 st).1].
Proof.
  revert p1 st. induction n as [|n IH]; intros p1 st; [done|].
  rewrite thread_run_S, <- IH. unfold run_schedule. cbn [replicate foldl].
  by rewrite sched_step_1.
Qed.

(** Five steps of the first callback, then five of the second. *)
Lemma run_schedule_serial s1 s2 st :
  run_schedule o2s fuel serial_schedule (mkConfig st [AtGuards s1; AtGuards s2]) =
  let r1 := packet_callback o2s fuel s1 st in
  let r2 := packet_callback o2s fuel s2 r1.1 in
  mkConfig r2.1 [Returned r1.2; Returned r2.2].
Proof.
  change serial_schedule with (replicate 5 0%nat ++ replicate 5 1%nat).
  rewrite run_schedule_app, run_schedule_0, run_schedule_1.
  by rewrite !thread_run_callback.
Qed.

Lemma thread_run_add n m p st :
  thread_run o2s fuel (n + m) p st =
  thread_run o2s fuel m (thread_run o2s fuel n p st).1
    (thread_run o2s fuel n p st).2.
Proof.
  revert p st. induction n as [|n IH]; intros p st; [done|].
  change (S n + m)%nat with (S (n + m)). by rewrite !thread_run_S, IH.
Qed.

(** C24.  The steps are those of the callback: a callback that nothing
    interrupts has returned after five steps, with the result and the
    state of [packet_callback]. *)
Theorem thread_run_packet_callback n s st :
  5 ≤ n →
  thread_run o2s fuel n (AtGuards s) st =
  (Returned (packet_callback o2s fuel s st).2, (packet_callback o2s fuel s st).1).
Proof.
  intros Hn. replace n with (5 + (n - 5))%nat by lia.
  rewrite thread_run_add, thread_run_callback. apply thread_run_returned.
Qed.

(** Two callbacks of which the second starts when the first has
    returned leave the state that [run_callbacks] computes for the two
    samples in that order. *)
Theorem serial_schedule_run_callbacks s1 s2 st :
  (packet_callback o2s fuel s1 st).2 = Ok () →
  let c' := run_schedule o2s fuel serial_schedule
              (mkConfig st [AtGuards s1; AtGuards s2]) in
  shared c' = (run_callbacks o2s fuel [s1; s2] st).1 ∧
  threads c' = [Returned (Ok ()); Returned (run_callbacks o2s fuel [s1; s2] st).2].
Proof.
  intros Hok. rewrite run_schedule_serial. cbv zeta. cbn [shared threads].
  unfold run_callbacks. rewrite for_each_cons, bind_unfold.
  destruct (packet_callback o2s fuel s1 st) as [st1 r1]. cbn [snd] in Hok.
  subst r1. cbn [fst snd for_each]. rewrite bind_unfold.
  by destruct (packet_callback o2s fuel s2 st1) as [st2 [[]|e|]].
Qed.

(** *** The steps of a callback for a known transmitter *)

Lemma thread_step_guards key v st :
  thread_step o2s fuel (AtGuards (sample_of key v)) st = (AtLookup key v, st).
Proof. by destruct key, v. Qed.

Lemma thread_step_lookup key v uri st :
  tx_to_uri st !! key = Some uri →
  thread_step o2s fuel (AtLookup key v) st = (AtTest uri v, st).
Proof.
  intros Hkey. cbn [thread_step]. rewrite continue_unfold, lookup_uri_eq.
  unfold resolve. rewrite Hkey, (subscript_known _ _ _ _ Hkey).
  by destruct st.
Qed.

Lemma thread_step_test_new uri v st :
  switch_state st !! uri ≠ Some v →
  thread_step o2s fuel (AtTest uri v) st = (AtRecord uri v, st).
Proof.
  intros Hnew. cbn [thread_step]. rewrite continue_unfold. cbn [gets].
  unfold shouldReport. destruct (switch_state st !! uri) as [known|]; [|done].
  by destruct (eqb_spec known v) as [->|Hne].
Qed.

Lemma thread_step_record uri v st :
  thread_step o2s fuel (AtRecord uri v) st =
  (AtReport uri v,
   mkSolverState (tx_to_uri st) (<[uri := v]> (switch_state st)) (proc st)).
Proof. done. Qed.

End thread_lemmas.

(** ** Two callbacks for the same change *)

Section race.
Context (o2s : omap u16string u16string) (fuel : nat).
Implicit Types (st : SolverState Scripted).

Lemma thread_step_report uri v st :
  script (world (proc st)) = [] →
  thread_step o2s (S fuel) (AtReport uri v) st =
  (Returned (Ok ()),
   set_proc (proc_after_reports (proc st) uri v (matching_solutions o2s uri)) st).
Proof.
  intros Hscr. cbn [thread_step].
  by rewrite continue_unfold, for_each_report_scripted.
Qed.

(** The racy schedule, step by step. *)
Lemma racy_schedule_run key uri v st :
  tx_to_uri st !! key = Some uri →
  switch_state st !! uri ≠ Some v →
  script (world (proc st)) = [] →
  let c := mkConfig st [AtGuards (sample_of key v); AtGuards (sample_of key v)] in
  let c' := run_schedule o2s (S fuel) racy_schedule c in
  reachable o2s (S fuel) c c' ∧
  threads c' = [Returned (Ok ()); Returned (Ok ())] ∧
  proc (shared c') =
    proc_after_run (proc st) uri (matching_solutions o2s uri) [v; v].
Proof.
  intros Hkey Hnew Hscr c c'. split; [apply run_schedule_reachable|].
  subst c c'. unfold run_schedule, racy_schedule. cbn [foldl].
  rewrite sched_step_0, thread_step_guards. cbn [fst snd].
  rewrite sched_step_0, (thread_step_lookup _ _ _ _ uri) by done. cbn [fst snd].
  rewrite sched_step_0, thread_step_test_new by done. cbn [fst snd].
  rewrite sched_step_1, thread_step_guards. cbn [fst snd].
  rewrite sched_step_1, (thread_step_lookup _ _ _ _ uri) by done. cbn [fst snd].
  rewrite sched_step_1, thread_step_test_new by done. cbn [fst snd].
  rewrite sched_step_0, thread_step_record. cbn [fst snd].
  rewrite sched_step_0, thread_step_report by done. cbn [fst snd].
  rewrite sched_step_1, thread_step_record. cbn [fst snd].
  rewrite sched_step_1, thread_step_report by done. done.
Qed.

(** C18.  The change tracker is not protected by the mutex.  When two
    callbacks for the same new position of a known transmitter both make
    the test of line 137 before either makes the assignment of line 138,
    which the program allows, both report: every matching class is sent
    twice. *)
Theorem duplicate_report key uri v st :
  tx_to_uri st !! key = Some uri →
  switch_state st !! uri ≠ Some v →
  script (world (proc st)) = [] →
  let c := mkConfig st [AtGuards (sample_of key v); AtGuards (sample_of key v)] in
  let c' := run_schedule o2s (S fuel) racy_schedule c in
  reachable o2s (S fuel) c c' ∧
  threads c' = [Returned (Ok ()); Returned (Ok ())] ∧
  proc (shared c') =
    proc_after_run (proc st) uri (matching_solutions o2s uri) [v; v].
Proof. apply racy_schedule_run. Qed.

End race.
(** ** The callbacks end *)

Section termination.
Context {W : Type} `{Env W}.
Context (o2s : omap u16string u16string) (fuel : nat).
Implicit Types (p : pc) (st : SolverState W) (c : config W).

(** A step of a callback that has not returned brings it nearer to its
    return, whatever the shared state. *)
Lemma thread_step_rank p st :
  running p → pc_rank (thread_step o2s fuel p st).1 < pc_rank p.
Proof.
  destruct p; cbn [thread_step running]; rewrite ?continue_unfold;
    [|..|done]; intros _; repeat case_match; cbn; lia.
Qed.

Lemma pc_rank_bound p : pc_rank p ≤ 5.
Proof. destruct p; cbn; lia. Qed.

Lemma threads_rank_bound c : threads_rank c ≤ 5 * length (threads c).
Proof.
  unfold threads_rank. induction (threads c) as [|p ts IH]; [done|].
  pose proof (pc_rank_bound p). cbn in *. lia.
Qed.

Lemma conc_step_rank c c' :
  conc_step o2s fuel c c' → threads_rank c' < threads_rank c.
Proof.
  intros [i p c0 Hi Hrun]. unfold sched_step, threads_rank. rewrite Hi.
  pose proof (thread_step_rank p (shared c0) Hrun) as Hlt.
  destruct (thread_step o2s fuel p (shared c0)) as [p' st']. cbn in *.
  rewrite list_fmap_insert.
  pose proof (sum_list_insert (pc_rank <$> threads c0) i (pc_rank p)
                (pc_rank p')) as Hsum.
  rewrite list_lookup_fmap, Hi in Hsum. specialize (Hsum eq_refl). lia.
Qed.


End termination.

(** ** Concrete runs *)


Lemma thread_run_packet_callback_witness :
  thread_run mug_config 1 7 (AtGuards mug_on) mug_state =
  (Returned (packet_callback mug_config 1 mug_on mug_state).2,
   (packet_callback mug_config 1 mug_on mug_state).1).
Proof.
  apply (thread_run_packet_callback mug_config 1 7 mug_on mug_state). lia.
Defined.

Lemma serial_schedule_run_callbacks_witness :
  length (accepted (world (proc (shared
    (run_schedule mug_config 1 serial_schedule
       (mkConfig mug_state [AtGuards mug_on; AtGuards mug_on])))))) = 1%nat.
Proof.
  destruct (serial_schedule_run_callbacks mug_config 1 mug_on mug_on mug_state)
    as [Hshared _]; [reflexivity|].
  rewrite Hshared. vm_compute. reflexivity.
Defined.

(** The mug is switched on once and reported twice. *)
Lemma duplicate_report_witness :
  length (accepted (world (proc (shared
    (run_schedule mug_config 1 racy_schedule
       (mkConfig mug_state [AtGuards mug_on; AtGuards mug_on])))))) = 2%nat.
Proof.
  destruct (duplicate_report mug_config 0 (x01, 42%Z) mug_uri true mug_state)
    as (_ & _ & Hproc); [reflexivity | done | reflexivity |].
  change (sample_of (x01, 42%Z) true) with mug_on in Hproc.
  rewrite Hproc. vm_compute. reflexivity.
Defined.
