(* ===== verification/Mutex.v ===== *)
(** * The callback, a statement at a time, and the mutex

    [Concurrency] cuts the callback where the change tracker can go
    wrong and takes the rest in large steps: the lookup with its lock and
    unlock is one step, and so is the whole loop that reports.  This file
    cuts lines 127-174 of [query_world.cpp] at every access to what the
    threads share: the mutex [tx_to_uri_mutex] (lines 133 and 135), the
    table [tx_to_uri] (line 134), the two reads of [switch_state] of line
    137 and its assignment of line 138, the clock, every call of
    [sendData], and every write to a stream.  The retry loop is steps like
    the others, so that there is no fuel: a callback whose sends fail
    transiently for ever makes steps for ever.

    [fpc] is where a callback is, with its local variables; [fine_step] is
    its next statement on the shared variables.  A [fine] state holds the
    shared variables, the thread that holds the mutex, if any, and the
    callbacks in progress; [fine_next] lets one of them make a step, and a
    callback at line 133 can make its step only when the mutex is free.

    The theorems: the mutex excludes ([mutex_inv]): at most one callback
    is between lines 133 and 135, and [tx_to_uri] changes under the mutex
    only ([mutex_excludes]); no state is a deadlock ([no_deadlock]); a
    callback that no other interrupts ends exactly as [packet_callback]
    does for some fuel ([callback_alone]); and every step of
    [Concurrency] whose retry loops end is a sequence of steps of this
    file, so that the interleavings of [Concurrency] are interleavings of
    the program ([interleavings_refine]).  The double report of
    [Concurrency] is among them: the mutex does not protect
    [switch_state] ([mutex_allows_duplicate]). *)

From S2P Require Import Prelude Monad OrderedMap U16String Env.
From S2P Require Import Dispatcher Solver Concurrency.

(** ** The statements of a callback *)

(** How a callback ended: it returned, or an exception left it. *)
Definition ending : Type := option exn.

(** Where a callback is.  [rest] is what the iterator of line 140 has not
    visited yet, [obj_soln] the entry it is at, and [solns] the batch of
    line 144. *)
Inductive fpc : Type :=
  | FGuards (s : SampleData)
  | FLock (key : byte * Z) (switch_on : bool)
  | FSubscript (key : byte * Z) (switch_on : bool)
  | FUnlock (uri : u16string) (switch_on : bool)
  | FFind (uri : u16string) (switch_on : bool)
  | FRead (uri : u16string) (switch_on : bool)
  | FAssign (uri : u16string) (switch_on : bool)
  | FLoop (uri : u16string) (switch_on : bool)
      (rest : list (u16string * u16string))
  | FTime (uri : u16string) (switch_on : bool)
      (obj_soln : u16string * u16string) (rest : list (u16string * u16string))
  | FSend (uri : u16string) (switch_on : bool)
      (obj_soln : u16string * u16string) (solns : list AttrUpdate)
      (rest : list (u16string * u16string))
  | FRetry (uri : u16string) (switch_on : bool)
      (obj_soln : u16string * u16string) (solns : list AttrUpdate)
      (rest : list (u16string * u16string))
  | FPrint (uri : u16string) (switch_on : bool)
      (obj_soln : u16string * u16string) (rest : list (u16string * u16string))
  | FReturned (e : ending).

#[export] Instance fpc_inhabited : Inhabited fpc := populate (FReturned None).

(** The callback has not ended. *)
Definition frunning (p : fpc) : bool :=
  match p with
  | FReturned _ => false
  | _ => true
  end.

(** The callback is between line 133 and line 135: it holds the mutex. *)
Definition in_critical (p : fpc) : bool :=
  match p with
  | FSubscript _ _ | FUnlock _ _ => true
  | _ => false
  end.

(** The callback is at line 133, about to take the mutex. *)
Definition at_lock (p : fpc) : bool :=
  match p with
  | FLock _ _ => true
  | _ => false
  end.

Section fine.
Context {W : Type} `{Env W}.
Context (object_to_solution : omap u16string u16string).
Implicit Types (p : fpc) (st : SolverState W).

(** Where the callback goes on after the answer of [sendData]: lines
    150-162. *)
Definition after_send (uri : u16string) (switch_on : bool)
    (obj_soln : u16string * u16string) (solns : list AttrUpdate)
    (rest : list (u16string * u16string)) (answer : option exn) : fpc :=
  match answer with
  | None => FPrint uri switch_on obj_soln rest
  | Some (runtime_error what) =>
      if String.eqb what transient_what
      then FRetry uri switch_on obj_soln solns rest
      else FReturned (Some (runtime_error what))
  | Some e => FReturned (Some e)
  end.

(** The next statement of a callback. *)
Definition fine_step p st : fpc * SolverState W :=
  match p with
  | FGuards s =>
      if valid s && bool_decide (length (sense_data s) = 1%nat) then
        let switch_value := readPrimitive_uint8 (sense_data s) 0 in
        if (0 =? switch_value)%Z || (255 =? switch_value)%Z then
          (FLock (physical_layer s, tx_id s) (255 =? switch_value)%Z, st)
        else (FReturned None, st)
      else (FReturned None, st)
  | FLock key switch_on => (FSubscript key switch_on, st)
  | FSubscript key switch_on =>
      let '(uri, m') := subscript [] key (tx_to_uri st) in
      (FUnlock uri switch_on, mkSolverState m' (switch_state st) (proc st))
  | FUnlock uri switch_on => (FFind uri switch_on, st)
  | FFind uri switch_on =>
      match switch_state st !! uri with
      | None => (FAssign uri switch_on, st)
      | Some _ => (FRead uri switch_on, st)
      end
  | FRead uri switch_on =>
      let '(known, m') := subscript false uri (switch_state st) in
      (if negb (eqb known switch_on) then FAssign uri switch_on
       else FReturned None,
       mkSolverState (tx_to_uri st) m' (proc st))
  | FAssign uri switch_on =>
      (FLoop uri switch_on object_to_solution,
       mkSolverState (tx_to_uri st) (<[uri := switch_on]> (switch_state st))
         (proc st))
  | FLoop uri switch_on [] => (FReturned None, st)
  | FLoop uri switch_on (obj_soln :: rest) =>
      if bool_decide (find uri (class_segment obj_soln.1) ≠ None)
      then (FTime uri switch_on obj_soln rest, st)
      else (FLoop uri switch_on rest, st)
  | FTime uri switch_on obj_soln rest =>
      let '(w', now) := getGRAILTime (world (proc st)) in
      let soln := mkAttrUpdate obj_soln.2 now uri [] in
      let soln := mkAttrUpdate (au_name soln) (au_creation_date soln)
                    (au_uri soln)
                    (pushBackVal_uint8 (if switch_on then x01 else x00)
                       (au_data soln)) in
      (FSend uri switch_on obj_soln [soln] rest,
       set_proc (set_world w' (proc st)) st)
  | FSend uri switch_on obj_soln solns rest =>
      let '(w', answer) := sendData solns false (world (proc st)) in
      (after_send uri switch_on obj_soln solns rest answer,
       set_proc (set_world w' (proc st)) st)
  | FRetry uri switch_on obj_soln solns rest =>
      (FSend uri switch_on obj_soln solns rest,
       set_proc (mkProcess (world (proc st)) (cout (proc st))
                   (cerr (proc st) ++ [retry_message])) st)
  | FPrint uri switch_on obj_soln rest =>
      (FLoop uri switch_on rest,
       set_proc (mkProcess (world (proc st))
                   (cout (proc st) ++ [report_line uri switch_on obj_soln.2])
                   (cerr (proc st))) st)
  | FReturned e => (FReturned e, st)
  end.

(** [n] statements of one callback, nothing else running. *)
Fixpoint fine_run (n : nat) p st : fpc * SolverState W :=
  match n with
  | O => (p, st)
  | S n' => let '(p', st') := fine_step p st in fine_run n' p' st'
  end.

(** ** Several callbacks and the mutex *)

(** The shared variables, the callback that holds the mutex, and the
    callbacks in progress. *)
Record fine : Type := mkFine {
  f_shared : SolverState W;
  f_mutex : option nat;
  f_threads : list fpc;
}.

(** The mutex after the step of the callback [i] from [p]: line 133 takes
    it, the end of the block at line 135 releases it. *)
Definition mutex_after (i : nat) p (mutex : option nat) : option nat :=
  match p with
  | FLock _ _ => Some i
  | FUnlock _ _ => None
  | _ => mutex
  end.

(** The callback [i] can make its step: it has not ended, and if it is at
    line 133 the mutex is free. *)
Definition enabled (i : nat) (c : fine) : bool :=
  match f_threads c !! i with
  | Some p => frunning p && (negb (at_lock p) || bool_decide (f_mutex c = None))
  | None => false
  end.

(** The callback [i] makes its step, if it can. *)
Definition fine_next (i : nat) (c : fine) : option fine :=
  p ← f_threads c !! i;
  if enabled i c then
    let '(p', st') := fine_step p (f_shared c) in
    Some (mkFine st' (mutex_after i p (f_mutex c)) (<[i := p']> (f_threads c)))
  else None.

Definition fine_steps (c c' : fine) : Prop := ∃ i, fine_next i c = Some c'.

(** The steps of the callbacks [schedule], in order; a step that cannot
    be made is skipped. *)
Definition fine_schedule (schedule : list nat) (c : fine) : fine :=
  foldl (λ c i, default c (fine_next i c)) c schedule.

(** The mutex excludes: the callback that holds it is between lines 133
    and 135, and no other is. *)
Definition mutex_inv (c : fine) : Prop :=
  (∀ i p, f_threads c !! i = Some p → in_critical p = true →
          f_mutex c = Some i) ∧
  (∀ i, f_mutex c = Some i →
        ∃ p, f_threads c !! i = Some p ∧ in_critical p = true).

(** The callbacks of [samples], none of which has started. *)
Definition fine_init st (samples : list SampleData) : fine :=
  mkFine st None (FGuards <$> samples).

End fine.

Arguments fine W : clear implicits.

(** ** The mutex *)

Section mutex.
Context {W : Type} `{Env W}.
Context (o2s : omap u16string u16string).
Implicit Types (p : fpc) (st : SolverState W) (c : fine W).

(** Lines 133 and 134 lead into the block, every other statement leads
    out of it or stays out. *)
Lemma fine_step_critical p st :
  in_critical (fine_step o2s p st).1 =
  match p with
  | FLock _ _ | FSubscript _ _ => true
  | _ => false
  end.
Proof.
  destruct p as [s|key v|key v|uri v|uri v|uri v|uri v|uri v [|os rest]
                |uri v os rest|uri v os solns rest|uri v os solns rest
                |uri v os rest|e]; cbn; repeat case_match; try done.
  unfold after_send. by repeat case_match.
Qed.

(** Only line 134 writes [tx_to_uri]. *)
Lemma fine_step_tx_to_uri p st :
  tx_to_uri (fine_step o2s p st).2 = tx_to_uri st ∨
  ∃ key v, p = FSubscript key v.
Proof.
  destruct p as [s|key v|key v|uri v|uri v|uri v|uri v|uri v [|os rest]
                |uri v os rest|uri v os solns rest|uri v os solns rest
                |uri v os rest|e]; cbn; repeat case_match; eauto.
Qed.

(** What a step of [fine_next] is made of. *)
Lemma fine_next_Some i c c' :
  fine_next o2s i c = Some c' ↔
  ∃ p, f_threads c !! i = Some p ∧ enabled i c = true ∧
       c' = mkFine (fine_step o2s p (f_shared c)).2
              (mutex_after i p (f_mutex c))
              (<[i := (fine_step o2s p (f_shared c)).1]> (f_threads c)).
Proof.
  unfold fine_next. split.
  - intros Hnext. destruct (f_threads c !! i) as [p|] eqn:Hp; [|done].
    cbn in Hnext. destruct (enabled i c) eqn:Hen; [|done].
    destruct (fine_step o2s p (f_shared c)) as [p' st'] eqn:Hs.
    simplify_eq. exists p. by rewrite Hs.
  - intros (p & Hp & Hen & ->). rewrite Hp. cbn. rewrite Hen.
    by destruct (fine_step o2s p (f_shared c)).
Qed.

(** The callback that holds the mutex can make its step, and so can
    every other when the mutex is free. *)
Lemma enabled_critical i p c :
  f_threads c !! i = Some p → in_critical p = true → enabled i c = true.
Proof. intros Hp Hcrit. unfold enabled. rewrite Hp. by destruct p. Qed.

Lemma enabled_free i p c :
  f_threads c !! i = Some p → frunning p = true → f_mutex c = None →
  enabled i c = true.
Proof.
  intros Hp Hrun Hfree. unfold enabled. rewrite Hp, Hrun, Hfree.
  by destruct (at_lock p).
Qed.

Lemma enabled_lock i key v c :
  f_threads c !! i = Some (FLock key v) → enabled i c = true →
  f_mutex c = None.
Proof.
  intros Hp. unfold enabled. rewrite Hp. cbn. by intros ?%bool_decide_eq_true.
Qed.

Lemma fine_init_inv st samples : mutex_inv (fine_init st samples).
Proof.
  split; [|done]. intros i p Hp. cbn in Hp.
  apply list_lookup_fmap_Some in Hp as (s & -> & _). done.
Qed.

(** A step keeps the mutex with the callback that is in the block. *)
Lemma fine_next_inv i c c' :
  fine_next o2s i c = Some c' → mutex_inv c → mutex_inv c'.
Proof.
  intros (p & Hp & Hen & ->)%fine_next_Some [Hin Hheld].
  pose proof (fine_step_critical p (f_shared c)) as Hcrit.
  destruct (fine_step o2s p (f_shared c)) as [p' st']. cbn [fst snd] in *.
  pose proof (lookup_lt_Some _ _ _ Hp) as Hlt.
  split; cbn [f_threads f_mutex].
  - intros j q [(<- & <- & _)|[Hne Hq]]%list_lookup_insert_Some Hq'.
    + rewrite Hcrit in Hq'. destruct p; try done. cbn. by apply Hin in Hp.
    + pose proof (Hin _ _ Hq Hq') as Hj. destruct p; cbn; try done.
      * eapply enabled_lock in Hen; [congruence | done].
      * apply Hin in Hp; [congruence | done].
  - intros j Hj. destruct (decide (j = i)) as [->|Hne].
    + exists p'. rewrite list_lookup_insert_eq by done. split; [done|].
      rewrite Hcrit. destruct p; cbn in Hj; try done.
      all: by destruct (Hheld _ Hj) as (q & ? & ?); simplify_eq.
    + rewrite list_lookup_insert_ne by done. apply Hheld.
      destruct p; cbn in Hj; by simplify_eq.
Qed.

Lemma fine_steps_inv c c' : rtc (fine_steps o2s) c c' → mutex_inv c → mutex_inv c'.
Proof.
  induction 1 as [|c c1 c' [i Hstep] _ IH]; [done|].
  intros Hinv. by eapply IH, fine_next_inv.
Qed.

End mutex.

(** ** A callback that nothing interrupts *)

(** The ending that a result of [packet_callback] stands for. *)
Definition ending_of (r : result ()) : ending :=
  match r with
  | Throw e => Some e
  | _ => None
  end.

Section alone.
Context {W : Type} `{Env W}.
Context (o2s : omap u16string u16string).
Implicit Types (p : fpc) (st : SolverState W).

Lemma fine_run_S n p st :
  fine_run o2s (S n) p st =
  fine_run o2s n (fine_step o2s p st).1 (fine_step o2s p st).2.
Proof. cbn [fine_run]. by destruct (fine_step _ _ _). Qed.

Lemma fine_run_returned n e st :
  fine_run o2s n (FReturned e) st = (FReturned e, st).
Proof. by induction n. Qed.

Lemma fine_run_add n m p st :
  fine_run o2s (n + m) p st =
  fine_run o2s m (fine_run o2s n p st).1 (fine_run o2s n p st).2.
Proof.
  revert p st. induction n as [|n IH]; intros p st; [done|].
  rewrite Nat.add_succ_l, !fine_run_S. apply IH.
Qed.

Lemma fine_run_trans n m p st p1 st1 p2 st2 :
  fine_run o2s n p st = (p1, st1) → fine_run o2s m p1 st1 = (p2, st2) →
  fine_run o2s (n + m) p st = (p2, st2).
Proof. intros H1 H2. by rewrite fine_run_add, H1. Qed.

(** *** The retry loop *)

Lemma after_send_transient uri v os solns rest :
  after_send uri v os solns rest (Some transient) = FRetry uri v os solns rest.
Proof. unfold after_send, transient. by rewrite String.eqb_refl. Qed.

Lemma after_send_final uri v os solns rest answer :
  answer ≠ Some transient →
  after_send uri v os solns rest answer =
  match answer with
  | None => FPrint uri v os rest
  | Some e => FReturned (Some e)
  end.
Proof.
  intros Ha. destruct answer as [[what|what]|]; [|done..]. unfold after_send.
  destruct (String.eqb what transient_what) eqn:Heq; [|done].
  by apply String.eqb_eq in Heq as ->.
Qed.

(** [n] transient failures are [n] turns of the loop: a call and the
    message, each. *)
Lemma fine_run_transient n uri v os solns rest w w1 :
  transient_run solns n w w1 → ∀ st, world (proc st) = w →
  fine_run o2s (2 * n) (FSend uri v os solns rest) st =
    (FSend uri v os solns rest,
     set_proc (mkProcess w1 (cout (proc st))
                 (cerr (proc st) ++ replicate n retry_message)) st).
Proof.
  induction 1 as [w|n w w1 w' Hs _ IH]; intros st Hw.
  - cbn. rewrite app_nil_r. subst. by destruct st as [? ? []].
  - replace (2 * S n)%nat with (S (S (2 * n))) by lia.
    rewrite !fine_run_S. cbn [fine_step]. rewrite Hw, Hs. cbn [fst snd].
    rewrite after_send_transient. cbn [fine_step fst snd].
    rewrite IH by done. cbn. by rewrite <- app_assoc.
Qed.

(** The loop ends with the first answer that is not a transient
    failure. *)
Lemma fine_run_send n uri v os solns rest st w1 w2 answer :
  transient_run solns n (world (proc st)) w1 →
  sendData solns false w1 = (w2, answer) →
  answer ≠ Some transient →
  fine_run o2s (2 * n + 1) (FSend uri v os solns rest) st =
    (match answer with
     | None => FPrint uri v os rest
     | Some e => FReturned (Some e)
     end,
     set_proc (mkProcess w2 (cout (proc st))
                 (cerr (proc st) ++ replicate n retry_message)) st).
Proof.
  intros Hrun Hs Ha. eapply fine_run_trans;
    [by eapply fine_run_transient|].
  cbn. rewrite Hs. by rewrite after_send_final.
Qed.

(** *** The loop over the classes *)

(** Lines 141-169, with the calls of the process written out. *)
Lemma report_class_unfold fuel uri v os st :
  report_class fuel uri v os st =
  if bool_decide (find uri (class_segment os.1) ≠ None) then
    let '(w', now) := getGRAILTime (world (proc st)) in
    let solns := [mkAttrUpdate os.2 now uri [if v then x01 else x00]] in
    match send_with_retry fuel solns (set_world w' (proc st)) with
    | (p2, Ok _) =>
        (set_proc (mkProcess (world p2) (cout p2 ++ [report_line uri v os.2])
                     (cerr p2)) st, Ok ())
    | (p2, Throw e) => (set_proc p2 st, Throw e)
    | (p2, Fuel) => (set_proc p2 st, Fuel)
    end
  else (st, Ok ()).
Proof.
  unfold report_class. case_bool_decide; [|done]. rewrite when_true.
  unfold in_proc. rewrite bind_unfold, zoom_unfold. unfold call_getGRAILTime.
  destruct (getGRAILTime (world (proc st))) as [w' now]. cbn [fst snd].
  rewrite bind_unfold, zoom_unfold. cbn [proc set_proc].
  cbn [au_name au_creation_date au_uri au_data pushBackVal_uint8 app].
  by destruct (send_with_retry fuel _ _) as [p2 [[]|e|]].
Qed.

Lemma fine_step_loop uri v os rest st :
  fine_step o2s (FLoop uri v (os :: rest)) st =
  if bool_decide (find uri (class_segment os.1) ≠ None)
  then (FTime uri v os rest, st)
  else (FLoop uri v rest, st).
Proof. done. Qed.

(** Lines 141-144: the test of the class, the clock and the batch. *)
Lemma fine_run_time uri v os rest st w' now :
  find uri (class_segment os.1) ≠ None →
  getGRAILTime (world (proc st)) = (w', now) →
  fine_run o2s 2 (FLoop uri v (os :: rest)) st =
    (FSend uri v os [mkAttrUpdate os.2 now uri [if v then x01 else x00]] rest,
     set_proc (set_world w' (proc st)) st).
Proof.
  intros Hclass Hnow.
  rewrite !fine_run_S, fine_step_loop, bool_decide_eq_true_2 by done.
  cbn [fst snd fine_step fine_run]. by rewrite Hnow.
Qed.

(** One turn of the loop of line 140 on a class, when the retry loop
    ends: the callback is at the next class, or an exception has left
    it. *)
Lemma fine_run_class fuel uri v os rest st st' r :
  report_class fuel uri v os st = (st', r) → r ≠ Fuel →
  ∃ n, fine_run o2s n (FLoop uri v (os :: rest)) st =
         (match r with
          | Throw e => FReturned (Some e)
          | _ => FLoop uri v rest
          end, st').
Proof.
  rewrite report_class_unfold. intros Hr Hfuel.
  case_bool_decide as Hclass; [|injection Hr as <- <-; exists 1%nat;
    by rewrite fine_run_S, fine_step_loop, bool_decide_eq_false_2
      by congruence].
  destruct (getGRAILTime (world (proc st))) as [w' now] eqn:Hnow.
  cbv zeta in Hr.
  destruct (send_with_retry fuel _ _) as [p2 r2] eqn:Hsend.
  apply send_with_retry_inv in Hsend
    as (n & w1 & w2 & answer & Hrun & Hs & Ha & _ & -> & ->);
    [|by destruct r2; simplify_eq].
  pose proof (fine_run_send n uri v os _ rest
    (set_proc (set_world w' (proc st)) st) w1 w2 answer Hrun Hs Ha) as Hfine.
  pose proof (fine_run_time uri v os rest st w' now Hclass Hnow) as Htime.
  destruct answer as [e|]; cbn in Hr; simplify_eq.
  - exists (2 + (2 * n + 1))%nat. by eapply fine_run_trans.
  - exists (2 + ((2 * n + 1) + 1))%nat.
    eapply fine_run_trans; [done|]. by eapply fine_run_trans.
Qed.

(** The loop of lines 140-170. *)
Lemma fine_run_loop fuel uri v rest st st' r :
  for_each rest (report_class fuel uri v) st = (st', r) → r ≠ Fuel →
  ∃ n, fine_run o2s n (FLoop uri v rest) st =
         (FReturned (ending_of r), st').
Proof.
  revert st. induction rest as [|os rest IH]; intros st Hr Hfuel.
  - rewrite for_each_nil in Hr. injection Hr as <- <-. by exists 1%nat.
  - rewrite for_each_cons, bind_unfold in Hr.
    destruct (report_class fuel uri v os st) as [st1 r1] eqn:Hclass.
    destruct r1 as [[]|e|]; simplify_eq.
    + destruct (fine_run_class _ _ _ _ rest _ _ _ Hclass) as [n Hn]; [done|].
      destruct (IH _ Hr Hfuel) as [m Hm]. exists (n + m)%nat.
      by eapply fine_run_trans.
    + destruct (fine_run_class _ _ _ _ rest _ _ _ Hclass) as [n Hn]; [done|].
      by exists n.
Qed.

(** *** The steps of [Concurrency] *)

(** Where the callback is, statement by statement, at a point of
    [Concurrency]. *)
Definition fine_of (p : pc) : fpc :=
  match p with
  | AtGuards s => FGuards s
  | AtLookup key v => FLock key v
  | AtTest uri v => FFind uri v
  | AtRecord uri v => FAssign uri v
  | AtReport uri v => FLoop uri v o2s
  | Returned r => FReturned (ending_of r)
  end.

(** Lines 133-135 in three statements. *)
Lemma fine_run_lookup key v st :
  fine_run o2s 3 (FLock key v) st =
    (FFind (resolve key st) v,
     mkSolverState (subscript [] key (tx_to_uri st)).2 (switch_state st)
       (proc st)).
Proof.
  cbn. unfold resolve, subscript. by destruct (tx_to_uri st !! key).
Qed.

(** Line 137 in one or two statements. *)
Lemma fine_run_test uri v st :
  ∃ n, fine_run o2s n (FFind uri v) st =
         (if shouldReport uri v (switch_state st) then FAssign uri v
          else FReturned None, st).
Proof.
  unfold shouldReport. destruct (switch_state st !! uri) as [known|] eqn:Hu.
  - exists 2%nat. cbn. rewrite Hu. cbn. rewrite (subscript_known _ _ _ _ Hu).
    destruct st. by destruct (negb _).
  - exists 1%nat. cbn. by rewrite Hu.
Qed.

(** A step of [Concurrency] whose retry loops end is a sequence of
    statements. *)
Lemma thread_step_fine fuel (q : pc) st :
  (thread_step o2s fuel q st).1 ≠ Returned Fuel →
  ∃ n, fine_run o2s n (fine_of q) st =
         (fine_of (thread_step o2s fuel q st).1,
          (thread_step o2s fuel q st).2).
Proof.
  destruct q as [s|key v|uri v|uri v|uri v|r]; cbn [thread_step fine_of];
    rewrite ?continue_unfold; intros Hfuel.
  - exists 1%nat. cbn. by repeat case_match.
  - exists 3%nat. by rewrite lookup_uri_eq, fine_run_lookup.
  - destruct (fine_run_test uri v st) as [n Hn]. exists n. rewrite Hn.
    cbn. by case_match.
  - by exists 1%nat.
  - destruct (for_each o2s _ st) as [st' r] eqn:Hr.
    apply fine_run_loop in Hr as [n Hn]; [|by destruct r as [[]| |]].
    exists n. rewrite Hn. by destruct r as [[]| |].
  - by exists 0%nat.
Qed.

Lemma thread_run_fine fuel n (q : pc) st :
  (thread_run o2s fuel n q st).1 ≠ Returned Fuel →
  ∃ m, fine_run o2s m (fine_of q) st =
         (fine_of (thread_run o2s fuel n q st).1,
          (thread_run o2s fuel n q st).2).
Proof.
  revert q st. induction n as [|n IH]; intros q st; [by exists 0%nat|].
  rewrite thread_run_S. intros Hfuel.
  destruct (thread_step_fine fuel q st) as [m1 Hm1].
  { intros Hq. by rewrite Hq, thread_run_returned in Hfuel. }
  destruct (IH _ _ Hfuel) as [m2 Hm2]. exists (m1 + m2)%nat.
  by eapply fine_run_trans.
Qed.

(** Every run of [packet_callback] that ends is a run of the statements
    of the callback. *)
Lemma packet_callback_fine fuel s st st' r :
  packet_callback o2s fuel s st = (st', r) → r ≠ Fuel →
  ∃ n, fine_run o2s n (FGuards s) st = (FReturned (ending_of r), st').
Proof.
  intros Hcb Hfuel.
  destruct (thread_run_fine fuel 5 (AtGuards s) st) as [n Hn];
    rewrite thread_run_callback, Hcb in *; [by intros [= ->]|].
  by exists n.
Qed.

(** *** Runs that do not end *)

(** A callback that has ended stays as it is. *)
Lemma fine_run_ended n m p st e st' :
  fine_run o2s n p st = (FReturned e, st') → (n ≤ m)%nat →
  fine_run o2s m p st = (FReturned e, st').
Proof.
  intros Hn Hle. replace m with (n + (m - n))%nat by lia.
  apply (fine_run_trans _ _ _ _ _ _ _ _ Hn), fine_run_returned.
Qed.

(** Where a retry loop of [packet_callback] runs out of its fuel, the
    callback is still making statements after as many of them. *)
Lemma fine_run_class_fuel fuel uri v os rest st st' :
  report_class fuel uri v os st = (st', Fuel) →
  ∃ n, (fuel ≤ n)%nat ∧
       frunning (fine_run o2s n (FLoop uri v (os :: rest)) st).1 = true.
Proof.
  rewrite report_class_unfold. case_bool_decide as Hclass; [|done].
  destruct (getGRAILTime (world (proc st))) as [w' now] eqn:Hnow.
  cbv zeta. destruct (send_with_retry fuel _ _) as [p2 r2] eqn:Hsend.
  destruct r2 as [[]|e|]; [done..|]. intros _.
  apply send_with_retry_fuel in Hsend as [w1 Hrun].
  exists (2 + 2 * fuel)%nat. split; [lia|].
  rewrite fine_run_add, (fine_run_time uri v os rest st w' now) by done.
  cbn [fst snd]. by erewrite fine_run_transient.
Qed.

Lemma fine_run_loop_fuel fuel uri v rest st st' :
  for_each rest (report_class fuel uri v) st = (st', Fuel) →
  ∃ n, (fuel ≤ n)%nat ∧
       frunning (fine_run o2s n (FLoop uri v rest) st).1 = true.
Proof.
  revert st. induction rest as [|os rest IH]; intros st Hr; [done|].
  rewrite for_each_cons, bind_unfold in Hr.
  destruct (report_class fuel uri v os st) as [st1 r1] eqn:Hclass.
  destruct r1 as [[]|e|]; [|done|by eapply fine_run_class_fuel].
  destruct (fine_run_class _ _ _ _ rest _ _ _ Hclass) as [n Hn]; [done|].
  destruct (IH _ Hr) as (m & Hm & Hrun). exists (n + m)%nat.
  split; [lia|]. by rewrite fine_run_add, Hn.
Qed.

Lemma pc_fuel_dec (q : pc) : {q = Returned Fuel} + {q ≠ Returned Fuel}.
Proof. destruct q as [| | | | |[| |]]; (by left) || (by right). Qed.

(** Only the reporting loop runs out of fuel. *)
Lemma thread_step_fuel fuel (q : pc) st :
  (thread_step o2s fuel q st).1 = Returned Fuel → q ≠ Returned Fuel →
  ∃ uri v st', q = AtReport uri v ∧
    for_each o2s (report_class fuel uri v) st = (st', Fuel).
Proof.
  destruct q as [s|key v|uri v|uri v|uri v|r]; cbn [thread_step];
    rewrite ?continue_unfold, ?lookup_uri_eq; intros Hstep Hq.
  - by repeat case_match.
  - done.
  - cbn in Hstep. by case_match.
  - done.
  - destruct (for_each o2s _ st) as [st' r] eqn:Hr.
    destruct r as [[]|e|]; [done..|]. by exists uri, v, st'.
  - by simplify_eq/=.
Qed.

Lemma thread_run_fine_fuel fuel n (q : pc) st :
  (thread_run o2s fuel n q st).1 = Returned Fuel → q ≠ Returned Fuel →
  ∃ m, (fuel ≤ m)%nat ∧ frunning (fine_run o2s m (fine_of q) st).1 = true.
Proof.
  revert q st. induction n as [|n IH]; intros q st; [done|].
  rewrite thread_run_S. intros Hfuel Hq.
  destruct (pc_fuel_dec (thread_step o2s fuel q st).1) as [Hstep|Hstep].
  - apply thread_step_fuel in Hstep as (uri & v & st' & -> & Hr); [|done].
    by eapply fine_run_loop_fuel.
  - destruct (thread_step_fine fuel q st Hstep) as [m1 Hm1].
    destruct (IH _ _ Hfuel Hstep) as (m2 & Hm2 & Hrun).
    exists (m1 + m2)%nat. split; [lia|]. by rewrite fine_run_add, Hm1.
Qed.

Lemma final_result_ending r : r ≠ Fuel → final_result (ending_of r) = r.
Proof. by destruct r as [[]| |]. Qed.

Lemma ending_final_result e : ending_of (final_result e) = e.
Proof. by destruct e. Qed.

(** A run of the statements of a callback that ends is a run of
    [packet_callback]. *)
Lemma fine_packet_callback n s st e st' :
  fine_run o2s n (FGuards s) st = (FReturned e, st') →
  packet_callback o2s (S n) s st = (st', final_result e).
Proof.
  intros Hn. destruct (packet_callback o2s (S n) s st) as [st1 r] eqn:Hcb.
  destruct (decide (r = Fuel)) as [->|Hr].
  - destruct (thread_run_fine_fuel (S n) 5 (AtGuards s) st)
      as (m & Hm & Hrun); [by rewrite thread_run_callback, Hcb|done|].
    by rewrite (fine_run_ended n m _ _ e st') in Hrun by (done || lia).
  - destruct (packet_callback_fine _ _ _ _ _ Hcb Hr) as [m Hm].
    apply (fine_run_ended _ (n + m)) in Hn; [|lia].
    apply (fine_run_ended _ (n + m)) in Hm; [|lia].
    rewrite Hn in Hm. simplify_eq. by rewrite final_result_ending.
Qed.

(** C16.  The statements of lines 127-174, run one after the other with
    nothing in between, end in a state exactly when [packet_callback]
    does, with some fuel for its retry loops, and end the same way: the
    large steps of [Solver] and the fuel lose nothing and add nothing. *)
Theorem callback_alone s st e st' :
  (∃ n, fine_run o2s n (FGuards s) st = (FReturned e, st')) ↔
  (∃ fuel, packet_callback o2s fuel s st = (st', final_result e)).
Proof.
  split.
  - intros [n Hn]. exists (S n). by apply fine_packet_callback.
  - intros [fuel Hcb]. apply packet_callback_fine in Hcb as [n Hn];
      [|by destruct e]. exists n. by rewrite ending_final_result in Hn.
Qed.

End alone.

(** ** Callbacks that interleave *)

(** The mutex as the callback [i] at [p] leaves it when no other callback
    holds it. *)
Definition mutex_of (i : nat) (p : fpc) : option nat :=
  if in_critical p then Some i else None.

Section interleavings.
Context {W : Type} `{Env W}.
Context (o2s : omap u16string u16string).
Implicit Types (p : fpc) (st : SolverState W) (c : fine W).

(** A state of [Concurrency], every callback at the first statement of
    its step. *)
Definition fine_conc (c : config W) : fine W :=
  mkFine (shared c) None (fine_of o2s <$> threads c).

Lemma mutex_after_of i p st :
  mutex_after i p (mutex_of i p) = mutex_of i (fine_step o2s p st).1.
Proof. unfold mutex_of. rewrite fine_step_critical. by destruct p. Qed.

Lemma mutex_of_fine_of i (q : pc) : mutex_of i (fine_of o2s q) = None.
Proof. by destruct q. Qed.

(** A callback that no other keeps from the mutex makes its step. *)
Lemma fine_alone_step i c p :
  f_threads c !! i = Some p → f_mutex c = mutex_of i p → frunning p = true →
  fine_next o2s i c =
    Some (mkFine (fine_step o2s p (f_shared c)).2
            (mutex_of i (fine_step o2s p (f_shared c)).1)
            (<[i := (fine_step o2s p (f_shared c)).1]> (f_threads c))).
Proof.
  intros Hp Hm Hrun. apply fine_next_Some. exists p. split; [done|]. split.
  - unfold enabled. rewrite Hp, Hrun, Hm. by destruct p.
  - by rewrite Hm, (mutex_after_of _ _ (f_shared c)).
Qed.

(** The steps of one callback alone are steps of the callbacks together. *)
Lemma fine_alone n i c p :
  f_threads c !! i = Some p → f_mutex c = mutex_of i p →
  rtc (fine_steps o2s) c
    (mkFine (fine_run o2s n p (f_shared c)).2
       (mutex_of i (fine_run o2s n p (f_shared c)).1)
       (<[i := (fine_run o2s n p (f_shared c)).1]> (f_threads c))).
Proof.
  revert c p. induction n as [|n IH]; intros c p Hp Hm.
  { cbn. rewrite list_insert_id, <- Hm by done. by destruct c. }
  rewrite fine_run_S. destruct (frunning p) eqn:Hrun.
  - pose proof (fine_alone_step i c p Hp Hm Hrun) as Hstep.
    destruct (fine_step o2s p (f_shared c)) as [p1 st1]. cbn [fst snd] in *.
    eapply rtc_l; [by exists i|].
    pose proof (IH (mkFine st1 (mutex_of i p1) (<[i:=p1]> (f_threads c))) p1)
      as IH1. cbn [f_threads f_shared f_mutex] in IH1.
    rewrite list_insert_insert_eq in IH1. apply IH1; [|done].
    apply list_lookup_insert_eq. by eapply lookup_lt_Some.
  - destruct p; try done. cbn [fine_step fst snd]. by apply IH.
Qed.

Lemma fine_schedule_steps schedule c :
  rtc (fine_steps o2s) c (fine_schedule o2s schedule c).
Proof.
  revert c. induction schedule as [|i schedule IH]; intros c; [done|].
  cbn [fine_schedule foldl]. destruct (fine_next o2s i c) as [c1|] eqn:Hi;
    cbn [default]; [|apply IH]. eapply rtc_l; [by exists i|apply IH].
Qed.

(** *** The mutex *)

(** Under the invariant no two callbacks are in the block. *)
Lemma mutex_inv_excludes c i j p q :
  mutex_inv c → f_threads c !! i = Some p → f_threads c !! j = Some q →
  in_critical p = true → in_critical q = true → i = j.
Proof.
  intros [Hin _] Hp Hq Hpc Hqc.
  pose proof (Hin _ _ Hp Hpc). pose proof (Hin _ _ Hq Hqc). congruence.
Qed.

(** Under the invariant the table changes in the hands of the holder. *)
Lemma mutex_inv_tx_to_uri c i c' :
  mutex_inv c → fine_next o2s i c = Some c' →
  tx_to_uri (f_shared c') ≠ tx_to_uri (f_shared c) → f_mutex c = Some i.
Proof.
  intros [Hin _] (p & Hp & _ & ->)%fine_next_Some Hneq. cbn in Hneq.
  destruct (fine_step_tx_to_uri o2s p (f_shared c)) as [?|(key & v & ->)];
    [done|]. by eapply Hin.
Qed.

(** Under the invariant some callback can make a step as long as one has
    not ended. *)
Lemma mutex_inv_progress c i p :
  mutex_inv c → f_threads c !! i = Some p → frunning p = true →
  ∃ j, is_Some (fine_next o2s j c).
Proof.
  intros [_ Hheld] Hp Hrun. destruct (f_mutex c) as [j|] eqn:Hm.
  - destruct (Hheld j eq_refl) as (q & Hq & Hcrit). exists j.
    eexists. apply fine_next_Some. exists q.
    eauto using enabled_critical.
  - exists i. eexists. apply fine_next_Some. exists p.
    eauto using enabled_free.
Qed.

(** *** The steps of [Concurrency] *)

(** No callback of [c] was cut short by the fuel of a retry loop. *)
Definition fuelled (c : config W) : Prop :=
  Forall (λ q, q ≠ Returned Fuel) (threads c).

Lemma sched_step_fine fuel i (c : config W) (q : pc) :
  threads c !! i = Some q →
  (thread_step o2s fuel q (shared c)).1 ≠ Returned Fuel →
  rtc (fine_steps o2s) (fine_conc c) (fine_conc (sched_step o2s fuel i c)).
Proof.
  intros Hq Hfuel.
  destruct (thread_step_fine o2s fuel q (shared c) Hfuel) as [n Hn].
  pose proof (fine_alone n i (fine_conc c) (fine_of o2s q)) as Hrun.
  cbn [fine_conc f_threads f_shared f_mutex] in Hrun.
  rewrite Hn in Hrun. unfold sched_step. rewrite Hq.
  destruct (thread_step o2s fuel q (shared c)) as [q' st'].
  unfold fine_conc. cbn [shared threads fst snd] in *.
  rewrite !mutex_of_fine_of in Hrun.
  rewrite list_fmap_insert. apply Hrun; [|done].
  by rewrite list_lookup_fmap, Hq.
Qed.

(** A step leaves the callbacks that were cut short as they are. *)
Lemma conc_step_fuelled fuel (c c' : config W) :
  conc_step o2s fuel c c' → fuelled c' → fuelled c.
Proof.
  intros [i p c0 Hp Hrun]. unfold fuelled, sched_step. rewrite Hp.
  destruct (thread_step o2s fuel p (shared c0)) as [p' st']. cbn [threads].
  rewrite !Forall_lookup. intros Hall j q Hq.
  destruct (decide (j = i)) as [->|Hne]; [intros ->; by simplify_eq|].
  apply (Hall j). by rewrite list_lookup_insert_ne.
Qed.

Lemma conc_step_fine fuel (c c' : config W) :
  conc_step o2s fuel c c' → fuelled c' →
  rtc (fine_steps o2s) (fine_conc c) (fine_conc c').
Proof.
  intros [i p c0 Hp Hrun] Hfuel. eapply sched_step_fine; [done|].
  revert Hfuel. unfold fuelled, sched_step. rewrite Hp.
  destruct (thread_step o2s fuel p (shared c0)) as [p' st']. cbn [threads fst].
  intros Hall. apply (Forall_lookup_1 _ _ i p') in Hall; [done|].
  apply list_lookup_insert_eq. by eapply lookup_lt_Some.
Qed.

Lemma reachable_fine fuel (c c' : config W) :
  reachable o2s fuel c c' → fuelled c' →
  rtc (fine_steps o2s) (fine_conc c) (fine_conc c').
Proof.
  intros Hreach. revert c' Hreach.
  apply (rtc_ind_r (λ c' : config W,
           fuelled c' → rtc _ (fine_conc c) (fine_conc c')));
    [done|]. intros c1 c' _ Hstep IH Hfuel.
  etrans; [by eapply IH, conc_step_fuelled|by eapply conc_step_fine].
Qed.

(** ** What the mutex gives, and what it does not *)

(** C12.  Mutual exclusion.  From callbacks that have not started,
    whatever the samples, the shared state and the interleaving of the
    statements: at most one callback is between lines 133 and 135, and a
    statement that changes [tx_to_uri] is made by the callback that holds
    the mutex. *)
Theorem mutex_excludes st samples c :
  rtc (fine_steps o2s) (fine_init st samples) c →
  (∀ i j p q, f_threads c !! i = Some p → f_threads c !! j = Some q →
     in_critical p = true → in_critical q = true → i = j) ∧
  (∀ i c', fine_next o2s i c = Some c' →
     tx_to_uri (f_shared c') ≠ tx_to_uri (f_shared c) → f_mutex c = Some i).
Proof.
  intros Hinv%fine_steps_inv; [|apply fine_init_inv]. split.
  - intros i j p q. by apply mutex_inv_excludes.
  - intros i c'. by apply mutex_inv_tx_to_uri.
Qed.

(** C21.  The mutex never blocks the program: in every state that the
    callbacks reach, as long as one of them has not ended some callback
    can make its next statement.  (The callback that holds the mutex is
    never at line 133, and it is the only one the others wait for.) *)
Theorem no_deadlock st samples c i p :
  rtc (fine_steps o2s) (fine_init st samples) c →
  f_threads c !! i = Some p → frunning p = true →
  ∃ j c', fine_next o2s j c = Some c'.
Proof.
  intros Hinv%fine_steps_inv Hp Hrun; [|apply fine_init_inv].
  destruct (mutex_inv_progress c i p Hinv Hp Hrun) as (j & c' & Hnext).
  by exists j, c'.
Qed.

(** C20.  The interleavings of [Concurrency] are interleavings of the
    program: a state that the callbacks reach in the large steps of
    [thread_step], none of them cut short by the fuel of a retry loop, is
    reached statement by statement under the mutex, which is free
    there. *)
Theorem interleavings_refine fuel st samples (c' : config W) :
  reachable o2s fuel (mkConfig st (AtGuards <$> samples)) c' → fuelled c' →
  rtc (fine_steps o2s) (fine_init st samples) (fine_conc c').
Proof.
  intros Hreach Hfuel. pose proof (reachable_fine fuel _ _ Hreach Hfuel) as Hrun.
  unfold fine_conc in Hrun at 1. cbn [shared threads] in Hrun.
  by rewrite <- list_fmap_compose in Hrun.
Qed.

End interleavings.

(** C17.  The mutex of lines 132-135 does not protect the change tracker.
    With the statements and the mutex as the program has them, two
    callbacks for the same new position of a known transmitter can both
    make the test of line 137 before either makes the assignment of line
    138: both end normally, the mutex is free, and every matching class
    was sent and printed twice. *)
Theorem mutex_allows_duplicate o2s key uri v (st : SolverState Scripted) :
  tx_to_uri st !! key = Some uri →
  switch_state st !! uri ≠ Some v →
  script (world (proc st)) = [] →
  ∃ c', rtc (fine_steps o2s)
          (fine_init st [sample_of key v; sample_of key v]) c' ∧
        f_threads c' = [FReturned None; FReturned None] ∧
        f_mutex c' = None ∧
        proc (f_shared c') =
          proc_after_run (proc st) uri (matching_solutions o2s uri) [v; v].
Proof.
  intros Hkey Hnew Hscr.
  pose proof (racy_schedule_run o2s 0 key uri v st Hkey Hnew Hscr) as Hrace.
  cbv zeta in Hrace. destruct Hrace as (Hreach & Hthreads & Hproc).
  eexists (fine_conc o2s _). split.
  - apply (reachable_fine o2s 1 _ _ Hreach). unfold fuelled.
    rewrite Hthreads. by repeat constructor.
  - unfold fine_conc. cbn [f_threads f_mutex f_shared]. by rewrite Hthreads.
Qed.

(** ** The mug, a statement at a time *)

(** A sample of a transmitter that the solver has not seen: line 134
    adds it to [tx_to_uri]. *)
Definition stranger : SampleData := mkSampleData true x01 43 [xff].

(** The first callback is at line 134 and the second has come to line
    133. *)
Definition stranger_block : fine Scripted :=
  fine_schedule mug_config [0; 0; 1]%nat (fine_init mug_state [stranger; stranger]).

(** Both callbacks make the test of line 137, then both go on to the
    end. *)
Definition fine_racy_schedule : list nat :=
  (replicate 5 0 ++ replicate 5 1 ++ replicate 6 0 ++ replicate 6 1)%nat.

(** The callback of the mug ends with its eleventh statement. *)
Example mug_fine_run :
  (fine_run mug_config 11 (FGuards mug_on) mug_state).1 = FReturned None ∧
  frunning (fine_run mug_config 10 (FGuards mug_on) mug_state).1 = true.
Proof. by vm_compute. Qed.

(** While the first callback is in the block the second waits at line
    133, and goes on when the first has left the block. *)
Example stranger_waits :
  f_mutex stranger_block = Some 0%nat ∧
  fine_next mug_config 1 stranger_block = None ∧
  f_mutex (fine_schedule mug_config [0; 0; 1]%nat stranger_block) = Some 1%nat.
Proof. by vm_compute. Qed.

(** The mug is switched on once and reported twice, mutex and all. *)
Example mug_fine_racy :
  let c := fine_schedule mug_config fine_racy_schedule
             (fine_init mug_state [mug_on; mug_on]) in
  f_threads c = [FReturned None; FReturned None] ∧ f_mutex c = None ∧
  length (accepted (world (proc (f_shared c)))) = 2%nat.
Proof. by vm_compute. Qed.

Lemma mutex_excludes_witness : f_mutex stranger_block = Some 0%nat.
Proof.
  destruct (mutex_excludes mug_config mug_state [stranger; stranger]
              stranger_block (fine_schedule_steps _ _ _)) as [_ Htable].
  eapply (Htable 0%nat); [vm_compute; reflexivity|].
  intros Heq. apply (f_equal (λ m, m !! (x01, 43%Z))) in Heq.
  vm_compute in Heq. discriminate.
Defined.

Lemma no_deadlock_witness :
  ∃ j c', fine_next mug_config j stranger_block = Some c'.
Proof.
  apply (no_deadlock mug_config mug_state [stranger; stranger]
           stranger_block 1 (FLock (x01, 43%Z) true));
    [apply fine_schedule_steps | vm_compute; reflexivity | reflexivity].
Defined.

Lemma interleavings_refine_witness :
  rtc (fine_steps mug_config) (fine_init mug_state [mug_on; mug_on])
    (fine_conc mug_config
       (run_schedule mug_config 1 racy_schedule
          (mkConfig mug_state [AtGuards mug_on; AtGuards mug_on]))).
Proof.
  apply (interleavings_refine mug_config 1 mug_state [mug_on; mug_on]);
    [apply run_schedule_reachable|].
  unfold fuelled. vm_compute threads. by repeat constructor.
Defined.

Lemma mutex_allows_duplicate_witness :
  ∃ c', rtc (fine_steps mug_config) (fine_init mug_state [mug_on; mug_on]) c' ∧
        length (accepted (world (proc (f_shared c')))) = 2%nat.
Proof.
  destruct (mutex_allows_duplicate mug_config (x01, 42%Z) mug_uri true mug_state)
    as (c' & Hreach & _ & _ & Hproc); [reflexivity | done | reflexivity|].
  exists c'. split; [exact Hreach|]. rewrite Hproc. vm_compute. reflexivity.
Defined.
