(* ===== verification/Config.v ===== *)
(** * Reading the configuration file

    Lines 84-104 of [query_world.cpp] read the configuration line by line
    with [std::getline], split each line with [operator>>] into a class
    name and a solution name, rewrite the underscores of the class name to
    spaces, register the solution name as a type and remember which class
    publishes which solution.  Lines that do not hold two words are
    reported on [std::cerr] and skipped.

    The content of the file is a [string]; what [std::getline] and
    [operator>>] do to it is written out ([getlines], [read_word]).  The
    result is the record [Config] of the three things the loop builds:
    [type_pairs], [object_to_solution] and the text sent to [std::cerr]. *)

From S2P Require Import Prelude OrderedMap U16String.

(** ** The standard streams *)

(** [std::getline] until it fails: the lines of [s], without their line
    feeds.  [cur] is the line being read.  A last line that does not end in
    a line feed is delivered if it is not empty. *)
Fixpoint getlines_from (cur : string) (s : string) : list string :=
  match s with
  | EmptyString => if decide (cur = EmptyString) then [] else [cur]
  | String c s' =>
      if decide (c = "010"%char) then cur :: getlines_from EmptyString s'
      else getlines_from (cur +:+ String c EmptyString) s'
  end.

Definition getlines (s : string) : list string := getlines_from EmptyString s.

(** [operator>>] into a [std::string] first skips white space ... *)
Fixpoint skip_space (s : string) : string :=
  match s with
  | EmptyString => EmptyString
  | String c s' => if Ascii.is_space c then skip_space s' else s
  end.

(** ... then takes characters up to the next white space or the end. *)
Fixpoint take_word (s : string) : string * string :=
  match s with
  | EmptyString => (EmptyString, EmptyString)
  | String c s' =>
      if Ascii.is_space c then (EmptyString, s)
      else let '(w, rest) := take_word s' in (String c w, rest)
  end.

(** One extraction: the word and the rest of the stream, or [None] when
    the stream fails because there is no word left. *)
Definition read_word (s : string) : option (string * string) :=
  let '(w, rest) := take_word (skip_space s) in
  if decide (w = EmptyString) then None else Some (w, rest).

(** ** The loop body *)

(** Line 89, [is >> obj_class >> solution]: both extractions succeed. *)
Definition parse_line (line : string) : option (string * string) :=
  '(obj_class, rest) ← read_word line;
  '(solution, _) ← read_word rest;
  Some (obj_class, solution).

(** Lines 94-95: underscores become spaces. *)
Fixpoint underscores_to_spaces (s : string) : string :=
  match s with
  | EmptyString => EmptyString
  | String c s' =>
      String (if decide (c = "_"%char) then " "%char else c)
        (underscores_to_spaces s')
  end.

(** What the loop has built so far. *)
Record Config : Type := mkConfig {
  type_pairs : list (u16string * bool);
  object_to_solution : omap u16string u16string;
  config_log : list string;
}.

Section config.
Context `{Platform}.

(** Lines 87-102: one iteration. *)
Definition read_line (cfg : Config) (line : string) : Config :=
  match parse_line line with
  | Some (obj_class, solution) =>
      let obj_class := underscores_to_spaces obj_class in
      mkConfig
        (type_pairs cfg ++ [(toU16 solution, false)])
        (omap_assign (toU16 obj_class) (toU16 solution)
           (object_to_solution cfg))
        (config_log cfg ++
           ["Class " +:+ DQUOTE +:+ obj_class +:+ DQUOTE +:+
            " has solution name " +:+ DQUOTE +:+ solution +:+ LF])
  | None =>
      mkConfig (type_pairs cfg) (object_to_solution cfg)
        (config_log cfg ++
           ["Couldn't make sense of line: " +:+ DQUOTE +:+ line +:+
            DQUOTE +:+ LF])
  end.

(** Lines 84-104: the whole file. *)
Definition read_config (content : string) : Config :=
  foldl read_line (mkConfig [] [] []) (getlines content).

End config.

(** ** What a well-formed configuration is *)

(** The invariant of the loop: the map is sorted, every solution name it
    holds was registered in [type_pairs] as a non-transient type, every
    registered type is non-transient, and no class name holds an
    underscore. *)
Record config_wf (cfg : Config) : Prop := {
  wf_sorted : omap_sorted (object_to_solution cfg);
  wf_registered :
    ∀ obj_class solution, (obj_class, solution) ∈ object_to_solution cfg →
      (solution, false) ∈ type_pairs cfg;
  wf_non_transient : ∀ name t, (name, t) ∈ type_pairs cfg → t = false;
  wf_no_underscore :
    ∀ obj_class solution, (obj_class, solution) ∈ object_to_solution cfg →
      95%Z ∉ obj_class;
}.

(** The lines of [lines] that hold two words. *)
Definition well_formed_lines (lines : list string) : list string :=
  filter (λ line, is_Some (parse_line line)) lines.

(** ** The loop invariant *)

Section config_lemmas.
Context `{Platform}.
Implicit Types (cfg : Config) (line : string).

(** Anything that holds before the loop and is kept by an iteration holds
    of the configuration read. *)
Lemma read_config_ind (P : Config → Prop) content :
  P (mkConfig [] [] []) →
  (∀ cfg line, P cfg → P (read_line cfg line)) →
  P (read_config content).
Proof.
  intros Hinit Hstep. unfold read_config.
  generalize (mkConfig [] [] []) Hinit.
  induction (getlines content) as [|line lines IH]; intros cfg Hcfg; [done|].
  cbn [foldl]. by apply IH, Hstep.
Qed.

Lemma char16_of_char_underscore c : char16_of_char c = 95%Z → c = "_"%char.
Proof.
  intros Hc. by rewrite <- (char_of_char16_of_char c), Hc.
Qed.

Lemma underscores_to_spaces_clean w : 95%Z ∉ toU16 (underscores_to_spaces w).
Proof.
  unfold toU16. induction w as [|c w IH]; cbn; [by apply not_elem_of_nil|].
  apply not_elem_of_cons. split; [|done].
  intros Hc. symmetry in Hc. apply char16_of_char_underscore in Hc.
  by case_decide.
Qed.

Lemma config_wf_init : config_wf (mkConfig [] [] []).
Proof. split; cbn; [done | by intros ?? ?%elem_of_nil..]. Qed.

Lemma read_line_wf cfg line : config_wf cfg → config_wf (read_line cfg line).
Proof.
  intros [Hs Hr Ht Hu]. unfold read_line.
  destruct (parse_line line) as [[obj_class solution]|]; [|by split].
  split; cbn.
  - by apply omap_assign_sorted.
  - intros c sol [[= -> ->]|Hin]%omap_assign_elem; apply elem_of_app;
      [right; by apply list_elem_of_singleton | left; by eapply Hr].
  - intros name t [Hin|[= _ ->]%list_elem_of_singleton]%elem_of_app;
      [by eapply Ht | done].
  - intros c sol [[= -> ->]|Hin]%omap_assign_elem;
      [apply underscores_to_spaces_clean | by eapply Hu].
Qed.

(** C36.  Whatever the file holds, the configuration read from it is well
    formed: [object_to_solution] is in key order, every solution name in it
    was registered in [type_pairs], every registered type is non-transient,
    and no class name contains an underscore. *)
Theorem read_config_wf content : config_wf (read_config content).
Proof.
  apply read_config_ind; [apply config_wf_init | apply read_line_wf].
Qed.

(** ** Counting *)

Lemma read_line_log cfg line :
  length (config_log (read_line cfg line)) = S (length (config_log cfg)).
Proof.
  unfold read_line. destruct (parse_line line) as [[??]|]; cbn;
    rewrite length_app; cbn; lia.
Qed.

Lemma read_line_type_pairs cfg line :
  length (type_pairs (read_line cfg line)) =
  (length (type_pairs cfg) +
   match parse_line line with Some _ => 1 | None => 0 end)%nat.
Proof.
  unfold read_line. destruct (parse_line line) as [[??]|]; cbn;
    [rewrite length_app; cbn|]; lia.
Qed.

Lemma foldl_read_line_log cfg lines :
  length (config_log (foldl read_line cfg lines)) =
  (length (config_log cfg) + length lines)%nat.
Proof.
  revert cfg. induction lines as [|line lines IH]; intros cfg; cbn; [lia|].
  rewrite IH, read_line_log. lia.
Qed.

Lemma foldl_read_line_type_pairs cfg lines :
  length (type_pairs (foldl read_line cfg lines)) =
  (length (type_pairs cfg) + length (well_formed_lines lines))%nat.
Proof.
  unfold well_formed_lines. revert cfg.
  induction lines as [|line lines IH]; intros cfg; [cbn; lia|].
  cbn [foldl]. rewrite IH, read_line_type_pairs, filter_cons.
  destruct (parse_line line); case_decide as Hs; cbn; try lia.
  - destruct Hs. eauto.
  - by destruct Hs as [? ?].
Qed.

(** Every line of the file is answered by exactly one line on
    [std::cerr]. *)
Lemma read_config_log content :
  length (config_log (read_config content)) = length (getlines content).
Proof. unfold read_config. by rewrite foldl_read_line_log. Qed.

(** One type is registered per line that holds two words. *)
Lemma read_config_type_pairs content :
  length (type_pairs (read_config content)) =
  length (well_formed_lines (getlines content)).
Proof. unfold read_config. by rewrite foldl_read_line_type_pairs. Qed.

Lemma foldl_read_line_nonempty cfg lines :
  omap_is_empty (object_to_solution cfg) = false →
  omap_is_empty (object_to_solution (foldl read_line cfg lines)) = false.
Proof.
  revert cfg. induction lines as [|line lines IH]; intros cfg Hne; [done|].
  cbn [foldl]. apply IH. unfold read_line.
  destruct (parse_line line) as [[??]|]; [|done].
  apply omap_is_empty_assign.
Qed.

(** The map of classes is empty after the loop, which makes the
    program give up with exit code 1, exactly when no line of the file
    holds two words. *)
Theorem read_config_empty content :
  omap_is_empty (object_to_solution (read_config content)) = true ↔
  well_formed_lines (getlines content) = [].
Proof.
  unfold read_config, well_formed_lines.
  assert (∀ lines cfg, object_to_solution cfg = [] →
    omap_is_empty (object_to_solution (foldl read_line cfg lines)) = true ↔
    filter (λ line, is_Some (parse_line line)) lines = []) as Hgen;
    [|by apply Hgen].
  induction lines as [|line lines IH]; intros cfg Hcfg.
  - cbn. by rewrite Hcfg.
  - cbn [foldl]. rewrite filter_cons. unfold read_line at 2.
    destruct (parse_line line) as [[obj_class solution]|] eqn:Hp.
    + rewrite decide_True by eauto.
      rewrite foldl_read_line_nonempty by apply omap_is_empty_assign.
      split; done.
    + rewrite decide_False by by intros [? ?]. by apply IH.
Qed.

End config_lemmas.
