(* ===== verification/Typing.v ===== *)
(** * The types of the updates

    The solver connection is constructed with [type_pairs] (line 112 of
    [query_world.cpp]): the names of the solution types the solver will
    send, each with whether it is transient.  This file shows that what
    [packet_callback] then sends stays within that declaration.

    [Logged] is a connection that remembers every batch it was asked to
    send, accepted or not, over any connection.  [typed] is what an update
    of a declared type is, [batch_typed] what a batch of the callback is:
    one update of a declared, non-transient type, with one octet of data
    that is 0 or 1.  The theorem is the preservation of [all_typed] by
    [run_callbacks], for the configuration [read_config] reads from any
    file; it follows the structure of the callback with the rules of
    [keeps] ([Monad]). *)

From S2P Require Import Prelude Monad OrderedMap U16String Env.
From S2P Require Import Dispatcher Solver Config.

(** ** A connection that remembers what it was asked to send *)

(** [inner] is the connection, [sent] the batches of the calls of
    [sendData] so far, oldest first. *)
Record Logged (W : Type) : Type := mkLogged {
  inner : W;
  sent : list (list AttrUpdate);
}.
Arguments mkLogged {W} _ _.
Arguments inner {W} _.
Arguments sent {W} _.

#[export] Instance logged_env `{Env W} : Env (Logged W) := {|
  sendData solns synchronous w :=
    let '(w', r) := sendData solns synchronous (inner w) in
    (mkLogged w' (sent w ++ [solns]), r);
  getGRAILTime w :=
    let '(w', now) := getGRAILTime (inner w) in (mkLogged w' (sent w), now);
|}.

(** ** Declared types *)

(** An update of a type declared in [types] as non-transient, with the
    data the callback builds at lines 143-144. *)
Definition typed (types : list (u16string * bool)) (u : AttrUpdate) : Prop :=
  (au_name u, false) ∈ types ∧ (au_data u = [x00] ∨ au_data u = [x01]).

(** A batch as line 145 builds it: one update. *)
Definition batch_typed (types : list (u16string * bool))
    (solns : list AttrUpdate) : Prop :=
  length solns = 1%nat ∧ Forall (typed types) solns.

(** Every batch the process has asked to send so far is typed. *)
Definition all_typed {W} (types : list (u16string * bool))
    (p : Process (Logged W)) : Prop :=
  Forall (batch_typed types) (sent (world p)).

#[export] Instance typed_dec types u : Decision (typed types u).
Proof. unfold typed. apply _. Defined.

#[export] Instance batch_typed_dec types solns :
  Decision (batch_typed types solns).
Proof. unfold batch_typed. apply _. Defined.

#[export] Instance all_typed_dec {W} types (p : Process (Logged W)) :
  Decision (all_typed types p).
Proof. unfold all_typed. apply _. Defined.

(** ** The callback keeps the declaration *)

Section typing.
Context {W : Type} `{Env W}.
Context (types : list (u16string * bool)).
Implicit Types (p : Process (Logged W)) (st : SolverState (Logged W)).

(** The invariant on the state of the solver. *)
Definition solver_typed st : Prop := all_typed types (proc st).

Lemma keeps_call_sendData solns synchronous :
  batch_typed types solns →
  keeps (all_typed types) (call_sendData solns synchronous).
Proof.
  intros Hsolns p Hp. unfold call_sendData, all_typed in *. cbn.
  destruct (sendData solns synchronous (inner (world p))) as [w' [e|]]; cbn;
    (apply Forall_app_2; [done | by apply Forall_singleton]).
Qed.

Lemma keeps_call_getGRAILTime : keeps (all_typed types) call_getGRAILTime.
Proof.
  intros p Hp. unfold call_getGRAILTime. cbn.
  by destruct (getGRAILTime (inner (world p))).
Qed.

Lemma keeps_print_err text : keeps (all_typed (W:=W) types) (print_err text).
Proof. by intros p. Qed.

Lemma keeps_print_out text : keeps (all_typed (W:=W) types) (print_out text).
Proof. by intros p. Qed.

Lemma keeps_on_runtime_error what :
  keeps (all_typed (W:=W) types) (on_runtime_error what).
Proof.
  unfold on_runtime_error. case_match; [|apply keeps_throw].
  apply keeps_bind; [apply keeps_print_err | intros _; apply keeps_ret].
Qed.

Lemma keeps_send_with_retry fuel solns :
  batch_typed types solns →
  keeps (all_typed types) (send_with_retry fuel solns).
Proof.
  intros Hsolns. induction fuel as [|fuel IH]; [apply keeps_out_of_fuel|].
  apply keeps_bind.
  - apply keeps_try_catch; [|apply keeps_on_runtime_error].
    apply keeps_bind; [by apply keeps_call_sendData|].
    intros _. apply keeps_ret.
  - intros [|]; [done | apply keeps_ret].
Qed.

Lemma keeps_in_proc {A} (m : prog (Process (Logged W)) A) :
  keeps (all_typed types) m → keeps solver_typed (in_proc m).
Proof. by apply (keeps_zoom proc set_proc (all_typed types)). Qed.

(** The loop body of lines 141-169 sends an update of the solution type
    of its class. *)
Lemma keeps_report_class fuel uri v obj_soln :
  (obj_soln.2, false) ∈ types →
  keeps solver_typed (report_class fuel uri v obj_soln).
Proof.
  intros Hdeclared. apply keeps_when, keeps_bind;
    [apply keeps_in_proc, keeps_call_getGRAILTime|].
  intros now. apply keeps_bind; [|intros _; apply keeps_in_proc, keeps_print_out].
  apply keeps_in_proc, keeps_send_with_retry.
  split; [done|]. apply Forall_singleton. split; [done|].
  cbn. destruct v; auto.
Qed.

Lemma keeps_packet_callback o2s fuel s :
  (∀ obj_class solution, (obj_class, solution) ∈ o2s →
     (solution, false) ∈ types) →
  keeps solver_typed (packet_callback o2s fuel s).
Proof.
  intros Hdeclared. do 2 apply keeps_when.
  apply keeps_bind; [intros st Hst; unfold lookup_uri; by case_match|].
  intros uri. apply keeps_bind; [apply keeps_gets|]. intros report.
  apply keeps_when, keeps_bind; [by apply keeps_modify|].
  intros _. apply keeps_for_each. intros [obj_class solution] Hin.
  apply keeps_report_class. by eapply Hdeclared.
Qed.

End typing.

(** C15.  Whatever the configuration file holds, whatever the samples,
    the answers of the connection and the identifiers of the transmitters:
    every batch that the callbacks ask the solver connection to send holds
    one update, of a solution type that was declared as non-transient when
    the connection was constructed, with one octet of data, 0 or 1. *)
Theorem run_callbacks_typed `{Platform} {W} `{Env W} content fuel samples
    (st : SolverState (Logged W)) :
  let cfg := read_config content in
  solver_typed (type_pairs cfg) st →
  solver_typed (type_pairs cfg)
    (run_callbacks (object_to_solution cfg) fuel samples st).1.
Proof.
  intros cfg. apply keeps_for_each. intros s _.
  apply keeps_packet_callback, (wf_registered _ (read_config_wf content)).
Qed.

(** ** A concrete run *)

(** The solver of the mug over a connection that accepts everything, with
    the configuration file of [Main]. *)
Definition mug_logged : SolverState (Logged Scripted) :=
  mkSolverState (tx_to_uri mug_state) ∅
    (mkProcess (mkLogged (scripted_init [] 1000) []) [] []).

Definition mug_content : string :=
  "mug switch_state" +:+ LF +:+ "malformed" +:+ LF.

(** The mug is switched on, off and on: three batches. *)
Example mug_logged_run :
  sent (world (proc (run_callbacks
    (object_to_solution (read_config (H:=Build_Platform true) mug_content)) 1
    [mug_on; sample_of (x01, 42%Z) false; mug_on] mug_logged).1)) =
  [[update_for 1000 mug_uri true (u16_literal "switch_state")];
   [update_for 1001 mug_uri false (u16_literal "switch_state")];
   [update_for 1002 mug_uri true (u16_literal "switch_state")]].
Proof. by vm_compute. Qed.

Lemma run_callbacks_typed_witness :
  solver_typed (type_pairs (read_config (H:=Build_Platform true) mug_content))
    (run_callbacks
       (object_to_solution (read_config (H:=Build_Platform true) mug_content))
       1 [mug_on; sample_of (x01, 42%Z) false; mug_on] mug_logged).1.
Proof.
  apply (run_callbacks_typed (H:=Build_Platform true) mug_content 1 _
           mug_logged).
  by constructor.
Defined.
