(* ===== verification/Pattern.v ===== *)
(** * The pattern of the identifiers of interest

    Lines 180-194 of [query_world.cpp] build [desired_ids], the regular
    expression sent to the world model to select the identifiers that hold
    one of the configured classes as a segment: [.*\.CLASS\..*] for one
    class, [.*\.(CLASS1|CLASS2|...)\..*] for several, the classes in the
    key order of [object_to_solution].  This file models the construction
    and gives its closed form. *)

From S2P Require Import Prelude OrderedMap U16String.

(** The separator-joined concatenation the loop of lines 186-192 builds. *)
Fixpoint join_with (sep : u16string) (parts : list u16string) : u16string :=
  match parts with
  | [] => []
  | [part] => part
  | part :: parts' => part ++ sep ++ join_with sep parts'
  end.

(** Lines 186-192: the loop appends each class to [desired_ids], with a
    [|] before every class but the first.  [at_begin] says whether the
    iterator is still [begin()]. *)
Fixpoint append_classes (at_begin : bool) (classes : omap u16string u16string)
    (desired_ids : u16string) : u16string :=
  match classes with
  | [] => desired_ids
  | (obj_class, _) :: rest =>
      let desired_ids :=
        if at_begin then desired_ids else desired_ids ++ u16_literal "|" in
      append_classes false rest (desired_ids ++ obj_class)
  end.

(** [object_to_solution.begin()->first]. *)
Definition begin_first (object_to_solution : omap u16string u16string) :
    u16string :=
  match omap_begin object_to_solution with
  | Some (obj_class, _) => obj_class
  | None => []
  end.

(** Lines 180-194. *)
Definition desired_ids (object_to_solution : omap u16string u16string) :
    u16string :=
  let desired_ids := u16_literal ".*\." in
  if bool_decide (omap_size object_to_solution = 1%nat) then
    u16_literal ".*\." ++ begin_first object_to_solution ++ u16_literal "\..*"
  else
    let desired_ids := desired_ids ++ u16_literal "(" in
    let desired_ids := append_classes true object_to_solution desired_ids in
    desired_ids ++ u16_literal ")\..*".

(** Line 197: the attribute patterns of the request. *)
Definition attributes : list u16string := [u16_literal "sensor.switch.*"].

(** Line 199: the update interval, in milliseconds. *)
Definition interval : Z := 1000.

(** ** The closed form *)

Section pattern_lemmas.
Implicit Types (o2s : omap u16string u16string) (acc : u16string).

Lemma append_classes_false o2s acc :
  append_classes false o2s acc =
  acc ++ mjoin ((λ obj_soln, u16_literal "|" ++ obj_soln.1) <$> o2s).
Proof.
  revert acc. induction o2s as [|[c s] o2s IH]; intros acc; cbn [append_classes].
  - cbn. by rewrite app_nil_r.
  - rewrite IH. cbn [fmap list_fmap mjoin list_join fst].
    by rewrite <- !app_assoc.
Qed.

Lemma join_with_cons sep part parts :
  join_with sep (part :: parts) = part ++ mjoin ((λ p, sep ++ p) <$> parts).
Proof.
  revert part. induction parts as [|p parts IH]; intros part.
  - cbn. by rewrite app_nil_r.
  - change (join_with sep (part :: p :: parts))
      with (part ++ sep ++ join_with sep (p :: parts)).
    rewrite IH. cbn [fmap list_fmap mjoin list_join].
    by rewrite <- !app_assoc.
Qed.

Lemma append_classes_true o2s acc :
  append_classes true o2s acc = acc ++ join_with (u16_literal "|") (omap_keys o2s).
Proof.
  destruct o2s as [|[c s] o2s]; [by rewrite app_nil_r|].
  cbn [append_classes]. rewrite append_classes_false.
  unfold omap_keys. cbn [fmap list_fmap fst]. rewrite join_with_cons.
  by rewrite <- list_fmap_compose, <- app_assoc.
Qed.

(** The pattern built for the configured classes is
    [.*\.CLASS\..*] when there is exactly one class and
    [.*\.(CLASS1|...|CLASSn)\..*] otherwise, the classes in key order and
    separated by [|]. *)
Theorem desired_ids_closed_form o2s :
  desired_ids o2s =
  match o2s with
  | [(obj_class, _)] =>
      u16_literal ".*\." ++ obj_class ++ u16_literal "\..*"
  | _ =>
      u16_literal ".*\.(" ++ join_with (u16_literal "|") (omap_keys o2s)
        ++ u16_literal ")\..*"
  end.
Proof.
  unfold desired_ids. destruct o2s as [|[c s] [|[c' s'] o2s]].
  - done.
  - done.
  - rewrite bool_decide_eq_false_2 by done. cbv zeta.
    rewrite append_classes_true. by rewrite <- !app_assoc.
Qed.

End pattern_lemmas.
