(* ===== verification/Client.v ===== *)
(** * The client: a snapshot request and a streaming request

    Lines 221-263 of [query_world.cpp].  The program asks the world model
    for a snapshot of every identifier and attribute, blocks on the
    response and prints it (lines 221-236); then it asks for a stream of
    the locations of the mugs and prints every delivery until the stream
    ends (lines 243-263).  In the stream, an object delivered without
    attributes is reported on [std::cerr] instead.

    The connection is the class [ClientEnv]: the requests return at once
    with a response object, [get] and [next] return a [WorldState] or
    throw, [hasNext] says whether the stream goes on.  Blocking is not
    visible in the model: a call of the interface returns.  [Store] is the
    instance of the concrete runs.

    The source names the connection [cwm] on line 222 and [cwc]
    everywhere else, and writes [I->first] on line 256 for the reference
    [I]; the model reads both as the evident [cwc] and [I.first]. *)

From stdpp Require Import pretty.
From S2P Require Import Prelude Monad OrderedMap U16String Env.

(** ** Data *)

(** [world_model::Attribute], the fields the program reads. *)
Record Attribute : Type := mkAttribute {
  attr_name : u16string;
  attr_creation_date : Z;
  attr_origin : u16string;
  attr_data : list byte;
}.

#[export] Instance Attribute_eq_dec : EqDecision Attribute.
Proof. solve_decision. Defined.

(** [world_model::WorldState]: a [std::map] from identifiers to their
    attributes, iterated in key order. *)
#[warning="-notation-for-abbreviation"]
Notation WorldState := (omap u16string (list Attribute)).

(** The response objects; the ticket tells the requests of a connection
    apart. *)
Inductive Response : Type := response (ticket : nat).
Inductive StepResponse : Type := step_response (ticket : nat).

(** ** The interface of the client connection *)

Class ClientEnv (W : Type) := {
  currentSnapshotRequest : u16string → list u16string → W → W * Response;
  get : Response → W → W * (exn + WorldState);
  streamRequest : u16string → list u16string → Z → W → W * StepResponse;
  hasNext : StepResponse → W → W * bool;
  next : StepResponse → W → W * (exn + WorldState);
}.

(** ** The program *)

Section client.
Context {W : Type} `{ClientEnv W}.

(** Lines 231 and 256. *)
Definition found_line (uri : u16string) : string :=
  "Found uri '" +:+ toString uri +:+ " with attributes:" +:+ LF.

(** Lines 233 and 258. *)
Definition size_line (attr : Attribute) : string :=
  TAB +:+ toString (attr_name attr) +:+ " is " +:+
  pretty (length (attr_data attr)) +:+ " bytes long" +:+ LF.

(** Lines 234 and 259. *)
Definition created_line (attr : Attribute) : string :=
  TAB +:+ toString (attr_name attr) +:+ " was created by " +:+
  toString (attr_origin attr) +:+ " at time " +:+
  pretty (attr_creation_date attr) +:+ LF.

(** Lines 253. *)
Definition empty_line (uri : u16string) : string :=
  toString uri +:+ " is an empty object." +:+ LF.

(** Lines 232-235: the body of the loop over the attributes. *)
Definition print_attribute (attr : Attribute) : prog (Process W) () :=
  print_out (size_line attr) ;;
  print_out (created_line attr).

(** Lines 230-236: the body of the loop over the snapshot. *)
Definition print_object (obj : u16string * list Attribute) :
    prog (Process W) () :=
  print_out (found_line obj.1) ;;
  for_each obj.2 print_attribute.

(** Lines 230-236. *)
Definition print_snapshot (state : WorldState) : prog (Process W) () :=
  for_each state print_object.

(** Lines 221-236. *)
Definition snapshot_request : prog (Process W) () :=
  print_out ("Searching for all URIs and attributes" +:+ LF) ;;
  r ← call_total (currentSnapshotRequest (u16_literal ".*") [u16_literal ".*"]);
  state ← call_throwing (get r);
  print_snapshot state.

(** Lines 251-262: the body of the loop over one delivery. *)
Definition print_update (I : u16string * list Attribute) :
    prog (Process W) () :=
  match I.2 with
  | [] => print_err (empty_line I.1)
  | _ :: _ =>
      print_out (found_line I.1) ;;
      for_each I.2 print_attribute
  end.

(** Lines 248-262: one delivery. *)
Definition print_world_state (ws : WorldState) : prog (Process W) () :=
  for_each ws print_update.

(** Lines 246-263: [while (sr.hasNext())], with at most [fuel] calls of
    [hasNext]. *)
Fixpoint stream_loop (fuel : nat) (sr : StepResponse) : prog (Process W) () :=
  match fuel with
  | O => out_of_fuel
  | S fuel' =>
      more ← call_total (hasNext sr);
      if more : bool then
        ws ← call_throwing (next sr);
        print_world_state ws ;;
        stream_loop fuel' sr
      else mret ()
  end.

(** Lines 243-263. *)
Definition stream_request (fuel : nat) : prog (Process W) () :=
  let interval := 1000%Z in
  sr ← call_total (streamRequest (u16_literal ".*mug.*")
                     [u16_literal "location\..offset"] interval);
  stream_loop fuel sr.

(** Lines 221-263. *)
Definition client (fuel : nat) : prog (Process W) () :=
  snapshot_request ;;
  stream_request fuel.

(** ** What is written *)

(** The lines of one attribute, of one object and of a snapshot. *)
Definition attribute_lines (attr : Attribute) : list string :=
  [size_line attr; created_line attr].

Definition object_lines (obj : u16string * list Attribute) : list string :=
  found_line obj.1 :: (obj.2 ≫= attribute_lines).

Definition snapshot_lines (state : WorldState) : list string :=
  state ≫= object_lines.

(** What one object of a delivery sends to [std::cout] and to
    [std::cerr]. *)
Definition update_out (I : u16string * list Attribute) : list string :=
  match I.2 with
  | [] => []
  | _ :: _ => object_lines I
  end.

Definition update_err (I : u16string * list Attribute) : list string :=
  match I.2 with
  | [] => [empty_line I.1]
  | _ :: _ => []
  end.

(** ** Behaviours of a stream *)

(** From [w], the stream delivers [deliveries] and then, in [w'], either
    ends ([None]) or fails with an exception. *)
Inductive stream_run (sr : StepResponse) :
    W → list WorldState → option exn → W → Prop :=
  | stream_run_end w w' :
      hasNext sr w = (w', false) →
      stream_run sr w [] None w'
  | stream_run_fail w w1 w' e :
      hasNext sr w = (w1, true) →
      next sr w1 = (w', inl e) →
      stream_run sr w [] (Some e) w'
  | stream_run_next w w1 w2 w' ws deliveries outcome :
      hasNext sr w = (w1, true) →
      next sr w1 = (w2, inr ws) →
      stream_run sr w2 deliveries outcome w' →
      stream_run sr w (ws :: deliveries) outcome w'.

(** The result of the loop for the way the stream stopped. *)
Definition stream_result (outcome : option exn) : result () :=
  match outcome with
  | None => Ok ()
  | Some e => Throw e
  end.

(** What the deliveries of a stream send to the two streams of the
    process. *)
Definition deliveries_out (deliveries : list WorldState) : list string :=
  deliveries ≫= (λ ws : WorldState, ws ≫= update_out).

Definition deliveries_err (deliveries : list WorldState) : list string :=
  deliveries ≫= (λ ws : WorldState, ws ≫= update_err).

(** The lines of a snapshot or of a delivery that start an object. *)
Definition is_header (line : string) : bool :=
  String.prefix "Found uri '" line.

(** From [w] on the stream never ends and never fails. *)
Definition endless (sr : StepResponse) (w : W) : Prop :=
  ∃ X : W → Prop,
    X w ∧ ∀ w0, X w0 →
      ∃ w1 w2 ws, hasNext sr w0 = (w1, true) ∧ next sr w1 = (w2, inr ws) ∧ X w2.

End client.

(** ** A scripted store *)

Inductive Request : Type :=
  | SnapshotRequest (uri : u16string) (attrs : list u16string)
  | StreamRequest (uri : u16string) (attrs : list u16string) (interval : Z).

(** The world model of the concrete runs: [snapshot] is what [get]
    delivers, [pushes] the coming deliveries of the stream, oldest first,
    and [requests] the requests received. *)
Record Store : Type := mkStore {
  snapshot : exn + WorldState;
  pushes : list WorldState;
  requests : list Request;
}.

Definition store_hasNext (w : Store) : Store * bool :=
  match pushes w with
  | [] => (w, false)
  | _ :: _ => (w, true)
  end.

Definition store_next (w : Store) : Store * (exn + WorldState) :=
  match pushes w with
  | [] => (w, inl (runtime_error "the stream has ended"))
  | ws :: rest => (mkStore (snapshot w) rest (requests w), inr ws)
  end.

#[export] Instance store_client : ClientEnv Store := {|
  currentSnapshotRequest uri attrs w :=
    (mkStore (snapshot w) (pushes w) (requests w ++ [SnapshotRequest uri attrs]),
     response (length (requests w)));
  get _ w := (w, snapshot w);
  streamRequest uri attrs interval w :=
    (mkStore (snapshot w) (pushes w)
       (requests w ++ [StreamRequest uri attrs interval]),
     step_response (length (requests w)));
  hasNext _ := store_hasNext;
  next _ := store_next;
|}.

(** A stream that delivers the same world state for ever. *)
Inductive Ticker : Type := ticker (ws : WorldState) (deliveries : nat).

#[export] Instance ticker_client : ClientEnv Ticker := {|
  currentSnapshotRequest _ _ w := (w, response 0);
  get _ w := let 'ticker ws _ := w in (w, inr ws);
  streamRequest _ _ _ w := (w, step_response 0);
  hasNext _ w := (w, true);
  next _ w := let 'ticker ws n := w in (ticker ws (S n), inr ws);
|}.

(** ** The printing loops *)

Section client_lemmas.
Context {W : Type} `{ClientEnv W}.
Implicit Types (p : Process W) (w : W) (sr : StepResponse).

Lemma bind_const_nil {A B} (l : list A) : l ≫= (λ _, @nil B) = [].
Proof. by induction l. Qed.

Lemma prints_print_attribute attr :
  prints (W:=W) (attribute_lines attr) [] (print_attribute attr).
Proof. apply (prints_seq [_] [] [_] []); apply prints_out. Qed.

Lemma prints_attributes attrs :
  prints (W:=W) (attrs ≫= attribute_lines) [] (for_each attrs print_attribute).
Proof.
  eapply prints_eq; [apply (prints_for_each _ attribute_lines (λ _, []))|..].
  - intros attr _. apply prints_print_attribute.
  - done.
  - apply bind_const_nil.
Qed.

Lemma prints_print_object obj :
  prints (W:=W) (object_lines obj) [] (print_object obj).
Proof.
  apply (prints_seq [_] [] _ []); [apply prints_out | apply prints_attributes].
Qed.

Lemma prints_print_snapshot (state : WorldState) :
  prints (W:=W) (snapshot_lines state) [] (print_snapshot state).
Proof.
  eapply prints_eq; [apply (prints_for_each _ object_lines (λ _, []))|..].
  - intros obj _. apply prints_print_object.
  - done.
  - apply bind_const_nil.
Qed.

Lemma prints_print_update I :
  prints (W:=W) (update_out I) (update_err I) (print_update I).
Proof.
  unfold print_update, update_out, update_err.
  destruct I as [uri [|attr attrs]]; [apply prints_err|].
  apply (prints_print_object (uri, attr :: attrs)).
Qed.

Lemma prints_print_world_state (ws : WorldState) :
  prints (W:=W) (ws ≫= update_out) (ws ≫= update_err) (print_world_state ws).
Proof. apply prints_for_each. intros I _. apply prints_print_update. Qed.

(** One iteration of the stream loop. *)
Lemma stream_loop_S fuel sr p :
  stream_loop (S fuel) sr p =
  match hasNext sr (world p) with
  | (w1, true) =>
      match next sr w1 with
      | (w2, inr ws) =>
          stream_loop fuel sr
            (mkProcess w2 (cout p ++ (ws ≫= update_out))
               (cerr p ++ (ws ≫= update_err)))
      | (w2, inl e) => (mkProcess w2 (cout p) (cerr p), Throw e)
      end
  | (w1, false) => (mkProcess w1 (cout p) (cerr p), Ok ())
  end.
Proof.
  cbn [stream_loop]. rewrite bind_unfold. unfold call_total at 1.
  destruct (hasNext sr (world p)) as [w1 [|]]; [|done].
  rewrite bind_unfold. unfold call_throwing at 1. cbn [world set_world].
  destruct (next sr w1) as [w2 [e|ws]]; [done|].
  by rewrite (bind_ok _ _ _ _ _ (prints_print_world_state ws _)).
Qed.

Lemma stream_loop_run_gen sr fuel deliveries outcome w w' :
  stream_run sr w deliveries outcome w' →
  ∀ out err,
  stream_loop (fuel + S (length deliveries)) sr (mkProcess w out err) =
    (mkProcess w' (out ++ deliveries_out deliveries)
       (err ++ deliveries_err deliveries), stream_result outcome).
Proof.
  induction 1 as [w w' Hend|w w1 w' e Hmore Hfail
                 |w w1 w2 w' ws ds o Hmore Hnext _ IH]; intros out err;
    cbn [length]; rewrite Nat.add_succ_r, stream_loop_S; cbn [world cout cerr];
    rewrite ?Hend, ?Hmore, ?Hfail, ?Hnext.
  - by rewrite !app_nil_r.
  - by rewrite !app_nil_r.
  - rewrite IH. unfold deliveries_out, deliveries_err. cbn [mbind list_bind].
    by rewrite !app_assoc.
Qed.

Lemma stream_loop_short sr deliveries outcome w w' :
  stream_run sr w deliveries outcome w' →
  ∀ fuel out err, fuel ≤ length deliveries →
  (stream_loop fuel sr (mkProcess w out err)).2 = Fuel.
Proof.
  induction 1 as [w w' Hend|w w1 w' e Hmore Hfail
                 |w w1 w2 w' ws ds o Hmore Hnext _ IH]; intros fuel out err Hle;
    cbn [length] in Hle.
  - by replace fuel with 0 by lia.
  - by replace fuel with 0 by lia.
  - destruct fuel as [|fuel]; [done|].
    rewrite stream_loop_S. cbn [world]. rewrite Hmore, Hnext.
    apply IH. lia.
Qed.

(** A loop that ended went through a stream that stopped. *)
Lemma stream_loop_inv sr fuel p p' r :
  stream_loop fuel sr p = (p', r) → r ≠ Fuel →
  ∃ deliveries outcome w',
    stream_run sr (world p) deliveries outcome w' ∧
    length deliveries < fuel ∧
    p' = mkProcess w' (cout p ++ deliveries_out deliveries)
           (cerr p ++ deliveries_err deliveries) ∧
    r = stream_result outcome.
Proof.
  revert p. induction fuel as [|fuel IH]; intros p; [by intros [= <- <-]|].
  rewrite stream_loop_S.
  destruct (hasNext sr (world p)) as [w1 [|]] eqn:Hmore;
    [destruct (next sr w1) as [w2 [e|ws]] eqn:Hnext|].
  - intros [= <- <-] _. exists [], (Some e), w2. rewrite !app_nil_r.
    split_and!; [by eapply stream_run_fail | cbn; lia | done..].
  - intros Hloop Hr.
    destruct (IH _ Hloop Hr) as (ds & o & w' & Hrun & Hlen & -> & ->).
    exists (ws :: ds), o, w'. cbn [world cout cerr] in *.
    split_and!; [by eapply stream_run_next | cbn; lia | | done].
    unfold deliveries_out, deliveries_err. cbn [mbind list_bind].
    by rewrite !app_assoc.
  - intros [= <- <-] _. exists [], None, w1. rewrite !app_nil_r.
    split_and!; [by apply stream_run_end | cbn; lia | done..].
Qed.

(** The snapshot request, when the response delivers [state]. *)
Lemma snapshot_request_ok p w1 w2 r (state : WorldState) :
  currentSnapshotRequest (u16_literal ".*") [u16_literal ".*"] (world p) =
    (w1, r) →
  get r w1 = (w2, inr state) →
  snapshot_request p =
    (mkProcess w2
       (cout p ++ ("Searching for all URIs and attributes" +:+ LF)
                  :: snapshot_lines state)
       (cerr p), Ok ()).
Proof.
  intros Hreq Hget. unfold snapshot_request.
  rewrite (bind_ok _ _ _ _ _ (prints_out _ _)).
  erewrite bind_ok; [|by apply call_total_eq].
  erewrite bind_ok; [|by apply call_throwing_ok].
  rewrite prints_print_snapshot. cbn.
  by rewrite !app_nil_r, <- app_assoc.
Qed.

(** C32.  The snapshot request prints the announcement and then, for every
    object of the snapshot in key order, its header and two lines per
    attribute; an object without attributes still gets its header.
    Nothing goes to [std::cerr]. *)
Theorem snapshot_request_prints p w1 w2 r (state : WorldState) :
  currentSnapshotRequest (u16_literal ".*") [u16_literal ".*"] (world p) =
    (w1, r) →
  get r w1 = (w2, inr state) →
  snapshot_request p =
    (mkProcess w2
       (cout p ++ ("Searching for all URIs and attributes" +:+ LF)
                  :: snapshot_lines state)
       (cerr p), Ok ()).
Proof. apply snapshot_request_ok. Qed.

(** When the response fails, the exception leaves the snapshot
    request after the announcement and before anything is printed of the
    world. *)
Theorem snapshot_request_fails p w1 w2 r e :
  currentSnapshotRequest (u16_literal ".*") [u16_literal ".*"] (world p) =
    (w1, r) →
  get r w1 = (w2, inl e) →
  snapshot_request p =
    (mkProcess w2 (cout p ++ ["Searching for all URIs and attributes" +:+ LF])
       (cerr p), Throw e).
Proof.
  intros Hreq Hget. unfold snapshot_request.
  rewrite (bind_ok _ _ _ _ _ (prints_out _ _)).
  erewrite bind_ok; [|by apply call_total_eq].
  erewrite bind_throw; [|by apply call_throwing_throws]. cbn.
  by rewrite !app_nil_r.
Qed.

(** C27.  A stream that stops after [n] deliveries is processed completely
    by the loop when it may call [hasNext] more than [n] times: every
    delivery is printed in order, objects with attributes on [std::cout]
    and objects without on [std::cerr], and the loop returns when the
    stream ends or passes on the exception of [next].  With [n] calls or
    fewer the loop does not get to the end of the stream. *)
Theorem stream_loop_run sr fuel deliveries outcome p w' :
  stream_run sr (world p) deliveries outcome w' →
  (length deliveries < fuel →
   stream_loop fuel sr p =
     (mkProcess w' (cout p ++ deliveries_out deliveries)
        (cerr p ++ deliveries_err deliveries), stream_result outcome)) ∧
  (fuel ≤ length deliveries → (stream_loop fuel sr p).2 = Fuel).
Proof.
  intros Hrun. destruct p as [w out err]. split; intros Hfuel.
  - replace fuel with (fuel - S (length deliveries) + S (length deliveries))
      by lia.
    by apply stream_loop_run_gen.
  - by eapply stream_loop_short.
Qed.

(** While the stream goes on, the loop of lines 246-263 does not
    return: whatever the number of iterations it is allowed, it is still
    running after them. *)
Theorem stream_loop_endless sr fuel p :
  endless sr (world p) → (stream_loop fuel sr p).2 = Fuel.
Proof.
  intros (X & Hw & Hstep). revert p Hw.
  induction fuel as [|fuel IH]; intros p Hw; [done|].
  destruct (Hstep _ Hw) as (w1 & w2 & ws & Hmore & Hnext & Hw2).
  rewrite stream_loop_S, Hmore, Hnext. by apply IH.
Qed.

End client_lemmas.

(** ** Which objects appear where *)

Section routing.
Implicit Types (obj I : u16string * list Attribute) (ws state : WorldState).

Lemma prefix_app (s t : string) : String.prefix s (s +:+ t) = true.
Proof.
  induction s as [|c s IH]; [by destruct t|].
  rewrite string_app_cons. cbn. by destruct (ascii_dec c c).
Qed.

Lemma is_header_found uri : is_header (found_line uri) = true.
Proof. apply prefix_app. Qed.

Lemma is_header_attribute attr :
  is_header (size_line attr) = false ∧ is_header (created_line attr) = false.
Proof. done. Qed.

Lemma headers_attributes (attrs : list Attribute) :
  filter is_header (attrs ≫= attribute_lines) = [].
Proof.
  induction attrs as [|attr attrs IH]; [done|].
  cbn [mbind list_bind attribute_lines app].
  destruct (is_header_attribute attr) as [Hs Hc].
  rewrite !filter_cons_False by (rewrite ?Hs, ?Hc; exact id). apply IH.
Qed.

Lemma headers_object obj :
  filter is_header (object_lines obj) = [found_line obj.1].
Proof.
  unfold object_lines.
  rewrite filter_cons_True by (by rewrite is_header_found).
  by rewrite headers_attributes.
Qed.

(** The headers of a printed snapshot are the identifiers of the
    snapshot, in key order and once each: an object that the world model
    delivers without attributes is printed, an object that it does not
    deliver is not. *)
Theorem snapshot_headers state :
  filter is_header (snapshot_lines state) = found_line <$> omap_keys state.
Proof.
  induction state as [|obj state IH]; [done|].
  unfold snapshot_lines. cbn [mbind list_bind]. rewrite filter_app.
  rewrite headers_object. unfold snapshot_lines in IH. by rewrite IH.
Qed.

(** Every object of a delivery of the stream goes to exactly one
    place: with attributes, its header and attributes to [std::cout];
    without, one line to [std::cerr] and nothing to [std::cout]. *)
Theorem world_state_routing ws :
  filter is_header (ws ≫= update_out) =
    found_line <$> (filter (λ I, I.2 ≠ []) ws).*1 ∧
  ws ≫= update_err = empty_line <$> (filter (λ I, I.2 = []) ws).*1.
Proof.
  induction ws as [|[uri attrs] ws [IHout IHerr]]; [done|].
  cbn [mbind list_bind]. rewrite filter_app, IHout, IHerr.
  unfold update_out, update_err. destruct attrs as [|attr attrs]; cbn [snd fst].
  - rewrite filter_cons_False by naive_solver.
    by rewrite filter_cons_True by done.
  - rewrite filter_cons_True by done.
    rewrite filter_cons_False by naive_solver.
    by rewrite headers_object.
Qed.

End routing.

(** ** Concrete runs *)

(** A world model that holds one identifier without attributes: the
    snapshot shows the identifier. *)
Definition lonely_uri : u16string := u16_literal "room1.mug.mug42".

Definition lonely_store : Store := mkStore (inr [(lonely_uri, [])]) [] [].

Lemma snapshot_request_prints_witness :
  snapshot_request (mkProcess lonely_store [] []) =
  (mkProcess
     (mkStore (inr [(lonely_uri, [])]) []
        [SnapshotRequest (u16_literal ".*") [u16_literal ".*"]])
     ["Searching for all URIs and attributes" +:+ LF;
      "Found uri 'room1.mug.mug42 with attributes:" +:+ LF] [],
   Ok ()).
Proof.
  eapply (snapshot_request_prints (mkProcess lonely_store [] []) _ _
           (response 0) [(lonely_uri, [])]); reflexivity.
Defined.

(** A world model whose response fails. *)
Lemma snapshot_request_fails_witness :
  snapshot_request
    (mkProcess (mkStore (inl (runtime_error "connection closed")) [] []) [] []) =
  (mkProcess
     (mkStore (inl (runtime_error "connection closed")) []
        [SnapshotRequest (u16_literal ".*") [u16_literal ".*"]])
     ["Searching for all URIs and attributes" +:+ LF] [],
   Throw (runtime_error "connection closed")).
Proof.
  eapply (snapshot_request_fails
           (mkProcess (mkStore (inl (runtime_error "connection closed")) [] [])
              [] []) _ _ (response 0)); reflexivity.
Defined.

(** A stream of two deliveries: a mug with its location, then the same
    mug without attributes. *)
Definition mug_location : Attribute :=
  mkAttribute (u16_literal "location.xoffset") 1000
    (u16_literal "localizer") [x00; x00; x00; x2a].

Definition mug_stream : Store :=
  mkStore (inr []) [[(lonely_uri, [mug_location])]; [(lonely_uri, [])]] [].

Lemma stream_loop_run_witness :
  stream_loop 3 (step_response 0) (mkProcess mug_stream [] []) =
  (mkProcess (mkStore (inr []) [] [])
     ["Found uri 'room1.mug.mug42 with attributes:" +:+ LF;
      TAB +:+ "location.xoffset is 4 bytes long" +:+ LF;
      TAB +:+ "location.xoffset was created by localizer at time 1000" +:+ LF]
     ["room1.mug.mug42 is an empty object." +:+ LF],
   Ok ()).
Proof.
  refine (proj1 (stream_loop_run (step_response 0) 3
            [[(lonely_uri, [mug_location])]; [(lonely_uri, [])]] None
            (mkProcess mug_stream [] []) (mkStore (inr []) [] []) _) _).
  - eapply stream_run_next; [reflexivity..|].
    eapply stream_run_next; [reflexivity..|].
    by apply stream_run_end.
  - cbn. lia.
Defined.

(** A stream that never ends keeps the loop running. *)
Lemma stream_loop_endless_witness :
  (stream_loop 100 (step_response 0)
     (mkProcess (ticker [(lonely_uri, [])] 0) [] [])).2 = Fuel.
Proof.
  apply (stream_loop_endless (step_response 0) 100
           (mkProcess (ticker [(lonely_uri, [])] 0) [] [])).
  exists (λ w, ∃ n, w = ticker [(lonely_uri, [])] n). split; [by exists 0%nat|].
  intros w0 [n ->]. exists (ticker [(lonely_uri, [])] n),
    (ticker [(lonely_uri, [])] (S n)), [(lonely_uri, [])].
  split; [done|]. split; [done|]. by exists (S n).
Defined.
