(* ===== verification/WorldModel.v ===== *)
(** * The client library, from its contract

    [query_world.cpp] talks to the world model through the objects of a
    library that is not in the repository: the connection, [Response] and
    [StepResponse].  The other files take them as the interfaces [Env] and
    [ClientEnv].  This file models them from their contract (sections 3,
    4.2, 4.3 and 6 of the specification), so that the program can be run,
    and reasoned about, against a world model that behaves as the contract
    says and not only against scripts.

    A [WorldModel] is the store with the connection of one process: the
    current values ([wm_world]), whether the connection is open, the
    responses and the streams the process holds, by ticket, and what the
    rest of the world will do while the process is blocked ([wm_future]).

    - A query is answered by [select]: the objects whose identifier
      matches the pattern, each with its attributes whose name matches one
      of the attribute patterns.  An object that matches with no such
      attribute is there with an empty sequence.
    - A [Response] is [Pending] until the connection fulfils it, once, with
      the whole answer or with a failure; [wm_get] waits for that and
      returns what was delivered, again and again.
    - A stream is [Streaming] until it is cancelled, the store ends it or
      the connection closes; it does not come back.  [wm_next] delivers,
      for every object that matches, the attributes that changed since the
      last delivery.
    - [sendData] writes the current value of each attribute.

    [wm_step] is a step of any of this: a call of the process or an event
    of the rest of the world.  The theorems hold along every sequence of
    steps.  The minimum interval of a stream is advisory and the model of
    the store keeps it without using it; reconnecting is not modelled. *)

From S2P Require Import Prelude Monad OrderedMap U16String Regex Env.
From S2P Require Import Dispatcher Solver Client.

(** ** Queries *)

(** The attribute is wanted: its name matches one of the patterns. *)
Definition attr_selected (attr_patterns : list u16string) (a : Attribute) :
    bool :=
  existsb (λ pattern, ere_match pattern (attr_name a)) attr_patterns.

(** The answer of the store to a query. *)
Definition select (uri_pattern : u16string) (attr_patterns : list u16string)
    (world : WorldState) : WorldState :=
  (λ obj, (obj.1, filter (λ a, attr_selected attr_patterns a) obj.2)) <$>
  filter (λ obj, ere_match uri_pattern obj.1) world.

(** What of [current] the stream has not delivered yet: every object, with
    the attributes that are not among those [sent] for it. *)
Definition increment (sent current : WorldState) : WorldState :=
  (λ obj, (obj.1, filter (λ a, a ∉ default [] (omap_find obj.1 sent)) obj.2))
  <$> current.

(** ** Updates *)

(** The attribute that an update of the solver [origin] becomes. *)
Definition attribute_of (origin : u16string) (u : AttrUpdate) : Attribute :=
  mkAttribute (au_name u) (au_creation_date u) origin (au_data u).

(** The store keeps the current value of an attribute. *)
Definition put_attribute (a : Attribute) (attrs : list Attribute) :
    list Attribute :=
  if existsb (λ b, bool_decide (attr_name b = attr_name a)) attrs
  then (λ b, if decide (attr_name b = attr_name a) then a else b) <$> attrs
  else attrs ++ [a].

Definition store_update (origin : u16string) (world : WorldState)
    (u : AttrUpdate) : WorldState :=
  omap_assign (au_uri u)
    (put_attribute (attribute_of origin u)
       (default [] (omap_find (au_uri u) world)))
    world.

(** ** The state of the connection *)

(** A response: the request until it is fulfilled, then what was
    delivered. *)
Inductive response_state : Type :=
  | Pending (uri_pattern : u16string) (attr_patterns : list u16string)
  | Delivered (state : WorldState)
  | Failed (e : exn).

Inductive stream_status : Type := Streaming | Cancelled | Ended.

#[export] Instance stream_status_eq_dec : EqDecision stream_status.
Proof. solve_decision. Defined.

(** A stream: the request, whether it goes on, and what it has delivered
    so far. *)
Record stream_state : Type := mkStream {
  st_uri : u16string;
  st_attrs : list u16string;
  st_interval : Z;
  st_status : stream_status;
  st_sent : WorldState;
}.

(** What the rest of the world does. *)
Inductive event : Type :=
  | Push (origin : u16string) (u : AttrUpdate)
  | Deliver (ticket : nat)
  | Cancel (ticket : nat)
  | EndOfStream (ticket : nat)
  | Close.

Record WorldModel : Type := mkWorldModel {
  wm_world : WorldState;
  wm_connected : bool;
  wm_origin : u16string;
  wm_responses : list response_state;
  wm_streams : list stream_state;
  wm_future : list (list event);
}.

Definition with_world (world : WorldState) (w : WorldModel) : WorldModel :=
  mkWorldModel world (wm_connected w) (wm_origin w) (wm_responses w)
    (wm_streams w) (wm_future w).

Definition with_responses (rs : list response_state) (w : WorldModel) :
    WorldModel :=
  mkWorldModel (wm_world w) (wm_connected w) (wm_origin w) rs (wm_streams w)
    (wm_future w).

Definition with_streams (ss : list stream_state) (w : WorldModel) :
    WorldModel :=
  mkWorldModel (wm_world w) (wm_connected w) (wm_origin w) (wm_responses w) ss
    (wm_future w).

Definition with_future (future : list (list event)) (w : WorldModel) :
    WorldModel :=
  mkWorldModel (wm_world w) (wm_connected w) (wm_origin w) (wm_responses w)
    (wm_streams w) future.

(** The error of [get] on a response that the connection could not
    fulfil, and of a call on a ticket that was never given. *)
Definition delivery_error : exn := runtime_error "the connection has failed".
Definition ticket_error : exn := other_exception "no such request".

(** ** Events *)

(** The connection fulfils a response, once: with the whole answer if it
    is open, with a failure if not. *)
Definition fulfil (w : WorldModel) (r : response_state) : response_state :=
  match r with
  | Pending uri_pattern attr_patterns =>
      if wm_connected w
      then Delivered (select uri_pattern attr_patterns (wm_world w))
      else Failed delivery_error
  | _ => r
  end.

Definition deliver (ticket : nat) (w : WorldModel) : WorldModel :=
  with_responses (alter (fulfil w) ticket (wm_responses w)) w.

(** A stream that goes on stops, for [status]; one that has stopped stays
    as it is. *)
Definition terminate (status : stream_status) (s : stream_state) :
    stream_state :=
  match st_status s with
  | Streaming =>
      mkStream (st_uri s) (st_attrs s) (st_interval s) status (st_sent s)
  | _ => s
  end.

Definition apply_event (w : WorldModel) (e : event) : WorldModel :=
  match e with
  | Push origin u => with_world (store_update origin (wm_world w) u) w
  | Deliver ticket => deliver ticket w
  | Cancel ticket =>
      with_streams (alter (terminate Cancelled) ticket (wm_streams w)) w
  | EndOfStream ticket =>
      with_streams (alter (terminate Ended) ticket (wm_streams w)) w
  | Close =>
      mkWorldModel (wm_world w) false (wm_origin w) (wm_responses w)
        (wm_streams w) (wm_future w)
  end.

(** The process is blocked: the rest of the world makes its next moves. *)
Definition wait (w : WorldModel) : WorldModel :=
  match wm_future w with
  | [] => w
  | events :: future => foldl apply_event (with_future future w) events
  end.

(** ** The calls of the process *)

(** [currentSnapshotRequest]: the request is queued; nothing blocks. *)
Definition wm_currentSnapshotRequest (uri : u16string)
    (attrs : list u16string) (w : WorldModel) : WorldModel * Response :=
  (with_responses (wm_responses w ++ [Pending uri attrs]) w,
   response (length (wm_responses w))).

(** [Response::ready]: the response has been fulfilled. *)
Definition wm_ready (r : Response) (w : WorldModel) : WorldModel * bool :=
  let 'response ticket := r in
  (w, match wm_responses w !! ticket with
      | Some (Delivered _) | Some (Failed _) => true
      | _ => false
      end).

(** [Response::get]: blocks until the response is fulfilled, and returns
    what was delivered. *)
Definition wm_get (r : Response) (w : WorldModel) :
    WorldModel * (exn + WorldState) :=
  let 'response ticket := r in
  let w' := deliver ticket (wait w) in
  (w', match wm_responses w' !! ticket with
       | Some (Delivered state) => inr state
       | Some (Failed e) => inl e
       | _ => inl ticket_error
       end).

(** [streamRequest]. *)
Definition wm_streamRequest (uri : u16string) (attrs : list u16string)
    (interval : Z) (w : WorldModel) : WorldModel * StepResponse :=
  (with_streams (wm_streams w ++ [mkStream uri attrs interval Streaming []]) w,
   step_response (length (wm_streams w))).

(** The stream goes on: it has not stopped and the connection is open. *)
Definition stream_live (w : WorldModel) (ticket : nat) : bool :=
  match wm_streams w !! ticket with
  | Some s => wm_connected w && bool_decide (st_status s = Streaming)
  | None => false
  end.

(** [StepResponse::hasNext]: blocks until a delivery or the end is
    known. *)
Definition wm_hasNext (sr : StepResponse) (w : WorldModel) :
    WorldModel * bool :=
  let 'step_response ticket := sr in
  (wait w, stream_live (wait w) ticket).

(** The stream has delivered [current]. *)
Definition advance (current : WorldState) (s : stream_state) : stream_state :=
  mkStream (st_uri s) (st_attrs s) (st_interval s) (st_status s) current.

(** [StepResponse::next]: one delivery of what has changed; on a stream
    that has stopped, the empty world state, which is not an error. *)
Definition wm_next (sr : StepResponse) (w : WorldModel) :
    WorldModel * (exn + WorldState) :=
  let 'step_response ticket := sr in
  match wm_streams w !! ticket with
  | Some s =>
      if stream_live w ticket then
        let current := select (st_uri s) (st_attrs s) (wm_world w) in
        (with_streams (alter (advance current) ticket (wm_streams w)) w,
         inr (increment (st_sent s) current))
      else (w, inr [])
  | None => (w, inl ticket_error)
  end.

(** [StepResponse::cancel], from any thread. *)
Definition wm_cancel (sr : StepResponse) (w : WorldModel) : WorldModel * () :=
  let 'step_response ticket := sr in (apply_event w (Cancel ticket), ()).

(** [sendData]: the batch is written to the store, whole, if the
    connection is open. *)
Definition wm_sendData (solns : list AttrUpdate) (synchronous : bool)
    (w : WorldModel) : WorldModel * option exn :=
  if wm_connected w
  then (with_world (foldl (store_update (wm_origin w)) (wm_world w) solns) w,
        None)
  else (w, Some delivery_error).

#[export] Instance wm_client : ClientEnv WorldModel := {|
  currentSnapshotRequest := wm_currentSnapshotRequest;
  get := wm_get;
  streamRequest := wm_streamRequest;
  hasNext := wm_hasNext;
  next := wm_next;
|}.

(** The clock is not part of the contract: it stands still. *)
#[export] Instance wm_env : Env WorldModel := {|
  sendData := wm_sendData;
  getGRAILTime w := (w, 0%Z);
|}.

(** ** Steps *)

(** A call of the process or an event of the rest of the world. *)
Inductive wm_step : WorldModel → WorldModel → Prop :=
  | step_event e w : wm_step w (apply_event w e)
  | step_wait w : wm_step w (wait w)
  | step_request uri attrs w :
      wm_step w (wm_currentSnapshotRequest uri attrs w).1
  | step_get r w : wm_step w (wm_get r w).1
  | step_streamRequest uri attrs interval w :
      wm_step w (wm_streamRequest uri attrs interval w).1
  | step_hasNext sr w : wm_step w (wm_hasNext sr w).1
  | step_next sr w : wm_step w (wm_next sr w).1
  | step_sendData solns synchronous w :
      wm_step w (wm_sendData solns synchronous w).1.

(** The state of a connection is well formed: the store and everything
    that was delivered are in key order, each identifier once. *)
Definition response_wf (r : response_state) : Prop :=
  match r with
  | Delivered state => omap_sorted state
  | _ => True
  end.

Record wm_wf (w : WorldModel) : Prop := {
  wf_world : omap_sorted (wm_world w);
  wf_responses : Forall response_wf (wm_responses w);
  wf_streams : Forall (λ s, omap_sorted (st_sent s)) (wm_streams w);
}.

(** A fresh connection to a store that holds [world]. *)
Definition wm_init (world : WorldState) (origin : u16string)
    (future : list (list event)) : WorldModel :=
  mkWorldModel world true origin [] [] future.

(** ** Answers *)

Section queries.
Implicit Types (world sent : WorldState) (uri : u16string).

Lemma select_sorted up ap world :
  omap_sorted world → omap_sorted (select up ap world).
Proof.
  intros Hw. apply omap_sorted_fmap; [done|]. by apply omap_sorted_filter.
Qed.

Lemma select_find up ap world uri :
  omap_find uri (select up ap world) =
  if ere_match up uri
  then filter (λ a, attr_selected ap a) <$> omap_find uri world
  else None.
Proof.
  unfold select.
  rewrite (omap_find_fmap (λ _ attrs, filter (λ a, attr_selected ap a) attrs)).
  pose proof (omap_find_filter (λ k, ere_match up k) uri world) as Hfind.
  cbv beta in Hfind. rewrite Hfind. by destruct (ere_match up uri).
Qed.

Lemma increment_sorted sent world :
  omap_sorted world → omap_sorted (increment sent world).
Proof. intros Hw. by apply omap_sorted_fmap. Qed.

Lemma store_update_sorted origin world u :
  omap_sorted world → omap_sorted (store_update origin world u).
Proof. apply omap_assign_sorted. Qed.

Lemma store_updates_sorted origin world solns :
  omap_sorted world → omap_sorted (foldl (store_update origin) world solns).
Proof.
  revert world. induction solns as [|u solns IH]; intros world Hw; [done|].
  by apply IH, store_update_sorted.
Qed.

(** The pattern [.*] matches every name. *)
Lemma ere_match_all (s : u16string) : ere_match (u16_literal ".*") s = true.
Proof.
  unfold ere_match.
  change (ere_parse (u16_literal ".*")) with (Some (Cat (Star Any) Eps)).
  apply accepts_spec, matches_cat_inv. exists s, []. rewrite app_nil_r.
  split_and!; [done | apply matches_star_any | by apply matches_eps_inv].
Qed.

(** The query of line 222 asks for everything. *)
Lemma select_all world :
  select (u16_literal ".*") [u16_literal ".*"] world = world.
Proof.
  unfold select. rewrite filter_all by (intros obj; by rewrite ere_match_all).
  induction world as [|[uri attrs] world IH]; [done|].
  rewrite fmap_cons, IH. cbn [fst snd]. f_equal. f_equal.
  apply filter_all. intros a. unfold attr_selected. cbn.
  by rewrite ere_match_all.
Qed.

(** What has been delivered is not delivered again. *)
Lemma increment_same world :
  omap_sorted world → increment world world = (λ obj, (obj.1, [])) <$> world.
Proof.
  intros Hw. unfold increment. apply list_fmap_ext. (* per element *)
  intros i [uri attrs] Hi. cbn. f_equal.
  rewrite (omap_elem_find uri attrs world Hw) by by eapply list_elem_of_lookup_2.
  cbn. apply filter_none, Forall_forall. intros a Ha Hn. by apply Hn.
Qed.

End queries.

(** ** What the steps keep *)

(** [sendData] is the arrival of its updates. *)
Lemma events_push origin solns w :
  foldl apply_event w (Push origin <$> solns) =
  with_world (foldl (store_update origin) (wm_world w) solns) w.
Proof.
  revert w. induction solns as [|u solns IH]; intros w; [by destruct w|].
  cbn [fmap list_fmap foldl]. by rewrite IH.
Qed.

Lemma wm_sendData_events solns synchronous w :
  (wm_sendData solns synchronous w).1 =
  if wm_connected w then foldl apply_event w (Push (wm_origin w) <$> solns)
  else w.
Proof.
  unfold wm_sendData. destruct (wm_connected w); [|done].
  by rewrite events_push.
Qed.

(** A property that the events, the requests and the deliveries of a
    stream keep holds along every sequence of steps. *)
Section steps.
Context (P : WorldModel → Prop).
Context (Hevent : ∀ e w, P w → P (apply_event w e)).
Context (Hfuture : ∀ future w, P w → P (with_future future w)).
Context (Hrequest : ∀ uri attrs w,
  P w → P (wm_currentSnapshotRequest uri attrs w).1).
Context (Hstream : ∀ uri attrs interval w,
  P w → P (wm_streamRequest uri attrs interval w).1).
Context (Hnext : ∀ sr w, P w → P (wm_next sr w).1).

Lemma events_keep events w : P w → P (foldl apply_event w events).
Proof.
  revert w. induction events as [|e events IH]; intros w Hw; [done|].
  by apply IH, Hevent.
Qed.

Lemma wait_keeps w : P w → P (wait w).
Proof.
  intros Hw. unfold wait. destruct (wm_future w); [done|].
  by apply events_keep, Hfuture.
Qed.

Lemma step_keeps w w' : wm_step w w' → P w → P w'.
Proof.
  intros [e w0|w0|uri attrs w0|[t] w0|uri attrs interval w0|[t] w0|sr w0
         |solns synchronous w0] Hw.
  - by apply Hevent.
  - by apply wait_keeps.
  - by apply Hrequest.
  - by apply (Hevent (Deliver t)), wait_keeps.
  - by apply Hstream.
  - by apply wait_keeps.
  - by apply Hnext.
  - rewrite wm_sendData_events. destruct (wm_connected w0); [|done].
    by apply events_keep.
Qed.

Lemma steps_keep w w' : rtc wm_step w w' → P w → P w'.
Proof. induction 1; eauto using step_keeps. Qed.

End steps.

(** *** Well-formed states *)

Lemma fulfil_wf w r : wm_wf w → response_wf r → response_wf (fulfil w r).
Proof.
  intros [Hw _ _] Hr. destruct r as [up ap| |]; [|done..]. cbn.
  destruct (wm_connected w); [|done]. by apply select_sorted.
Qed.

Lemma apply_event_wf e w : wm_wf w → wm_wf (apply_event w e).
Proof.
  intros Hwf. destruct (Hwf) as [Hw Hrs Hss].
  destruct e as [origin u|t|t|t|]; split; cbn; try done.
  - by apply store_update_sorted.
  - apply Forall_alter; [done|]. intros r _. by apply fulfil_wf.
  - apply Forall_alter; [done|]. intros s _ Hs. unfold terminate.
    by destruct (st_status s).
  - apply Forall_alter; [done|]. intros s _ Hs. unfold terminate.
    by destruct (st_status s).
Qed.

Lemma wm_next_wf sr w : wm_wf w → wm_wf (wm_next sr w).1.
Proof.
  intros [Hw Hrs Hss]. destruct sr as [t]. unfold wm_next.
  destruct (wm_streams w !! t) as [s|]; [|done].
  destruct (stream_live w t); [|done]. split; cbn; [done..|].
  apply Forall_alter; [done|]. intros s' _ _. by apply select_sorted.
Qed.

Lemma wm_step_wf w w' : rtc wm_step w w' → wm_wf w → wm_wf w'.
Proof.
  apply steps_keep; clear w w'.
  - apply apply_event_wf.
  - by intros future w [].
  - intros uri attrs w [Hw Hrs Hss]. split; cbn; [done| |done].
    apply Forall_app. by repeat constructor.
  - intros uri attrs interval w [Hw Hrs Hss]. split; cbn; [done..|].
    apply Forall_app. by repeat constructor.
  - apply wm_next_wf.
Qed.

(** *** Responses *)

(** The response [t] has been fulfilled with [state]. *)
Definition delivered (t : nat) (state : WorldState) (w : WorldModel) : Prop :=
  wm_responses w !! t = Some (Delivered state).

Lemma delivered_steps t state w w' :
  rtc wm_step w w' → delivered t state w → delivered t state w'.
Proof.
  apply steps_keep; clear w w'; unfold delivered; try done.
  - intros [origin u|t'|t'|t'|] w Hw; try done. cbn.
    rewrite list_lookup_alter. case_decide; [subst; by rewrite Hw | done].
  - intros uri attrs w Hw. cbn. by apply lookup_app_l_Some.
  - intros [t'] w Hw. unfold wm_next.
    destruct (wm_streams w !! t'); [|done]. by destruct (stream_live w t').
Qed.

(** *** Streams *)

(** The stream [t] has stopped: it was cancelled or ended, or the
    connection is closed. *)
Definition stopped (t : nat) (w : WorldModel) : Prop :=
  ∃ s, wm_streams w !! t = Some s ∧
       (st_status s ≠ Streaming ∨ wm_connected w = false).

Lemma stopped_live t w : stopped t w → stream_live w t = false.
Proof.
  intros (s & Hs & [Hstatus|Hclosed]); unfold stream_live; rewrite Hs.
  - by rewrite bool_decide_eq_false_2, andb_false_r.
  - by rewrite Hclosed.
Qed.

(** A change of one stream that does not set a stopped stream going. *)
Lemma stopped_alter (f : stream_state → stream_state) t t' w :
  (∀ s, st_status s ≠ Streaming → st_status (f s) ≠ Streaming) →
  stopped t w → stopped t (with_streams (alter f t' (wm_streams w)) w).
Proof.
  intros Hf (s & Hs & Hstop). unfold stopped. cbn.
  rewrite list_lookup_alter. case_decide; [subst; rewrite Hs|by exists s].
  exists (f s). split; [done|]. destruct Hstop; auto.
Qed.

Lemma terminate_stopped status s :
  status ≠ Streaming → st_status (terminate status s) ≠ Streaming.
Proof.
  intros Hstatus. unfold terminate.
  destruct (st_status s) eqn:Hs; cbn; [done|by rewrite Hs..].
Qed.

Lemma stopped_steps t w w' : rtc wm_step w w' → stopped t w → stopped t w'.
Proof.
  apply steps_keep; clear w w'; try done.
  - intros [origin u|t'|t'|t'|] w Hw; try done.
    + apply stopped_alter; [|done]. intros s _. by apply terminate_stopped.
    + apply stopped_alter; [|done]. intros s _. by apply terminate_stopped.
    + destruct Hw as (s & Hs & Hstop). exists s. auto.
  - intros uri attrs interval w (s & Hs & Hstop). exists s.
    split; [by apply lookup_app_l_Some | done].
  - intros [t'] w Hw. unfold wm_next.
    destruct (wm_streams w !! t'); [|done].
    destruct (stream_live w t'); [|done]. by apply stopped_alter.
Qed.

Lemma cancel_stopped t w :
  t < length (wm_streams w) → stopped t (wm_cancel (step_response t) w).1.
Proof.
  intros (s & Hs)%lookup_lt_is_Some_2. exists (terminate Cancelled s). cbn.
  rewrite list_lookup_alter, decide_True, Hs by done.
  split; [done|]. left. by apply terminate_stopped.
Qed.

(** ** The contract of the responses *)

(** Every state of a connection that starts on a store in key order is
    well formed: what is delivered holds each identifier once. *)
Theorem wm_reachable_wf world origin future w :
  omap_sorted world →
  rtc wm_step (wm_init world origin future) w → wm_wf w.
Proof. intros Hw Hsteps. apply (wm_step_wf _ _ Hsteps). by split. Qed.

(** The answer to a query holds an object exactly when its identifier
    matches, with exactly its attributes that match: an object none of
    whose attributes match is there, with the empty sequence. *)
Theorem select_answer up ap world uri :
  omap_find uri (select up ap world) =
  if ere_match up uri
  then filter (λ a, attr_selected ap a) <$> omap_find uri world
  else None.
Proof. apply select_find. Qed.

(** A response is fulfilled once: when [get] has returned a world state,
    it returns the same one ever after, whatever has happened to the store
    and the connection in between. *)
Theorem get_is_cached r state w w' :
  (wm_get r w).2 = inr state →
  rtc wm_step (wm_get r w).1 w' →
  (wm_get r w').2 = inr state.
Proof.
  destruct r as [t]. intros Hget Hsteps.
  assert (delivered t state (wm_get (response t) w).1) as Hd.
  { unfold delivered. cbn in *. by repeat case_match; simplify_eq. }
  apply (delivered_steps _ _ _ _ Hsteps) in Hd.
  apply (delivered_steps _ _ _ (wm_get (response t) w').1) in Hd;
    [|apply rtc_once, step_get].
  cbn in *. unfold delivered in Hd. cbn in Hd. by rewrite Hd.
Qed.

(** A stream that has stopped does not start again: [hasNext] is false
    and [next] delivers the empty world state, whatever happens. *)
Theorem stopped_is_final t w w' :
  stopped t w → rtc wm_step w w' →
  (wm_hasNext (step_response t) w').2 = false ∧
  wm_next (step_response t) w' = (w', inr []).
Proof.
  intros Hstop Hsteps. apply (stopped_steps _ _ _ Hsteps) in Hstop. split.
  - apply stopped_live, (stopped_steps t w'); [apply rtc_once, step_wait|done].
  - unfold wm_next. rewrite (stopped_live _ _ Hstop).
    by destruct Hstop as (s & -> & _).
Qed.

(** A request on an open connection, fulfilled before anything else
    happens, delivers the answer of the store as it is. *)
Lemma wm_get_request uri attrs w :
  wm_connected w = true → wm_future w = [] →
  (wm_get (wm_currentSnapshotRequest uri attrs w).2
     (wm_currentSnapshotRequest uri attrs w).1).2 =
  inr (select uri attrs (wm_world w)).
Proof.
  intros Hopen Hfuture. unfold wm_currentSnapshotRequest, wm_get, wait, deliver.
  cbn [fst snd wm_future with_responses wm_responses]. rewrite Hfuture.
  cbn [fst snd wm_future with_responses wm_responses].
  rewrite list_lookup_alter, decide_True, list_lookup_middle by done.
  cbn [fmap option_fmap option_map fulfil wm_connected wm_world with_responses].
  by rewrite Hopen.
Qed.

(** ** The program against the contract *)

Section program.
Implicit Types (p : Process WorldModel).

(** What lines 251-262 write for objects without attributes. *)
Lemma unchanged_out (ws : WorldState) :
  ((λ obj, (obj.1, [])) <$> ws) ≫= update_out = [].
Proof. by induction ws. Qed.

Lemma unchanged_err (ws : WorldState) :
  ((λ obj, (obj.1, [])) <$> ws) ≫= update_err =
  (λ obj, empty_line obj.1) <$> ws.
Proof. induction ws as [|obj ws IH]; [done|]. cbn. by f_equal. Qed.

(** C29.  Against a world model that keeps its contract, with the
    connection open and nothing else going on, the snapshot request of
    lines 221-236 prints every object of the store, in key order, each
    with all its attributes; an object without attributes is printed with
    its header alone. *)
Theorem snapshot_request_store p :
  wm_connected (world p) = true → wm_future (world p) = [] →
  (snapshot_request p).2 = Ok () ∧
  cout (snapshot_request p).1 =
    cout p ++ ("Searching for all URIs and attributes" +:+ LF)
              :: snapshot_lines (wm_world (world p)) ∧
  cerr (snapshot_request p).1 = cerr p.
Proof.
  intros Hopen Hfuture.
  pose proof (wm_get_request (u16_literal ".*") [u16_literal ".*"] (world p)
                Hopen Hfuture) as Hget.
  rewrite select_all in Hget.
  set (req := wm_currentSnapshotRequest _ _ _) in Hget.
  rewrite (snapshot_request_ok p req.1 (wm_get req.2 req.1).1 req.2
             (wm_world (world p))); [done|done|].
  rewrite <- Hget. apply surjective_pairing.
Qed.

(** C30.  Once the stream has been cancelled, by whatever thread, the
    loop of lines 246-263 ends at its next test, whatever has happened
    since: it returns without another delivery and prints nothing. *)
Theorem stream_loop_cancelled t fuel w p :
  t < length (wm_streams w) →
  rtc wm_step (wm_cancel (step_response t) w).1 (world p) →
  stream_loop (S fuel) (step_response t) p =
    (mkProcess (wait (world p)) (cout p) (cerr p), Ok ()).
Proof.
  intros Ht Hsteps. rewrite stream_loop_S. cbn [hasNext wm_client wm_hasNext].
  destruct (stopped_is_final t _ _ (cancel_stopped t w Ht) Hsteps) as [Hmore _].
  cbn in Hmore. by rewrite Hmore.
Qed.

(** C31.  A delivery of the stream in which nothing has changed holds
    every object that matches, each with the empty sequence; lines
    248-262 print each of them on [std::cerr] as an empty object, and
    nothing on [std::cout]. *)
Theorem unchanged_delivery_prints t s p :
  wm_wf (world p) →
  wm_streams (world p) !! t = Some s →
  stream_live (world p) t = true →
  st_sent s = select (st_uri s) (st_attrs s) (wm_world (world p)) →
  (ws ← call_throwing (next (step_response t)); print_world_state ws) p =
    (mkProcess (wm_next (step_response t) (world p)).1 (cout p)
       (cerr p ++ ((λ obj, empty_line obj.1) <$> st_sent s)), Ok ()).
Proof.
  intros [Hw _ Hss] Hs Hlive Hsent.
  erewrite bind_ok; [|apply call_throwing_ok; cbn; unfold wm_next;
                       by rewrite Hs, Hlive, <- Hsent].
  rewrite increment_same
    by (rewrite Hsent; by apply select_sorted).
  rewrite prints_print_world_state, unchanged_out, unchanged_err, app_nil_r.
  unfold wm_next. by rewrite Hs, Hlive, <- Hsent.
Qed.

End program.

(** ** Concrete runs *)

(** A store with a mug that has a location and a door that has none. *)
Definition door_uri : u16string := u16_literal "room1.door.door7".

Definition mug_world : WorldState :=
  [(door_uri, []); (lonely_uri, [mug_location])].

(** Nothing happens while the process waits for the snapshot and for the
    first delivery; while it waits for the second, a solver reports that
    the mug is switched on; then the store ends the stream. *)
Definition mug_events : list (list event) :=
  [[]; [];
   [Push (u16_literal "binary_state_solver")
      (mkAttrUpdate (u16_literal "switch_state") 2000 lonely_uri [x01])];
   [EndOfStream 0]].

Definition mug_model : Process WorldModel :=
  mkProcess (wm_init mug_world (u16_literal "binary_state_solver") mug_events)
    [] [].

(** The two requests of the client, lines 221-263: the snapshot holds
    both objects; the stream of the mugs delivers the location, then,
    after the push of an attribute that was not asked for, nothing new,
    and ends. *)
Example client_mug_model :
  let p := (client 10 mug_model).1 in
  (client 10 mug_model).2 = Ok () ∧
  cout p =
    ["Searching for all URIs and attributes" +:+ LF;
     "Found uri 'room1.door.door7 with attributes:" +:+ LF;
     "Found uri 'room1.mug.mug42 with attributes:" +:+ LF;
     TAB +:+ "location.xoffset is 4 bytes long" +:+ LF;
     TAB +:+ "location.xoffset was created by localizer at time 1000" +:+ LF;
     "Found uri 'room1.mug.mug42 with attributes:" +:+ LF;
     TAB +:+ "location.xoffset is 4 bytes long" +:+ LF;
     TAB +:+ "location.xoffset was created by localizer at time 1000" +:+ LF] ∧
  cerr p = ["room1.mug.mug42 is an empty object." +:+ LF] ∧
  omap_find lonely_uri (wm_world (world p)) =
    Some [mug_location;
          mkAttribute (u16_literal "switch_state") 2000
            (u16_literal "binary_state_solver") [x01]].
Proof. vm_compute. done. Qed.

(** From the sample to the screen: the callback of the solver pushes the
    position of the switch of the mug over its connection, and the
    snapshot of a client then holds it. *)
Example solver_to_client :
  let st := mkSolverState (tx_to_uri mug_state) ∅
              (mkProcess
                 (wm_init mug_world (u16_literal "binary_state_solver") [])
                 [] []) in
  let st' := (run_callbacks mug_config 1 [mug_on] st).1 in
  cout (snapshot_request (proc st')).1 =
    ["room1.mug.mug42 is switch_state" +:+ LF;
     "Searching for all URIs and attributes" +:+ LF;
     "Found uri 'room1.door.door7 with attributes:" +:+ LF;
     "Found uri 'room1.mug.mug42 with attributes:" +:+ LF;
     TAB +:+ "location.xoffset is 4 bytes long" +:+ LF;
     TAB +:+ "location.xoffset was created by localizer at time 1000" +:+ LF;
     TAB +:+ "switch_state is 1 bytes long" +:+ LF;
     TAB +:+ "switch_state was created by binary_state_solver at time 0"
       +:+ LF].
Proof. vm_compute. done. Qed.

Lemma snapshot_request_store_witness :
  (snapshot_request (mkProcess (wm_init mug_world [] []) [] [])).2 = Ok () ∧
  cout (snapshot_request (mkProcess (wm_init mug_world [] []) [] [])).1 =
    [] ++ ("Searching for all URIs and attributes" +:+ LF)
          :: snapshot_lines mug_world ∧
  cerr (snapshot_request (mkProcess (wm_init mug_world [] []) [] [])).1 = [].
Proof.
  by apply (snapshot_request_store (mkProcess (wm_init mug_world [] []) [] [])).
Defined.

(** The stream of the mugs is cancelled, a solver goes on pushing, and the
    loop ends at its next test. *)
Lemma stream_loop_cancelled_witness :
  let w := (wm_streamRequest (u16_literal ".*mug.*")
              [u16_literal "location\..offset"] 1000
              (wm_init mug_world [] mug_events)).1 in
  let w' := apply_event (wm_cancel (step_response 0) w).1
              (Push [] (mkAttrUpdate [] 0 lonely_uri [])) in
  stream_loop 1 (step_response 0) (mkProcess w' [] []) =
    (mkProcess (wait w') [] [], Ok ()).
Proof.
  intros w w'.
  apply (stream_loop_cancelled 0 0 w (mkProcess w' [] [])); [cbn; lia|].
  apply rtc_once, step_event.
Defined.

Lemma unchanged_delivery_prints_witness :
  let w := (wm_next (step_response 0)
              (wm_streamRequest (u16_literal ".*mug.*")
                 [u16_literal "location\..offset"] 1000
                 (wm_init mug_world [] [])).1).1 in
  (ws ← call_throwing (next (step_response 0)); print_world_state ws)
    (mkProcess w [] []) =
    (mkProcess (wm_next (step_response 0) w).1 []
       ([] ++ ["room1.mug.mug42 is an empty object." +:+ LF]), Ok ()).
Proof.
  intros w.
  apply (unchanged_delivery_prints 0
           (mkStream (u16_literal ".*mug.*") [u16_literal "location\..offset"]
              1000 Streaming [(lonely_uri, [mug_location])])
           (mkProcess w [] [])); [|done..].
  split; cbn; by repeat constructor.
Defined.
