(* ===== verification/Main.v ===== *)
(** * The program: [main]

    [main] (lines 55-265 of [query_world.cpp]) checks its arguments, reads
    the configuration, connects to the world model as a solver, starts the
    aggregator connection with the packet callback, builds the pattern of
    the identifiers of interest, connects as a client and runs the two
    requests of [Client].  It returns [0] after a usage error or a failed
    connection and [1] after a configuration error; an exception that
    nothing catches ends the process.

    The operating system and the constructors of the library objects are
    the class [System].  The source uses [solver_port] (line 112) and
    [servers] (line 175) without declaring them: they are parameters of
    the model.  The callbacks that the aggregator runs on its own threads
    are the subject of [Solver]; [main] here is the main thread. *)

From stdpp Require Import pretty.
From S2P Require Import Prelude Monad OrderedMap U16String Env.
From S2P Require Import Config Pattern Client.

(** ** [std::stoi] *)

Definition is_digit (c : ascii) : bool :=
  let n := N_of_ascii c in ((48 <=? n) && (n <=? 57))%N.

Definition digit_value (c : ascii) : Z := Z.of_N (N_of_ascii c) - 48.

(** The digits at the start of [s], most significant first. *)
Fixpoint leading_digits (s : string) : list ascii :=
  match s with
  | EmptyString => []
  | String c s' => if is_digit c then c :: leading_digits s' else []
  end.

Definition digits_value (digits : list ascii) : Z :=
  foldl (λ acc c, 10 * acc + digit_value c)%Z 0%Z digits.

(** The sign that may precede the digits. *)
Definition split_sign (s : string) : bool * string :=
  match s with
  | String "-" s' => (true, s')
  | String "+" s' => (false, s')
  | _ => (false, s)
  end.

Definition INT_MIN : Z := -2147483648.
Definition INT_MAX : Z := 2147483647.

(** [std::stoi(s)]: white space, an optional sign and decimal digits are
    read, what follows them is ignored.  Without a digit the call throws
    [std::invalid_argument], with a value that does not fit [int] it
    throws [std::out_of_range]; neither is a [std::runtime_error], and
    [what()] is the name of the function. *)
Definition stoi (s : string) : exn + Z :=
  let '(negative, rest) := split_sign (skip_space s) in
  match leading_digits rest with
  | [] => inl (other_exception "stoi")
  | digits =>
      let magnitude := digits_value digits in
      let value := if negative : bool then (- magnitude)%Z else magnitude in
      if bool_decide (INT_MIN ≤ value ≤ INT_MAX)%Z then inr value
      else inl (other_exception "stoi")
  end.

(** ** The system *)

(** [ifstream_open path] is the construction of a [std::ifstream]: the
    content of the file when [is_open()].  [swm_connect] and [cwc_connect]
    are the constructions of the two connections followed by
    [connected()].  [aggregator_start] is the construction of the
    [SolverAggregator], which starts the threads that run the callback. *)
Class System (W : Type) := {
  ifstream_open : string → W → W * option string;
  swm_connect : string → Z → list (u16string * bool) → u16string → W → W * bool;
  aggregator_start : list (string * Z) → W → W * ();
  cwc_connect : string → Z → W → W * bool;
}.

(** A configuration error: the file does not open, or what is read from
    it holds no class. *)
Definition config_fails `{Platform} `{System W} (path : string) (w : W) : Prop :=
  match (ifstream_open path w).2 with
  | None => True
  | Some content =>
      omap_is_empty (object_to_solution (read_config content)) = true
  end.

(** ** [main] *)

Definition usage_message : string :=
  "This program needs two arguments: the ip address and client port of a world model"
  +:+ LF.

Definition no_file_message (path : string) : string :=
  "Error opening configuration file " +:+ DQUOTE +:+ path +:+ DQUOTE +:+ LF.

Definition no_types_message : string :=
  "There are no types in the config file - aborting." +:+ LF.

Definition solver_message : string :=
  "Trying to connect to world model as a solver." +:+ LF.

Definition no_solver_message : string :=
  "Could not connect to the world model as a solver - aborting." +:+ LF.

Definition client_message : string :=
  "Trying to connect to world model as a client." +:+ LF.

Definition no_client_message : string :=
  "Problem connecting to world model. Exiting" +:+ LF.

(** Line 122: the rules the solver has asked the aggregator for, by
    physical layer.  The program declares the map and never writes it. *)
Definition phy_to_rule : gmap byte Rule := ∅.

Section main.
Context `{Platform} {W : Type} `{System W} `{ClientEnv W}.
Context (solver_port : Z) (servers : list (string * Z)).

(** Lines 203-265: the client connection and the two requests.  Falling
    off the end of [main] returns [0]. *)
Definition run_client (fuel : nat) (wm_ip : string) (client_port : Z) :
    prog (Process W) Z :=
  print_err client_message ;;
  connected ← call_total (cwc_connect wm_ip client_port);
  if connected : bool then
    client fuel ;;
    mret 0%Z
  else
    print_err no_client_message ;;
    mret 0%Z.

(** Lines 111-265: the solver connection, the aggregator, the pattern and
    the client. *)
Definition run_solver (fuel : nat) (wm_ip : string) (client_port : Z)
    (cfg : Config) : prog (Process W) Z :=
  let origin := "binary_state_solver" in
  print_err solver_message ;;
  connected ← call_total
    (swm_connect wm_ip solver_port (type_pairs cfg) (toU16 origin));
  if connected : bool then
    let phy_to_rule := phy_to_rule in
    call_total (aggregator_start servers) ;;
    let desired_ids := desired_ids (object_to_solution cfg) in
    let attributes := attributes in
    let interval := interval in
    run_client fuel wm_ip client_port
  else
    print_err no_solver_message ;;
    mret 0%Z.

(** Lines 79-109: the configuration file, and then the rest. *)
Definition run_config (fuel : nat) (wm_ip : string) (client_port : Z)
    (path : string) : prog (Process W) Z :=
  config ← call_total (ifstream_open path);
  match config with
  | None =>
      print_err (no_file_message path) ;;
      mret 1%Z
  | Some content =>
      let cfg := read_config content in
      for_each (config_log cfg) print_err ;;
      if omap_is_empty (object_to_solution cfg) then
        print_err no_types_message ;;
        mret 1%Z
      else run_solver fuel wm_ip client_port cfg
  end.

(** Lines 55-265.  [arg_vector] holds the [arg_count] arguments, the name
    of the program first. *)
Definition main (fuel : nat) (arg_vector : list string) : prog (Process W) Z :=
  let arg_count := length arg_vector in
  if negb (arg_count =? 3)%nat then
    print_err usage_message ;;
    mret 0%Z
  else
    let wm_ip := arg_vector !!! 1%nat in
    match stoi (arg_vector !!! 2%nat) with
    | inl e => throw e
    | inr client_port =>
        run_config fuel wm_ip client_port (arg_vector !!! (arg_count - 1)%nat)
    end.

End main.

(** ** A machine for the concrete runs *)

(** The files of the machine, whether the world model accepts solvers and
    clients, the connections made so far and the world model as the client
    sees it. *)
Inductive Connection : Type :=
  | SolverConnection (ip : string) (port : Z) (types : list (u16string * bool))
      (origin : u16string)
  | AggregatorConnection (servers : list (string * Z))
  | ClientConnection (ip : string) (port : Z).

Record Machine : Type := mkMachine {
  files : list (string * string);
  accepts_solvers : bool;
  accepts_clients : bool;
  connections : list Connection;
  store : Store;
}.

Definition connect (c : Connection) (m : Machine) : Machine :=
  mkMachine (files m) (accepts_solvers m) (accepts_clients m)
    (connections m ++ [c]) (store m).

Definition in_store {A} (op : Store → Store * A) (m : Machine) : Machine * A :=
  let '(s', a) := op (store m) in
  (mkMachine (files m) (accepts_solvers m) (accepts_clients m)
     (connections m) s', a).

Definition file_content (path : string) (m : Machine) : option string :=
  match list_find (λ entry, entry.1 = path) (files m) with
  | Some (_, entry) => Some entry.2
  | None => None
  end.

#[export] Instance machine_system : System Machine := {|
  ifstream_open path m := (m, file_content path m);
  swm_connect ip port types origin m :=
    if accepts_solvers m
    then (connect (SolverConnection ip port types origin) m, true)
    else (m, false);
  aggregator_start servers m := (connect (AggregatorConnection servers) m, ());
  cwc_connect ip port m :=
    if accepts_clients m
    then (connect (ClientConnection ip port) m, true)
    else (m, false);
|}.

#[export] Instance machine_client : ClientEnv Machine := {|
  currentSnapshotRequest uri attrs := in_store (currentSnapshotRequest uri attrs);
  get r := in_store (get r);
  streamRequest uri attrs interval := in_store (streamRequest uri attrs interval);
  hasNext sr := in_store (hasNext sr);
  next sr := in_store (next sr);
|}.

(** ** The start-up sequence *)

Section main_lemmas.
Context `{Platform} {W : Type} `{System W} `{ClientEnv W}.
Context (solver_port : Z) (servers : list (string * Z)).
Implicit Types (p : Process W) (w : W) (cfg : Config).

Lemma print_errs lines p :
  for_each lines print_err p =
    (mkProcess (world p) (cout p) (cerr p ++ lines), Ok ()).
Proof.
  rewrite (prints_for_each lines (λ _, []) (λ line, [line]));
    [|intros; apply prints_err].
  rewrite bind_const_nil, app_nil_r. do 3 f_equal.
  induction lines as [|line lines IH]; [done|]. cbn. by rewrite IH.
Qed.

Lemma run_client_refused fuel ip port p w' :
  cwc_connect ip port (world p) = (w', false) →
  run_client fuel ip port p =
    (mkProcess w' (cout p) (cerr p ++ [client_message; no_client_message]),
     Ok 0%Z).
Proof.
  destruct p as [w out err]. cbn [world cout cerr]. intros Hc.
  unfold run_client. step_print. step_call Hc. step_print.
  by rewrite <- app_assoc.
Qed.

Lemma run_client_connected fuel ip port p w' :
  cwc_connect ip port (world p) = (w', true) →
  run_client fuel ip port p =
    (client fuel ;; mret 0%Z)
      (mkProcess w' (cout p) (cerr p ++ [client_message])).
Proof.
  destruct p as [w out err]. cbn [world cout cerr]. intros Hc.
  unfold run_client. step_print. by step_call Hc.
Qed.

Lemma run_solver_refused fuel ip port cfg p w' :
  swm_connect ip solver_port (type_pairs cfg) (toU16 "binary_state_solver")
    (world p) = (w', false) →
  run_solver solver_port servers fuel ip port cfg p =
    (mkProcess w' (cout p) (cerr p ++ [solver_message; no_solver_message]),
     Ok 0%Z).
Proof.
  destruct p as [w out err]. cbn [world cout cerr]. intros Hc.
  unfold run_solver. step_print. step_call Hc. step_print.
  by rewrite <- app_assoc.
Qed.

Lemma run_solver_connected fuel ip port cfg p w1 w2 :
  swm_connect ip solver_port (type_pairs cfg) (toU16 "binary_state_solver")
    (world p) = (w1, true) →
  aggregator_start servers w1 = (w2, ()) →
  run_solver solver_port servers fuel ip port cfg p =
    run_client fuel ip port
      (mkProcess w2 (cout p) (cerr p ++ [solver_message])).
Proof.
  destruct p as [w out err]. cbn [world cout cerr]. intros Hc Ha.
  unfold run_solver. step_print. step_call Hc. by step_call Ha.
Qed.

Lemma run_config_no_file fuel ip port path p w' :
  ifstream_open path (world p) = (w', None) →
  run_config solver_port servers fuel ip port path p =
    (mkProcess w' (cout p) (cerr p ++ [no_file_message path]), Ok 1%Z).
Proof.
  destruct p as [w out err]. cbn [world cout cerr]. intros Ho.
  unfold run_config. step_call Ho. by step_print.
Qed.

Lemma run_config_read fuel ip port path p w' content :
  ifstream_open path (world p) = (w', Some content) →
  run_config solver_port servers fuel ip port path p =
    let cfg := read_config content in
    if omap_is_empty (object_to_solution cfg)
    then (mkProcess w' (cout p) (cerr p ++ config_log cfg ++ [no_types_message]),
          Ok 1%Z)
    else run_solver solver_port servers fuel ip port cfg
           (mkProcess w' (cout p) (cerr p ++ config_log cfg)).
Proof.
  destruct p as [w out err]. cbn [world cout cerr]. intros Ho.
  unfold run_config. step_call Ho.
  rewrite (bind_ok _ _ _ _ _ (print_errs _ _)). cbn [world cout cerr].
  cbv zeta. destruct (omap_is_empty _); [|done].
  step_print. by rewrite <- app_assoc.
Qed.

(** [main] on three arguments. *)
Lemma main_three_arguments fuel program ip path p :
  main solver_port servers fuel [program; ip; path] p =
  match stoi path with
  | inl e => (p, Throw e)
  | inr client_port => run_config solver_port servers fuel ip client_port path p
  end.
Proof. unfold main. cbn. by destruct (stoi path). Qed.

(** *** Exit codes *)

Lemma run_client_code fuel ip port p code :
  (run_client fuel ip port p).2 = Ok code → code = 0%Z.
Proof.
  destruct (cwc_connect ip port (world p)) as [w' [|]] eqn:Hc.
  - rewrite (run_client_connected _ _ _ _ _ Hc), bind_unfold.
    destruct (client fuel _) as [p' [[]|e|]]; cbn; congruence.
  - rewrite (run_client_refused _ _ _ _ _ Hc). cbn. congruence.
Qed.

Lemma run_solver_code fuel ip port cfg p code :
  (run_solver solver_port servers fuel ip port cfg p).2 = Ok code → code = 0%Z.
Proof.
  destruct (swm_connect ip solver_port (type_pairs cfg)
              (toU16 "binary_state_solver") (world p)) as [w1 [|]] eqn:Hc.
  - destruct (aggregator_start servers w1) as [w2 []] eqn:Ha.
    rewrite (run_solver_connected _ _ _ _ _ _ _ Hc Ha). apply run_client_code.
  - rewrite (run_solver_refused _ _ _ _ _ _ Hc). cbn. congruence.
Qed.

Lemma run_config_code fuel ip port path p code :
  (run_config solver_port servers fuel ip port path p).2 = Ok code →
  code = 0%Z ∨ (code = 1%Z ∧ config_fails path (world p)).
Proof.
  unfold config_fails.
  destruct (ifstream_open path (world p)) as [w' [content|]] eqn:Ho.
  - rewrite (run_config_read _ _ _ _ _ _ _ Ho). cbv zeta. cbn [snd].
    destruct (omap_is_empty _) eqn:He.
    + intros [= <-]. by right.
    + intros Hcode%run_solver_code. by left.
  - rewrite (run_config_no_file _ _ _ _ _ _ Ho). intros [= <-]. by right.
Qed.

(** Without exactly two arguments after the name of the program,
    [main] writes the usage message and returns [0]; it touches nothing
    else. *)
Theorem main_usage fuel arg_vector p :
  length arg_vector ≠ 3%nat →
  main solver_port servers fuel arg_vector p =
    (mkProcess (world p) (cout p) (cerr p ++ [usage_message]), Ok 0%Z).
Proof.
  intros Hlen%Nat.eqb_neq. unfold main. by rewrite Hlen.
Qed.

(** C34.  The last argument is read twice: as the client port, by
    [std::stoi], and as the path of the configuration file.  When it does
    not start, after white space and a sign, with a digit, [std::stoi]
    throws and the process ends before any file is opened. *)
Theorem main_needs_numeric_path fuel program ip path p :
  leading_digits (split_sign (skip_space path)).2 = [] →
  main solver_port servers fuel [program; ip; path] p =
    (p, Throw (other_exception "stoi")).
Proof.
  intros Hdigits. rewrite main_three_arguments. unfold stoi.
  destruct (split_sign _) as [negative rest]. cbn [snd] in Hdigits.
  by rewrite Hdigits.
Qed.

(** When the file named by the last argument cannot be opened,
    [main] says so and returns [1]. *)
Theorem main_no_file fuel program ip path port p w' :
  stoi path = inr port →
  ifstream_open path (world p) = (w', None) →
  main solver_port servers fuel [program; ip; path] p =
    (mkProcess w' (cout p) (cerr p ++ [no_file_message path]), Ok 1%Z).
Proof.
  intros Hport Ho. rewrite main_three_arguments, Hport.
  by apply run_config_no_file.
Qed.

(** When no line of the configuration file holds a class and a
    solution, [main] answers every line on [std::cerr], says that there
    are no types and returns [1] without connecting anywhere. *)
Theorem main_no_types fuel program ip path port p w' content :
  stoi path = inr port →
  ifstream_open path (world p) = (w', Some content) →
  omap_is_empty (object_to_solution (read_config content)) = true →
  main solver_port servers fuel [program; ip; path] p =
    (mkProcess w' (cout p)
       (cerr p ++ config_log (read_config content) ++ [no_types_message]),
     Ok 1%Z).
Proof.
  intros Hport Ho He. rewrite main_three_arguments, Hport.
  rewrite (run_config_read _ _ _ _ _ _ _ Ho). cbv zeta. by rewrite He.
Qed.

(** When the world model does not accept the solver connection,
    [main] returns [0] before the aggregator is started and before the
    client connects. *)
Theorem main_no_solver fuel program ip path port p w1 w2 content :
  stoi path = inr port →
  ifstream_open path (world p) = (w1, Some content) →
  omap_is_empty (object_to_solution (read_config content)) = false →
  swm_connect ip solver_port (type_pairs (read_config content))
    (toU16 "binary_state_solver") w1 = (w2, false) →
  main solver_port servers fuel [program; ip; path] p =
    (mkProcess w2 (cout p)
       (cerr p ++ config_log (read_config content) ++
        [solver_message; no_solver_message]),
     Ok 0%Z).
Proof.
  intros Hport Ho He Hc. rewrite main_three_arguments, Hport.
  rewrite (run_config_read _ _ _ _ _ _ _ Ho). cbv zeta. rewrite He.
  rewrite (run_solver_refused _ _ _ _ _ w2) by done. cbn [cout cerr].
  by rewrite <- app_assoc.
Qed.

(** When the world model does not accept the client connection,
    [main] returns [0] with the solver connected and the aggregator
    started; no request is made. *)
Theorem main_no_client fuel program ip path port p w1 w2 w3 w4 content :
  stoi path = inr port →
  ifstream_open path (world p) = (w1, Some content) →
  omap_is_empty (object_to_solution (read_config content)) = false →
  swm_connect ip solver_port (type_pairs (read_config content))
    (toU16 "binary_state_solver") w1 = (w2, true) →
  aggregator_start servers w2 = (w3, ()) →
  cwc_connect ip port w3 = (w4, false) →
  main solver_port servers fuel [program; ip; path] p =
    (mkProcess w4 (cout p)
       (cerr p ++ config_log (read_config content) ++
        [solver_message; client_message; no_client_message]),
     Ok 0%Z).
Proof.
  intros Hport Ho He Hs Ha Hc. rewrite main_three_arguments, Hport.
  rewrite (run_config_read _ _ _ _ _ _ _ Ho). cbv zeta. rewrite He.
  rewrite (run_solver_connected _ _ _ _ _ w2 w3) by done.
  rewrite (run_client_refused _ _ _ _ w4) by done. cbn [cout cerr].
  by rewrite <- !app_assoc.
Qed.

(** C35.  When the configuration holds a class and both connections are
    accepted, [main] runs the two requests of the client and returns [0]
    when they return.  The requests do not depend on the configuration:
    the pattern built from the classes is not used. *)
Theorem main_serves fuel program ip path port p w1 w2 w3 w4 content :
  stoi path = inr port →
  ifstream_open path (world p) = (w1, Some content) →
  omap_is_empty (object_to_solution (read_config content)) = false →
  swm_connect ip solver_port (type_pairs (read_config content))
    (toU16 "binary_state_solver") w1 = (w2, true) →
  aggregator_start servers w2 = (w3, ()) →
  cwc_connect ip port w3 = (w4, true) →
  main solver_port servers fuel [program; ip; path] p =
    (client fuel ;; mret 0%Z)
      (mkProcess w4 (cout p)
         (cerr p ++ config_log (read_config content) ++
          [solver_message; client_message])).
Proof.
  intros Hport Ho He Hs Ha Hc. rewrite main_three_arguments, Hport.
  rewrite (run_config_read _ _ _ _ _ _ _ Ho). cbv zeta. rewrite He.
  rewrite (run_solver_connected _ _ _ _ _ w2 w3) by done.
  rewrite (run_client_connected _ _ _ _ w4) by done. cbn [cout cerr].
  by rewrite <- !app_assoc.
Qed.

(** C33.  Whenever [main] returns, it returns [0] or [1], and [1] only
    after a configuration error: the file named by the last argument
    could not be opened, or no line of it held a class and a solution. *)
Theorem main_exit_code fuel arg_vector p code :
  (main solver_port servers fuel arg_vector p).2 = Ok code →
  code = 0%Z ∨
  (code = 1%Z ∧ length arg_vector = 3%nat ∧
   config_fails (arg_vector !!! 2%nat) (world p)).
Proof.
  unfold main. destruct (length arg_vector =? 3)%nat eqn:Hlen; cbn [negb].
  - apply Nat.eqb_eq in Hlen. rewrite Hlen. cbn [Nat.sub].
    destruct (stoi _) as [e|port]; [done|].
    intros [->|[-> Hfails]]%run_config_code; [by left | by right].
  - intros [= <-]. by left.
Qed.

End main_lemmas.

(** ** [std::stoi] *)

Lemma stoi_range s value : stoi s = inr value → (INT_MIN ≤ value ≤ INT_MAX)%Z.
Proof.
  unfold stoi. destruct (split_sign _) as [negative rest].
  destruct (leading_digits rest) as [|c digits]; [done|].
  case_bool_decide; [|done]. by intros [= <-].
Qed.

(** What [std::stoi] reads does not depend on what follows the digits. *)
Lemma leading_digits_app digits rest :
  Forall (λ c, is_digit c = true) digits →
  leading_digits rest = [] →
  leading_digits (string_of_list_ascii digits +:+ rest) = digits.
Proof.
  intros Hdigits Hrest. induction Hdigits as [|c digits Hc _ IH]; [done|].
  cbn [string_of_list_ascii]. rewrite string_app_cons. cbn [leading_digits].
  by rewrite Hc, IH.
Qed.

(** *** Reading back a number written in decimal *)

(** The string holds digits only. *)
Definition digits_only (s : string) : Prop :=
  Forall (λ c, is_digit c = true) (list_ascii_of_string s).

Lemma digit_char d :
  (d < 10)%N →
  is_digit (pretty_N_char d) = true ∧ digit_value (pretty_N_char d) = Z.of_N d.
Proof.
  intros Hd. destruct d as [|p]; [done|].
  do 4 (try destruct p as [p|p|]); try lia; done.
Qed.

Lemma digit_plain c :
  is_digit c = true →
  Ascii.is_space c = false ∧ c ≠ "-"%char ∧ c ≠ "+"%char.
Proof.
  destruct c as [[] [] [] [] [] [] [] []]; intros Hc; vm_compute in Hc;
    try discriminate Hc; by repeat split.
Qed.

Lemma foldl_digits acc digits :
  foldl (λ acc c, 10 * acc + digit_value c)%Z acc digits =
  (acc * 10 ^ Z.of_nat (length digits) + digits_value digits)%Z.
Proof.
  unfold digits_value. revert acc.
  induction digits as [|c digits IH]; intros acc; cbn [foldl length].
  - rewrite Z.pow_0_r. lia.
  - rewrite IH, (IH (10 * 0 + _)%Z), Nat2Z.inj_succ, Z.pow_succ_r by lia. ring.
Qed.

Lemma digits_value_cons c digits :
  digits_value (c :: digits) =
  (digit_value c * 10 ^ Z.of_nat (length digits) + digits_value digits)%Z.
Proof.
  unfold digits_value at 1. cbn [foldl]. rewrite foldl_digits. by f_equal.
Qed.

Lemma length_list_ascii_of_string s :
  length (list_ascii_of_string s) = String.length s.
Proof. induction s as [|c s IH]; [done|]. cbn. by rewrite IH. Qed.

(** The digits [pretty] writes in front of [s], and their value. *)
Lemma pretty_N_go_digits x s :
  digits_only s →
  digits_only (pretty_N_go x s) ∧
  digits_value (list_ascii_of_string (pretty_N_go x s)) =
    (Z.of_N x * 10 ^ Z.of_nat (String.length s) +
     digits_value (list_ascii_of_string s))%Z.
Proof.
  revert s. induction (N.lt_wf_0 x) as [x _ IH]; intros s Hs.
  assert (x = 0 ∨ 0 < x)%N as [->|Hx] by lia.
  - rewrite pretty_N_go_0. split; [done | lia].
  - rewrite pretty_N_go_step by done.
    destruct (digit_char (x `mod` 10)) as [Hd Hv]; [by apply N.mod_lt|].
    destruct (IH (x `div` 10)%N) with (s := String (pretty_N_char (x `mod` 10)) s)
      as [Hall Hval]; [by apply N.div_lt | by constructor |].
    split; [done|]. rewrite Hval. cbn [String.length list_ascii_of_string].
    rewrite digits_value_cons, Hv, length_list_ascii_of_string.
    rewrite Nat2Z.inj_succ, Z.pow_succ_r by lia.
    pose proof (N.div_mod x 10 ltac:(done)) as Hdm.
    assert (Z.of_N x = 10 * Z.of_N (x `div` 10) + Z.of_N (x `mod` 10))%Z
      as -> by lia.
    ring.
Qed.

Lemma leading_digits_all s :
  digits_only s → leading_digits s = list_ascii_of_string s.
Proof.
  unfold digits_only. induction s as [|c s IH]; [done|].
  cbn [list_ascii_of_string leading_digits]. intros [Hc Hs]%Forall_cons.
  by rewrite Hc, IH.
Qed.

(** A positive number written in decimal, after an optional minus sign. *)
Lemma stoi_positive (negative : bool) p :
  let value := if negative then Z.neg p else Z.pos p in
  (INT_MIN ≤ value ≤ INT_MAX)%Z →
  stoi ((if negative then "-" else "") +:+ pretty (N.pos p)) = inr value.
Proof.
  intros value Hrange. unfold pretty, pretty_N.
  rewrite decide_False by done.
  destruct (pretty_N_go_digits (N.pos p) "") as [Hall Hval]; [constructor|].
  cbn [String.length list_ascii_of_string] in Hval.
  change (digits_value []) with 0%Z in Hval.
  rewrite Z.pow_0_r, Z.mul_1_r, Z.add_0_r in Hval.
  pose proof (leading_digits_all _ Hall) as Hlead.
  destruct (pretty_N_go (N.pos p) "") as [|c s] eqn:Hs; [done|].
  apply Forall_cons in Hall as Hc. destruct Hc as [Hc _].
  apply digit_plain in Hc as (Hspace & Hminus & Hplus).
  unfold stoi.
  assert (split_sign (skip_space ((if negative then "-" else "") +:+ String c s))
          = (negative, String c s)) as ->.
  { destruct negative; [done|]. cbn [skip_space].
    change ("" +:+ String c s) with (String c s). cbn [skip_space].
    rewrite Hspace. unfold split_sign.
    destruct (ascii_dec c "-") as [->|_]; [done|].
    destruct (ascii_dec c "+") as [->|_]; [done|].
    by destruct c as [[] [] [] [] [] [] [] []]. }
  rewrite Hlead. cbn [list_ascii_of_string] in *. rewrite Hval.
  replace (if negative then (- Z.of_N (N.pos p))%Z else Z.of_N (N.pos p))
    with value by by destruct negative.
  by rewrite bool_decide_eq_true_2.
Qed.

(** Every number that fits [int], written in decimal, is read back
    by [std::stoi]: a port given as its decimal text is the port that
    [main] uses. *)
Theorem stoi_pretty (z : Z) :
  (INT_MIN ≤ z ≤ INT_MAX)%Z → stoi (pretty z) = inr z.
Proof.
  intros Hz. destruct z as [|p|p].
  - done.
  - by apply (stoi_positive false p).
  - by apply (stoi_positive true p).
Qed.

(** ** Concrete runs *)

(** A machine on which [char] is signed, with one file, named as a port
    number has to be, that configures the class [mug]. *)
Definition signed_char : Platform := {| char_signed := true |}.

Definition mug_files : list (string * string) :=
  [("7012", "mug switch_state" +:+ LF +:+ "malformed" +:+ LF)].

Definition mug_machine (solvers clients : bool) : Process Machine :=
  mkProcess (mkMachine mug_files solvers clients [] mug_stream) [] [].

Definition mug_arguments : list string := ["query_world"; "localhost"; "7012"].

Section runs.
#[local] Existing Instance signed_char.

Lemma main_usage_witness :
  main 7009 [] 3 ["query_world"; "localhost"] (mug_machine true true) =
  (mkProcess (mkMachine mug_files true true [] mug_stream) [] [usage_message],
   Ok 0%Z).
Proof.
  apply (main_usage 7009 [] 3 ["query_world"; "localhost"]
           (mug_machine true true)).
  cbn. lia.
Defined.

(** A configuration file with an ordinary name is never opened. *)
Lemma main_needs_numeric_path_witness :
  main 7009 [] 3 ["query_world"; "localhost"; "solver.conf"]
    (mug_machine true true) =
  (mug_machine true true, Throw (other_exception "stoi")).
Proof.
  apply (main_needs_numeric_path 7009 [] 3 "query_world" "localhost"
           "solver.conf" (mug_machine true true)).
  reflexivity.
Defined.

Lemma main_no_file_witness :
  main 7009 [] 3 ["query_world"; "localhost"; "7013"] (mug_machine true true) =
  (mkProcess (mkMachine mug_files true true [] mug_stream) []
     [no_file_message "7013"], Ok 1%Z).
Proof.
  apply (main_no_file 7009 [] 3 "query_world" "localhost" "7013" 7013
           (mug_machine true true)); reflexivity.
Defined.

Lemma main_no_types_witness :
  ∃ p', main 7009 [] 3 ["query_world"; "localhost"; "80"]
          (mkProcess (mkMachine [("80", "mug" +:+ LF)] true true [] mug_stream)
             [] []) = (p', Ok 1%Z) ∧
        length (cerr p') = 2%nat ∧ connections (world p') = [].
Proof.
  eexists. split.
  - eapply (main_no_types 7009 [] 3 "query_world" "localhost" "80" 80
              (mkProcess (mkMachine [("80", "mug" +:+ LF)] true true []
                            mug_stream) [] []));
      reflexivity.
  - vm_compute. done.
Defined.

Lemma main_no_solver_witness :
  ∃ p', main 7009 [] 3 mug_arguments (mug_machine false true) = (p', Ok 0%Z) ∧
        connections (world p') = [].
Proof.
  eexists. split.
  - eapply (main_no_solver 7009 [] 3 "query_world" "localhost" "7012" 7012
              (mug_machine false true)); reflexivity.
  - reflexivity.
Defined.

Lemma main_no_client_witness :
  ∃ p', main 7009 [] 3 mug_arguments (mug_machine true false) = (p', Ok 0%Z) ∧
        connections (world p') =
          [SolverConnection "localhost" 7009
             [(u16_literal "switch_state", false)]
             (u16_literal "binary_state_solver");
           AggregatorConnection []] ∧
        requests (store (world p')) = [].
Proof.
  eexists. split.
  - eapply (main_no_client 7009 [] 3 "query_world" "localhost" "7012" 7012
              (mug_machine true false)); reflexivity.
  - vm_compute. done.
Defined.

(** The whole program on a machine that accepts both connections: the
    two requests are those of the source text, whatever the classes. *)
Lemma main_serves_witness :
  ∃ p', main 7009 [] 3 mug_arguments (mug_machine true true) = (p', Ok 0%Z) ∧
        requests (store (world p')) =
          [SnapshotRequest (u16_literal ".*") [u16_literal ".*"];
           StreamRequest (u16_literal ".*mug.*")
             [u16_literal "location\..offset"] 1000] ∧
        length (cout p') = 4%nat.
Proof.
  eexists. split.
  - etrans.
    + eapply (main_serves 7009 [] 3 "query_world" "localhost" "7012" 7012
                (mug_machine true true)); reflexivity.
    + vm_compute. reflexivity.
  - vm_compute. done.
Defined.

Lemma main_exit_code_witness :
  1%Z = 0%Z ∨
  (1%Z = 1%Z ∧ length ["query_world"; "localhost"; "7013"] = 3%nat ∧
   config_fails "7013" (world (mug_machine true true))).
Proof.
  apply (main_exit_code 7009 [] 3 ["query_world"; "localhost"; "7013"]
           (mug_machine true true) 1%Z).
  reflexivity.
Defined.

End runs.

(** The port [7012] and the smallest [int]. *)
Lemma stoi_pretty_witness :
  stoi "7012" = inr 7012%Z ∧ stoi "-2147483648" = inr (-2147483648)%Z.
Proof.
  split.
  - apply (stoi_pretty 7012). unfold INT_MIN, INT_MAX. lia.
  - apply (stoi_pretty (-2147483648)). unfold INT_MIN, INT_MAX. lia.
Defined.
