(* ===== verification/Interaction.v ===== *)
(** * The main thread and its loops as interaction trees

    [query_world.cpp] has two loops without a bound: the retry loop around
    [sendData] (lines 146-163) and the loop over the deliveries of the
    stream (lines 246-263).  [Dispatcher], [Client] and [Main] model them,
    and [main] around them, with fuel.  This file models them without:
    the retry loop, the stream loop, the client (lines 221-263) and [main]
    (lines 55-265) are interaction trees, the loops built with the
    library's [ITree.iter], whose nodes are the calls the code makes to
    the outside ([callE]) and the exceptions it throws.  A loop that does
    not end is an infinite tree.

    [handle] answers the calls from the interfaces [Env], [ClientEnv] and
    [System], on the world of the process.  The semantics of the trees is
    that of [Trees]: [runs handle t p p' res] says that the tree [t],
    started in [p], ends in [p'] with the value or the exception [res].

    The theorems say that the trees and the definitions with fuel have
    the same runs ([refines], [refines_fuel]), each proved by the rules of
    [Trees] along the structure of the code: what is proved of
    [send_with_retry], [stream_loop] and [main] for enough fuel is proved
    of the program itself, and no behaviour of theirs is an artefact of
    the fuel.  [never_send_main] shows that the main thread never calls
    [sendData]. *)

From Stdlib Require Import Morphisms.
From Paco Require Import paco.
From ITree Require Import ITree ITreeFacts Events.Exception Events.ExceptionFacts.
From S2P Require Import Prelude Monad OrderedMap U16String Env Trees.
From S2P Require Import Dispatcher Config Pattern Client Main.

(** ** Events *)

(** The calls to the outside that the main thread and the retry loop make,
    each with the type of its answer.  A call that can throw answers with
    the exception it threw, if any.  [AggregatorStart] carries what the
    callback it registers has captured and only reads. *)
Variant callE : Type → Type :=
  | SendData (solns : list AttrUpdate) (synchronous : bool) : callE (option exn)
  | PrintOut (text : string) : callE ()
  | PrintErr (text : string) : callE ()
  | IfstreamOpen (path : string) : callE (option string)
  | SwmConnect (ip : string) (port : Z) (types : list (u16string * bool))
      (origin : u16string) : callE bool
  | AggregatorStart (servers : list (string * Z))
      (object_to_solution : omap u16string u16string) : callE ()
  | CwcConnect (ip : string) (port : Z) : callE bool
  | CurrentSnapshotRequest (uri : u16string) (attrs : list u16string) :
      callE Response
  | Get (r : Response) : callE (exn + WorldState)
  | StreamRequest (uri : u16string) (attrs : list u16string) (interval : Z) :
      callE StepResponse
  | HasNext (sr : StepResponse) : callE bool
  | Next (sr : StepResponse) : callE (exn + WorldState).

(** The events of a tree of the program: exceptions and calls. *)
#[warning="-notation-for-abbreviation"]
Notation progE := (treeE callE).

(** ** The retry loop, lines 146-163 *)

(** [swm.sendData(solns, synchronous)], the exception propagating. *)
Definition call_sendData_tree (solns : list AttrUpdate) (synchronous : bool) :
    itree progE () :=
  r ← call (SendData solns synchronous);
  match r with
  | Some e => raise e
  | None => Ret ()
  end.

(** Lines 153-161, the [catch] block: [true] asks for another iteration. *)
Definition on_runtime_error_tree (what : string) : itree progE bool :=
  if String.eqb what transient_what
  then call (PrintErr retry_message) ;; Ret true
  else raise (runtime_error what).

(** Lines 148-162, one iteration: the value of [retry] at its end.  Only a
    [std::runtime_error] is caught. *)
Definition attempt_tree (solns : list AttrUpdate) : itree progE bool :=
  Exception.try_catch (call_sendData_tree solns false ;; Ret false)
    (λ e, match e with
          | runtime_error what => on_runtime_error_tree what
          | other_exception _ => raise e
          end).

(** Lines 146-163: [while (retry) { ... }]. *)
Definition retry_tree (solns : list AttrUpdate) : itree progE () :=
  ITree.iter (while_body (attempt_tree solns)) ().

(** ** The stream loop, lines 246-263 *)


(** Lines 257-260. *)
Definition print_attribute_tree (attr : Attribute) : itree progE () :=
  call (PrintOut (size_line attr)) ;;
  call (PrintOut (created_line attr)).

(** Lines 251-262: the body of the loop over one delivery. *)
Definition print_update_tree (I : u16string * list Attribute) :
    itree progE () :=
  match I.2 with
  | [] => call (PrintErr (empty_line I.1))
  | _ :: _ =>
      call (PrintOut (found_line I.1)) ;;
      for_each_tree I.2 print_attribute_tree
  end.

(** A call that returns or throws, outside any [try]: the exception
    propagates. *)
Definition call_throwing_tree {A} (c : callE (exn + A)) : itree progE A :=
  r ← call c;
  match r with
  | inl e => raise e
  | inr a => Ret a
  end.

(** Lines 246-262, one evaluation of the condition and the iteration it
    allows: the value of [sr.hasNext()]. *)
Definition stream_step_tree (sr : StepResponse) : itree progE bool :=
  more ← call (HasNext sr);
  if more : bool then
    ws ← call_throwing_tree (Next sr);
    for_each_tree ws print_update_tree ;;
    Ret true
  else Ret false.

(** Lines 246-263: [while (sr.hasNext()) { ... }]. *)
Definition stream_tree (sr : StepResponse) : itree progE () :=
  ITree.iter (while_body (stream_step_tree sr)) ().

(** ** The client, lines 221-263 *)

(** Lines 230-236: the body of the loop over the snapshot. *)
Definition print_object_tree (obj : u16string * list Attribute) :
    itree progE () :=
  call (PrintOut (found_line obj.1)) ;;
  for_each_tree obj.2 print_attribute_tree.

(** Lines 221-236. *)
Definition snapshot_request_tree : itree progE () :=
  call (PrintOut ("Searching for all URIs and attributes" +:+ LF)) ;;
  r ← call (CurrentSnapshotRequest (u16_literal ".*") [u16_literal ".*"]);
  state ← call_throwing_tree (Get r);
  for_each_tree state print_object_tree.

(** Lines 243-263. *)
Definition stream_request_tree : itree progE () :=
  let interval := 1000%Z in
  sr ← call (StreamRequest (u16_literal ".*mug.*")
               [u16_literal "location\..offset"] interval);
  stream_tree sr.

(** Lines 221-263. *)
Definition client_tree : itree progE () :=
  snapshot_request_tree ;;
  stream_request_tree.

(** ** [main], lines 55-265 *)

Section main_tree.
Context `{Platform} (solver_port : Z) (servers : list (string * Z)).

(** Lines 203-265. *)
Definition run_client_tree (wm_ip : string) (client_port : Z) :
    itree progE Z :=
  call (PrintErr client_message) ;;
  connected ← call (CwcConnect wm_ip client_port);
  if connected : bool then
    client_tree ;;
    Ret 0%Z
  else
    call (PrintErr no_client_message) ;;
    Ret 0%Z.

(** Lines 111-265.  The aggregator is given the callback, which has
    captured [object_to_solution]. *)
Definition run_solver_tree (wm_ip : string) (client_port : Z) (cfg : Config) :
    itree progE Z :=
  let origin := "binary_state_solver" in
  call (PrintErr solver_message) ;;
  connected ← call (SwmConnect wm_ip solver_port (type_pairs cfg) (toU16 origin));
  if connected : bool then
    let phy_to_rule := phy_to_rule in
    call (AggregatorStart servers (object_to_solution cfg)) ;;
    let desired_ids := desired_ids (object_to_solution cfg) in
    let attributes := attributes in
    let interval := interval in
    run_client_tree wm_ip client_port
  else
    call (PrintErr no_solver_message) ;;
    Ret 0%Z.

(** Lines 79-109, and then the rest. *)
Definition run_config_tree (wm_ip : string) (client_port : Z) (path : string) :
    itree progE Z :=
  config ← call (IfstreamOpen path);
  match config with
  | None =>
      call (PrintErr (no_file_message path)) ;;
      Ret 1%Z
  | Some content =>
      let cfg := read_config content in
      for_each_tree (config_log cfg) (λ line, call (PrintErr line)) ;;
      if omap_is_empty (object_to_solution cfg) then
        call (PrintErr no_types_message) ;;
        Ret 1%Z
      else run_solver_tree wm_ip client_port cfg
  end.

(** Lines 55-265. *)
Definition main_tree (arg_vector : list string) : itree progE Z :=
  let arg_count := length arg_vector in
  if negb (arg_count =? 3)%nat then
    call (PrintErr usage_message) ;;
    Ret 0%Z
  else
    let wm_ip := arg_vector !!! 1%nat in
    match stoi (arg_vector !!! 2%nat) with
    | inl e => raise e
    | inr client_port =>
        run_config_tree wm_ip client_port
          (arg_vector !!! (arg_count - 1)%nat)
    end.

End main_tree.

(** The trees of the main thread, for the tactics that take them apart. *)
Create HintDb trees.
#[export] Hint Unfold print_attribute_tree print_update_tree
  call_throwing_tree stream_step_tree stream_tree print_object_tree
  snapshot_request_tree stream_request_tree client_tree run_client_tree
  run_solver_tree run_config_tree main_tree : trees.

(** The calls that push data to the world model. *)
Definition is_send (X : Type) (c : callE X) : Prop :=
  match c with
  | SendData _ _ => True
  | _ => False
  end.

(** ** Running a tree *)

(** A call of the library on the world of the process. *)
Definition on_world {W A} (op : W → W * A) (p : Process W) : Process W * A :=
  let '(w', a) := op (world p) in (set_world w' p, a).

(** The answers of the outside: the calls of [Env], [ClientEnv] and
    [System] on the world of the process, and the two streams. *)
Definition handle {W} `{Env W} `{ClientEnv W} `{System W} (X : Type)
    (c : callE X) (p : Process W) : Process W * X :=
  match c in callE X return Process W * X with
  | SendData solns synchronous => on_world (sendData solns synchronous) p
  | PrintOut text => (mkProcess (world p) (cout p ++ [text]) (cerr p), ())
  | PrintErr text => (mkProcess (world p) (cout p) (cerr p ++ [text]), ())
  | IfstreamOpen path => on_world (ifstream_open path) p
  | SwmConnect ip port types origin =>
      on_world (swm_connect ip port types origin) p
  | AggregatorStart servers _ => on_world (aggregator_start servers) p
  | CwcConnect ip port => on_world (cwc_connect ip port) p
  | CurrentSnapshotRequest uri attrs =>
      on_world (currentSnapshotRequest uri attrs) p
  | Get r => on_world (get r) p
  | StreamRequest uri attrs interval =>
      on_world (streamRequest uri attrs interval) p
  | HasNext sr => on_world (hasNext sr) p
  | Next sr => on_world (next sr) p
  end.

(** The world model of a machine seen from a process with another
    connection. *)
#[export] Instance pair_system {W1 W2} `{System W2} : System (W1 * W2) := {|
  ifstream_open path w :=
    let '(w2, content) := ifstream_open path w.2 in ((w.1, w2), content);
  swm_connect ip port types origin w :=
    let '(w2, ok) := swm_connect ip port types origin w.2 in ((w.1, w2), ok);
  aggregator_start servers w :=
    let '(w2, u) := aggregator_start servers w.2 in ((w.1, w2), u);
  cwc_connect ip port w :=
    let '(w2, ok) := cwc_connect ip port w.2 in ((w.1, w2), ok);
|}.

(** A process with its two connections: [swm], whose world is [W1], and
    [cwc], whose world is [W2]. *)
#[export] Instance pair_env {W1 W2} `{Env W1} : Env (W1 * W2) := {|
  sendData solns synchronous w :=
    let '(w1, r) := sendData solns synchronous w.1 in ((w1, w.2), r);
  getGRAILTime w := let '(w1, now) := getGRAILTime w.1 in ((w1, w.2), now);
|}.

#[export] Instance pair_client {W1 W2} `{ClientEnv W2} : ClientEnv (W1 * W2) := {|
  currentSnapshotRequest uri attrs w :=
    let '(w2, r) := currentSnapshotRequest uri attrs w.2 in ((w.1, w2), r);
  get r w := let '(w2, state) := get r w.2 in ((w.1, w2), state);
  streamRequest uri attrs interval w :=
    let '(w2, sr) := streamRequest uri attrs interval w.2 in ((w.1, w2), sr);
  hasNext sr w := let '(w2, more) := hasNext sr w.2 in ((w.1, w2), more);
  next sr w := let '(w2, ws) := next sr w.2 in ((w.1, w2), ws);
|}.

(** The process of the concrete runs: the machine of [Main], and a solver
    connection with the world [swm]. *)
Definition mug_process {W1} (swm : W1) : Process (W1 * Machine) :=
  mkProcess (swm, world (mug_machine true true)) [] [].

(** Lines 246-262 as a computation of [prog]: the condition of the loop of
    [stream_loop] and the iteration it allows. *)
Definition stream_step {W} `{ClientEnv W} (sr : StepResponse) :
    prog (Process W) bool :=
  more ← call_total (hasNext sr);
  if more : bool then
    ws ← call_throwing (next sr);
    print_world_state ws ;;
    mret true
  else mret false.

(** ** The calls of the program *)

Section calls.
Context {W : Type} `{Env W} `{ClientEnv W} `{System W}.
Implicit Types (p : Process W) (solns : list AttrUpdate) (sr : StepResponse).

Lemma refines_print_out text :
  refines handle (call (PrintOut text)) (print_out text).
Proof. eapply refines_ext; [|apply refines_call]. done. Qed.

Lemma refines_print_err text :
  refines handle (call (PrintErr text)) (print_err text).
Proof. eapply refines_ext; [|apply refines_call]. done. Qed.

(** A call of the library that returns. *)
Lemma refines_total {A} (c : callE A) (op : W → W * A) :
  (∀ p, handle A c p = on_world op p) →
  refines handle (call c) (call_total op).
Proof.
  intros Hc. eapply refines_ext; [|apply refines_call].
  intros p. unfold answer, call_total. rewrite Hc. unfold on_world.
  by destruct (op (world p)).
Qed.

(** A call of the library that returns or throws, outside any [try]. *)
Lemma refines_throwing {A} (c : callE (exn + A)) (op : W → W * (exn + A)) :
  (∀ p, handle _ c p = on_world op p) →
  refines handle (call_throwing_tree c) (call_throwing op).
Proof.
  intros Hc. apply (refines_ext _ _
    (r ← answer handle c; match r with inl e => throw e | inr a => mret a end)).
  - intros p. rewrite bind_unfold. unfold answer, call_throwing.
    rewrite Hc. unfold on_world.
    by destruct (op (world p)) as [w' [e|a]].
  - apply refines_bind; [apply refines_call|].
    intros [e|a]; [apply refines_raise | apply refines_ret].
Qed.

Lemma refines_sendData solns synchronous :
  refines handle (call_sendData_tree solns synchronous)
    (call_sendData solns synchronous).
Proof.
  apply (refines_ext _ _
    (r ← answer handle (SendData solns synchronous);
     match r with Some e => throw e | None => mret () end)).
  - intros p. rewrite bind_unfold. unfold answer, call_sendData. cbn.
    unfold on_world.
    destruct (sendData solns synchronous (world p)) as [w' [e|]]; reflexivity.
  - apply refines_bind; [apply refines_call|].
    intros [e|]; [apply refines_raise | apply refines_ret].
Qed.

(** ** The retry loop *)

Lemma refines_on_runtime_error what :
  refines handle (on_runtime_error_tree what) (on_runtime_error what).
Proof.
  unfold on_runtime_error_tree, on_runtime_error.
  destruct (String.eqb what transient_what); [|apply refines_raise].
  apply refines_bind; [apply refines_print_err|]. intros _. apply refines_ret.
Qed.

(** The [try] block with its [catch], as one call and a case analysis of
    what it threw. *)
Lemma attempt_tree_eq solns :
  attempt_tree solns ≈
  (r ← call (SendData solns false);
   match r with
   | None => Ret false
   | Some (runtime_error what) => on_runtime_error_tree what
   | Some (other_exception what) => raise (other_exception what)
   end)%tree.
Proof.
  unfold attempt_tree, call_sendData_tree, call.
  rewrite bind_bind, !bind_trigger, try_catch_ev.
  apply eqit_Vis. intros [e|]; rewrite tau_eutt.
  - unfold raise at 1. rewrite bind_vis, try_catch_exc. by destruct e.
  - by rewrite bind_ret_l, try_catch_ret.
Qed.

Lemma send_attempt_eq solns p :
  (r ← answer handle (SendData solns false);
   match r with
   | None => mret false
   | Some (runtime_error what) => on_runtime_error what
   | Some (other_exception what) => throw (other_exception what)
   end) p = send_attempt solns p.
Proof.
  rewrite bind_unfold. unfold answer, send_attempt, try_catch. cbn.
  rewrite bind_unfold. unfold call_sendData, on_world.
  by destruct (sendData solns false (world p)) as [w' [[what|what]|]].
Qed.

Lemma refines_attempt solns :
  refines handle (attempt_tree solns) (send_attempt solns).
Proof.
  rewrite attempt_tree_eq.
  eapply refines_ext; [apply send_attempt_eq|].
  apply refines_bind; [apply refines_call|]. intros [[what|what]|].
  - apply refines_on_runtime_error.
  - apply refines_raise.
  - apply refines_ret.
Qed.

Lemma send_with_retry_runs solns p p' res :
  runs handle (retry_tree solns) p p' res ↔
  ∃ fuel, send_with_retry fuel solns p = (p', to_result res).
Proof.
  apply (refines_while handle (attempt_tree solns) (send_attempt solns)
           (λ fuel, send_with_retry fuel solns)); [apply refines_attempt|done..].
Qed.

(** ** The stream loop *)

Lemma refines_print_attribute attr :
  refines handle (print_attribute_tree attr) (print_attribute attr).
Proof.
  apply refines_bind; [apply refines_print_out|].
  intros _. apply refines_print_out.
Qed.

Lemma refines_print_update I :
  refines handle (print_update_tree I) (print_update I).
Proof.
  unfold print_update_tree, print_update.
  destruct I.2; [apply refines_print_err|].
  apply refines_bind; [apply refines_print_out|]. intros _.
  apply refines_for_each, refines_print_attribute.
Qed.

Lemma refines_stream_step sr :
  refines handle (stream_step_tree sr) (stream_step sr).
Proof.
  apply refines_bind; [by apply refines_total|]. intros [|]; [|apply refines_ret].
  apply refines_bind; [by apply refines_throwing|]. intros ws.
  apply refines_bind; [apply refines_for_each, refines_print_update|].
  intros _. apply refines_ret.
Qed.

(** [stream_loop] is the loop of [stream_step]. *)
Lemma stream_loop_step fuel sr p :
  stream_loop (S fuel) sr p =
  (b ← stream_step sr; if b : bool then stream_loop fuel sr else mret ()) p.
Proof.
  cbn [stream_loop]. unfold stream_step. rewrite bind_assoc, !bind_unfold.
  destruct (call_total (hasNext sr) p) as [p1 [[|]|e|]]; try done.
  rewrite bind_assoc, !bind_unfold.
  destruct (call_throwing (next sr) p1) as [p2 [ws|e|]]; try done.
  rewrite bind_assoc, !bind_unfold.
  by destruct (print_world_state ws p2) as [p3 [[]|e|]].
Qed.

Lemma stream_loop_runs sr p p' res :
  runs handle (stream_tree sr) p p' res ↔
  ∃ fuel, stream_loop fuel sr p = (p', to_result res).
Proof.
  apply (refines_while handle (stream_step_tree sr) (stream_step sr)
           (λ fuel, stream_loop fuel sr)); [apply refines_stream_step|done|].
  intros fuel p0. apply stream_loop_step.
Qed.

(** ** The client and [main] *)

Lemma refines_print_object obj :
  refines handle (print_object_tree obj) (print_object obj).
Proof.
  apply refines_bind; [apply refines_print_out|]. intros _.
  apply refines_for_each, refines_print_attribute.
Qed.

Lemma refines_snapshot_request :
  refines handle snapshot_request_tree snapshot_request.
Proof.
  apply refines_bind; [apply refines_print_out|]. intros _.
  apply refines_bind; [by apply refines_total|]. intros r.
  apply refines_bind; [by apply refines_throwing|]. intros state.
  apply refines_for_each, refines_print_object.
Qed.

Lemma refines_client : refines_fuel handle client_tree client.
Proof.
  apply refines_fuel_bind; [apply refines_snapshot_request|]. intros _.
  apply refines_fuel_bind; [by apply refines_total|]. intros sr.
  intros p p' res. apply stream_loop_runs.
Qed.

Section main_refines.
Context `{Platform} (solver_port : Z) (servers : list (string * Z)).

Lemma refines_print_errs (lines : list string) :
  refines handle (for_each_tree lines (λ line, call (PrintErr line)))
    (for_each lines print_err).
Proof. apply refines_for_each, refines_print_err. Qed.

Lemma refines_exit text (code : Z) :
  refines_fuel handle (call (PrintErr text) ;; Ret code)%tree
    (λ _, print_err text ;; mret code).
Proof.
  apply refines_fuel_const, refines_bind; [apply refines_print_err|].
  intros _. apply refines_ret.
Qed.

Lemma refines_run_client ip port :
  refines_fuel handle (run_client_tree ip port) (λ fuel, run_client fuel ip port).
Proof.
  apply refines_fuel_bind; [apply refines_print_err|]. intros _.
  apply refines_fuel_bind; [by apply refines_total|].
  intros [|]; [|apply refines_exit].
  apply refines_fuel_bind_l; [apply refines_client|]. intros _.
  apply refines_ret.
Qed.

Lemma refines_run_solver ip port cfg :
  refines_fuel handle (run_solver_tree solver_port servers ip port cfg)
    (λ fuel, run_solver solver_port servers fuel ip port cfg).
Proof.
  apply refines_fuel_bind; [apply refines_print_err|]. intros _.
  apply refines_fuel_bind; [by apply refines_total|].
  intros [|]; [|apply refines_exit].
  apply refines_fuel_bind; [by apply refines_total|]. intros _.
  apply refines_run_client.
Qed.

Lemma refines_run_config ip port path :
  refines_fuel handle (run_config_tree solver_port servers ip port path)
    (λ fuel, run_config solver_port servers fuel ip port path).
Proof.
  apply refines_fuel_bind; [by apply refines_total|].
  intros [content|]; [|apply refines_exit].
  apply refines_fuel_bind; [apply refines_print_errs|]. intros _.
  destruct (omap_is_empty _); [apply refines_exit|apply refines_run_solver].
Qed.

Lemma refines_main args :
  refines_fuel handle (main_tree solver_port servers args)
    (λ fuel, main solver_port servers fuel args).
Proof.
  unfold main_tree, main. destruct (negb _); [apply refines_exit|].
  destruct (stoi _) as [e|port]; [|apply refines_run_config].
  apply refines_fuel_const, refines_raise.
Qed.

End main_refines.

(** ** The main thread sends nothing *)

(** Takes a tree of the main thread apart down to its calls. *)
Ltac never_send :=
  autounfold with trees;
  repeat first
    [ apply never_Ret | apply never_raise | apply never_call; exact id
    | apply never_for_each; intros ? | apply never_while; intros ?
    | apply never_bind; [|intros ?]
    | match goal with
      | |- never _ _ (match ?x with _ => _ end) => destruct x
      end ].

Lemma never_send_stream n sr : never is_send n (stream_tree sr).
Proof. never_send. Qed.

Lemma never_send_client n : never is_send n client_tree.
Proof. never_send. Qed.

Lemma never_send_main `{Platform} solver_port servers n args :
  never is_send n (main_tree solver_port servers args).
Proof. never_send. Qed.

(** ** What the loops do, without fuel *)

Lemma retry_tree_runs solns p p' res :
  runs handle (retry_tree solns) p p' res ↔
  ∃ n w1 w2 answer,
    transient_run solns n (world p) w1 ∧
    sendData solns false w1 = (w2, answer) ∧ answer ≠ Some transient ∧
    p' = mkProcess w2 (cout p) (cerr p ++ replicate n retry_message) ∧
    to_result res = final_result answer.
Proof.
  rewrite send_with_retry_runs. split.
  - intros [fuel Hloop]. apply send_with_retry_inv in Hloop
      as (n & w1 & w2 & a & ? & ? & ? & _ & ? & ?); [|apply not_eq_sym, to_result_fuel].
    by exists n, w1, w2, a.
  - intros (n & w1 & w2 & a & Hrun & Hs & Ha & -> & ->). exists (S n).
    apply (send_with_retry_final n (S n) solns p w1 w2 a); [done..|lia].
Qed.

Lemma stream_tree_runs sr p p' res :
  runs handle (stream_tree sr) p p' res ↔
  ∃ deliveries outcome w',
    stream_run sr (world p) deliveries outcome w' ∧
    p' = mkProcess w' (cout p ++ deliveries_out deliveries)
           (cerr p ++ deliveries_err deliveries) ∧
    to_result res = stream_result outcome.
Proof.
  rewrite stream_loop_runs. split.
  - intros [fuel Hloop]. apply stream_loop_inv in Hloop
      as (ds & o & w' & ? & _ & ? & ?); [|apply not_eq_sym, to_result_fuel].
    by exists ds, o, w'.
  - intros (ds & o & w' & Hrun & -> & ->). exists (S (length ds)).
    destruct p as [w out err].
    apply (stream_loop_run_gen sr 0 ds o w w' Hrun).
Qed.

(** The retry loop of lines 146-163, as the tree that loops for as
    long as the code does, and [send_with_retry] have the same runs: the
    tree ends in a state, with a value or an exception, exactly when the
    loop with fuel does for some fuel.  No behaviour of the loop is an
    artefact of the fuel, and no fuel is enough where the tree does not
    end. *)
Theorem retry_tree_refines solns p p' res :
  runs handle (retry_tree solns) p p' res ↔
  ∃ fuel, send_with_retry fuel solns p = (p', to_result res).
Proof. apply send_with_retry_runs. Qed.

(** C11.  The retry loop ends exactly when the connection, after some
    number [n] of transient failures in a row, answers call [n + 1]
    otherwise.  The loop has then written the retry message [n] times and
    nothing else, and it returns if the batch was accepted and throws the
    exception of the call if not. *)
Theorem retry_tree_ends solns p p' res :
  runs handle (retry_tree solns) p p' res ↔
  ∃ n w1 w2 answer,
    transient_run solns n (world p) w1 ∧
    sendData solns false w1 = (w2, answer) ∧ answer ≠ Some transient ∧
    p' = mkProcess w2 (cout p) (cerr p ++ replicate n retry_message) ∧
    to_result res = final_result answer.
Proof. apply retry_tree_runs. Qed.

(** Against a connection that fails transiently for ever the retry loop
    has no run that ends: it neither returns nor throws. *)
Theorem retry_tree_diverges solns p :
  always_transient solns (world p) →
  ¬ ∃ p' res, runs handle (retry_tree solns) p p' res.
Proof.
  intros Hbusy (p' & res & Hrun). apply retry_tree_runs in Hrun
    as (n & w1 & w2 & a & Hrun & Hs & Ha & _).
  apply Ha. eapply always_transient_answer; [|done].
  by eapply always_transient_run.
Qed.

(** C28.  The stream loop of lines 246-263 as a tree and [stream_loop]
    have the same runs, and the tree ends exactly when the stream stops
    after finitely many deliveries: every delivery has then been printed,
    in order, and the loop returns if the stream ended and throws the
    exception of [next] if it failed. *)
Theorem stream_tree_refines sr p p' res :
  (runs handle (stream_tree sr) p p' res ↔
   ∃ fuel, stream_loop fuel sr p = (p', to_result res)) ∧
  (runs handle (stream_tree sr) p p' res ↔
   ∃ deliveries outcome w',
     stream_run sr (world p) deliveries outcome w' ∧
     p' = mkProcess w' (cout p ++ deliveries_out deliveries)
            (cerr p ++ deliveries_err deliveries) ∧
     to_result res = stream_result outcome).
Proof. split; [apply stream_loop_runs | apply stream_tree_runs]. Qed.

(** C22.  [main] as a tree, lines 55-265 with their two loops unbounded,
    and [main] of [Main] have the same runs: the tree ends in a state with
    an exit code or an exception exactly when [main] with fuel does for
    some fuel. *)
Theorem main_tree_refines `{Platform} solver_port servers args p p' res :
  runs handle (main_tree solver_port servers args) p p' res ↔
  ∃ fuel, main solver_port servers fuel args p = (p', to_result res).
Proof. apply refines_main. Qed.

End calls.

(** ** Concrete runs *)

(** The tree of the retry loop, run on a connection that fails transiently
    twice and then accepts the batch. *)
Example retry_tree_run :
  run_tree handle 20 (retry_tree [])
    (mug_process (scripted_init [Some transient; Some transient; None] 0)) =
  (mkProcess (mkScripted [] [[]] 3 0, world (mug_machine true true)) []
     [retry_message; retry_message], Ok ()).
Proof. vm_compute. reflexivity. Qed.

(** The tree of the stream loop, run on the stream of two deliveries. *)
Example stream_tree_run :
  run_tree handle 40 (stream_tree (step_response 0))
    (mug_process (scripted_init [] 0)) =
  (mkProcess (scripted_init [] 0,
              mkMachine mug_files true true [] (mkStore (inr []) [] []))
     ["Found uri 'room1.mug.mug42 with attributes:" +:+ LF;
      TAB +:+ "location.xoffset is 4 bytes long" +:+ LF;
      TAB +:+ "location.xoffset was created by localizer at time 1000" +:+ LF]
     ["room1.mug.mug42 is an empty object." +:+ LF],
   Ok ()).
Proof. vm_compute. reflexivity. Qed.

(** The tree of [main] and [main] with fuel, run on the same machine, end
    in the same state with the same exit code. *)
Example main_tree_run :
  run_tree handle 200 (main_tree (H:=signed_char) 7011 [] mug_arguments)
    (mug_process (scripted_init [] 0)) =
  main (H:=signed_char) 7011 [] 10 mug_arguments
    (mug_process (scripted_init [] 0)).
Proof. vm_compute. reflexivity. Qed.

(** Against the busy connection the retry loop has no run that ends. *)
Lemma retry_tree_diverges_witness :
  ¬ ∃ p' res, runs handle (retry_tree []) (mug_process (busy 0)) p' res.
Proof.
  apply (retry_tree_diverges [] (mug_process (busy 0))).
  exists (λ _, True). split; [done|]. intros [[k] machine] _.
  by exists (busy (S k), machine).
Defined.
