(* ===== verification/Program.v ===== *)
(** * The whole program: the main thread and the callbacks

    From line 175 of [query_world.cpp] on, the program has more than one
    thread: the main thread goes on with the client connection and the two
    requests (lines 178-265), and the aggregator connection runs
    [packet_callback] on the samples that arrive.  The threads share the
    variables that the callback captured by reference, [tx_to_uri] and
    [switch_state], and the process: the connections and the two streams.

    A [Program] is the state of all of it: the shared variables, the main
    thread as what is left of the tree of [main] ([Interaction]), and the
    callbacks in progress, each where [Concurrency] cuts it.  A step of the
    program is a step of the main thread (a call of the outside), the
    arrival of a sample, which starts a callback, or a step of a callback;
    the callbacks exist once the main thread has constructed the
    aggregator.  [program_next] makes a given step, [program_step] is the
    relation, and what the program can reach is its closure.

    The theorems are about the program as it is written.  [main] never
    writes [tx_to_uri], so every lookup of the callback inserts and returns
    the empty identifier, which holds no class: in every state that the
    program reaches, whatever the samples and the interleaving, the
    callbacks have changed nothing but the two tables, the main thread is
    where it would be had it run alone, nothing was sent to the world
    model, and the change tracker holds at most the empty identifier.  The
    exit of the program is therefore the one that [main] of [Main]
    computes.

    The model lets the callbacks go on after the main thread has returned;
    it has the behaviours of the program and some more, which the theorems
    cover as well. *)

From ITree Require Import ITree.
From S2P Require Import Prelude Monad Trees OrderedMap U16String Env.
From S2P Require Import Dispatcher Solver Concurrency Config Pattern Client.
From S2P Require Import Main Interaction.

(** ** State and steps *)

(** What the scheduler and the aggregator can do next. *)
Inductive action : Type :=
  | MainStep
  | SampleArrives (s : SampleData)
  | CallbackStep (i : nat).

(** The callback registered by the call at the root of the tree, if the
    call is the construction of the aggregator (line 175). *)
Definition starts {R} (t : itree progE R) :
    option (omap u16string u16string) :=
  match observe t with
  | VisF (inr1 (AggregatorStart _ object_to_solution)) _ =>
      Some object_to_solution
  | _ => None
  end.

(** The callback ran out of the fuel of its retry loop: not a state of
    the program. *)
Definition lost_fuel (p : pc) : bool :=
  match p with
  | Returned Fuel => true
  | _ => false
  end.

(** A callback whose identifier, once it has one, is the empty one, and
    which has not thrown. *)
Definition quiet_pc (p : pc) : Prop :=
  match p with
  | AtGuards _ | AtLookup _ _ => True
  | AtTest uri _ | AtRecord uri _ | AtReport uri _ => uri = []
  | Returned r => r = Ok ()
  end.

(** What the callbacks keep of the two tables: every transmitter resolves
    to the empty identifier, and the tracker knows no other. *)
Definition tables_inv {W} (st : SolverState W) : Prop :=
  unresolved st ∧ ∀ uri, is_Some (switch_state st !! uri) → uri = [].

Section program.
Context `{Platform} {W : Type} `{Env W} `{ClientEnv W} `{System W}.
Context (solver_port : Z) (servers : list (string * Z)).

(** [vars]: [tx_to_uri], [switch_state] and the process.  [aggregator]:
    what the callback has captured and only reads, once the aggregator
    exists. *)
Record Program : Type := mkProgram {
  vars : SolverState W;
  main_thread : itree progE Z;
  aggregator : option (omap u16string u16string);
  callbacks : list pc;
}.

(** The program before [main] starts: line 55. *)
Definition initial (arg_vector : list string) (p : Process W) : Program :=
  mkProgram (mkSolverState ∅ ∅ p) (main_tree solver_port servers arg_vector)
    None [].

(** The step [a] of the program, if it can be made.  [fuel] bounds the
    retry loops of a callback step. *)
Definition program_next (fuel : nat) (a : action) (P : Program) :
    option Program :=
  match a with
  | MainStep =>
      '(p', t') ← thread_next handle (proc (vars P)) (main_thread P);
      Some (mkProgram (set_proc p' (vars P)) t'
              (match starts (main_thread P) with
               | Some o2s => Some o2s
               | None => aggregator P
               end)
              (callbacks P))
  | SampleArrives s =>
      _ ← aggregator P;
      Some (mkProgram (vars P) (main_thread P) (aggregator P)
              (callbacks P ++ [AtGuards s]))
  | CallbackStep i =>
      o2s ← aggregator P;
      p ← callbacks P !! i;
      if decide (running p) then
        let '(p', st') := thread_step o2s fuel p (vars P) in
        if lost_fuel p' then None
        else Some (mkProgram st' (main_thread P) (aggregator P)
                     (<[i := p']> (callbacks P)))
      else None
  end.

Definition program_step (P P' : Program) : Prop :=
  ∃ fuel a, program_next fuel a P = Some P'.

(** The steps [actions], in order. *)
Fixpoint run_actions (fuel : nat) (actions : list action) (P : Program) :
    option Program :=
  match actions with
  | [] => Some P
  | a :: actions' => program_next fuel a P ≫= run_actions fuel actions'
  end.

(** What holds of every state the program reaches: the tables hold the
    empty identifier only, and every callback is quiet. *)
Definition program_inv (P : Program) : Prop :=
  tables_inv (vars P) ∧ Forall quiet_pc (callbacks P).

(** The main thread from [P] to [P']: it has not moved, or it has made
    one of its steps on the process. *)
Definition main_moved (P P' : Program) : Prop :=
  (proc (vars P'), main_thread P') = (proc (vars P), main_thread P) ∨
  tree_step handle (proc (vars P), main_thread P)
    (proc (vars P'), main_thread P').

End program.

Arguments Program W : clear implicits.

(** ** A step of a callback *)

Section callback_steps.
Context {W : Type} `{Env W}.
Context (o2s : omap u16string u16string) (fuel : nat).
Implicit Types (p : pc) (st : SolverState W).

(** While the tables hold the empty identifier only, a step of a quiet
    callback changes the tables at most, and leaves the callback quiet. *)
Lemma thread_step_quiet p st :
  tables_inv st → quiet_pc p →
  tables_inv (thread_step o2s fuel p st).2 ∧
  quiet_pc (thread_step o2s fuel p st).1 ∧
  proc (thread_step o2s fuel p st).2 = proc st.
Proof.
  intros [Hun Htr] Hp. destruct p as [s|key v|uri v|uri v|uri v|r];
    cbn [thread_step quiet_pc] in *; subst.
  - by repeat case_match.
  - rewrite continue_unfold, lookup_uri_eq. cbn.
    split; [split; [by apply unresolved_subscript | done]|].
    split; [by apply unresolved_resolve | done].
  - rewrite continue_unfold. cbn. by case_match.
  - rewrite continue_unfold. cbn. split; [split; [done|] | done].
    intros uri Huri. cbn [switch_state] in Huri.
    apply lookup_insert_is_Some in Huri as [<-|[_ ?]]; [done | by apply Htr].
  - by rewrite continue_unfold, for_each_report_nil.
  - done.
Qed.

End callback_steps.

(** ** A step of the program *)

Section program_lemmas.
Context `{Platform} {W : Type} `{Env W} `{ClientEnv W} `{System W}.
Context (solver_port : Z) (servers : list (string * Z)).
Implicit Types (P : Program W) (p : Process W).

Lemma initial_inv args p : program_inv (initial solver_port servers args p).
Proof.
  split; [split|by constructor].
  - apply map_Forall_empty.
  - intros uri. cbn. rewrite lookup_empty. by intros [? ?].
Qed.

Lemma program_next_inv fuel a P P' :
  program_next fuel a P = Some P' → program_inv P →
  program_inv P' ∧ main_moved P P'.
Proof.
  intros Hnext [Htab Hcb]. destruct a as [|s|i]; cbn [program_next] in Hnext.
  - destruct (thread_next _ _ _) as [[p' t']|] eqn:Hstep; simplify_eq/=.
    split; [done | by right].
  - destruct (aggregator P); simplify_eq/=. split; [|by left].
    split; [done|]. apply Forall_app. split; [done|]. by repeat constructor.
  - destruct (aggregator P) as [o2s|]; [|done]. cbn in Hnext.
    destruct (callbacks P !! i) as [q|] eqn:Hq; [|done]. cbn in Hnext.
    case_decide; [|done].
    pose proof (thread_step_quiet o2s fuel q (vars P) Htab) as Hquiet.
    destruct (thread_step o2s fuel q (vars P)) as [q' st'].
    destruct (lost_fuel q'); simplify_eq/=.
    destruct Hquiet as (? & ? & Hproc);
      [by eapply Forall_lookup_1|].
    split; [split; [done | by apply Forall_insert] | left; cbn in *; by rewrite Hproc].
Qed.

(** Every state the program reaches satisfies the invariant, and the main
    thread is where its own steps have brought it. *)
Lemma program_reaches args p P :
  rtc program_step (initial solver_port servers args p) P →
  program_inv P ∧
  rtc (tree_step handle) (p, main_tree solver_port servers args)
    (proc (vars P), main_thread P).
Proof.
  revert P. apply (rtc_ind_r (λ P, program_inv P ∧
    rtc (tree_step handle) (p, main_tree solver_port servers args)
      (proc (vars P), main_thread P))).
  - split; [apply initial_inv | done].
  - intros P1 P2 _ (fuel & a & Hnext) [Hinv Hmain].
    destruct (program_next_inv _ _ _ _ Hnext Hinv) as [Hinv2 [Heq|Hstep]];
      (split; [done|]).
    + by rewrite Heq.
    + by eapply rtc_r.
Qed.

(** The steps of the main thread are steps of the program. *)
Lemma main_steps_program P p' u :
  rtc (tree_step handle) (proc (vars P), main_thread P) (p', u) →
  ∃ P', rtc program_step P P' ∧ proc (vars P') = p' ∧ main_thread P' = u.
Proof.
  intros Hsteps. remember (proc (vars P), main_thread P) as x eqn:Hx.
  remember (p', u) as y eqn:Hy. revert P Hx.
  induction Hsteps as [x|x [p1 t1] y Hstep _ IH]; intros P ->.
  - simplify_eq. by exists P.
  - unfold tree_step in Hstep. cbn [fst snd] in Hstep.
    destruct (IH Hy (mkProgram (set_proc p1 (vars P)) t1
      (match starts (main_thread P) with
       | Some o2s => Some o2s
       | None => aggregator P
       end) (callbacks P)) eq_refl) as (P' & HP' & ? & ?).
    exists P'. split; [|done]. eapply rtc_l; [|done].
    exists 0%nat, MainStep. cbn [program_next]. by rewrite Hstep.
Qed.

Lemma run_actions_steps fuel actions P P' :
  run_actions fuel actions P = Some P' → rtc program_step P P'.
Proof.
  revert P. induction actions as [|a actions IH]; intros P Hrun;
    cbn [run_actions] in Hrun; [by simplify_eq|].
  destruct (program_next fuel a P) as [P1|] eqn:Hnext; [|done].
  eapply rtc_l; [by exists fuel, a | by apply IH].
Qed.

(** The state after [actions], or [P] if one of them cannot be made: a
    state that [P] reaches. *)
Lemma run_actions_reaches fuel actions P :
  rtc program_step P (default P (run_actions fuel actions P)).
Proof.
  destruct (run_actions fuel actions P) as [P'|] eqn:Hrun; [|done].
  by eapply run_actions_steps.
Qed.

(** ** What every interleaving keeps *)

(** C23.  In every state that the program reaches, whatever samples have
    arrived and however the callbacks and the main thread have taken
    turns: every transmitter that [tx_to_uri] holds resolves to the empty
    identifier, [switch_state] knows no identifier but the empty one, and
    no callback has ended with an exception. *)
Theorem program_tables_empty args p P :
  rtc program_step (initial solver_port servers args p) P →
  (∀ key uri, tx_to_uri (vars P) !! key = Some uri → uri = []) ∧
  (∀ uri v, switch_state (vars P) !! uri = Some v → uri = []) ∧
  (∀ i r, callbacks P !! i = Some (Returned r) → r = Ok ()).
Proof.
  intros [[[Hun Htr] Hcb] _]%program_reaches. split_and!.
  - intros key uri. apply Hun.
  - intros uri v Huri. by apply Htr.
  - intros i r Hi. by apply (Forall_lookup_1 _ _ _ _ Hcb Hi).
Qed.

(** C13.  When the main thread of the program has ended, after whatever
    interleaving with the callbacks, the process is in the state and the
    exit is the one that [main] alone computes, given fuel enough. *)
Theorem program_exit args p P res :
  rtc program_step (initial solver_port servers args p) P →
  ended (main_thread P) res →
  ∃ fuel,
    main solver_port servers fuel args p = (proc (vars P), to_result res).
Proof.
  intros [_ Hsteps]%program_reaches Hend.
  apply (refines_main solver_port servers args), runs_steps. eauto.
Qed.

(** Conversely, the program reaches every result of [main]: if
    [main] ends in [p'] with [res], some sequence of steps of the program
    ends the main thread with [res] and the process in [p']. *)
Theorem program_reaches_exit args fuel p p' res :
  main solver_port servers fuel args p = (p', to_result res) →
  ∃ P, rtc program_step (initial solver_port servers args p) P ∧
       proc (vars P) = p' ∧ ended (main_thread P) res.
Proof.
  intros Hmain.
  assert (runs handle (main_tree solver_port servers args) p p' res)
    as (u & Hsteps & Hend)%runs_steps
    by (apply (refines_main solver_port servers args); eauto).
  destruct (main_steps_program (initial solver_port servers args p) p' u)
    as (P & HP & ? & ?); [done|]. subst. eauto.
Qed.

End program_lemmas.

(** ** The two connections *)

Section two_connections.
Context `{Platform} {W1 W2 : Type} `{Env W1} `{ClientEnv W2} `{System W2}.
Context (solver_port : Z) (servers : list (string * Z)).

(** Only [sendData] reaches the world of the solver connection. *)
Lemma handle_no_send X (c : callE X) (p : Process (W1 * W2)) :
  ¬ is_send X c → (world (handle X c p).1).1 = (world p).1.
Proof.
  destruct c; cbn; try tauto; intros _; unfold on_world; cbn; try done;
    repeat case_match; by simplify_eq/=.
Qed.

(** C14.  In every state that the program reaches, the world of the solver
    connection is the one the program started in: whatever samples have
    arrived, nothing was sent to the world model. *)
Theorem program_sends_nothing args (p : Process (W1 * W2)) P :
  rtc program_step (initial solver_port servers args p) P →
  (world (proc (vars P))).1 = (world p).1.
Proof.
  intros [_ Hsteps]%program_reaches.
  apply (never_steps is_send handle (λ s, (world s).1 = (world p).1))
    in Hsteps as [? _]; [done|..|done|].
  - intros X c s Hc <-. by apply handle_no_send.
  - intros n. apply never_send_main.
Qed.

End two_connections.

(** ** A concrete run *)

(** The program on the machine of [Main], with the configuration of the
    mug.  The main thread constructs the aggregator with its sixth step and
    ends with its twenty-third.  Two samples of the same switch arrive;
    their callbacks take turns with each other and with the main thread,
    both making the test of line 137 before either makes the assignment of
    line 138. *)
Definition mug_initial : Program (Scripted * Machine) :=
  initial (H:=signed_char) 7011 [] mug_arguments
    (mug_process (scripted_init [] 0)).

Definition mug_schedule : list action :=
  replicate 6 MainStep ++ [SampleArrives mug_on; SampleArrives mug_on] ++
  (CallbackStep <$> [0; 0; 0]%nat) ++ replicate 5 MainStep ++
  (CallbackStep <$> [1; 1; 1; 0; 0]%nat) ++ replicate 12 MainStep ++
  (CallbackStep <$> [1; 1]%nat).

Definition mug_program : Program (Scripted * Machine) :=
  default mug_initial (run_actions 10 mug_schedule mug_initial).

(** Both callbacks have returned, the transmitter has the empty identifier,
    which is recorded as on, nothing was sent, and [main] has returned 0. *)
Example mug_program_run :
  callbacks mug_program = [Returned (Ok ()); Returned (Ok ())] ∧
  tx_to_uri (vars mug_program) !! (x01, 42%Z) = Some [] ∧
  switch_state (vars mug_program) !! [] = Some true ∧
  accepted (world (proc (vars mug_program))).1 = [] ∧
  ended (main_thread mug_program) (inr 0%Z).
Proof. by vm_compute. Qed.

Lemma program_tables_empty_witness :
  (∀ key uri, tx_to_uri (vars mug_program) !! key = Some uri → uri = []) ∧
  (∀ uri v, switch_state (vars mug_program) !! uri = Some v → uri = []) ∧
  (∀ i r, callbacks mug_program !! i = Some (Returned r) → r = Ok ()).
Proof.
  apply (program_tables_empty (H:=signed_char) 7011 [] mug_arguments
           (mug_process (scripted_init [] 0))).
  apply run_actions_reaches.
Defined.

Lemma program_exit_witness :
  ∃ fuel, main (H:=signed_char) 7011 [] fuel mug_arguments
            (mug_process (scripted_init [] 0)) =
          (proc (vars mug_program), Ok 0%Z).
Proof.
  apply (program_exit (H:=signed_char) 7011 [] mug_arguments _ mug_program
           (inr 0%Z)).
  - apply run_actions_reaches.
  - by vm_compute.
Defined.

Lemma program_reaches_exit_witness :
  ∃ P, rtc program_step mug_initial P ∧
       proc (vars P) =
         (main (H:=signed_char) 7011 [] 10 mug_arguments
            (mug_process (scripted_init [] 0))).1 ∧
       ended (main_thread P) (inr 0%Z).
Proof.
  apply (program_reaches_exit (H:=signed_char) 7011 [] mug_arguments 10 _ _
           (inr 0%Z)).
  by vm_compute.
Defined.

Lemma program_sends_nothing_witness :
  (world (proc (vars mug_program))).1 = scripted_init [] 0.
Proof.
  apply (program_sends_nothing (H:=signed_char) 7011 [] mug_arguments
           (mug_process (scripted_init [] 0))).
  apply run_actions_reaches.
Defined.
