(* ===== verification/Matcher.v ===== *)
(** * The pattern matcher: what [desired_ids] selects

    [desired_ids] (lines 180-194 of [query_world.cpp], modelled in
    [Pattern]) is the text of a POSIX extended regular expression.  This
    file reads that text with the parser of [Regex] and shows what the
    expression matches: the identifiers that hold one of the configured
    classes as a segment between two dots.  This is also the test the
    packet callback makes on its side with [find] (line 141,
    [matching_solutions] in [Solver]), so that the two halves of the
    program agree on the identifiers of interest.

    The class names are put into the pattern as they are.  The theorems
    therefore ask that they consist of ordinary characters ([plain]); a
    class name with a character such as [.] is read as an expression, and
    the two halves then disagree ([unescaped_class]). *)

From S2P Require Import Prelude Monad OrderedMap U16String Regex Env.
From S2P Require Import Dispatcher Solver Pattern.

(** The expression of one class name. *)
Definition class_regex (c : u16string) : regex := cat_join (literal c).

(** The expression that [desired_ids] denotes for the classes [classes]. *)
Definition desired_regex (classes : list u16string) : regex :=
  match classes with
  | [c] => cat_join ([Star Any; Chr 46] ++ literal c ++ [Chr 46; Star Any])
  | _ =>
      cat_join ([Star Any; Chr 46] ++ [alt_join (class_regex <$> classes)] ++
                [Chr 46; Star Any])
  end.

(** Every class name consists of ordinary characters. *)
Definition plain_classes (classes : list u16string) : Prop :=
  Forall (Forall plain) classes.

#[export] Instance plain_classes_dec classes : Decision (plain_classes classes).
Proof. unfold plain_classes. apply _. Defined.

(** The identifier holds one of the classes between two dots. *)
Definition has_class_segment (classes : list u16string) (uri : u16string) :
    Prop :=
  ∃ c, c ∈ classes ∧ infix_of (class_segment c) uri.

(** ** Reading [desired_ids] *)

Section reading.
Implicit Types (c : u16string) (classes : list u16string).

Lemma parse_classes c classes rest a f outer :
  plain_classes (c :: classes) →
  parse_go (join_with (u16_literal "|") (c :: classes) ++ 41%Z :: rest)
    (mkFrame a []) (f :: outer) =
  parse_go rest (push (alt_join (a ++ (class_regex <$> c :: classes))) f) outer.
Proof.
  revert c a. induction classes as [|c' classes IH]; intros c a;
    intros [Hc Hcs]%Forall_cons.
  - cbn [join_with]. by rewrite parse_go_plain, parse_go_close.
  - change (join_with (u16_literal "|") (c :: c' :: classes))
      with (c ++ 124%Z :: join_with (u16_literal "|") (c' :: classes)).
    rewrite <- app_assoc, parse_go_plain by done. cbn [app].
    rewrite parse_go_bar. cbn [alts branch app]. rewrite IH by done.
    by rewrite <- app_assoc.
Qed.

Lemma parse_prefix rest :
  parse_go (u16_literal ".*\." ++ rest) (mkFrame [] []) [] =
  parse_go rest (mkFrame [] [Star Any; Chr 46]) [].
Proof. done. Qed.

Lemma parse_suffix a pieces outer :
  parse_go (u16_literal "\..*") (mkFrame a pieces) outer =
  match outer with
  | [] => Some (alt_join (a ++ [cat_join (pieces ++ [Chr 46; Star Any])]))
  | _ :: _ => None
  end.
Proof.
  change (u16_literal "\..*") with [92; 46; 46; 42]%Z.
  rewrite parse_go_escape, parse_go_dot. unfold push. cbn [alts branch].
  rewrite parse_go_star. cbn [parse_go]. unfold close. cbn [alts branch].
  by rewrite <- !app_assoc.
Qed.

Lemma desired_ids_parses_gen (o2s : omap u16string u16string) :
  o2s ≠ [] →
  plain_classes (omap_keys o2s) →
  ere_parse (desired_ids o2s) = Some (desired_regex (omap_keys o2s)).
Proof.
  intros Hne Hplain. unfold ere_parse, desired_ids.
  destruct o2s as [|[c s] [|[c' s'] o2s]]; [done|..].
  - apply Forall_cons in Hplain as [Hc _]. cbn [omap_size length].
    rewrite bool_decide_eq_true_2 by done. cbn [begin_first omap_begin].
    rewrite parse_prefix, parse_go_plain, parse_suffix by done.
    by cbn [app omap_keys fmap list_fmap fst desired_regex alt_join].
  - rewrite bool_decide_eq_false_2 by done. cbv zeta.
    rewrite append_classes_true, <- !app_assoc, parse_prefix.
    change (u16_literal "(" ++ ?x) with (40%Z :: x).
    change (u16_literal ")\..*") with (41%Z :: u16_literal "\..*").
    rewrite parse_go_open.
    change (omap_keys ((c, s) :: (c', s') :: o2s))
      with (c :: omap_keys ((c', s') :: o2s)) in *.
    rewrite parse_classes by done. unfold push. cbn [alts branch app].
    by rewrite parse_suffix.
Qed.

End reading.

(** ** What the expression matches *)

Section language.
Implicit Types (c uri : u16string) (classes : list u16string).

(** An expression between [.*\.] and [\..*] matches the identifiers that
    hold a match of the expression between two dots. *)
Lemma matches_around rs uri :
  matches (cat_join ([Star Any; Chr 46] ++ rs ++ [Chr 46; Star Any])) uri ↔
  ∃ pre mid post,
    uri = pre ++ [46%Z] ++ mid ++ [46%Z] ++ post ∧ matches (cat_join rs) mid.
Proof.
  cbn [app]. split.
  - intros (pre & s2 & -> & _ & H)%matches_cat_join_cons.
    apply matches_cat_join_cons in H as (? & s4 & -> & ->%matches_chr_inv & H).
    apply matches_cat_join_app in H as (mid & s6 & -> & Hmid & H).
    apply matches_cat_join_cons in H as (? & s8 & -> & ->%matches_chr_inv & H).
    apply matches_cat_join_cons in H as (post & ? & -> & _ & ->%matches_eps_inv).
    exists pre, mid, post. by rewrite app_nil_r.
  - intros (pre & mid & post & -> & Hmid).
    apply matches_cat_join_cons. eexists _, _.
    split; [done|]. split; [apply matches_star_any|].
    apply matches_cat_join_cons. eexists [_], _.
    split; [done|]. split; [constructor|].
    apply matches_cat_join_app. eexists _, _.
    split; [done|]. split; [done|].
    apply matches_cat_join_cons. eexists [_], _.
    split; [done|]. split; [constructor|].
    apply matches_cat_join_cons. exists post, [].
    split; [by rewrite app_nil_r|]. split; [apply matches_star_any|constructor].
Qed.

Lemma class_segment_infix c uri :
  infix_of (class_segment c) uri ↔
  ∃ pre post, uri = pre ++ [46%Z] ++ c ++ [46%Z] ++ post.
Proof.
  unfold infix_of, class_segment.
  split; intros (pre & post & ->); exists pre, post; by rewrite <- !app_assoc.
Qed.

Lemma desired_regex_matches classes uri :
  classes ≠ [] →
  matches (desired_regex classes) uri ↔ has_class_segment classes uri.
Proof.
  intros Hne. unfold has_class_segment. setoid_rewrite class_segment_infix.
  destruct classes as [|c [|c' classes]]; [done|..].
  - cbn [desired_regex]. rewrite matches_around.
    setoid_rewrite matches_literal. split.
    + intros (pre & mid & post & -> & ->). exists c.
      split; [by apply list_elem_of_singleton | by exists pre, post].
    + intros (c0 & ->%list_elem_of_singleton & pre & post & ->).
      by exists pre, c, post.
  - remember (c :: c' :: classes) as cs eqn:Hcs.
    replace (desired_regex cs) with
      (cat_join ([Star Any; Chr 46] ++ [alt_join (class_regex <$> cs)] ++
                 [Chr 46; Star Any])) by by subst.
    rewrite matches_around. split.
    + intros (pre & mid & post & -> & Hmid).
      apply matches_cat_join_cons in Hmid
        as (s1 & ? & -> & Hm & ->%matches_eps_inv).
      apply matches_alt_join in Hm
        as (r & (c0 & -> & Hin)%list_elem_of_fmap & ->%matches_literal).
      exists c0. split; [done|]. exists pre, post. by rewrite app_nil_r.
    + intros (c0 & Hin & pre & post & ->). exists pre, c0, post.
      split; [done|]. apply matches_cat_join_cons. exists c0, [].
      split; [by rewrite app_nil_r|]. split; [|constructor].
      apply matches_alt_join. exists (class_regex c0).
      split; [by apply list_elem_of_fmap_2 | by apply matches_literal].
Qed.

(** The test of the callback, line 141, finds a class exactly when the
    identifier holds one between two dots. *)
Lemma matching_solutions_segment (o2s : omap u16string u16string) uri :
  matching_solutions o2s uri ≠ [] ↔ has_class_segment (omap_keys o2s) uri.
Proof.
  unfold matching_solutions, has_class_segment, omap_keys. split.
  - destruct (filter _ o2s) as [|[c s] l] eqn:E; [done|]. intros _.
    assert ((c, s) ∈ filter (λ obj_soln, infix_of (class_segment obj_soln.1) uri)
              o2s) as [Hseg Hin]%list_elem_of_filter by (rewrite E; left).
    exists c. split; [|done]. apply list_elem_of_fmap. by exists (c, s).
  - intros (c & (x & -> & Hin)%list_elem_of_fmap & Hseg) Hnil%fmap_nil_inv.
    assert (x ∈ filter (λ obj_soln, infix_of (class_segment obj_soln.1) uri)
              o2s) as Hx by by apply list_elem_of_filter.
    rewrite Hnil in Hx. by apply elem_of_nil in Hx.
Qed.

Lemma ere_match_desired_ids (o2s : omap u16string u16string) uri :
  o2s ≠ [] →
  plain_classes (omap_keys o2s) →
  ere_match (desired_ids o2s) uri = true ↔
  has_class_segment (omap_keys o2s) uri.
Proof.
  intros Hne Hplain. unfold ere_match.
  rewrite desired_ids_parses_gen, accepts_spec by done.
  apply desired_regex_matches. by destruct o2s.
Qed.

(** The text of [desired_ids] is a well-formed pattern when the
    class names consist of ordinary characters: [.*\.CLASS\..*] reads as
    the class between two dots, [.*\.(C1|...|Cn)\..*] as the alternation
    of the classes between two dots. *)
Theorem desired_ids_parses (o2s : omap u16string u16string) :
  o2s ≠ [] →
  plain_classes (omap_keys o2s) →
  ere_parse (desired_ids o2s) = Some (desired_regex (omap_keys o2s)).
Proof. intros Hne Hplain. by apply desired_ids_parses_gen. Qed.

(** C26.  The pattern built from the classes matches an identifier exactly
    when the identifier holds one of the class names as a segment between
    two dots; a class name that is only part of a segment does not
    count. *)
Theorem desired_ids_selects (o2s : omap u16string u16string) uri :
  o2s ≠ [] →
  plain_classes (omap_keys o2s) →
  ere_match (desired_ids o2s) uri = true ↔
  ∃ c pre post, c ∈ omap_keys o2s ∧ uri = pre ++ [46%Z] ++ c ++ [46%Z] ++ post.
Proof.
  intros Hne Hplain. rewrite ere_match_desired_ids by done.
  unfold has_class_segment. setoid_rewrite class_segment_infix.
  split; [intros (c & Hin & pre & post & ->) | intros (c & pre & post & Hin & ->)];
    eauto 6.
Qed.

(** C25.  The two halves of the program agree: the pattern that selects
    the identifiers of interest matches an identifier exactly when the
    packet callback finds a class to report for it. *)
Theorem desired_ids_agrees (o2s : omap u16string u16string) uri :
  o2s ≠ [] →
  plain_classes (omap_keys o2s) →
  ere_match (desired_ids o2s) uri = true ↔ matching_solutions o2s uri ≠ [].
Proof.
  intros Hne Hplain.
  by rewrite ere_match_desired_ids, matching_solutions_segment.
Qed.


End language.

(** ** Concrete runs *)

(** [mug] is found in [room1.mug.mug42] and not in [room1.mugshot.7]. *)
Lemma desired_ids_parses_witness :
  ere_parse (desired_ids mug_config) =
  Some (cat_join ([Star Any; Chr 46] ++ literal (u16_literal "mug") ++
                  [Chr 46; Star Any])).
Proof.
  apply (desired_ids_parses mug_config); [done|].
  compute_done.
Defined.

Lemma desired_ids_selects_witness :
  ere_match (desired_ids mug_config) mug_uri = true ∧
  ere_match (desired_ids mug_config) (u16_literal "room1.mugshot.7") = false.
Proof.
  split; [|by vm_compute].
  apply (desired_ids_selects mug_config mug_uri);
    [done | compute_done |].
  exists (u16_literal "mug"), (u16_literal "room1"), (u16_literal "mug42").
  split; [by apply list_elem_of_singleton | done].
Defined.

Lemma desired_ids_agrees_witness :
  ere_match (desired_ids mug_config) mug_uri = true ↔
  matching_solutions mug_config mug_uri ≠ [].
Proof.
  apply (desired_ids_agrees mug_config mug_uri);
    [done | compute_done].
Defined.

(** The attribute filter of line 197 is an expression too: its dots stand
    for any character, and the second one, with the star, for anything. *)
Example attributes_unescaped :
  Forall (λ name, ere_match (u16_literal "sensor.switch.*") name = true)
    [u16_literal "sensor.switch.1"; u16_literal "sensorXswitch";
     u16_literal "sensorXswitchboard"] ∧
  attributes = [u16_literal "sensor.switch.*"].
Proof. split; [by repeat constructor | done]. Qed.
